(** * Stable marriage and hospital/resident solvers

    A shallow embedding of [matching/algorithms/stable_marriage.py] and
    [matching/algorithms/hospital_resident.py], and the properties of the
    solvers proved over it.

    Python dictionaries are insertion ordered, and the solvers pick "the first
    free player" in that order, so a dictionary is an association list with
    unique keys.  The preference lists are mutated in place by the solvers:
    every algorithm is written over an explicit store that holds the caller's
    dictionaries, and returns the store it leaves behind next to its result.
    An exception leaves the store as it was when it was raised.  The list of
    each player is an object of its own: no two keys share one list.

    A [while] loop takes fuel; the theorems give the fuel that is enough. *)

From Stdlib Require Import List String Ascii Bool Arith PeanoNat ZArith Lia.
From Stdlib Require Import Permutation Sorted.
Import ListNotations.

Set Implicit Arguments.
Local Open Scope string_scope.
Local Open Scope list_scope.

(* ===================================================================== *)
(** ** Players, Python lists and dictionaries *)
(* ===================================================================== *)

(** Players are the hashable keys of the dictionaries; the tests and the
    documentation use strings. *)
Definition Player : Type := string.

(** Decidable equality, for [x in l], [l.index(x)] and [l.remove(x)]. *)
Class EqDec (A : Type) : Type :=
  eq_dec : forall x y : A, {x = y} + {x <> y}.

#[export] Instance Player_EqDec : EqDec Player := string_dec.

#[export] Instance option_EqDec {A : Type} `{EqDec A} : EqDec (option A).
Proof.
  intros [x|] [y|].
  - destruct (eq_dec x y) as [e|n].
    + left. exact (f_equal Some e).
    + right. intro E. apply n. injection E. exact (fun e => e).
  - right. discriminate.
  - right. discriminate.
  - left. reflexivity.
Defined.

Section PyList.
Context {A : Type} `{EqDec A}.

(** [x in l] *)
Fixpoint mem (x : A) (l : list A) : bool :=
  match l with
  | [] => false
  | y :: l' => if eq_dec x y then true else mem x l'
  end.

(** [l.index(x)]: position of the first occurrence; [None] stands for the
    [ValueError] Python raises when [x] is not in [l]. *)
Fixpoint index (x : A) (l : list A) : option nat :=
  match l with
  | [] => None
  | y :: l' =>
      if eq_dec x y then Some 0
      else match index x l' with
           | Some i => Some (S i)
           | None => None
           end
  end.

(** [l.remove(x)]: deletes the first occurrence of [x].  Python raises
    [ValueError] when there is none; callers test [mem] first. *)
Fixpoint remove1 (x : A) (l : list A) : list A :=
  match l with
  | [] => []
  | y :: l' => if eq_dec x y then l' else y :: remove1 x l'
  end.
End PyList.

(** A list is true in a condition when it is not empty. *)
Definition nonempty {A : Type} (l : list A) : bool :=
  match l with
  | [] => false
  | _ :: _ => true
  end.

(** A string is true in a condition when it is not the empty string. *)
Definition truthy (p : Player) : bool :=
  match p with
  | EmptyString => false
  | String _ _ => true
  end.

(** [max(l)] on a non-empty list of indices. *)
Definition list_max1 (i : nat) (l : list nat) : nat := fold_left Nat.max l i.

(** Dictionaries keyed by players. *)
Definition dict (V : Type) : Type := list (Player * V).

Definition keys {V : Type} (d : dict V) : list Player := map fst d.
Definition values {V : Type} (d : dict V) : list V := map snd d.

(** [d[k]]; [None] stands for [KeyError]. *)
Fixpoint lookup {V : Type} (k : Player) (d : dict V) : option V :=
  match d with
  | [] => None
  | (k', v) :: d' => if eq_dec k k' then Some v else lookup k d'
  end.

(** [d[k] = v]: an existing key keeps its position, a new key goes last. *)
Fixpoint dict_set {V : Type} (k : Player) (v : V) (d : dict V) : dict V :=
  match d with
  | [] => [(k, v)]
  | (k', v') :: d' =>
      if eq_dec k k' then (k', v) :: d' else (k', v') :: dict_set k v d'
  end.

(** Preference dictionaries, the two kinds of matching, capacities. *)
Definition prefs : Type := dict (list Player).
Definition sm_matching : Type := dict (option Player).
Definition hr_matching : Type := dict (list Player).
Definition capacities_t : Type := dict Z.

(** [get d k]: the list [d[k]], and the empty list for a missing key. *)
Definition get (d : prefs) (k : Player) : list Player :=
  match lookup k d with
  | Some l => l
  | None => []
  end.

(** [subseq l l0]: [l] is [l0] with some entries deleted. *)
Inductive subseq {A : Type} : list A -> list A -> Prop :=
| subseq_nil : forall l, subseq [] l
| subseq_skip : forall x l l0, subseq l l0 -> subseq l (x :: l0)
| subseq_keep : forall x l l0, subseq l l0 -> subseq (x :: l) (x :: l0).

#[local] Hint Constructors subseq : core.

(* ===================================================================== *)
(** ** Exceptions, results and the store-passing monad *)
(* ===================================================================== *)

Inductive exn : Type :=
| KeyError (key : Player)
| IndexError
| ValueError (msg : string).

(** The double quote character, for the messages that quote the options. *)
Definition dq : string := String (ascii_of_nat 34) EmptyString.

(** The message of [_check_inputs]. *)
Definition InputConsistencyError : exn :=
  ValueError "Hospitals must rank all residents who rank them.".

(** The message of [hospital_resident] for an unknown [optimal]. *)
Definition InvalidOptimalityOption (optimal : string) : exn :=
  ValueError
    (String.concat EmptyString
       ["Optimality option unknown. Should be one of "; dq; "resident"; dq;
        " or "; dq; "hospital"; dq; ". Got "; optimal; "."]).

(** What [l.index(x)], [l.remove(x)] and [max([])] raise. *)
Definition NotInList : exn := ValueError "x not in list".
Definition MaxEmpty : exn := ValueError "max() arg is an empty sequence".

(** A run ends with a value, with an exception, or is cut when the fuel of a
    [while] loop is used up. *)
Inductive result (A : Type) : Type :=
| Ok (a : A)
| Raise (e : exn)
| OutOfFuel.

Arguments Ok {A} a.
Arguments Raise {A} e.
Arguments OutOfFuel {A}.

Definition M (St A : Type) : Type := St -> St * result A.

Definition ret {St A : Type} (a : A) : M St A := fun s => (s, Ok a).

Definition raise {St A : Type} (e : exn) : M St A := fun s => (s, Raise e).

Definition bind {St A B : Type} (m : M St A) (k : A -> M St B) : M St B :=
  fun s =>
    match m s with
    | (s', Ok a) => k a s'
    | (s', Raise e) => (s', Raise e)
    | (s', OutOfFuel) => (s', OutOfFuel)
    end.

Definition gets {St A : Type} (f : St -> A) : M St A := fun s => (s, Ok (f s)).

Definition modify {St : Type} (f : St -> St) : M St unit :=
  fun s => (f s, Ok tt).

Declare Scope py_scope.
Delimit Scope py_scope with py.
Notation "x <- m ;; k" := (bind m (fun x => k))
  (at level 61, m at next level, right associativity) : py_scope.
Notation "m ;;; k" := (bind m (fun _ => k))
  (at level 61, right associativity) : py_scope.
Local Open Scope py_scope.

(** [d[k]] as a statement. *)
Definition getitem {St V : Type} (d : dict V) (k : Player) : M St V :=
  match lookup k d with
  | Some v => ret v
  | None => raise (KeyError k)
  end.

(** [l[0]] *)
Definition first {St A : Type} (l : list A) : M St A :=
  match l with
  | x :: _ => ret x
  | [] => raise IndexError
  end.

(** [for x in l: body(x)] *)
Fixpoint for_each {St A : Type} (l : list A) (body : A -> M St unit)
  : M St unit :=
  match l with
  | [] => ret tt
  | x :: l' => body x ;;; for_each l' body
  end.

(** [while cond: body], cut after [fuel] iterations. *)
Fixpoint while {St : Type} (fuel : nat) (cond : St -> bool) (body : M St unit)
  : M St unit :=
  match fuel with
  | 0 => fun s => if cond s then (s, OutOfFuel) else (s, Ok tt)
  | S fuel' =>
      fun s => if cond s then (body ;;; while fuel' cond body) s
               else (s, Ok tt)
  end.

(* ===================================================================== *)
(** ** stable_marriage.py *)
(* ===================================================================== *)

(** The objects the loop of [stable_marriage] works on: the two preference
    dictionaries (the caller's own objects, after the role swap), the queue
    [suitors] and the dictionary [matching]. *)
Record sm_state : Type := mk_sm_state {
  suitor_prefs : prefs;
  reviewer_prefs : prefs;
  suitors : list Player;
  matching : sm_matching
}.

Definition set_suitor_prefs (v : prefs) (s : sm_state) : sm_state :=
  mk_sm_state v (reviewer_prefs s) (suitors s) (matching s).
Definition set_reviewer_prefs (v : prefs) (s : sm_state) : sm_state :=
  mk_sm_state (suitor_prefs s) v (suitors s) (matching s).
Definition set_suitors (v : list Player) (s : sm_state) : sm_state :=
  mk_sm_state (suitor_prefs s) (reviewer_prefs s) v (matching s).
Definition set_matching (v : sm_matching) (s : sm_state) : sm_state :=
  mk_sm_state (suitor_prefs s) (reviewer_prefs s) (suitors s) v.

(** [suitors.pop(0)] *)
Definition pop_suitor : M sm_state Player :=
  fun s =>
    match suitors s with
    | [] => (s, Raise IndexError)
    | x :: q => (set_suitors q s, Ok x)
    end.

(** [suitor_prefs[who].remove(x)] and [reviewer_prefs[who].remove(x)]. *)
Definition suitor_prefs_remove (who x : Player) : M sm_state unit :=
  sp <- gets suitor_prefs ;;
  l <- getitem sp who ;;
  if mem x l then modify (set_suitor_prefs (dict_set who (remove1 x l) sp))
  else raise NotInList.

Definition reviewer_prefs_remove (who x : Player) : M sm_state unit :=
  rp <- gets reviewer_prefs ;;
  l <- getitem rp who ;;
  if mem x l then modify (set_reviewer_prefs (dict_set who (remove1 x l) rp))
  else raise NotInList.

(** Lines 58-62: the reviewer's current partner, if any, is set free. *)
Definition sm_displace (reviewer : Player) : M sm_state unit :=
  m <- gets matching ;;
  if mem (Some reviewer) (values m) then
    match index (Some reviewer) (values m) with
    | None => raise NotInList
    | Some idx =>
        match nth_error (keys m) idx with
        | None => raise IndexError
        | Some current_partner =>
            modify (set_matching (dict_set current_partner None m)) ;;;
            modify (fun s => set_suitors (suitors s ++ [current_partner]) s)
        end
    end
  else ret tt.

(** The body of the [while] loop, lines 55-71. *)
Definition sm_body : M sm_state unit :=
  suitor <- pop_suitor ;;
  sp <- gets suitor_prefs ;;
  l <- getitem sp suitor ;;
  reviewer <- first l ;;
  sm_displace reviewer ;;;
  modify (fun s => set_matching (dict_set suitor (Some reviewer) (matching s)) s) ;;;
  rp <- gets reviewer_prefs ;;
  rl <- getitem rp reviewer ;;
  match index suitor rl with
  | None => raise NotInList
  | Some idx =>
      let successors := skipn (idx + 1) rl in
      for_each successors (fun successor =>
        reviewer_prefs_remove reviewer successor ;;;
        suitor_prefs_remove successor reviewer)
  end.

(** Lines 51-73, on the dictionaries as they are after the role swap. *)
Definition sm_init (sp rp : prefs) : sm_state :=
  let suitors := keys sp in
  mk_sm_state sp rp suitors (map (fun s => (s, None)) suitors).

Definition sm_loop (fuel : nat) : M sm_state unit :=
  while fuel (fun s => nonempty (suitors s)) sm_body.

(** [stable_marriage(suitor_prefs, reviewer_prefs, optimal)].  The first
    component of the answer is the pair of the caller's two dictionaries, in
    the order of the arguments, as the call leaves them. *)
Definition stable_marriage (fuel : nat) (suitor_prefs0 reviewer_prefs0 : prefs)
    (optimal : string) : (prefs * prefs) * result sm_matching :=
  let swap := if string_dec optimal "reviewer" then true else false in
  let sp := if swap then reviewer_prefs0 else suitor_prefs0 in
  let rp := if swap then suitor_prefs0 else reviewer_prefs0 in
  let '(s, r) := sm_loop fuel (sm_init sp rp) in
  let store :=
    if swap then (reviewer_prefs s, suitor_prefs s)
    else (suitor_prefs s, reviewer_prefs s) in
  match r with
  | Ok _ => (store, Ok (matching s))
  | Raise e => (store, Raise e)
  | OutOfFuel => (store, OutOfFuel)
  end.

(* ===================================================================== *)
(** ** hospital_resident.py *)
(* ===================================================================== *)

(** [_check_inputs]: reads the two dictionaries and raises at the first
    resident who ranks a hospital that does not rank them. *)
Definition _check_inputs {St : Type} (hospital_prefs resident_prefs : prefs)
  : M St unit :=
  for_each (keys resident_prefs) (fun resident =>
    rl <- getitem resident_prefs resident ;;
    for_each rl (fun hospital =>
      hl <- getitem hospital_prefs hospital ;;
      if negb (mem resident hl) then raise InputConsistencyError
      else ret tt)).

(** [_get_free_residents]: a dictionary yields each key once, with the value
    [resident_prefs[resident]]. *)
Definition _get_free_residents (resident_prefs : prefs)
    (matching : hr_matching) : list Player :=
  map fst
    (filter (fun '(resident, l) =>
               nonempty l
               && negb (existsb (fun m => mem resident m) (values matching)))
            resident_prefs).

(** The value of [max([l.index(x) for x in l if x in ml])]: the comprehension
    takes the positions of the members of [l] that are in [ml] ([index] cannot
    fail on a member of the list it is drawn from); [None] stands for the
    [ValueError] of [max] on the empty list. *)
Definition worst_of (hl ml : list Player) : option nat :=
  let idxs :=
    flat_map (fun resident =>
                match index resident hl with
                | Some i => [i]
                | None => []
                end)
             (filter (fun resident => mem resident ml) hl) in
  match idxs with
  | [] => None
  | i :: idxs' => Some (list_max1 i idxs')
  end.

(** [_get_worst_idx]: [matching[hospital]] is read once for every member of
    the hospital's list, so not at all when that list is empty. *)
Definition _get_worst_idx {St : Type} (hospital : Player)
    (hospital_prefs : prefs) (matching : hr_matching) : M St nat :=
  hl <- getitem hospital_prefs hospital ;;
  ml <- (match hl with
         | [] => ret []
         | _ :: _ => getitem matching hospital
         end) ;;
  match worst_of hl ml with
  | None => raise MaxEmpty
  | Some worst => ret worst
  end.

(** The objects the two HR loops work on: the caller's two preference
    dictionaries, [matching], and the list of free players computed at the end
    of each iteration.  [trace] is a ghost field that is not in the source: it
    collects, newest first, the value of [matching] after every statement that
    changes it. *)
Record hr_state : Type := mk_hr_state {
  hospital_prefs : prefs;
  resident_prefs : prefs;
  hr_match : hr_matching;
  free : list Player;
  trace : list hr_matching
}.

Definition set_hospital_prefs (v : prefs) (s : hr_state) : hr_state :=
  mk_hr_state v (resident_prefs s) (hr_match s) (free s) (trace s).
Definition set_resident_prefs (v : prefs) (s : hr_state) : hr_state :=
  mk_hr_state (hospital_prefs s) v (hr_match s) (free s) (trace s).
Definition set_free (v : list Player) (s : hr_state) : hr_state :=
  mk_hr_state (hospital_prefs s) (resident_prefs s) (hr_match s) v (trace s).
(** Every write to [matching] is logged in [trace]. *)
Definition set_hr_match (v : hr_matching) (s : hr_state) : hr_state :=
  mk_hr_state (hospital_prefs s) (resident_prefs s) v (free s) (v :: trace s).

(** [matching[hospital].append(resident)] *)
Definition match_append (hospital resident : Player) : M hr_state unit :=
  m <- gets hr_match ;;
  ml <- getitem m hospital ;;
  modify (set_hr_match (dict_set hospital (ml ++ [resident]) m)).

(** [matching[hospital].remove(resident)] *)
Definition match_remove (hospital resident : Player) : M hr_state unit :=
  m <- gets hr_match ;;
  ml <- getitem m hospital ;;
  if mem resident ml then
    modify (set_hr_match (dict_set hospital (remove1 resident ml) m))
  else raise NotInList.

(** [len(matching[hospital])] *)
Definition match_len (hospital : Player) : M hr_state Z :=
  m <- gets hr_match ;;
  ml <- getitem m hospital ;;
  ret (Z.of_nat (List.length ml)).

(** [hospital_prefs[who].remove(x)] and [resident_prefs[who].remove(x)]. *)
Definition hospital_prefs_remove (who x : Player) : M hr_state unit :=
  hp <- gets hospital_prefs ;;
  l <- getitem hp who ;;
  if mem x l then modify (set_hospital_prefs (dict_set who (remove1 x l) hp))
  else raise NotInList.

Definition resident_prefs_remove (who x : Player) : M hr_state unit :=
  rp <- gets resident_prefs ;;
  l <- getitem rp who ;;
  if mem x l then modify (set_resident_prefs (dict_set who (remove1 x l) rp))
  else raise NotInList.

Definition worst_idx (hospital : Player) : M hr_state nat :=
  hp <- gets hospital_prefs ;;
  m <- gets hr_match ;;
  _get_worst_idx hospital hp m.

(** Lines 95-98: an over-subscribed hospital drops its worst resident. *)
Definition hr_evict (capacities : capacities_t) (hospital : Player)
  : M hr_state unit :=
  n <- match_len hospital ;;
  c <- getitem capacities hospital ;;
  if (n >? c)%Z then
    worst <- worst_idx hospital ;;
    hp <- gets hospital_prefs ;;
    hl <- getitem hp hospital ;;
    match nth_error hl worst with
    | None => raise IndexError
    | Some resident => match_remove hospital resident
    end
  else ret tt.

(** Lines 100-108: a full hospital gives up the residents after its worst. *)
Definition hr_prune (capacities : capacities_t) (hospital : Player)
  : M hr_state unit :=
  n <- match_len hospital ;;
  c <- getitem capacities hospital ;;
  if (n =? c)%Z then
    worst <- worst_idx hospital ;;
    hp <- gets hospital_prefs ;;
    hl <- getitem hp hospital ;;
    let successors := skipn (worst + 1) hl in
    for_each successors (fun resident =>
      hospital_prefs_remove hospital resident ;;;
      rp <- gets resident_prefs ;;
      rl <- getitem rp resident ;;
      if mem hospital rl then resident_prefs_remove resident hospital
      else ret tt)
  else ret tt.

Definition refresh_free_residents : M hr_state unit :=
  modify (fun s =>
    set_free (_get_free_residents (resident_prefs s) (hr_match s)) s).

(** The body of the [while] loop of [hr_resident_optimal], lines 91-110. *)
Definition hr_resident_body (capacities : capacities_t) : M hr_state unit :=
  fr <- gets free ;;
  resident <- first fr ;;
  rp <- gets resident_prefs ;;
  rl <- getitem rp resident ;;
  hospital <- first rl ;;
  match_append hospital resident ;;;
  hr_evict capacities hospital ;;;
  hr_prune capacities hospital ;;;
  refresh_free_residents.

(** [sorted(matches, key=l.index)]: the keys are computed first, and a
    resident that is not in [l] raises; the sort is stable. *)
Fixpoint insert_by_rank (l : list Player) (x : Player) (sorted : list Player)
  : list Player :=
  match sorted with
  | [] => [x]
  | y :: rest =>
      match index x l, index y l with
      | Some i, Some j =>
          if Nat.leb i j then x :: y :: rest else y :: insert_by_rank l x rest
      | _, _ => x :: y :: rest
      end
  end.

Definition sort_by_rank (l : list Player) (matches : list Player)
  : list Player :=
  fold_right (insert_by_rank l) [] matches.

Definition sorted_by_index {St : Type} (l : list Player)
    (matches : list Player) : M St (list Player) :=
  if forallb (fun x => mem x l) matches then ret (sort_by_rank l matches)
  else raise NotInList.

(** Lines 113-114, for one item of [matching.items()]. *)
Definition hr_sort_one (item : Player * list Player) : M hr_state unit :=
  let '(hospital, matches) := item in
  hp <- gets hospital_prefs ;;
  hl <- getitem hp hospital ;;
  sorted_matches <- sorted_by_index hl matches ;;
  modify (fun s =>
    set_hr_match (dict_set hospital sorted_matches (hr_match s)) s).

(** Lines 112-114: every hospital's matches are sorted by its preferences. *)
Definition hr_sort_matches : M hr_state unit :=
  m <- gets hr_match ;;
  for_each m hr_sort_one.

(** The store at the call: the caller's dictionaries, and no local yet. *)
Definition hr_init (hp rp : prefs) : hr_state :=
  mk_hr_state hp rp [] [] [].

(** [hr_resident_optimal(hospital_prefs, resident_prefs, capacities)], run
    from a store that already holds the two dictionaries. *)
Definition hr_resident_optimal_run (fuel : nat) (capacities : capacities_t)
  : M hr_state hr_matching :=
  modify (fun s => set_hr_match (map (fun h => (h, [])) (keys (hospital_prefs s))) s) ;;;
  refresh_free_residents ;;;
  while fuel (fun s => nonempty (free s)) (hr_resident_body capacities) ;;;
  hr_sort_matches ;;;
  gets hr_match.

(** [_get_free_hospitals] *)
Definition is_free_hospital (capacities : capacities_t)
    (matching : hr_matching) (hospital : Player) (hl : list Player)
  : M hr_state bool :=
  ml <- getitem matching hospital ;;
  c <- getitem capacities hospital ;;
  if (Z.of_nat (List.length ml) <? c)%Z then
    ret (existsb truthy (filter (fun resident => negb (mem resident ml)) hl))
  else ret false.

Fixpoint _get_free_hospitals (hospital_prefs : prefs)
    (capacities : capacities_t) (matching : hr_matching)
  : M hr_state (list Player) :=
  match hospital_prefs with
  | [] => ret []
  | (hospital, hl) :: rest =>
      b <- is_free_hospital capacities matching hospital hl ;;
      fs <- _get_free_hospitals rest capacities matching ;;
      ret (if b then hospital :: fs else fs)
  end.

Definition refresh_free_hospitals (capacities : capacities_t)
  : M hr_state unit :=
  hp <- gets hospital_prefs ;;
  m <- gets hr_match ;;
  fs <- _get_free_hospitals hp capacities m ;;
  modify (set_free fs).

(** Lines 171-172, for one item of [matching.items()]. *)
Definition hr_unmatch_one (resident : Player) (item : Player * list Player)
  : M hr_state unit :=
  let '(hosp, matches) := item in
  if mem resident matches then match_remove hosp resident else ret tt.

(** Lines 170-172: the resident leaves every matching they are in. *)
Definition hr_unmatch (resident : Player) : M hr_state unit :=
  m <- gets hr_match ;;
  for_each m (hr_unmatch_one resident).

(** The body of the [while] loop of [hr_hospital_optimal], lines 163-185. *)
Definition hr_hospital_body (capacities : capacities_t) : M hr_state unit :=
  fh <- gets free ;;
  hospital <- first fh ;;
  hp <- gets hospital_prefs ;;
  hl <- getitem hp hospital ;;
  m <- gets hr_match ;;
  ml <- (match hl with
         | [] => ret []
         | _ :: _ => getitem m hospital
         end) ;;
  resident <- first (filter (fun resident => negb (mem resident ml)) hl) ;;
  hr_unmatch resident ;;;
  match_append hospital resident ;;;
  rp <- gets resident_prefs ;;
  rl <- getitem rp resident ;;
  match index hospital rl with
  | None => raise NotInList
  | Some idx =>
      let successors := skipn (idx + 1) rl in
      for_each successors (fun successor =>
        hospital_prefs_remove successor resident ;;;
        resident_prefs_remove resident successor) ;;;
      refresh_free_hospitals capacities
  end.

(** [hr_hospital_optimal(hospital_prefs, resident_prefs, capacities)] *)
Definition hr_hospital_optimal_run (fuel : nat) (capacities : capacities_t)
  : M hr_state hr_matching :=
  modify (fun s => set_hr_match (map (fun h => (h, [])) (keys (hospital_prefs s))) s) ;;;
  refresh_free_hospitals capacities ;;;
  while fuel (fun s => nonempty (free s)) (hr_hospital_body capacities) ;;;
  gets hr_match.

Definition hr_resident_optimal (fuel : nat) (hp rp : prefs)
    (capacities : capacities_t) : hr_state * result hr_matching :=
  hr_resident_optimal_run fuel capacities (hr_init hp rp).

Definition hr_hospital_optimal (fuel : nat) (hp rp : prefs)
    (capacities : capacities_t) : hr_state * result hr_matching :=
  hr_hospital_optimal_run fuel capacities (hr_init hp rp).

(** [hospital_resident(hospital_prefs, resident_prefs, capacities, optimal)] *)
Definition hospital_resident (fuel : nat) (hp rp : prefs)
    (capacities : capacities_t) (optimal : string)
  : hr_state * result hr_matching :=
  (_check_inputs hp rp ;;;
   if string_dec optimal "resident" then
     hr_resident_optimal_run fuel capacities
   else if string_dec optimal "hospital" then
     hr_hospital_optimal_run fuel capacities
   else raise (InvalidOptimalityOption optimal)) (hr_init hp rp).

(* ===================================================================== *)
(** ** Instances, and what the claims say about a matching *)
(* ===================================================================== *)

(** [sum_over f ks]: the sum of [f k] for the keys [k] of [ks]. *)
Definition sum_over (f : Player -> nat) (ks : list Player) : nat :=
  fold_right (fun k n => f k + n) 0 ks.

(** Consistent preference inputs: the dictionaries have no repeated key, the
    lists are strict (no player twice), and a player ranks exactly the players
    who rank them.  A ranked player is then a key of the other dictionary. *)
Record consistent (sp rp : prefs) : Prop := mk_consistent {
  cons_keys_l : NoDup (keys sp);
  cons_keys_r : NoDup (keys rp);
  cons_strict_l : forall k, NoDup (get sp k);
  cons_strict_r : forall k, NoDup (get rp k);
  cons_mutual : forall s r, In r (get sp s) <-> In s (get rp r)
}.

(** Complete lists over equal-sized sides: everybody ranks the whole other
    side. *)
Record sm_instance (sp rp : prefs) : Prop := mk_sm_instance {
  smi_consistent : consistent sp rp;
  smi_complete : forall s r, In s (keys sp) -> In r (keys rp) -> In r (get sp s);
  smi_sizes : List.length sp = List.length rp
}.

(** [prefers l a b]: [a] comes before [b] in the preference list [l]. *)
Definition prefers (l : list Player) (a b : Player) : Prop :=
  exists i j, index a l = Some i /\ index b l = Some j /\ i < j.

(** A blocking pair of a matching from proposers to acceptors: [s] is given
    [r'] and likes [r] better, and [r] is given to [s'] and likes [s]
    better. *)
Definition blocking_pair (proposer_prefs acceptor_prefs : prefs)
    (m : sm_matching) (s r : Player) : Prop :=
  exists r' s',
    lookup s m = Some (Some r') /\ lookup s' m = Some (Some r) /\
    prefers (get proposer_prefs s) r r' /\
    prefers (get acceptor_prefs r) s s'.

Definition stable (proposer_prefs acceptor_prefs : prefs) (m : sm_matching)
  : Prop :=
  forall s r, ~ blocking_pair proposer_prefs acceptor_prefs m s r.

(** The partner that lines 59-60 find for a reviewer. *)
Definition partner_of (reviewer : Player) (m : sm_matching) : option Player :=
  match index (Some reviewer) (values m) with
  | Some idx => nth_error (keys m) idx
  | None => None
  end.

(** The dictionary after [for x in xs: d[x].remove(o)]. *)
Definition prune_from (o : Player) (xs : list Player) (d : prefs) : prefs :=
  fold_left (fun d x => dict_set x (remove1 o (get d x)) d) xs d.

(** The state one iteration of the loop of [stable_marriage] leads to, when the
    suitor [s] at the head of the queue proposes to [r]. *)
Definition sm_next (st : sm_state) (s r : Player) : sm_state :=
  let m := matching st in
  let q := tl (suitors st) in
  let rl := get (reviewer_prefs st) r in
  let idx := match index s rl with Some i => i | None => 0 end in
  mk_sm_state
    (prune_from r (skipn (idx + 1) rl) (suitor_prefs st))
    (dict_set r (firstn (idx + 1) rl) (reviewer_prefs st))
    (match partner_of r m with Some cp => q ++ [cp] | None => q end)
    (dict_set s (Some r)
       (match partner_of r m with Some cp => dict_set cp None m | None => m end)).

(** The invariant of the loop of [stable_marriage], for the dictionaries
    [sp0] and [rp0] the loop started from. *)
Record sm_inv (sp0 rp0 : prefs) (st : sm_state) : Prop := mk_sm_inv {
  smv_keys_s : keys (suitor_prefs st) = keys sp0;
  smv_keys_r : keys (reviewer_prefs st) = keys rp0;
  smv_keys_m : keys (matching st) = keys sp0;
  smv_sub_s : forall s, subseq (get (suitor_prefs st) s) (get sp0 s);
  smv_pre_r : forall r, exists tail,
      get rp0 r = get (reviewer_prefs st) r ++ tail;
  smv_mutual : forall s r,
      In r (get (suitor_prefs st) s) <-> In s (get (reviewer_prefs st) r);
  smv_matched : forall s r,
      lookup s (matching st) = Some (Some r) ->
      hd_error (get (suitor_prefs st) s) = Some r /\
      exists pre, get (reviewer_prefs st) r = pre ++ [s];
  smv_queue_nodup : NoDup (suitors st);
  smv_queue : forall s,
      In s (suitors st) <-> lookup s (matching st) = Some None;
  smv_cut : forall r,
      get (reviewer_prefs st) r <> get rp0 r ->
      exists s, lookup s (matching st) = Some (Some r)
}.

(** What decreases at every iteration: the queue and the reviewers' lists. *)
Definition sm_measure (st : sm_state) : nat :=
  List.length (suitors st)
  + sum_over (fun r => List.length (get (reviewer_prefs st) r))
      (keys (reviewer_prefs st)).

(** The two sides as the loop sees them after the role swap of lines
    48-49. *)
Definition proposers (sp rp : prefs) (optimal : string) : prefs :=
  if string_dec optimal "reviewer" then rp else sp.
Definition acceptors (sp rp : prefs) (optimal : string) : prefs :=
  if string_dec optimal "reviewer" then sp else rp.

(** Fuel that is enough for either choice of [optimal]. *)
Definition sm_fuel (sp rp : prefs) : nat :=
  S (sm_measure (sm_init sp rp) + sm_measure (sm_init rp sp)).

(** A matching from proposers to acceptors is a bijection: the keys are the
    proposers, and the values are the acceptors, each once, with no [None]. *)
Definition bijection (proposer_prefs acceptor_prefs : prefs)
    (m : sm_matching) : Prop :=
  keys m = keys proposer_prefs /\ NoDup (keys proposer_prefs) /\
  NoDup (keys acceptor_prefs) /\
  Permutation (values m) (map Some (keys acceptor_prefs)).

(** Boolean checks of the hypotheses, for concrete instances. *)
Fixpoint nodupb (l : list Player) : bool :=
  match l with
  | [] => true
  | x :: l' => negb (mem x l') && nodupb l'
  end.

Definition ranked_back (d other : prefs) : bool :=
  forallb (fun '(k, l) => nodupb l && forallb (fun x => mem k (get other x)) l) d.

Definition consistentb (sp rp : prefs) : bool :=
  nodupb (keys sp) && nodupb (keys rp) && ranked_back sp rp && ranked_back rp sp.

Definition sm_instanceb (sp rp : prefs) : bool :=
  consistentb sp rp
  && forallb (fun '(_, l) => forallb (fun r => mem r l) (keys rp)) sp
  && Nat.eqb (List.length sp) (List.length rp).

(** The instance of the documentation. *)
Definition ex_suitors : prefs :=
  [("A", ["D"; "E"; "F"]); ("B", ["D"; "F"; "E"]); ("C", ["E"; "D"; "F"])].
Definition ex_reviewers : prefs :=
  [("D", ["B"; "A"; "C"]); ("E", ["C"; "A"; "B"]); ("F", ["A"; "B"; "C"])].

(* ===================================================================== *)
(** ** Hospital/resident instances *)
(* ===================================================================== *)

(** What [_check_inputs] looks for: every hospital a resident ranks has that
    resident in its own list. *)
Definition residents_ranked (hp rp : prefs) : Prop :=
  forall r h, In h (get rp r) -> In r (get hp h).

(** The other direction, which the documentation and the tests ask for as
    well: every resident a hospital ranks has that hospital in their list. *)
Definition hospitals_ranked (hp rp : prefs) : Prop :=
  forall h r, In r (get hp h) -> In h (get rp r).

(** [capacities[h]], and 0 for a hospital without a capacity. *)
Definition cap (capacities : capacities_t) (h : Player) : Z :=
  match lookup h capacities with
  | Some c => c
  | None => 0%Z
  end.

(** The instances of the tests in [tests/unit/hospital_resident]. *)
Definition test_residents : prefs :=
  [("A", ["Y"]); ("B", ["Y"; "X"]); ("C", ["Y"; "Z"; "X"]);
   ("D", ["X"; "Y"; "Z"])].
(** [test_raises_missing_rank_error]: X should rank B and D as well. *)
Definition test_hospitals_missing : prefs :=
  [("X", ["C"]); ("Y", ["A"; "B"; "D"; "C"]); ("Z", ["C"; "D"])].
(** [test_raises_extra_rank_error]: Z ranks A, but A does not rank Z. *)
Definition test_hospitals_extra : prefs :=
  [("X", ["C"; "B"; "D"]); ("Y", ["A"; "B"; "D"; "C"]);
   ("Z", ["C"; "D"; "A"])].
(** The same hospitals with consistent lists. *)
Definition test_hospitals : prefs :=
  [("X", ["C"; "B"; "D"]); ("Y", ["A"; "B"; "D"; "C"]);
   ("Z", ["C"; "D"])].
Definition test_capacities : capacities_t :=
  [("X", 2%Z); ("Y", 2%Z); ("Z", 2%Z)].

(** The test [_check_inputs] evaluates. *)
Definition residents_rankedb (hp rp : prefs) : bool :=
  forallb (fun r => forallb (fun h => mem r (get hp h)) (get rp r)) (keys rp).

(** An HR instance: consistent strict preferences (residents on one side,
    hospitals on the other), and a positive capacity for every hospital. *)
Record hr_instance (hp rp : prefs) (capacities : capacities_t) : Prop :=
  mk_hr_instance {
  hri_consistent : consistent rp hp;
  hri_caps : forall h, In h (keys hp) ->
      In h (keys capacities) /\ (1 <= cap capacities h)%Z
}.

Definition hr_instanceb (hp rp : prefs) (capacities : capacities_t) : bool :=
  consistentb rp hp
  && forallb (fun h => match lookup h capacities with
                       | Some c => (1 <=? c)%Z
                       | None => false
                       end) (keys hp).

(** [any([resident in match for match in matching.values()])] *)
Definition matched_somewhere (r : Player) (m : hr_matching) : bool :=
  existsb (fun ml => mem r ml) (values m).

Definition is_free_resident (rp : prefs) (m : hr_matching) (r : Player) : bool :=
  nonempty (get rp r) && negb (matched_somewhere r m).

(** A matching respects the capacities, up to [slack] extra residents. *)
Definition within_capacity (hp0 : prefs) (capacities : capacities_t)
    (slack : Z) (m : hr_matching) : Prop :=
  forall h, In h (keys hp0) ->
    (Z.of_nat (List.length (get m h)) <= cap capacities h + slack)%Z.

(** The state one iteration of the loop of [hr_resident_optimal] leads to. *)
Definition res_next (capacities : capacities_t) (st : hr_state) : hr_state :=
  let r : Player := hd EmptyString (free st) in
  let h : Player := hd EmptyString (get (resident_prefs st) r) in
  let hl := get (hospital_prefs st) h in
  let m := hr_match st in
  let ml1 := get m h ++ [r] in
  let m1 := dict_set h ml1 m in
  let over := (Z.of_nat (List.length ml1) >? cap capacities h)%Z in
  let w : Player :=
    nth (match worst_of hl ml1 with Some i => i | None => 0 end)
        hl EmptyString in
  let ml2 := if over then remove1 w ml1 else ml1 in
  let m2 := if over then dict_set h ml2 m1 else m1 in
  let tr := if over then m2 :: m1 :: trace st else m1 :: trace st in
  let full := (Z.of_nat (List.length ml2) =? cap capacities h)%Z in
  let i := match worst_of hl ml2 with Some i => i | None => 0 end in
  let hp' := if full then dict_set h (firstn (i + 1) hl) (hospital_prefs st)
             else hospital_prefs st in
  let rp' := if full then prune_from h (skipn (i + 1) hl) (resident_prefs st)
             else resident_prefs st in
  mk_hr_state hp' rp' m2 (_get_free_residents rp' m2) tr.

(** The invariant of the loop of [hr_resident_optimal], for the dictionaries
    [hp0] and [rp0] of the call. *)
Record res_inv (hp0 rp0 : prefs) (capacities : capacities_t) (st : hr_state)
  : Prop := mk_res_inv {
  rsv_keys_h : keys (hospital_prefs st) = keys hp0;
  rsv_keys_r : keys (resident_prefs st) = keys rp0;
  rsv_keys_m : keys (hr_match st) = keys hp0;
  rsv_sub_h : forall h, subseq (get (hospital_prefs st) h) (get hp0 h);
  rsv_sub_r : forall r, subseq (get (resident_prefs st) r) (get rp0 r);
  rsv_mutual : forall r h,
      In h (get (resident_prefs st) r) <-> In r (get (hospital_prefs st) h);
  rsv_matched : forall r h,
      In r (get (hr_match st) h) ->
      hd_error (get (resident_prefs st) r) = Some h;
  rsv_nodup : forall h, NoDup (get (hr_match st) h);
  rsv_cap : within_capacity hp0 capacities 0 (hr_match st);
  rsv_free :
    free st = _get_free_residents (resident_prefs st) (hr_match st);
  rsv_trace : Forall (within_capacity hp0 capacities 1) (trace st)
}.

(** What decreases at every iteration: the residents' lists first, then the
    number of free residents. *)
Definition res_measure (st : hr_state) : nat :=
  sum_over (fun r => List.length (get (resident_prefs st) r))
    (keys (resident_prefs st))
  * S (List.length (keys (resident_prefs st)))
  + List.length (free st).

(** [rank_le l a b]: both are in [l], and [a] does not come after [b]. *)
Definition rank_le (l : list Player) (a b : Player) : Prop :=
  exists i j, index a l = Some i /\ index b l = Some j /\ i <= j.

(** A sequence of matches is in the order of the preference list [l]: its
    members are in [l], and each comes before all the later ones in [l]. *)
Definition ordered_by_rank (l ms : list Player) : Prop :=
  (forall x, In x ms -> In x l) /\ StronglySorted (prefers l) ms.

(** Lines 112-114 on the whole matching. *)
Definition sort_all (hp : prefs) (m : hr_matching) : hr_matching :=
  map (fun '(h, ms) => (h, sort_by_rank (get hp h) ms)) m.

(** The state in which the loop of [hr_resident_optimal] starts. *)
Definition empty_matching (hp : prefs) : hr_matching :=
  map (fun h => (h, [])) (keys hp).

Definition res_start (hp rp : prefs) : hr_state :=
  mk_hr_state hp rp (empty_matching hp)
    (_get_free_residents rp (empty_matching hp)) [empty_matching hp].

(** Fuel that is enough for [hr_resident_optimal]. *)
Definition res_fuel (hp rp : prefs) : nat := S (res_measure (res_start hp rp)).

(** What is known of the state [st] an HR solver ends in, for the
    dictionaries [hp0] and [rp0] of the call: the matching [hr_match st] it
    returns, the pruned dictionaries it leaves to the caller, and the values
    [matching] went through. *)
Record hr_outcome (hp0 rp0 : prefs) (capacities : capacities_t) (slack : Z)
    (st : hr_state) : Prop := mk_hr_outcome {
  hro_keys_m : keys (hr_match st) = keys hp0;
  hro_keys_h : keys (hospital_prefs st) = keys hp0;
  hro_keys_r : keys (resident_prefs st) = keys rp0;
  hro_sub_h : forall h, subseq (get (hospital_prefs st) h) (get hp0 h);
  hro_sub_r : forall r, subseq (get (resident_prefs st) r) (get rp0 r);
  hro_ordered : forall h,
      ordered_by_rank (get (hospital_prefs st) h) (get (hr_match st) h);
  hro_cap : within_capacity hp0 capacities 0 (hr_match st);
  hro_trace : Forall (within_capacity hp0 capacities slack) (trace st)
}.

(** The matching after lines 170-172: the resident is in no sequence. *)
Definition unmatch_all (r : Player) (m : hr_matching) : hr_matching :=
  map (fun '(k, l) => (k, remove1 r l)) m.

(** The invariant of the loop of [hr_hospital_optimal]: a hospital is
    matched to the first residents of its list, a matched resident has their
    hospital last in their list, and the hospitals in [free] have room for a
    resident they have not proposed to. *)
Record hosp_inv (hp0 rp0 : prefs) (capacities : capacities_t) (st : hr_state)
  : Prop := mk_hosp_inv {
  hsv_keys_h : keys (hospital_prefs st) = keys hp0;
  hsv_keys_r : keys (resident_prefs st) = keys rp0;
  hsv_keys_m : keys (hr_match st) = keys hp0;
  hsv_sub_h : forall h, subseq (get (hospital_prefs st) h) (get hp0 h);
  hsv_sub_r : forall r, subseq (get (resident_prefs st) r) (get rp0 r);
  hsv_mutual : forall r h,
      In h (get (resident_prefs st) r) <-> In r (get (hospital_prefs st) h);
  hsv_prefix : forall h, exists tail,
      get (hospital_prefs st) h = get (hr_match st) h ++ tail;
  hsv_last : forall r h,
      In r (get (hr_match st) h) ->
      exists pre, get (resident_prefs st) r = pre ++ [h];
  hsv_cap : within_capacity hp0 capacities 0 (hr_match st);
  hsv_free : forall h, In h (free st) ->
      In h (keys hp0) /\
      (Z.of_nat (List.length (get (hr_match st) h)) < cap capacities h)%Z /\
      exists x, In x (get (hospital_prefs st) h)
                /\ ~ In x (get (hr_match st) h);
  hsv_trace : Forall (within_capacity hp0 capacities 0) (trace st)
}.

(** What decreases at every iteration: the residents the hospitals have not
    proposed to yet. *)
Definition hosp_measure (st : hr_state) : nat :=
  sum_over (fun h => List.length (get (hospital_prefs st) h)
                     - List.length (get (hr_match st) h))
    (keys (hospital_prefs st)).

(** Fuel that is enough for [hr_hospital_optimal]: the length of all the
    hospitals' lists. *)
Definition hosp_fuel (hp : prefs) : nat :=
  S (sum_over (fun h => List.length (get hp h)) (keys hp)).

(** [shrunk d d0]: the dictionary [d] is [d0] with entries deleted from its
    lists: same keys, and every list a subsequence of the original one. *)
Definition shrunk (d d0 : prefs) : Prop :=
  keys d = keys d0 /\ forall k, subseq (get d k) (get d0 k).

(** An instance on which [hr_resident_optimal] over-subscribes a hospital:
    A proposes first and fills X, then B, whom X likes better, is appended
    before A is evicted. *)
Definition over_residents : prefs := [("A", ["X"]); ("B", ["X"])].
Definition over_hospitals : prefs := [("X", ["B"; "A"])].
Definition over_capacities : capacities_t := [("X", 1%Z)].

(** A second inconsistent input, whose offending pair is (Q, W). *)
Definition lone_resident : prefs := [("Q", ["W"])].
Definition lone_hospital : prefs := [("W", [])].
Definition lone_capacity : capacities_t := [("W", 1%Z)].
(* ===================================================================== *)
(** ** What else is proved of the solvers *)
(* ===================================================================== *)

(** A pair that the loop of [stable_marriage] has deleted from the lists is a
    pair of no stable matching: whenever [r] has gone from the list of [s], no
    stable bijection gives [r] to [s]. *)
Definition sm_no_stable_partner (sp0 rp0 : prefs) (st : sm_state) : Prop :=
  forall s r, In r (get sp0 s) -> ~ In r (get (suitor_prefs st) s) ->
  forall m', bijection sp0 rp0 m' -> stable sp0 rp0 m' ->
    lookup s m' <> Some (Some r).

(** Complete lists with at most as many proposers as acceptors. *)
Record sm_room (sp rp : prefs) : Prop := mk_sm_room {
  smr_consistent : consistent sp rp;
  smr_complete : forall s r, In s (keys sp) -> In r (keys rp) -> In r (get sp s);
  smr_sizes : List.length sp <= List.length rp
}.

Definition sm_roomb (sp rp : prefs) : bool :=
  consistentb sp rp
  && forallb (fun '(_, l) => forallb (fun r => mem r l) (keys rp)) sp
  && Nat.leb (List.length sp) (List.length rp).

(** A blocking pair of a matching that may leave acceptors without a
    partner: [s] likes [r] better than the partner it was given, and [r]
    either has no partner and ranks [s], or likes [s] better than its
    partner. *)
Definition blocking_pair_open (proposer_prefs acceptor_prefs : prefs)
    (m : sm_matching) (s r : Player) : Prop :=
  (exists r', lookup s m = Some (Some r') /\
              prefers (get proposer_prefs s) r r') /\
  (((forall s', lookup s' m <> Some (Some r)) /\ In s (get acceptor_prefs r))
   \/ exists s', lookup s' m = Some (Some r) /\
                 prefers (get acceptor_prefs r) s s').

(** An instance with one reviewer less than suitors, and one with one more. *)
Definition crowd_suitors : prefs :=
  [("A", ["D"; "E"]); ("B", ["D"; "E"]); ("C", ["E"; "D"])].
Definition crowd_reviewers : prefs :=
  [("D", ["B"; "A"; "C"]); ("E", ["C"; "A"; "B"])].


(** A blocking pair of an HR matching: [r] and [h] rank each other, [r] is
    in no sequence or likes [h] better than the hospital whose sequence they
    are in, and [h] has room left or likes [r] better than one of the
    residents of its sequence. *)
Definition hr_blocking_pair (hp rp : prefs) (capacities : capacities_t)
    (m : hr_matching) (r h : Player) : Prop :=
  In h (get rp r) /\ In r (get hp h) /\
  (forall h', In r (get m h') -> prefers (get rp r) h h') /\
  ((Z.of_nat (List.length (get m h)) < cap capacities h)%Z \/
   exists r', In r' (get m h) /\ prefers (get hp h) r r').

Definition hr_stable (hp rp : prefs) (capacities : capacities_t)
    (m : hr_matching) : Prop :=
  forall r h, ~ hr_blocking_pair hp rp capacities m r h.

(** A matching of the instance: a sequence for every hospital, of residents
    who rank the hospital and are ranked by it, nobody twice in a sequence or
    in two sequences. *)
Record hr_assignment (hp rp : prefs) (m : hr_matching) : Prop :=
  mk_hr_assignment {
  hra_keys : keys m = keys hp;
  hra_acceptable : forall r h,
      In r (get m h) -> In r (get hp h) /\ In h (get rp r);
  hra_nodup : forall h, NoDup (get m h);
  hra_once : forall r h h', In r (get m h) -> In r (get m h') -> h = h'
}.

(** What the loop of [hr_resident_optimal] keeps besides [res_inv]: a
    hospital's list is a prefix of its original list, and a hospital whose
    list has been cut is full. *)
Record res_cut (hp0 : prefs) (capacities : capacities_t) (st : hr_state)
  : Prop := mk_res_cut {
  rsc_prefix : forall h, exists tail,
      get hp0 h = get (hospital_prefs st) h ++ tail;
  rsc_full : forall h,
      get (hospital_prefs st) h <> get hp0 h ->
      Z.of_nat (List.length (get (hr_match st) h)) = cap capacities h
}.

(** The test of [_get_free_hospitals] for one hospital: fewer residents than
    its capacity, and some resident of its list, with a name that counts as
    true, who is not in its sequence. *)
Definition free_hospitalb (capacities : capacities_t) (m : hr_matching)
    (h : Player) (hl : list Player) : bool :=
  (Z.of_nat (List.length (get m h)) <? cap capacities h)%Z
  && existsb truthy (filter (fun resident => negb (mem resident (get m h))) hl).

Definition free_hospitals (capacities : capacities_t) (hp : prefs)
    (m : hr_matching) : list Player :=
  map fst (filter (fun '(h, hl) => free_hospitalb capacities m h hl) hp).

(** What the loop of [hr_hospital_optimal] keeps besides [hosp_inv]: a
    resident's list is a prefix of their original list, a resident whose list
    has been cut is in a sequence, and [free] holds the free hospitals. *)
Record hosp_cut (rp0 : prefs) (capacities : capacities_t) (st : hr_state)
  : Prop := mk_hosp_cut {
  hsc_prefix : forall r, exists tail,
      get rp0 r = get (resident_prefs st) r ++ tail;
  hsc_matched : forall r,
      get (resident_prefs st) r <> get rp0 r ->
      exists h, In r (get (hr_match st) h);
  hsc_free :
    free st = free_hospitals capacities (hospital_prefs st) (hr_match st)
}.

(** An instance with a resident whose name is the empty string. *)
Definition nameless_residents : prefs := [("", ["X"])].
Definition nameless_hospitals : prefs := [("X", [""])].
Definition nameless_capacities : capacities_t := [("X", 1%Z)].

(** A stable matching of an HR instance. *)
Record hr_stable_matching (hp rp : prefs) (capacities : capacities_t)
    (m : hr_matching) : Prop := mk_hr_stable_matching {
  hsm_assignment : hr_assignment hp rp m;
  hsm_capacity : within_capacity hp capacities 0 m;
  hsm_stable : hr_stable hp rp capacities m
}.

(** A pair that the loop of an HR solver has deleted from the lists is a
    pair of no stable matching. *)
Definition hr_no_stable_pair (hp0 rp0 : prefs) (capacities : capacities_t)
    (st : hr_state) : Prop :=
  forall r h, In h (get rp0 r) -> ~ In h (get (resident_prefs st) r) ->
  forall m', hr_stable_matching hp0 rp0 capacities m' -> ~ In r (get m' h).

(** The capacities with every capacity below 1 raised to 1. *)
Definition at_least_one (capacities : capacities_t) : capacities_t :=
  map (fun '(h, c) => (h, Z.max 1 c)) capacities.

(** A resident [r0] whose first choice [h0] has no room: while the hospitals
    without room have empty sequences, [r0] keeps [h0] at the head of their
    list and is in no sequence. *)
Record res_stuck (capacities : capacities_t) (r0 h0 : Player) (st : hr_state)
  : Prop := mk_res_stuck {
  rsk_empty : forall h,
      (cap capacities h <= 0)%Z -> get (hr_match st) h = [];
  rsk_head : hd_error (get (resident_prefs st) r0) = Some h0;
  rsk_out : forall h, ~ In r0 (get (hr_match st) h)
}.

(** Instances with a hospital of capacity zero, and of a negative one. *)
Definition shut_residents : prefs := [("A", ["X"; "Y"]); ("B", ["Y"; "X"])].
Definition shut_hospitals : prefs := [("X", ["A"; "B"]); ("Y", ["B"; "A"])].
Definition shut_capacities : capacities_t := [("X", 0%Z); ("Y", 1%Z)].
Definition minus_capacities : capacities_t := [("X", (-1)%Z); ("Y", 1%Z)].

(** The statement of [_check_inputs] for one resident and one hospital. *)
Definition check_one {St : Type} (hospital_prefs : prefs)
    (resident hospital : Player) : M St unit :=
  hl <- getitem hospital_prefs hospital ;;
  if negb (mem resident hl) then raise InputConsistencyError else ret tt.

(** An SM matching written as an HR matching: the sequence of an acceptor
    holds the proposers whose partner it is. *)
Definition as_sequences (acceptor_prefs : prefs) (m : sm_matching)
  : hr_matching :=
  map (fun h =>
         (h, map fst (filter (fun '(_, v) =>
                                if eq_dec v (Some h) then true else false) m)))
      (keys acceptor_prefs).

(** An HR matching written as an SM matching of the residents: a resident's
    partner is the first hospital that has them in its sequence. *)
Definition hospital_of (m : hr_matching) (r : Player) : option Player :=
  hd_error (map fst (filter (fun '(_, l) => mem r l) m)).

Definition as_partners (resident_prefs : prefs) (m : hr_matching)
  : sm_matching :=
  map (fun r => (r, hospital_of m r)) (keys resident_prefs).

(** An SM matching of the hospitals written as an HR matching: a hospital's
    sequence holds its partner, and nobody when it has none. *)
Definition as_singletons (m : sm_matching) : hr_matching :=
  map (fun '(h, v) => (h, match v with Some r => [r] | None => [] end)) m.

(** An HR matching written as an SM matching of the hospitals: a hospital's
    partner is the first resident of its sequence. *)
Definition as_holders (hospital_prefs : prefs) (m : hr_matching)
  : sm_matching :=
  map (fun h => (h, hd_error (get m h))) (keys hospital_prefs).

(** The instance of the documentation read as an instance of HR: every
    reviewer takes one suitor. *)
Definition ex_capacities : capacities_t :=
  [("D", 1%Z); ("E", 1%Z); ("F", 1%Z)].

(* ===================================================================== *)
(** ** What a statement keeps, and what an iteration gains *)
(* ===================================================================== *)

(** [keeps P c]: started in a store of [P], the statement [c] leaves a store
    of [P], whether it returns, raises or is cut for lack of fuel. *)
Definition keeps {St A : Type} (P : St -> Prop) (c : M St A) : Prop :=
  forall s, P s -> P (fst (c s)).

(** The two dictionaries of a store are the dictionaries [a0] and [b0] with
    entries deleted from their lists. *)
Definition sm_pruned (sp0 rp0 : prefs) (st : sm_state) : Prop :=
  shrunk (suitor_prefs st) sp0 /\ shrunk (reviewer_prefs st) rp0.

Definition hr_pruned (hp0 rp0 : prefs) (st : hr_state) : Prop :=
  shrunk (hospital_prefs st) hp0 /\ shrunk (resident_prefs st) rp0.

(** [shorter d' d]: some list of [d'] is strictly shorter than it is in
    [d]. *)
Definition shorter (d' d : prefs) : Prop :=
  exists k, List.length (get d' k) < List.length (get d k).

(** What an iteration of the loop of [stable_marriage] gains, from the store
    [st] to the store [st']: no list gets an entry back, and either a suitor
    without a partner is given one and no pair is undone, or some list is
    strictly shorter. *)
Record sm_progress (st st' : sm_state) : Prop := mk_sm_progress {
  smp_lists : sm_pruned (suitor_prefs st) (reviewer_prefs st) st';
  smp_gain :
    (exists s r,
        lookup s (matching st) = Some None /\
        lookup s (matching st') = Some (Some r) /\
        forall s0 r0, lookup s0 (matching st) = Some (Some r0) ->
                      lookup s0 (matching st') = Some (Some r0))
    \/ shorter (suitor_prefs st') (suitor_prefs st)
    \/ shorter (reviewer_prefs st') (reviewer_prefs st)
}.

(** The same for an iteration of the loop of an HR solver: no list gets an
    entry back, and either a resident enters the sequence of a hospital they
    were not in and nobody leaves a sequence, or some list is strictly
    shorter. *)
Record hr_progress (st st' : hr_state) : Prop := mk_hr_progress {
  hrp_lists : hr_pruned (hospital_prefs st) (resident_prefs st) st';
  hrp_gain :
    (exists r h,
        ~ In r (get (hr_match st) h) /\
        In r (get (hr_match st') h) /\
        forall r0 h0, In r0 (get (hr_match st) h0) ->
                      In r0 (get (hr_match st') h0))
    \/ shorter (hospital_prefs st') (hospital_prefs st)
    \/ shorter (resident_prefs st') (resident_prefs st)
}.

(** The store in which the loop of [hr_hospital_optimal] is entered, before
    the free hospitals are computed. *)
Definition hosp_enter (hp rp : prefs) : hr_state :=
  mk_hr_state hp rp (empty_matching hp) [] [empty_matching hp].

(* ===================================================================== *)
(** ** Facts about the list and dictionary primitives *)
(* ===================================================================== *)

Section ListFacts.
Context {A : Type} `{EqDec A}.
Implicit Types (x y : A) (l : list A).

Lemma mem_In x l : mem x l = true <-> In x l.
Proof.
  induction l as [|y l IH]; simpl.
  - split; [discriminate | tauto].
  - destruct (eq_dec x y) as [->|n].
    + split; auto.
    + rewrite IH. split; [auto | intros [E|E]; [congruence | exact E]].
Qed.

Lemma mem_false x l : mem x l = false <-> ~ In x l.
Proof.
  rewrite <- mem_In. destruct (mem x l); split; congruence.
Qed.

Lemma index_In x l : In x l -> exists i, index x l = Some i.
Proof.
  induction l as [|y l IH]; simpl; [tauto|].
  intros HI. destruct (eq_dec x y) as [->|n]; [eauto|].
  destruct IH as [i Hi]; [destruct HI; congruence|].
  rewrite Hi. eauto.
Qed.

Lemma index_None x l : index x l = None <-> ~ In x l.
Proof.
  split.
  - intros E HI. destruct (index_In _ _ HI) as [i Hi]. congruence.
  - induction l as [|y l IH]; simpl; [reflexivity|].
    intros HN. destruct (eq_dec x y) as [->|n]; [tauto|].
    rewrite IH; tauto.
Qed.

(** The shape of a list around the first occurrence of [x]. *)
Lemma index_split x l i :
  index x l = Some i ->
  exists pre suc, l = pre ++ x :: suc /\ List.length pre = i /\ ~ In x pre
                  /\ skipn (i + 1) l = suc.
Proof.
  revert i. induction l as [|y l IH]; simpl; [discriminate|].
  intros i. destruct (eq_dec x y) as [->|n].
  - intros [= <-]. exists [], l. simpl. tauto.
  - destruct (index x l) as [j|] eqn:E; [|discriminate].
    intros [= <-]. destruct (IH j eq_refl) as (pre & suc & -> & Hl & Hn & Hs).
    exists (y :: pre), suc. simpl. repeat split; auto.
    intros [E'|E']; [congruence | tauto].
Qed.

Lemma index_app_notin x pre suc :
  ~ In x pre -> index x (pre ++ x :: suc) = Some (List.length pre).
Proof.
  induction pre as [|y pre IH]; simpl; intros HN.
  - destruct (eq_dec x x); congruence.
  - destruct (eq_dec x y) as [->|n]; [tauto|].
    rewrite IH; tauto.
Qed.

Lemma index_app_l x l1 l2 i :
  index x l1 = Some i -> index x (l1 ++ l2) = Some i.
Proof.
  revert i. induction l1 as [|y l1 IH]; simpl; [discriminate|].
  intros i. destruct (eq_dec x y); [auto|].
  destruct (index x l1) as [j|]; [|discriminate].
  intros [= <-]. rewrite (IH j eq_refl). reflexivity.
Qed.

Lemma index_lt x l i : index x l = Some i -> i < List.length l.
Proof.
  intros E. destruct (index_split _ _ E) as (pre & suc & -> & <- & _).
  rewrite length_app. simpl. lia.
Qed.

Lemma index_nth x l i : index x l = Some i -> nth_error l i = Some x.
Proof.
  intros E. destruct (index_split _ _ E) as (pre & suc & -> & <- & _).
  rewrite nth_error_app2, Nat.sub_diag; auto.
Qed.

Lemma index_inj x y l i :
  index x l = Some i -> index y l = Some i -> x = y.
Proof.
  intros E1 E2. apply index_nth in E1, E2. congruence.
Qed.

Lemma remove1_notin x l : ~ In x l -> remove1 x l = l.
Proof.
  induction l as [|y l IH]; simpl; [reflexivity|].
  intros HN. destruct (eq_dec x y) as [->|n]; [tauto|].
  rewrite IH; tauto.
Qed.

Lemma remove1_app_notin x l1 l2 :
  ~ In x l1 -> remove1 x (l1 ++ l2) = l1 ++ remove1 x l2.
Proof.
  induction l1 as [|y l1 IH]; simpl; [reflexivity|].
  intros HN. destruct (eq_dec x y) as [->|n]; [tauto|].
  rewrite IH; tauto.
Qed.

Lemma remove1_app_in x l1 l2 :
  In x l1 -> remove1 x (l1 ++ l2) = remove1 x l1 ++ l2.
Proof.
  induction l1 as [|y l1 IH]; simpl; [tauto|].
  intros HI. destruct (eq_dec x y) as [->|n]; [reflexivity|].
  rewrite IH; [reflexivity | destruct HI; congruence].
Qed.

Lemma remove1_head x l : remove1 x (x :: l) = l.
Proof. simpl. destruct (eq_dec x x); congruence. Qed.

Lemma In_remove1 x y l : In y (remove1 x l) -> In y l.
Proof.
  induction l as [|z l IH]; simpl; [tauto|].
  destruct (eq_dec x z); simpl; tauto.
Qed.

Lemma In_remove1_neq x y l : y <> x -> In y l -> In y (remove1 x l).
Proof.
  intros Hn. induction l as [|z l IH]; simpl; [tauto|].
  destruct (eq_dec x z) as [->|n]; simpl; intuition congruence.
Qed.

Lemma NoDup_remove1 x l : NoDup l -> NoDup (remove1 x l).
Proof.
  induction 1 as [|z l Hz Hl IH]; simpl; [constructor|].
  destruct (eq_dec x z); [assumption|].
  constructor; [|assumption]. intros HI. apply Hz. eapply In_remove1; eauto.
Qed.

Lemma NoDup_remove1_notin x l : NoDup l -> ~ In x (remove1 x l).
Proof.
  induction 1 as [|z l Hz Hl IH]; simpl; [tauto|].
  destruct (eq_dec x z) as [->|n]; [assumption|].
  simpl. intuition congruence.
Qed.

Lemma length_remove1 x l :
  In x l -> S (List.length (remove1 x l)) = List.length l.
Proof.
  induction l as [|z l IH]; simpl; [tauto|].
  intros HI. destruct (eq_dec x z) as [->|n]; [reflexivity|].
  simpl. rewrite IH; [reflexivity | destruct HI; congruence].
Qed.

Lemma length_remove1_le x l : List.length (remove1 x l) <= List.length l.
Proof.
  induction l as [|z l IH]; simpl; [lia|].
  destruct (eq_dec x z); simpl; lia.
Qed.

Lemma hd_remove1_neq x y l :
  x <> y -> hd_error l = Some y -> hd_error (remove1 x l) = Some y.
Proof.
  destruct l as [|z l]; simpl; [discriminate|].
  intros Hn [= ->]. destruct (eq_dec x y); [congruence | reflexivity].
Qed.

(** Subsequences. *)
Lemma subseq_refl l : subseq l l.
Proof. induction l; auto. Qed.

Lemma subseq_trans l1 l2 l3 : subseq l1 l2 -> subseq l2 l3 -> subseq l1 l3.
Proof.
  intros H12 H23. revert l1 H12.
  induction H23 as [l|x l l0 H23 IH|x l l0 H23 IH]; intros l1 H12.
  - inversion H12; auto.
  - auto.
  - inversion H12; subst; auto.
Qed.

Lemma subseq_In l l0 x : subseq l l0 -> In x l -> In x l0.
Proof. induction 1; simpl; intuition. Qed.

Lemma subseq_NoDup l l0 : subseq l l0 -> NoDup l0 -> NoDup l.
Proof.
  induction 1 as [l|x l l0 Hs IH|x l l0 Hs IH]; intros HN.
  - constructor.
  - inversion HN; auto.
  - inversion HN; subst. constructor; auto.
    intros HI. eapply subseq_In in HI; eauto.
Qed.

Lemma subseq_length l l0 : subseq l l0 -> List.length l <= List.length l0.
Proof. induction 1; simpl; lia. Qed.

Lemma subseq_remove1 x l : subseq (remove1 x l) l.
Proof.
  induction l as [|z l IH]; simpl; auto.
  destruct (eq_dec x z); auto using subseq_refl.
Qed.

Lemma subseq_app_l l1 l2 : subseq l1 (l1 ++ l2).
Proof. induction l1; simpl; auto. Qed.

Lemma subseq_app l1 l2 l1' l2' :
  subseq l1 l1' -> subseq l2 l2' -> subseq (l1 ++ l2) (l1' ++ l2').
Proof.
  induction 1; simpl; auto.
  intros H2. induction l as [|z l IH]; simpl; auto.
Qed.

(** In a list without duplicates a subsequence keeps the order of the
    positions. *)
Lemma subseq_index_mono l l0 x y i j i0 j0 :
  subseq l l0 -> NoDup l0 ->
  index x l = Some i -> index y l = Some j ->
  index x l0 = Some i0 -> index y l0 = Some j0 ->
  i < j -> i0 < j0.
Proof.
  intros Hs. revert i j i0 j0.
  induction Hs as [l|z l l0 Hs IH|z l l0 Hs IH]; intros i j i0 j0 HN.
  - simpl. discriminate.
  - inversion HN as [|? ? Hz HN']; subst. simpl.
    intros Hx Hy.
    assert (Ix : In x l0).
    { eapply subseq_In; eauto. apply index_nth in Hx.
      eapply nth_error_In; eauto. }
    assert (Iy : In y l0).
    { eapply subseq_In; eauto. apply index_nth in Hy.
      eapply nth_error_In; eauto. }
    destruct (eq_dec x z) as [->|nx]; [tauto|].
    destruct (eq_dec y z) as [->|ny]; [tauto|].
    destruct (index x l0) as [a|] eqn:Ea; [|discriminate].
    destruct (index y l0) as [b|] eqn:Eb; [|discriminate].
    intros [= <-] [= <-] Hlt.
    specialize (IH i j a b HN' Hx Hy eq_refl eq_refl Hlt). lia.
  - inversion HN as [|? ? Hz HN']; subst. simpl.
    destruct (eq_dec x z) as [->|nx].
    + intros [= <-]. destruct (eq_dec y z) as [->|ny].
      * intros [= <-]. lia.
      * destruct (index y l) as [b|]; [|discriminate].
        intros [= <-] [= <-].
        destruct (index y l0) as [b0|]; [|discriminate].
        intros [= <-] _. lia.
    + destruct (index x l) as [a|] eqn:Ea; [|discriminate].
      intros [= <-]. destruct (eq_dec y z) as [->|ny].
      * intros [= <-]. lia.
      * destruct (index y l) as [b|] eqn:Eb; [|discriminate].
        intros [= <-].
        destruct (index x l0) as [a0|] eqn:Ea0; [|discriminate].
        destruct (index y l0) as [b0|] eqn:Eb0; [|discriminate].
        intros [= <-] [= <-] Hlt.
        assert (a < b) by lia.
        specialize (IH a b a0 b0 HN' eq_refl eq_refl eq_refl eq_refl H0).
        lia.
Qed.

Lemma NoDup_app_inv l1 l2 :
  NoDup (l1 ++ l2) ->
  NoDup l1 /\ NoDup l2 /\ (forall x, In x l1 -> ~ In x l2).
Proof.
  induction l1 as [|z l1 IH]; simpl; intros HN.
  - repeat split; auto. constructor.
  - inversion HN as [|? ? Hz HN']; subst.
    destruct (IH HN') as (N1 & N2 & D). repeat split; auto.
    + constructor; auto. intros HI. apply Hz. apply in_or_app. auto.
    + intros x [<-|HI] HI2; [apply Hz; apply in_or_app; auto|].
      eapply D; eauto.
Qed.
End ListFacts.

Section DictFacts.
Context {V : Type}.
Implicit Types (d : dict V) (k : Player) (v : V).

Lemma lookup_In_keys k d : In k (keys d) <-> exists v, lookup k d = Some v.
Proof.
  induction d as [|[k' v'] d IH]; simpl.
  - split; [tauto | intros [v Hv]; discriminate].
  - destruct (eq_dec k k') as [->|n].
    + split; eauto.
    + rewrite <- IH. split; [intros [E|E]; [congruence | exact E] | auto].
Qed.

Lemma lookup_None k d : lookup k d = None <-> ~ In k (keys d).
Proof.
  rewrite lookup_In_keys. destruct (lookup k d).
  - split; [discriminate | intros HN; exfalso; eauto].
  - split; [intros _ [v Hv]; discriminate | reflexivity].
Qed.

Lemma lookup_In k v d : lookup k d = Some v -> In (k, v) d.
Proof.
  induction d as [|[k' v'] d IH]; simpl; [discriminate|].
  destruct (eq_dec k k') as [->|n].
  - intros [= ->]. auto.
  - auto.
Qed.

Lemma In_lookup k v d : NoDup (keys d) -> In (k, v) d -> lookup k d = Some v.
Proof.
  induction d as [|[k' v'] d IH]; simpl; [tauto|].
  intros HN. inversion HN as [|? ? Hk HN']; subst.
  intros [[= -> ->]|HI].
  - destruct (eq_dec k k); congruence.
  - destruct (eq_dec k k') as [->|n]; [|auto].
    exfalso. apply Hk. change (In (fst (k', v)) (map fst d)).
    apply in_map. exact HI.
Qed.

Lemma lookup_dict_set_eq k v d : lookup k (dict_set k v d) = Some v.
Proof.
  induction d as [|[k' v'] d IH]; simpl.
  - destruct (eq_dec k k); congruence.
  - destruct (eq_dec k k') as [->|n]; simpl.
    + destruct (eq_dec k' k'); congruence.
    + destruct (eq_dec k k'); congruence.
Qed.

Lemma lookup_dict_set_neq k k' v d :
  k' <> k -> lookup k' (dict_set k v d) = lookup k' d.
Proof.
  intros Hn. induction d as [|[k2 v2] d IH]; simpl.
  - destruct (eq_dec k' k); congruence.
  - destruct (eq_dec k k2) as [->|n]; simpl.
    + destruct (eq_dec k' k2); congruence.
    + destruct (eq_dec k' k2); congruence.
Qed.

Lemma keys_dict_set k v d : In k (keys d) -> keys (dict_set k v d) = keys d.
Proof.
  induction d as [|[k' v'] d IH]; simpl; [tauto|].
  intros HI. destruct (eq_dec k k') as [->|n]; simpl; [reflexivity|].
  rewrite IH; [reflexivity | destruct HI; congruence].
Qed.

Lemma lookup_values k v d : lookup k d = Some v -> In v (values d).
Proof.
  intros E. apply lookup_In in E. unfold values.
  change v with (snd (k, v)). apply in_map. exact E.
Qed.

Lemma values_lookup v d :
  In v (values d) -> NoDup (keys d) -> exists k, lookup k d = Some v.
Proof.
  unfold values. rewrite in_map_iff. intros ([k v'] & E & HI) HN.
  simpl in E. subst. exists k. apply In_lookup; assumption.
Qed.
End DictFacts.

Lemma get_lookup d k : In k (keys d) -> lookup k d = Some (get d k).
Proof.
  rewrite lookup_In_keys. intros [v E]. unfold get. rewrite E. reflexivity.
Qed.

Lemma get_dict_set_eq d k v : get (dict_set k v d) k = v.
Proof. unfold get. rewrite lookup_dict_set_eq. reflexivity. Qed.

Lemma get_dict_set_neq d k k' v : k' <> k -> get (dict_set k v d) k' = get d k'.
Proof. intros Hn. unfold get. rewrite lookup_dict_set_neq; auto. Qed.

Lemma get_nonempty_key d k x : In x (get d k) -> In k (keys d).
Proof.
  unfold get. destruct (lookup k d) eqn:E; [|simpl; tauto].
  intros _. apply lookup_In_keys. eauto.
Qed.

(* ===================================================================== *)
(** ** Reasoning about runs *)
(* ===================================================================== *)

Lemma bind_Ok {St A B : Type} (m : M St A) (k : A -> M St B) s s' a :
  m s = (s', Ok a) -> bind m k s = k a s'.
Proof. unfold bind. intros ->. reflexivity. Qed.

Lemma bind_Raise {St A B : Type} (m : M St A) (k : A -> M St B) s s' e :
  m s = (s', Raise e) -> bind m k s = (s', Raise e).
Proof. unfold bind. intros ->. reflexivity. Qed.

Lemma getitem_Ok {St V : Type} (d : dict V) k v (s : St) :
  lookup k d = Some v -> getitem d k s = (s, Ok v).
Proof. unfold getitem. intros ->. reflexivity. Qed.

Lemma getitem_get {St : Type} (d : prefs) k (s : St) :
  In k (keys d) -> getitem d k s = (s, Ok (get d k)).
Proof. intros HI. apply getitem_Ok, get_lookup, HI. Qed.

(** One statement of a sequence: [tac] shows what the first statement does. *)
Ltac st_simpl :=
  unfold set_suitor_prefs, set_reviewer_prefs, set_suitors, set_matching,
    set_hospital_prefs, set_resident_prefs, set_free, set_hr_match in *;
  cbn [suitor_prefs reviewer_prefs suitors matching
       hospital_prefs resident_prefs hr_match free trace fst snd] in *.
Ltac bind_step tac := erewrite bind_Ok by tac; cbv beta; st_simpl.
Ltac bind_pure := bind_step ltac:(reflexivity).

(** The loop rule: an invariant [I] kept by every iteration that returns, a
    measure [mu] that every such iteration decreases, and a condition [E] on
    the exceptions of the body.  With more fuel than the measure the loop does
    not run out of fuel. *)
Lemma while_rule {St : Type} (I : St -> Prop) (E : St -> exn -> Prop)
    (mu : St -> nat) (cond : St -> bool) (body : M St unit) :
  (forall s, I s -> cond s = true ->
     match body s with
     | (s', Ok _) => I s' /\ mu s' < mu s
     | (s', Raise e) => E s' e
     | (_, OutOfFuel) => False
     end) ->
  forall fuel s, I s -> mu s < fuel ->
     match while fuel cond body s with
     | (s', Ok _) => I s' /\ cond s' = false
     | (s', Raise e) => E s' e
     | (_, OutOfFuel) => False
     end.
Proof.
  intros Hbody. induction fuel as [|fuel IH]; intros s HI Hmu; [lia|].
  simpl. destruct (cond s) eqn:Hc; [|auto].
  specialize (Hbody s HI Hc). unfold bind.
  destruct (body s) as [s' [[]|e|]]; auto.
  destruct Hbody as [HI' Hlt]. apply IH; [assumption | lia].
Qed.

(** Without a measure: whatever the fuel, the state a loop stops in (at its
    end, or at the head of the iteration that found no fuel) satisfies the
    invariant. *)
Lemma while_invariant {St : Type} (I : St -> Prop) (E : St -> exn -> Prop)
    (cond : St -> bool) (body : M St unit) :
  (forall s, I s -> cond s = true ->
     match body s with
     | (s', Ok _) => I s'
     | (s', Raise e) => E s' e
     | (s', OutOfFuel) => I s'
     end) ->
  forall fuel s, I s ->
     match while fuel cond body s with
     | (s', Ok _) => I s' /\ cond s' = false
     | (s', Raise e) => E s' e
     | (s', OutOfFuel) => I s'
     end.
Proof.
  intros Hbody. induction fuel as [|fuel IH]; intros s HI.
  - simpl. destruct (cond s) eqn:Hc; auto.
  - simpl. destruct (cond s) eqn:Hc; [|auto].
    specialize (Hbody s HI Hc). unfold bind.
    destruct (body s) as [s' [[]|e|]]; auto.
    apply IH. assumption.
Qed.


(* ===================================================================== *)
(** ** More facts about dictionaries of lists *)
(* ===================================================================== *)

Lemma dict_set_same (d : prefs) k :
  In k (keys d) -> dict_set k (get d k) d = d.
Proof.
  unfold get. induction d as [|[k' v'] d IH]; simpl; [tauto|].
  intros HI. destruct (eq_dec k k') as [->|n]; [reflexivity|].
  rewrite IH; [reflexivity | destruct HI; congruence].
Qed.

Lemma dict_set_twice {V : Type} (d : dict V) k v v' :
  dict_set k v (dict_set k v' d) = dict_set k v d.
Proof.
  induction d as [|[k' w] d IH]; simpl.
  - destruct (eq_dec k k); congruence.
  - destruct (eq_dec k k') as [->|n]; simpl.
    + destruct (eq_dec k' k'); congruence.
    + destruct (eq_dec k k'); congruence.
Qed.

Lemma get_dict_set d k k' v :
  get (dict_set k v d) k' = if eq_dec k' k then v else get d k'.
Proof.
  destruct (eq_dec k' k) as [->|n].
  - apply get_dict_set_eq.
  - apply get_dict_set_neq. assumption.
Qed.

Lemma keys_prune_from o xs d :
  (forall x, In x xs -> In x (keys d)) -> keys (prune_from o xs d) = keys d.
Proof.
  unfold prune_from. revert d. induction xs as [|x xs IH]; simpl; intros d Hk.
  - reflexivity.
  - rewrite IH.
    + apply keys_dict_set. auto.
    + intros y Hy. rewrite keys_dict_set; auto.
Qed.

Lemma get_prune_from_notin o xs d k :
  ~ In k xs -> get (prune_from o xs d) k = get d k.
Proof.
  unfold prune_from. revert d. induction xs as [|x xs IH]; simpl; intros d Hn.
  - reflexivity.
  - rewrite IH by tauto. apply get_dict_set_neq. intros ->. tauto.
Qed.

Lemma get_prune_from_in o xs d k :
  NoDup xs -> In k xs -> get (prune_from o xs d) k = remove1 o (get d k).
Proof.
  unfold prune_from. revert d. induction xs as [|x xs IH]; simpl; intros d Hn Hi.
  - tauto.
  - inversion Hn as [|? ? Hx Hn']; subst. destruct Hi as [->|Hi].
    + fold (prune_from o xs (dict_set k (remove1 o (get d k)) d)).
      rewrite get_prune_from_notin by assumption. apply get_dict_set_eq.
    + rewrite IH by assumption. rewrite get_dict_set_neq; [reflexivity|].
      intros ->. tauto.
Qed.

Lemma subseq_prune_from o xs d k :
  NoDup xs -> subseq (get (prune_from o xs d) k) (get d k).
Proof.
  intros Hn. destruct (in_dec string_dec k xs) as [Hi|Hi].
  - rewrite get_prune_from_in by assumption. apply subseq_remove1.
  - rewrite get_prune_from_notin by assumption. apply subseq_refl.
Qed.

Lemma sum_over_le f g ks :
  (forall k, In k ks -> f k <= g k) -> sum_over f ks <= sum_over g ks.
Proof.
  induction ks as [|k ks IH]; simpl; intros Hle; [lia|].
  specialize (IH (fun k' Hk => Hle k' (or_intror Hk))).
  specialize (Hle k (or_introl eq_refl)). lia.
Qed.

Lemma sum_over_lt f g ks k0 :
  In k0 ks -> f k0 < g k0 ->
  (forall k, In k ks -> f k <= g k) -> sum_over f ks < sum_over g ks.
Proof.
  induction ks as [|k ks IH]; simpl; intros Hi Hlt Hle; [tauto|].
  pose proof (Hle k (or_introl eq_refl)) as Hk.
  assert (Hrest : forall k', In k' ks -> f k' <= g k') by auto.
  destruct Hi as [->|Hi].
  - pose proof (sum_over_le f g ks Hrest). lia.
  - specialize (IH Hi Hlt Hrest). lia.
Qed.

Lemma consistent_sym sp rp : consistent sp rp -> consistent rp sp.
Proof.
  intros [A B C D E]. constructor; auto. intros s r. symmetry. apply E.
Qed.

(* ===================================================================== *)
(** ** stable_marriage: one iteration *)
(* ===================================================================== *)

Lemma index_values_keys {V : Type} `{EqDec V} (m : dict V) (v : V) i :
  index v (values m) = Some i ->
  exists k, nth_error (keys m) i = Some k /\ In (k, v) m.
Proof.
  revert i. induction m as [|[k' v'] m IH]; simpl; [discriminate|].
  intros i. destruct (eq_dec v v') as [->|n].
  - intros [= <-]. exists k'. simpl. auto.
  - destruct (index v (values m)) as [j|] eqn:E; [|discriminate].
    intros [= <-]. destruct (IH j eq_refl) as (k & Hk & Hi).
    exists k. simpl. auto.
Qed.

Lemma partner_of_Some m r cp :
  NoDup (keys m) -> partner_of r m = Some cp -> lookup cp m = Some (Some r).
Proof.
  unfold partner_of. intros Hn.
  destruct (index (Some r) (values m)) as [i|] eqn:E; [|discriminate].
  destruct (index_values_keys _ _ E) as (k & Hk & Hi).
  rewrite Hk. intros [= <-]. apply In_lookup; assumption.
Qed.

Lemma partner_of_None m r :
  partner_of r m = None -> forall k, lookup k m <> Some (Some r).
Proof.
  unfold partner_of. intros Hp k Hk.
  apply lookup_values in Hk. apply index_In in Hk. destruct Hk as [i Hi].
  rewrite Hi in Hp. destruct (index_values_keys _ _ Hi) as (k' & Hk' & _).
  congruence.
Qed.

Lemma sm_displace_eq sp rp q m r :
  sm_displace r (mk_sm_state sp rp q m) =
  (mk_sm_state sp rp
     (match partner_of r m with Some cp => q ++ [cp] | None => q end)
     (match partner_of r m with Some cp => dict_set cp None m | None => m end),
   Ok tt).
Proof.
  unfold sm_displace, partner_of, bind, gets. simpl.
  destruct (mem (Some r) (values m)) eqn:Hm.
  - apply mem_In in Hm. destruct (index_In _ _ Hm) as [i Hi]. rewrite Hi.
    destruct (index_values_keys _ _ Hi) as (k & Hk & _). rewrite Hk.
    reflexivity.
  - apply mem_false in Hm. apply index_None in Hm. rewrite Hm. reflexivity.
Qed.

Lemma reviewer_prefs_remove_eq sp rp q m who x :
  In who (keys rp) -> In x (get rp who) ->
  reviewer_prefs_remove who x (mk_sm_state sp rp q m) =
  (mk_sm_state sp (dict_set who (remove1 x (get rp who)) rp) q m, Ok tt).
Proof.
  intros Hk Hx. unfold reviewer_prefs_remove, bind, gets. simpl.
  rewrite (getitem_get _ _ _ Hk).
  apply mem_In in Hx. rewrite Hx. reflexivity.
Qed.

Lemma suitor_prefs_remove_eq sp rp q m who x :
  In who (keys sp) -> In x (get sp who) ->
  suitor_prefs_remove who x (mk_sm_state sp rp q m) =
  (mk_sm_state (dict_set who (remove1 x (get sp who)) sp) rp q m, Ok tt).
Proof.
  intros Hk Hx. unfold suitor_prefs_remove, bind, gets. simpl.
  rewrite (getitem_get _ _ _ Hk).
  apply mem_In in Hx. rewrite Hx. reflexivity.
Qed.

(** Lines 69-71: the reviewer's list loses the successors, and every
    successor's list loses the reviewer. *)
Lemma sm_prune_loop r pre q m : forall succs sp rp,
  In r (keys rp) ->
  get rp r = pre ++ succs ->
  NoDup (pre ++ succs) ->
  (forall x, In x succs -> In x (keys sp) /\ In r (get sp x)) ->
  for_each succs (fun successor =>
      reviewer_prefs_remove r successor ;;;
      suitor_prefs_remove successor r) (mk_sm_state sp rp q m) =
  (mk_sm_state (prune_from r succs sp) (dict_set r pre rp) q m, Ok tt).
Proof.
  induction succs as [|x succs IH]; intros sp rp Hr Hg Hn Hx.
  - simpl. unfold ret. rewrite app_nil_r in Hg. rewrite <- Hg.
    rewrite dict_set_same by assumption. reflexivity.
  - simpl. unfold bind at 1. unfold bind at 1.
    destruct (NoDup_app_inv _ _ Hn) as (Np & Ns & Hd).
    inversion Ns as [|? ? Hxs Ns']; subst.
    rewrite reviewer_prefs_remove_eq;
      [|assumption | rewrite Hg; apply in_or_app; simpl; auto].
    destruct (Hx x (or_introl eq_refl)) as [Hkx Hrx].
    rewrite suitor_prefs_remove_eq by assumption.
    rewrite Hg.
    assert (Hxp : ~ In x pre) by (intros Hi; apply (Hd x Hi); simpl; auto).
    rewrite remove1_app_notin, remove1_head by assumption.
    rewrite IH.
    + rewrite dict_set_twice. reflexivity.
    + rewrite keys_dict_set; assumption.
    + apply get_dict_set_eq.
    + apply NoDup_remove in Hn. tauto.
    + intros y Hy. destruct (Hx y (or_intror Hy)) as [Hky Hry].
      rewrite keys_dict_set by assumption. split; [assumption|].
      rewrite get_dict_set_neq; [assumption|]. intros ->. tauto.
Qed.

Lemma firstn_index_split (x : Player) pre suc :
  ~ In x pre ->
  firstn (List.length pre + 1) (pre ++ x :: suc) = pre ++ [x] /\
  skipn (List.length pre + 1) (pre ++ x :: suc) = suc.
Proof.
  intros _. replace (pre ++ x :: suc) with ((pre ++ [x]) ++ suc)
    by (rewrite <- app_assoc; reflexivity).
  assert (L : List.length (pre ++ [x]) = List.length pre + 1)
    by (rewrite length_app; reflexivity).
  rewrite <- L. split.
  - rewrite firstn_app, Nat.sub_diag, firstn_all. simpl. apply app_nil_r.
  - rewrite skipn_app, Nat.sub_diag, skipn_all. reflexivity.
Qed.

(** An iteration that finds a reviewer in the suitor's list and the suitor in
    the reviewer's list ends in [sm_next]. *)
Lemma sm_body_eq st s q r l' :
  suitors st = s :: q ->
  In s (keys (suitor_prefs st)) ->
  get (suitor_prefs st) s = r :: l' ->
  In r (keys (reviewer_prefs st)) ->
  In s (get (reviewer_prefs st) r) ->
  NoDup (get (reviewer_prefs st) r) ->
  (forall x, In x (get (reviewer_prefs st) r) ->
             In x (keys (suitor_prefs st)) /\ In r (get (suitor_prefs st) x)) ->
  sm_body st = (sm_next st s r, Ok tt).
Proof.
  destruct st as [sp rp qs m]. simpl. intros -> Hs Hg Hr Hsr Hn Hx.
  unfold sm_body, sm_next. simpl.
  bind_pure. bind_pure. bind_step ltac:(apply getitem_get; exact Hs).
  rewrite Hg. bind_pure.
  bind_step ltac:(apply sm_displace_eq).
  bind_pure. bind_pure.
  bind_step ltac:(apply getitem_get; exact Hr).
  destruct (index_In _ _ Hsr) as [i Hi]. rewrite Hi.
  destruct (index_split _ _ Hi) as (pre & suc & Hl & Hlen & Hnp & Hsk).
  rewrite Hsk. rewrite sm_prune_loop with (pre := pre ++ [s]).
  - f_equal. f_equal. f_equal. rewrite Hl, <- Hlen.
    symmetry. apply firstn_index_split. assumption.
  - assumption.
  - rewrite Hl, <- app_assoc. reflexivity.
  - rewrite <- app_assoc. simpl. rewrite <- Hl. assumption.
  - intros x Hxi. apply Hx. rewrite Hl. apply in_or_app. simpl. auto.
Qed.

(** A suitor with an empty list stops the run with [IndexError]. *)
Lemma sm_body_empty st s q :
  suitors st = s :: q ->
  In s (keys (suitor_prefs st)) ->
  get (suitor_prefs st) s = [] ->
  sm_body st = (set_suitors q st, Raise IndexError).
Proof.
  destruct st as [sp rp qs m]. simpl. intros -> Hs Hg.
  unfold sm_body. bind_pure. bind_pure.
  bind_step ltac:(apply getitem_get; exact Hs). rewrite Hg.
  reflexivity.
Qed.

(* ===================================================================== *)
(** ** stable_marriage: the invariant of the loop *)
(* ===================================================================== *)

Lemma app_snoc_last {A : Type} (l1 l2 l' : list A) x y :
  l1 ++ x :: l2 = l' ++ [y] -> x <> y -> In y l2.
Proof.
  intros E Hn. destruct (exists_last (l := x :: l2)) as (l2' & z & Hz);
    [discriminate|].
  rewrite Hz, app_assoc in E. apply app_inj_tail in E. destruct E as [_ ->].
  destruct l2' as [|w l2']; simpl in Hz.
  - congruence.
  - injection Hz as _ ->. apply in_or_app. simpl. auto.
Qed.

Lemma NoDup_prefix {A : Type} (l1 l2 : list A) : NoDup (l1 ++ l2) -> NoDup l1.
Proof.
  induction l1 as [|x l1 IH]; simpl; intros Hn; [constructor|].
  inversion Hn as [|? ? Hx Hn']; subst. constructor; auto.
  intros Hi. apply Hx. apply in_or_app. auto.
Qed.

Section SmInvariant.
Variables sp0 rp0 : prefs.
Hypothesis Hcons : consistent sp0 rp0.

Lemma sm_inv_nodup_s st s :
  sm_inv sp0 rp0 st -> NoDup (get (suitor_prefs st) s).
Proof.
  intros I. eapply subseq_NoDup; [apply (smv_sub_s I)|].
  apply (cons_strict_l Hcons).
Qed.

Lemma sm_inv_nodup_r st r :
  sm_inv sp0 rp0 st -> NoDup (get (reviewer_prefs st) r).
Proof.
  intros I. destruct (smv_pre_r I r) as [tail E].
  apply NoDup_prefix with (l2 := tail). rewrite <- E.
  apply (cons_strict_r Hcons).
Qed.

Lemma sm_inv_key_r st s r :
  sm_inv sp0 rp0 st -> In r (get (suitor_prefs st) s) ->
  In r (keys (reviewer_prefs st)).
Proof.
  intros I Hi. apply (smv_mutual I) in Hi. eapply get_nonempty_key; eauto.
Qed.

Lemma sm_inv_key_s st s r :
  sm_inv sp0 rp0 st -> In s (get (reviewer_prefs st) r) ->
  In s (keys (suitor_prefs st)).
Proof.
  intros I Hi. apply (smv_mutual I) in Hi. eapply get_nonempty_key; eauto.
Qed.

Lemma sm_inv_head_key st s q :
  sm_inv sp0 rp0 st -> suitors st = s :: q ->
  lookup s (matching st) = Some None /\ In s (keys (suitor_prefs st)).
Proof.
  intros I Hq.
  assert (Hs : lookup s (matching st) = Some None).
  { apply (smv_queue I). rewrite Hq. simpl. auto. }
  split; [assumption|].
  rewrite (smv_keys_s I), <- (smv_keys_m I).
  apply lookup_In_keys. eauto.
Qed.

(** Two suitors matched to one reviewer are the same suitor. *)
Lemma sm_inv_injective st a b r :
  sm_inv sp0 rp0 st ->
  lookup a (matching st) = Some (Some r) ->
  lookup b (matching st) = Some (Some r) -> a = b.
Proof.
  intros I Ha Hb.
  destruct (smv_matched I _ Ha) as [_ [p1 E1]].
  destruct (smv_matched I _ Hb) as [_ [p2 E2]].
  rewrite E1 in E2. apply app_inj_tail in E2. tauto.
Qed.

(** The iteration of [sm_body_eq] runs under the invariant. *)
Lemma sm_inv_body st s q r l' :
  sm_inv sp0 rp0 st ->
  suitors st = s :: q ->
  get (suitor_prefs st) s = r :: l' ->
  sm_body st = (sm_next st s r, Ok tt).
Proof.
  intros I Hq Hg. destruct (sm_inv_head_key I Hq) as [Hm Hs].
  assert (Hr : In r (get (suitor_prefs st) s)) by (rewrite Hg; simpl; auto).
  eapply sm_body_eq; eauto.
  - eapply sm_inv_key_r; eauto.
  - apply (smv_mutual I). assumption.
  - apply sm_inv_nodup_r. assumption.
  - intros x Hx. split.
    + eapply sm_inv_key_s; eauto.
    + apply (smv_mutual I). assumption.
Qed.

Lemma sm_next_inv st s q r l' :
  sm_inv sp0 rp0 st ->
  suitors st = s :: q ->
  get (suitor_prefs st) s = r :: l' ->
  sm_inv sp0 rp0 (sm_next st s r) /\
  sm_measure (sm_next st s r) < sm_measure st.
Proof.
  intros I Hq Hg. destruct (sm_inv_head_key I Hq) as [Hm Hs].
  assert (Hrs : In r (get (suitor_prefs st) s)) by (rewrite Hg; simpl; auto).
  assert (Hsr : In s (get (reviewer_prefs st) r)) by (apply (smv_mutual I); auto).
  assert (Hrk : In r (keys (reviewer_prefs st))) by (eapply sm_inv_key_r; eauto).
  pose proof (sm_inv_nodup_r r I) as Hnr.
  destruct (index_In _ _ Hsr) as [i Hi].
  destruct (index_split _ _ Hi) as (pre & suc & Hl & Hlen & Hnp & Hsk).
  subst i. rewrite Hl in Hnr.
  destruct (NoDup_app_inv _ _ Hnr) as (Npre & Nsuc' & Hdis).
  apply NoDup_cons_iff in Nsuc'. destruct Nsuc' as [Hs_suc Nsuc].
  assert (Hfst : firstn (List.length pre + 1) (get (reviewer_prefs st) r)
                 = pre ++ [s])
    by (rewrite Hl; apply firstn_index_split; assumption).
  assert (Hsuc_pre : forall x, In x suc -> ~ In x (pre ++ [s])).
  { intros x Hx Hin. apply in_app_or in Hin. destruct Hin as [Hin|[<-|[]]].
    - apply (Hdis x Hin). simpl. auto.
    - tauto. }
  assert (Hsuc_keys : forall x, In x suc -> In x (keys (suitor_prefs st))).
  { intros x Hx. apply (sm_inv_key_s x r I).
    rewrite Hl. apply in_or_app. simpl. auto. }
  assert (Hkm_s : In s (keys (matching st)))
    by (apply lookup_In_keys; eauto).
  (* the displaced partner, if any *)
  assert (Hcp : match partner_of r (matching st) with
                | Some cp => lookup cp (matching st) = Some (Some r)
                             /\ cp <> s /\ In cp suc
                | None => forall k, lookup k (matching st) <> Some (Some r)
                end).
  { destruct (partner_of r (matching st)) as [cp|] eqn:Ep.
    - assert (Hc : lookup cp (matching st) = Some (Some r)).
      { apply partner_of_Some; [|assumption].
        rewrite (smv_keys_m I). apply (cons_keys_l Hcons). }
      assert (cp <> s) by congruence.
      repeat split; auto.
      destruct (smv_matched I _ Hc) as [_ [p E]].
      rewrite Hl in E. eapply app_snoc_last; eauto.
    - apply partner_of_None. assumption. }
  unfold sm_next. rewrite Hi, Hsk, Hfst, Hq. cbn [tl].
  set (m1 := match partner_of r (matching st) with
             | Some cp => dict_set cp None (matching st)
             | None => matching st
             end).
  assert (Hm1_keys : keys m1 = keys (matching st)).
  { unfold m1. destruct (partner_of r (matching st)) as [cp|]; [|reflexivity].
    apply keys_dict_set. apply lookup_In_keys. destruct Hcp as [Hc _]. eauto. }
  assert (Hm1 : forall a,
             lookup a m1 =
             match partner_of r (matching st) with
             | Some cp => if eq_dec a cp then Some None
                          else lookup a (matching st)
             | None => lookup a (matching st)
             end).
  { intros a. unfold m1. destruct (partner_of r (matching st)) as [cp|];
      [|reflexivity].
    destruct (eq_dec a cp) as [->|n].
    - apply lookup_dict_set_eq.
    - apply lookup_dict_set_neq. assumption. }
  assert (Hm' : forall a,
             lookup a (dict_set s (Some r) m1) =
             if eq_dec a s then Some (Some r) else lookup a m1).
  { intros a. destruct (eq_dec a s) as [->|n].
    - apply lookup_dict_set_eq.
    - apply lookup_dict_set_neq. assumption. }
  assert (Hsp' : forall a,
             get (prune_from r suc (suitor_prefs st)) a =
             if in_dec string_dec a suc
             then remove1 r (get (suitor_prefs st) a)
             else get (suitor_prefs st) a).
  { intros a. destruct (in_dec string_dec a suc).
    - apply get_prune_from_in; assumption.
    - apply get_prune_from_notin; assumption. }
  split.
  - constructor; st_simpl.
    + (* keys of the suitors *)
      rewrite keys_prune_from by assumption. apply (smv_keys_s I).
    + rewrite keys_dict_set by assumption. apply (smv_keys_r I).
    + rewrite keys_dict_set; rewrite Hm1_keys; [apply (smv_keys_m I)|assumption].
    + (* subsequences *)
      intros a. eapply subseq_trans;
        [apply subseq_prune_from; assumption | apply (smv_sub_s I)].
    + (* prefixes *)
      intros b. rewrite get_dict_set. destruct (eq_dec b r) as [->|n].
      * destruct (smv_pre_r I r) as [tail E]. exists (suc ++ tail).
        rewrite E, Hl, <- !app_assoc. reflexivity.
      * apply (smv_pre_r I).
    + (* mutual ranking *)
      intros a b. rewrite Hsp', get_dict_set.
      destruct (in_dec string_dec a suc) as [Ha|Ha];
        destruct (eq_dec b r) as [->|n].
      * split.
        -- intros Hin. exfalso.
           eapply NoDup_remove1_notin; [|exact Hin].
           apply sm_inv_nodup_s. assumption.
        -- intros Hin. exfalso. eapply Hsuc_pre; eauto.
      * rewrite <- (smv_mutual I). split.
        -- apply In_remove1.
        -- apply In_remove1_neq. assumption.
      * rewrite (smv_mutual I), Hl. rewrite !in_app_iff. simpl.
        intuition.
      * apply (smv_mutual I).
    + (* matched pairs *)
      intros a b. rewrite Hm'. destruct (eq_dec a s) as [->|n].
      * intros [= <-]. rewrite Hsp', get_dict_set_eq.
        destruct (in_dec string_dec s suc); [tauto|].
        rewrite Hg. simpl. eauto.
      * intros Ha.
        assert (Ha0 : lookup a (matching st) = Some (Some b)).
        { rewrite Hm1 in Ha.
          destruct (partner_of r (matching st)); [|assumption].
          destruct (eq_dec a p); [discriminate | assumption]. }
        assert (Hbr : b <> r).
        { intros ->. rewrite Hm1 in Ha.
          destruct (partner_of r (matching st)) as [cp|].
          - destruct (eq_dec a cp) as [->|n']; [discriminate|].
            destruct Hcp as [Hc _]. apply n'.
            eapply sm_inv_injective; eauto.
          - eapply Hcp; eauto. }
        destruct (smv_matched I _ Ha0) as [Hh [p E]].
        rewrite Hsp', get_dict_set_neq by assumption. split; [|eauto].
        destruct (in_dec string_dec a suc); [|assumption].
        apply hd_remove1_neq; auto.
    + (* the queue has no duplicates *)
      pose proof (smv_queue_nodup I) as Hnq. rewrite Hq in Hnq.
      apply NoDup_cons_iff in Hnq. destruct Hnq as [Hsq Hnq']. simpl.
      destruct (partner_of r (matching st)) as [cp|]; [|assumption].
      destruct Hcp as (Hc & Hne & _).
      assert (Hcq : ~ In cp q).
      { intros Hin.
        assert (Hx : lookup cp (matching st) = Some None)
          by (apply (smv_queue I); rewrite Hq; simpl; auto).
        congruence. }
      clear - Hnq' Hcq. induction q as [|x q IH]; simpl.
      -- constructor; [simpl; tauto | constructor].
      -- inversion Hnq'; subst. constructor.
         ++ rewrite in_app_iff. simpl in *. intuition.
         ++ apply IH; simpl in *; tauto.
    + (* the queue holds the unmatched suitors *)
      pose proof (smv_queue_nodup I) as Hnq. rewrite Hq in Hnq.
      apply NoDup_cons_iff in Hnq. destruct Hnq as [Hsq Hnq'].
      intros a. rewrite Hm', Hm1. simpl.
      pose proof (smv_queue I a) as Hqa. rewrite Hq in Hqa. simpl in Hqa.
      destruct (eq_dec a s) as [->|n].
      * destruct (partner_of r (matching st)) as [cp|].
        -- destruct Hcp as (_ & Hne & _). rewrite in_app_iff. simpl.
           split; [intros [?|[?|[]]]; [tauto | congruence] | discriminate].
        -- split; [tauto | discriminate].
      * destruct (partner_of r (matching st)) as [cp|].
        -- destruct Hcp as (Hc & Hne & _). rewrite in_app_iff. simpl.
           destruct (eq_dec a cp) as [->|n'].
           ++ split; auto.
           ++ rewrite <- Hqa. intuition congruence.
        -- rewrite <- Hqa. intuition congruence.
    + (* a shortened reviewer's list belongs to a matched reviewer *)
      intros b. rewrite get_dict_set. destruct (eq_dec b r) as [->|n].
      * intros _. exists s. rewrite Hm'.
        destruct (eq_dec s s); congruence.
      * intros Hne. destruct (smv_cut I _ Hne) as [a Ha]. exists a.
        rewrite Hm', Hm1.
        destruct (eq_dec a s) as [->|n1]; [congruence|].
        destruct (partner_of r (matching st)) as [cp|]; [|assumption].
        destruct Hcp as (Hc & _).
        destruct (eq_dec a cp) as [->|n2]; [congruence | assumption].
  - (* the measure *)
    unfold sm_measure. st_simpl. rewrite Hq. simpl.
    rewrite keys_dict_set by assumption.
    assert (Hle : forall k, In k (keys (reviewer_prefs st)) ->
        List.length (get (dict_set r (pre ++ [s]) (reviewer_prefs st)) k)
        <= List.length (get (reviewer_prefs st) k)).
    { intros k _. rewrite get_dict_set. destruct (eq_dec k r) as [->|n].
      - rewrite Hl, !length_app. simpl. lia.
      - lia. }
    destruct (partner_of r (matching st)) as [cp|].
    + destruct Hcp as (_ & _ & Hin). rewrite length_app. simpl.
      enough (sum_over
                (fun k => List.length
                   (get (dict_set r (pre ++ [s]) (reviewer_prefs st)) k))
                (keys (reviewer_prefs st))
              < sum_over (fun k => List.length (get (reviewer_prefs st) k))
                  (keys (reviewer_prefs st))) by lia.
      eapply sum_over_lt with (k0 := r); [assumption | | exact Hle].
      rewrite get_dict_set_eq, Hl, !length_app. simpl.
      destruct suc; [destruct Hin | simpl; lia].
    + pose proof (sum_over_le _ _ _ Hle). lia.
Qed.
End SmInvariant.

(* ===================================================================== *)
(** ** stable_marriage: the whole loop *)
(* ===================================================================== *)

Lemma keys_init {V : Type} (ks : list Player) (v : V) :
  keys (map (fun k => (k, v)) ks) = ks.
Proof.
  unfold keys. rewrite map_map. simpl. apply map_id.
Qed.

Lemma lookup_init {V : Type} (ks : list Player) (v : V) k :
  lookup k (map (fun k => (k, v)) ks) = if in_dec string_dec k ks then Some v else None.
Proof.
  induction ks as [|k' ks IH]; simpl; [reflexivity|].
  destruct (eq_dec k k') as [->|n].
  - destruct (string_dec k' k'); [reflexivity | congruence].
  - rewrite IH. destruct (string_dec k' k); [congruence|].
    destruct (in_dec string_dec k ks); reflexivity.
Qed.

Lemma sm_init_inv sp0 rp0 :
  consistent sp0 rp0 -> sm_inv sp0 rp0 (sm_init sp0 rp0).
Proof.
  intros C. unfold sm_init. constructor; st_simpl.
  - reflexivity.
  - reflexivity.
  - apply keys_init.
  - intros s. apply subseq_refl.
  - intros r. exists []. symmetry. apply app_nil_r.
  - apply (cons_mutual C).
  - intros s r. rewrite lookup_init.
    destruct (in_dec string_dec s (keys sp0)); discriminate.
  - apply (cons_keys_l C).
  - intros s. rewrite lookup_init.
    destruct (in_dec string_dec s (keys sp0)); split; auto; try tauto.
    discriminate.
  - intros r Hne. congruence.
Qed.

Lemma index_app_ge {A : Type} `{EqDec A} (x : A) l1 l2 i :
  ~ In x l1 -> index x (l1 ++ l2) = Some i -> List.length l1 <= i.
Proof.
  revert i. induction l1 as [|y l1 IH]; simpl; intros i Hn; [lia|].
  destruct (eq_dec x y) as [->|n]; [tauto|].
  destruct (index x (l1 ++ l2)) as [j|] eqn:E; [|discriminate].
  intros [= <-]. specialize (IH j (fun Hi => Hn (or_intror Hi)) eq_refl). lia.
Qed.

Lemma NoDup_map_Some {A : Type} (l : list A) :
  NoDup l -> NoDup (map Some l).
Proof.
  induction 1 as [|x l Hx Hl IH]; simpl; constructor; auto.
  rewrite in_map_iff. intros (y & [= ->] & Hy). tauto.
Qed.

Section SmTotal.
Variables sp0 rp0 : prefs.

(** With complete lists over equal-sized sides, the suitor at the head of
    the queue always has somebody left to propose to. *)
Lemma sm_inv_nonempty st s q :
  sm_instance sp0 rp0 ->
  sm_inv sp0 rp0 st ->
  suitors st = s :: q ->
  get (suitor_prefs st) s <> [].
Proof.
  intros [C Hcomp Hsz] I Hq Hempty.
  destruct (sm_inv_head_key I Hq) as [Hm Hs].
  rewrite (smv_keys_s I) in Hs.
  set (vs := values (matching st)).
  assert (Hall : incl (map Some (keys rp0)) (remove1 None vs)).
  { intros v Hv. apply in_map_iff in Hv. destruct Hv as (r & <- & Hr).
    apply In_remove1_neq; [discriminate|].
    assert (Hne : get (reviewer_prefs st) r <> get rp0 r).
    { intros E.
      assert (Hin : In s (get rp0 r))
        by (apply (cons_mutual C); apply Hcomp; assumption).
      rewrite <- E in Hin. apply (smv_mutual I) in Hin.
      rewrite Hempty in Hin. destruct Hin. }
    destruct (smv_cut I _ Hne) as [a Ha].
    eapply lookup_values; eauto. }
  apply NoDup_incl_length in Hall;
    [|apply NoDup_map_Some; apply (cons_keys_r C)].
  assert (Hnone : In None vs) by (eapply lookup_values; eauto).
  pose proof (length_remove1 _ _ Hnone) as Hlen.
  assert (Hvs : List.length vs = List.length rp0).
  { unfold vs, values. rewrite length_map, <- Hsz.
    rewrite <- (length_map fst (matching st)), <- (length_map fst sp0).
    fold (keys (matching st)). fold (keys sp0).
    rewrite (smv_keys_m I). reflexivity. }
  rewrite length_map in Hall. unfold keys in Hall.
  rewrite length_map in Hall. lia.
Qed.

(** The loop under consistent inputs: it ends, and the only exception it can
    raise is the [IndexError] of a suitor whose list is empty. *)
Lemma sm_loop_consistent fuel :
  consistent sp0 rp0 ->
  sm_measure (sm_init sp0 rp0) < fuel ->
  match sm_loop fuel (sm_init sp0 rp0) with
  | (st, Ok _) => sm_inv sp0 rp0 st /\ suitors st = []
  | (st, Raise e) => e = IndexError
  | (_, OutOfFuel) => False
  end.
Proof.
  intros C Hfuel. unfold sm_loop.
  pose proof (while_rule (sm_inv sp0 rp0) (fun _ e => e = IndexError)
                sm_measure (fun s => nonempty (suitors s)) sm_body) as W.
  assert (Hbody : forall s, sm_inv sp0 rp0 s -> nonempty (suitors s) = true ->
     match sm_body s with
     | (s', Ok _) => sm_inv sp0 rp0 s' /\ sm_measure s' < sm_measure s
     | (s', Raise e) => e = IndexError
     | (_, OutOfFuel) => False
     end).
  { intros s I Hc. destruct (suitors s) as [|x q] eqn:Hq; [discriminate|].
    destruct (get (suitor_prefs s) x) as [|r l'] eqn:Hg.
    - destruct (sm_inv_head_key I Hq) as [_ Hk].
      rewrite (sm_body_empty _ Hq Hk Hg). reflexivity.
    - rewrite (sm_inv_body C I Hq Hg). eapply sm_next_inv; eauto. }
  specialize (W Hbody fuel (sm_init sp0 rp0) (sm_init_inv C) Hfuel).
  destruct (while fuel _ sm_body (sm_init sp0 rp0)) as [st [[]|e|]]; auto.
  destruct W as [I Hc]. split; [assumption|].
  destruct (suitors st); [reflexivity | discriminate].
Qed.

(** The loop on a complete instance: it ends without an exception. *)
Lemma sm_loop_complete fuel :
  sm_instance sp0 rp0 ->
  sm_measure (sm_init sp0 rp0) < fuel ->
  exists st, sm_loop fuel (sm_init sp0 rp0) = (st, Ok tt)
             /\ sm_inv sp0 rp0 st /\ suitors st = [].
Proof.
  intros SI Hfuel. pose proof (smi_consistent SI) as C. unfold sm_loop.
  pose proof (while_rule (sm_inv sp0 rp0) (fun _ _ => False)
                sm_measure (fun s => nonempty (suitors s)) sm_body) as W.
  assert (Hbody : forall s, sm_inv sp0 rp0 s -> nonempty (suitors s) = true ->
     match sm_body s with
     | (s', Ok _) => sm_inv sp0 rp0 s' /\ sm_measure s' < sm_measure s
     | (s', Raise e) => False
     | (_, OutOfFuel) => False
     end).
  { intros s I Hc. destruct (suitors s) as [|x q] eqn:Hq; [discriminate|].
    destruct (get (suitor_prefs s) x) as [|r l'] eqn:Hg.
    - exfalso. eapply sm_inv_nonempty; eauto.
    - rewrite (sm_inv_body C I Hq Hg). eapply sm_next_inv; eauto. }
  specialize (W Hbody fuel (sm_init sp0 rp0) (sm_init_inv C) Hfuel).
  destruct (while fuel _ sm_body (sm_init sp0 rp0)) as [st [[]|e|]];
    try contradiction.
  destruct W as [I Hc]. exists st.
  split; [reflexivity | split; [assumption|]].
  destruct (suitors st); [reflexivity | discriminate].
Qed.

(** The matching the invariant describes has no blocking pair. *)
Lemma sm_inv_stable st :
  consistent sp0 rp0 -> sm_inv sp0 rp0 st -> stable sp0 rp0 (matching st).
Proof.
  intros C I s r (r' & s' & Hs & Hs' & (i & j & Hi & Hj & Hij)
                  & (i' & j' & Hi' & Hj' & Hij')).
  destruct (smv_matched I _ Hs) as [Hh _].
  destruct (smv_matched I _ Hs') as [_ [pre Hpre]].
  destruct (get (suitor_prefs st) s) as [|x l] eqn:Hg; [discriminate|].
  injection Hh as ->.
  (* [r] was deleted from the list of [s] *)
  assert (Hnr : ~ In r (get (suitor_prefs st) s)).
  { rewrite Hg. intros Hin.
    pose proof (smv_sub_s I s) as Hsub. rewrite Hg in Hsub.
    destruct (index_In _ _ Hin) as [a Ha].
    assert (Hb : index r' (r' :: l) = Some 0)
      by (simpl; destruct (eq_dec r' r'); congruence).
    destruct a as [|a].
    - apply index_nth in Ha. simpl in Ha. injection Ha as <-.
      assert (i = j) by congruence. lia.
    - assert (j < i); [|lia].
      eapply (@subseq_index_mono _ _ (r' :: l) (get sp0 s) r' r 0 (S a) j i);
        eauto; [apply (cons_strict_l C) | lia]. }
  rewrite (smv_mutual I) in Hnr.
  destruct (smv_pre_r I r) as [tail Htail].
  rewrite Htail in Hi', Hj'.
  pose proof (index_app_ge _ _ _ Hnr Hi') as Hge.
  assert (Hin' : In s' (get (reviewer_prefs st) r))
    by (rewrite Hpre; apply in_or_app; simpl; auto).
  destruct (index_In _ _ Hin') as [k Hk].
  pose proof (index_lt _ _ Hk) as Hlt.
  rewrite (index_app_l _ _ tail Hk) in Hj'. injection Hj' as <-. lia.
Qed.
End SmTotal.

(* ===================================================================== *)
(** ** stable_marriage: the call *)
(* ===================================================================== *)

Lemma nodupb_NoDup l : nodupb l = true -> NoDup l.
Proof.
  induction l as [|x l IH]; simpl; [constructor|].
  rewrite andb_true_iff, negb_true_iff. intros [Hx Hl].
  constructor; [apply mem_false; assumption | auto].
Qed.

Lemma get_In (d : prefs) k x : In x (get d k) -> In (k, get d k) d.
Proof.
  intros Hi. apply lookup_In. apply get_lookup.
  eapply get_nonempty_key; eauto.
Qed.

Lemma ranked_back_spec d other :
  ranked_back d other = true ->
  (forall k, NoDup (get d k)) /\
  (forall k x, In x (get d k) -> In k (get other x)).
Proof.
  unfold ranked_back. rewrite forallb_forall. intros Hall. split.
  - intros k. destruct (get d k) as [|x l] eqn:E; [constructor|].
    assert (Hin : In (k, get d k) d) by (apply get_In with (x := x); rewrite E; simpl; auto).
    apply Hall in Hin. rewrite andb_true_iff in Hin. rewrite <- E.
    apply nodupb_NoDup. tauto.
  - intros k x Hx. pose proof (get_In _ _ _ Hx) as Hin.
    apply Hall in Hin. rewrite andb_true_iff, forallb_forall in Hin.
    apply mem_In. apply Hin. assumption.
Qed.

Lemma consistentb_sound sp rp : consistentb sp rp = true -> consistent sp rp.
Proof.
  unfold consistentb. rewrite !andb_true_iff. intros [[[K1 K2] R1] R2].
  destruct (ranked_back_spec _ _ R1) as [N1 M1].
  destruct (ranked_back_spec _ _ R2) as [N2 M2].
  constructor; auto using nodupb_NoDup. intros s r. split; auto.
Qed.

Lemma sm_instanceb_sound sp rp : sm_instanceb sp rp = true -> sm_instance sp rp.
Proof.
  unfold sm_instanceb. rewrite !andb_true_iff. intros [[C Hc] Hs].
  constructor.
  - apply consistentb_sound. assumption.
  - intros s r Hks Hkr. rewrite forallb_forall in Hc.
    apply get_lookup in Hks. apply lookup_In in Hks. apply Hc in Hks.
    rewrite forallb_forall in Hks. apply mem_In. auto.
  - apply Nat.eqb_eq. assumption.
Qed.

Lemma sm_instance_sym sp rp : sm_instance sp rp -> sm_instance rp sp.
Proof.
  intros [C Hc Hs]. constructor.
  - apply consistent_sym. assumption.
  - intros r s Hr Hsk. apply (cons_mutual C). auto.
  - auto.
Qed.

Lemma sm_instance_roles sp rp optimal :
  sm_instance sp rp ->
  sm_instance (proposers sp rp optimal) (acceptors sp rp optimal).
Proof.
  intros SI. unfold proposers, acceptors.
  destruct (string_dec optimal "reviewer"); auto using sm_instance_sym.
Qed.

Lemma sm_fuel_roles sp rp optimal :
  sm_measure (sm_init (proposers sp rp optimal) (acceptors sp rp optimal))
  < sm_fuel sp rp.
Proof.
  unfold sm_fuel, proposers, acceptors.
  destruct (string_dec optimal "reviewer"); lia.
Qed.

(** The call in terms of the loop. *)
Lemma stable_marriage_loop fuel sp rp optimal st r :
  sm_loop fuel (sm_init (proposers sp rp optimal) (acceptors sp rp optimal))
  = (st, r) ->
  stable_marriage fuel sp rp optimal =
  ((if string_dec optimal "reviewer"
    then (reviewer_prefs st, suitor_prefs st)
    else (suitor_prefs st, reviewer_prefs st)),
   match r with
   | Ok _ => Ok (matching st)
   | Raise e => Raise e
   | OutOfFuel => OutOfFuel
   end).
Proof.
  unfold stable_marriage, proposers, acceptors.
  destruct (string_dec optimal "reviewer"); intros ->; destruct r; reflexivity.
Qed.

(** On a complete instance the call returns the matching of a state that
    satisfies the invariant, with an empty queue. *)
Lemma stable_marriage_total sp rp optimal fuel :
  sm_instance sp rp -> sm_fuel sp rp <= fuel ->
  exists st,
    stable_marriage fuel sp rp optimal =
      ((if string_dec optimal "reviewer"
        then (reviewer_prefs st, suitor_prefs st)
        else (suitor_prefs st, reviewer_prefs st)), Ok (matching st)) /\
    sm_inv (proposers sp rp optimal) (acceptors sp rp optimal) st /\
    suitors st = [].
Proof.
  intros SI Hfuel.
  destruct (@sm_loop_complete (proposers sp rp optimal)
              (acceptors sp rp optimal) fuel) as (st & Hl & I & Hq).
  - apply sm_instance_roles. assumption.
  - pose proof (sm_fuel_roles sp rp optimal). lia.
  - exists st. split; [|auto].
    rewrite (stable_marriage_loop _ _ _ _ Hl). reflexivity.
Qed.

Lemma NoDup_values {V : Type} (m : dict V) :
  NoDup (keys m) ->
  (forall k1 k2 v, lookup k1 m = Some v -> lookup k2 m = Some v -> k1 = k2) ->
  NoDup (values m).
Proof.
  induction m as [|[k v] m IH]; simpl; intros Hn Hinj; [constructor|].
  apply NoDup_cons_iff in Hn. destruct Hn as [Hk Hn]. constructor.
  - intros Hv. destruct (values_lookup _ _ Hv Hn) as [k' Hk'].
    assert (Hne : k' <> k).
    { intros ->. apply Hk. apply lookup_In_keys. eauto. }
    apply Hne. apply (Hinj k' k v).
    + destruct (eq_dec k' k); [congruence | assumption].
    + destruct (eq_dec k k); congruence.
  - apply IH; [assumption|]. intros k1 k2 w H1 H2.
    assert (N1 : k1 <> k).
    { intros ->. apply Hk. apply lookup_In_keys. eauto. }
    assert (N2 : k2 <> k).
    { intros ->. apply Hk. apply lookup_In_keys. eauto. }
    apply (Hinj k1 k2 w).
    + destruct (eq_dec k1 k); [congruence | assumption].
    + destruct (eq_dec k2 k); [congruence | assumption].
Qed.

(** The matching of a final state is a bijection. *)
Lemma sm_inv_bijection sp0 rp0 st :
  sm_instance sp0 rp0 -> sm_inv sp0 rp0 st -> suitors st = [] ->
  bijection sp0 rp0 (matching st).
Proof.
  intros [C Hcomp Hsz] I Hq.
  assert (Hkn : NoDup (keys (matching st)))
    by (rewrite (smv_keys_m I); apply (cons_keys_l C)).
  assert (Hsome : forall k v, lookup k (matching st) = Some v ->
                              exists r, v = Some r).
  { intros k [r|] Hv; [eauto|].
    apply (smv_queue I) in Hv. rewrite Hq in Hv. destruct Hv. }
  repeat split.
  - apply (smv_keys_m I).
  - apply (cons_keys_l C).
  - apply (cons_keys_r C).
  - apply NoDup_Permutation_bis.
    + apply NoDup_values; [assumption|].
      intros k1 k2 v H1 H2. destruct (Hsome _ _ H1) as [r ->].
      eapply sm_inv_injective; eauto.
    + unfold values, keys. rewrite !length_map, <- Hsz.
      rewrite <- (length_map fst sp0), <- (length_map fst (matching st)).
      fold (keys sp0). fold (keys (matching st)).
      rewrite (smv_keys_m I). lia.
    + intros v Hv. destruct (values_lookup _ _ Hv Hkn) as [k Hk].
      destruct (Hsome _ _ Hk) as [r ->]. apply in_map.
      destruct (smv_matched I _ Hk) as [Hh _].
      rewrite <- (smv_keys_r I). apply (sm_inv_key_r k r I).
      destruct (get (suitor_prefs st) k); [discriminate|].
      injection Hh as ->. simpl. auto.
Qed.

(* ===================================================================== *)
(** ** hospital_resident: the consistency check and the dispatch *)
(* ===================================================================== *)

Section CheckInputs.
Context {St : Type}.
Variables hp rp : prefs.
Hypothesis Hkeys : forall r h, In h (get rp r) -> In h (keys hp).

(** The check of one resident's list. *)
Lemma check_list resident (s : St) : forall rl,
  (forall h, In h rl -> In h (keys hp)) ->
  for_each rl (fun hospital =>
    hl <- getitem hp hospital ;;
    if negb (mem resident hl) then raise InputConsistencyError
    else ret tt) s =
  (s, if forallb (fun h => mem resident (get hp h)) rl then Ok tt
      else Raise InputConsistencyError).
Proof.
  induction rl as [|h rl IH]; intros Hk; [reflexivity|].
  simpl. destruct (mem resident (get hp h)) eqn:Hm; simpl.
  - erewrite bind_Ok.
    + apply IH. intros h' Hh'. apply Hk. simpl. auto.
    + bind_step ltac:(apply getitem_get; apply Hk; simpl; auto).
      rewrite Hm. reflexivity.
  - apply bind_Raise.
    bind_step ltac:(apply getitem_get; apply Hk; simpl; auto).
    rewrite Hm. reflexivity.
Qed.

(** [_check_inputs] leaves the store alone, and accepts exactly when every
    resident is in the list of every hospital they rank. *)
Lemma check_inputs_eq (s : St) :
  _check_inputs hp rp s =
  (s, if forallb (fun r => forallb (fun h => mem r (get hp h)) (get rp r))
           (keys rp)
      then Ok tt else Raise InputConsistencyError).
Proof.
  unfold _check_inputs.
  assert (Hsub : forall k, In k (keys rp) -> In k (keys rp)) by auto.
  revert Hsub. generalize (keys rp) at 1 3 4. intros ks.
  induction ks as [|r ks IH]; intros Hsub; [reflexivity|].
  simpl.
  destruct (forallb (fun h => mem r (get hp h)) (get rp r)) eqn:Hr; simpl.
  - erewrite bind_Ok.
    + apply IH. intros k Hk. apply Hsub. simpl. auto.
    + bind_step ltac:(apply getitem_get; apply Hsub; simpl; auto).
      rewrite check_list by (intros h Hh; eapply Hkeys; eauto).
      rewrite Hr. reflexivity.
  - apply bind_Raise.
    bind_step ltac:(apply getitem_get; apply Hsub; simpl; auto).
    rewrite check_list by (intros h Hh; eapply Hkeys; eauto).
    rewrite Hr. reflexivity.
Qed.
End CheckInputs.

Lemma check_inputs_Ok {St : Type} hp rp (s : St) :
  residents_ranked hp rp -> _check_inputs hp rp s = (s, Ok tt).
Proof.
  intros Hr. rewrite check_inputs_eq.
  - replace (forallb _ (keys rp)) with true; [reflexivity|].
    symmetry. apply forallb_forall. intros r _.
    apply forallb_forall. intros h Hh. apply mem_In. apply Hr. assumption.
  - intros r h Hh. eapply get_nonempty_key. apply Hr. eassumption.
Qed.

(** [_check_inputs] rejects when some resident ranks a hospital that does not
    rank them (every ranked hospital having a list). *)
Lemma check_inputs_reject {St : Type} hp rp (s : St) :
  (forall r h, In h (get rp r) -> In h (keys hp)) ->
  (exists r h, In h (get rp r) /\ ~ In r (get hp h)) ->
  _check_inputs hp rp s = (s, Raise InputConsistencyError).
Proof.
  intros Hk (r & h & Hin & Hno). rewrite check_inputs_eq by assumption.
  destruct (forallb _ (keys rp)) eqn:E; [|reflexivity].
  exfalso. rewrite forallb_forall in E.
  assert (Hr : In r (keys rp)) by (eapply get_nonempty_key; eauto).
  specialize (E r Hr). rewrite forallb_forall in E.
  apply E in Hin. apply mem_In in Hin. tauto.
Qed.

(** Whatever the check raises is what the call raises, for every value of
    [optimal], and the store is the one of the call. *)
Lemma check_inputs_before_optimal fuel hp rp capacities optimal s e :
  _check_inputs hp rp (hr_init hp rp) = (s, Raise e) ->
  hospital_resident fuel hp rp capacities optimal = (s, Raise e).
Proof.
  intros E. unfold hospital_resident. apply bind_Raise. exact E.
Qed.

Lemma hospital_resident_reject fuel hp rp capacities optimal :
  (forall r h, In h (get rp r) -> In h (keys hp)) ->
  (exists r h, In h (get rp r) /\ ~ In r (get hp h)) ->
  hospital_resident fuel hp rp capacities optimal =
  (hr_init hp rp, Raise InputConsistencyError).
Proof.
  intros Hk Hbad. apply check_inputs_before_optimal.
  apply check_inputs_reject; assumption.
Qed.

(** After a check that passed, the call is the solver [optimal] names. *)
Lemma hospital_resident_dispatch fuel hp rp capacities optimal :
  residents_ranked hp rp ->
  hospital_resident fuel hp rp capacities optimal =
  (if string_dec optimal "resident" then
     hr_resident_optimal fuel hp rp capacities
   else if string_dec optimal "hospital" then
     hr_hospital_optimal fuel hp rp capacities
   else (hr_init hp rp, Raise (InvalidOptimalityOption optimal))).
Proof.
  intros Hr. unfold hospital_resident.
  bind_step ltac:(apply check_inputs_Ok; exact Hr).
  unfold hr_resident_optimal, hr_hospital_optimal.
  destruct (string_dec optimal "resident"); [reflexivity|].
  destruct (string_dec optimal "hospital"); reflexivity.
Qed.

Lemma residents_rankedb_sound hp rp :
  residents_rankedb hp rp = true -> residents_ranked hp rp.
Proof.
  unfold residents_rankedb. rewrite forallb_forall. intros Hall r h Hh.
  assert (Hr : In r (keys rp)) by (eapply get_nonempty_key; eauto).
  specialize (Hall r Hr). rewrite forallb_forall in Hall.
  apply mem_In. auto.
Qed.

(* ===================================================================== *)
(** ** The statements of the HR loops *)
(* ===================================================================== *)

Lemma match_append_eq hp rp m f t h r :
  In h (keys m) ->
  match_append h r (mk_hr_state hp rp m f t) =
  (mk_hr_state hp rp (dict_set h (get m h ++ [r]) m) f
     (dict_set h (get m h ++ [r]) m :: t), Ok tt).
Proof.
  intros Hk. unfold match_append. bind_pure.
  bind_step ltac:(apply getitem_get; exact Hk). reflexivity.
Qed.

Lemma match_remove_eq hp rp m f t h x :
  In h (keys m) -> In x (get m h) ->
  match_remove h x (mk_hr_state hp rp m f t) =
  (mk_hr_state hp rp (dict_set h (remove1 x (get m h)) m) f
     (dict_set h (remove1 x (get m h)) m :: t), Ok tt).
Proof.
  intros Hk Hx. unfold match_remove. bind_pure.
  bind_step ltac:(apply getitem_get; exact Hk).
  apply mem_In in Hx. rewrite Hx. reflexivity.
Qed.

Lemma match_len_eq st h :
  In h (keys (hr_match st)) ->
  match_len h st = (st, Ok (Z.of_nat (List.length (get (hr_match st) h)))).
Proof.
  intros Hk. unfold match_len. bind_pure.
  bind_step ltac:(apply getitem_get; exact Hk). reflexivity.
Qed.

Lemma getitem_cap {St : Type} capacities h (s : St) :
  In h (keys capacities) -> getitem capacities h s = (s, Ok (cap capacities h)).
Proof.
  intros Hk. apply lookup_In_keys in Hk. destruct Hk as [c Hc].
  unfold cap. rewrite Hc. apply getitem_Ok. assumption.
Qed.

Lemma hospital_prefs_remove_eq hp rp m f t who x :
  In who (keys hp) -> In x (get hp who) ->
  hospital_prefs_remove who x (mk_hr_state hp rp m f t) =
  (mk_hr_state (dict_set who (remove1 x (get hp who)) hp) rp m f t, Ok tt).
Proof.
  intros Hk Hx. unfold hospital_prefs_remove. bind_pure.
  bind_step ltac:(apply getitem_get; exact Hk).
  apply mem_In in Hx. rewrite Hx. reflexivity.
Qed.

Lemma resident_prefs_remove_eq hp rp m f t who x :
  In who (keys rp) -> In x (get rp who) ->
  resident_prefs_remove who x (mk_hr_state hp rp m f t) =
  (mk_hr_state hp (dict_set who (remove1 x (get rp who)) rp) m f t, Ok tt).
Proof.
  intros Hk Hx. unfold resident_prefs_remove. bind_pure.
  bind_step ltac:(apply getitem_get; exact Hk).
  apply mem_In in Hx. rewrite Hx. reflexivity.
Qed.

Lemma get_worst_idx_eq {St : Type} h hp m i (s : St) :
  In h (keys hp) -> In h (keys m) ->
  worst_of (get hp h) (get m h) = Some i ->
  _get_worst_idx h hp m s = (s, Ok i).
Proof.
  intros Hh Hm Hw. unfold _get_worst_idx.
  bind_step ltac:(apply getitem_get; exact Hh).
  destruct (get hp h) as [|x hl] eqn:E; [discriminate|].
  bind_step ltac:(apply getitem_get; exact Hm).
  rewrite Hw. reflexivity.
Qed.

Lemma worst_idx_eq st h i :
  In h (keys (hospital_prefs st)) -> In h (keys (hr_match st)) ->
  worst_of (get (hospital_prefs st) h) (get (hr_match st) h) = Some i ->
  worst_idx h st = (st, Ok i).
Proof.
  intros Hh Hm Hw. unfold worst_idx. bind_pure. bind_pure.
  apply get_worst_idx_eq; assumption.
Qed.

(** ** The worst matched resident *)

Lemma list_max1_spec i l :
  In (list_max1 i l) (i :: l) /\ forall j, In j (i :: l) -> j <= list_max1 i l.
Proof.
  unfold list_max1. revert i. induction l as [|k l IH]; intros i; simpl.
  - split; [auto | intros j [<-|[]]; lia].
  - destruct (IH (Nat.max i k)) as [Hin Hle]. split.
    + destruct Hin as [E|Hin]; [|auto].
      rewrite <- E. destruct (Nat.max_spec i k) as [[_ ->]|[_ ->]]; auto.
    + intros j [Hj|[Hj|Hj]].
      * specialize (Hle (Nat.max i k) (or_introl eq_refl)). lia.
      * specialize (Hle (Nat.max i k) (or_introl eq_refl)). lia.
      * apply Hle. simpl. auto.
Qed.

Lemma worst_of_indices hl ml j :
  In j (flat_map (fun resident =>
                    match index resident hl with
                    | Some i => [i]
                    | None => []
                    end)
                 (filter (fun resident => mem resident ml) hl))
  <-> exists x, In x ml /\ index x hl = Some j.
Proof.
  rewrite in_flat_map. split.
  - intros (x & Hx & Hj). apply filter_In in Hx. destruct Hx as [_ Hm].
    apply mem_In in Hm. exists x. split; [assumption|].
    destruct (index x hl); simpl in Hj; [|tauto].
    destruct Hj as [->|[]]. reflexivity.
  - intros (x & Hm & Hi). exists x. split.
    + apply filter_In. split.
      * apply index_nth in Hi. eapply nth_error_In; eauto.
      * apply mem_In. assumption.
    + rewrite Hi. simpl. auto.
Qed.

(** The worst index is the position of a matched resident, and no matched
    resident of the list is further down. *)
Lemma worst_of_Some hl ml i :
  worst_of hl ml = Some i ->
  (exists w, In w ml /\ index w hl = Some i) /\
  (forall x j, In x ml -> index x hl = Some j -> j <= i).
Proof.
  unfold worst_of.
  destruct (flat_map _ _) as [|k idxs] eqn:E; [discriminate|].
  intros [= <-]. destruct (list_max1_spec k idxs) as [Hin Hle]. split.
  - apply worst_of_indices. rewrite E. assumption.
  - intros x j Hx Hj. apply Hle. rewrite <- E. apply worst_of_indices. eauto.
Qed.

Lemma worst_of_None hl ml x :
  worst_of hl ml = None -> In x ml -> ~ In x hl.
Proof.
  unfold worst_of. destruct (flat_map _ _) as [|k idxs] eqn:E; [|discriminate].
  intros _ Hm Hl. destruct (index_In _ _ Hl) as [j Hj].
  assert (In j []) as []. rewrite <- E. apply worst_of_indices. eauto.
Qed.

Lemma worst_of_exists hl ml x :
  In x ml -> In x hl -> exists i, worst_of hl ml = Some i.
Proof.
  intros Hm Hl. destruct (worst_of hl ml) as [i|] eqn:E; [eauto|].
  exfalso. eapply worst_of_None; eauto.
Qed.

(** The resident at the worst index. *)
Lemma worst_of_nth hl ml i :
  worst_of hl ml = Some i ->
  nth_error hl i = Some (nth i hl EmptyString) /\
  In (nth i hl EmptyString) ml /\
  index (nth i hl EmptyString) hl = Some i.
Proof.
  intros Hw. destruct (worst_of_Some _ _ Hw) as [(w & Hm & Hi) _].
  pose proof (index_nth _ _ Hi) as Hn.
  pose proof (@nth_error_nth _ hl i w EmptyString Hn) as E.
  rewrite E. auto.
Qed.

(** Lines 95-98. *)
Lemma hr_evict_eq capacities hp rp m f t h :
  In h (keys m) -> In h (keys capacities) -> In h (keys hp) ->
  ((Z.of_nat (List.length (get m h)) >? cap capacities h)%Z = true ->
   worst_of (get hp h) (get m h) <> None) ->
  hr_evict capacities h (mk_hr_state hp rp m f t) =
  ((if (Z.of_nat (List.length (get m h)) >? cap capacities h)%Z then
      let w := nth (match worst_of (get hp h) (get m h) with
                    | Some i => i
                    | None => 0
                    end) (get hp h) EmptyString in
      mk_hr_state hp rp (dict_set h (remove1 w (get m h)) m) f
        (dict_set h (remove1 w (get m h)) m :: t)
    else mk_hr_state hp rp m f t), Ok tt).
Proof.
  intros Hm Hc Hh Hover. unfold hr_evict.
  bind_step ltac:(apply match_len_eq; exact Hm).
  bind_step ltac:(apply getitem_cap; exact Hc).
  destruct (Z.of_nat (List.length (get m h)) >? cap capacities h)%Z;
    [|reflexivity].
  destruct (worst_of (get hp h) (get m h)) as [i|] eqn:Hw;
    [|exfalso; apply Hover; reflexivity].
  bind_step ltac:(apply worst_idx_eq; [exact Hh | exact Hm | exact Hw]).
  bind_pure. bind_step ltac:(apply getitem_get; exact Hh).
  destruct (worst_of_nth _ _ Hw) as (Hn & Hin & _).
  rewrite Hn. apply match_remove_eq; assumption.
Qed.

(** Lines 104-108: the hospital's list loses the successors, and every
    successor's list loses the hospital. *)
Lemma res_prune_loop h pre m f t : forall succs hp rp,
  In h (keys hp) ->
  get hp h = pre ++ succs ->
  NoDup (pre ++ succs) ->
  (forall x, In x succs -> In x (keys rp)) ->
  for_each succs (fun resident =>
      hospital_prefs_remove h resident ;;;
      rp <- gets resident_prefs ;;
      rl <- getitem rp resident ;;
      if mem h rl then resident_prefs_remove resident h
      else ret tt) (mk_hr_state hp rp m f t) =
  (mk_hr_state (dict_set h pre hp) (prune_from h succs rp) m f t, Ok tt).
Proof.
  induction succs as [|x succs IH]; intros hp rp Hh Hg Hn Hx.
  - simpl. unfold ret. rewrite app_nil_r in Hg. rewrite <- Hg.
    rewrite dict_set_same by assumption. reflexivity.
  - simpl.
    destruct (NoDup_app_inv _ _ Hn) as (Np & Ns & Hd).
    apply NoDup_cons_iff in Ns. destruct Ns as [Hxs Ns].
    assert (Hxp : ~ In x pre) by (intros Hi; apply (Hd x Hi); simpl; auto).
    assert (Hxk : In x (keys rp)) by (apply Hx; simpl; auto).
    assert (Hstep :
      (hospital_prefs_remove h x ;;;
       rp0 <- gets resident_prefs ;;
       rl <- getitem rp0 x ;;
       if mem h rl then resident_prefs_remove x h else ret tt)
        (mk_hr_state hp rp m f t) =
      (mk_hr_state (dict_set h (pre ++ succs) hp)
         (dict_set x (remove1 h (get rp x)) rp) m f t, Ok tt)).
    { bind_step ltac:(apply hospital_prefs_remove_eq;
                      [exact Hh | rewrite Hg; apply in_or_app; simpl; auto]).
      rewrite Hg, remove1_app_notin, remove1_head by assumption.
      bind_pure. bind_step ltac:(apply getitem_get; exact Hxk).
      destruct (mem h (get rp x)) eqn:Hmem.
      - apply resident_prefs_remove_eq; [assumption|].
        apply mem_In. assumption.
      - apply mem_false in Hmem. rewrite remove1_notin by assumption.
        rewrite dict_set_same by assumption. reflexivity. }
    erewrite bind_Ok by exact Hstep.
    rewrite IH.
    + rewrite dict_set_twice. reflexivity.
    + rewrite keys_dict_set; assumption.
    + apply get_dict_set_eq.
    + apply NoDup_remove in Hn. tauto.
    + intros y Hy. rewrite keys_dict_set by assumption. apply Hx. simpl. auto.
Qed.

(** Lines 100-108. *)
Lemma hr_prune_eq capacities hp rp m f t h :
  In h (keys m) -> In h (keys capacities) -> In h (keys hp) ->
  NoDup (get hp h) ->
  (forall x, In x (get hp h) -> In x (keys rp)) ->
  ((Z.of_nat (List.length (get m h)) =? cap capacities h)%Z = true ->
   worst_of (get hp h) (get m h) <> None) ->
  hr_prune capacities h (mk_hr_state hp rp m f t) =
  ((if (Z.of_nat (List.length (get m h)) =? cap capacities h)%Z then
      let i := match worst_of (get hp h) (get m h) with
               | Some i => i
               | None => 0
               end in
      mk_hr_state (dict_set h (firstn (i + 1) (get hp h)) hp)
        (prune_from h (skipn (i + 1) (get hp h)) rp) m f t
    else mk_hr_state hp rp m f t), Ok tt).
Proof.
  intros Hm Hc Hh Hn Hk Hfull. unfold hr_prune.
  bind_step ltac:(apply match_len_eq; exact Hm).
  bind_step ltac:(apply getitem_cap; exact Hc).
  destruct (Z.of_nat (List.length (get m h)) =? cap capacities h)%Z;
    [|reflexivity].
  destruct (worst_of (get hp h) (get m h)) as [i|] eqn:Hw;
    [|exfalso; apply Hfull; reflexivity].
  bind_step ltac:(apply worst_idx_eq; [exact Hh | exact Hm | exact Hw]).
  bind_pure. bind_step ltac:(apply getitem_get; exact Hh).
  cbv zeta. apply res_prune_loop.
  - assumption.
  - symmetry. apply firstn_skipn.
  - rewrite firstn_skipn. assumption.
  - intros x Hx. apply Hk. rewrite <- (firstn_skipn (i + 1)).
    apply in_or_app. auto.
Qed.

(* ===================================================================== *)
(** ** hr_resident_optimal: the invariant of the loop *)
(* ===================================================================== *)

Lemma index_firstn (x : Player) l j n :
  index x l = Some j -> j < n -> In x (firstn n l).
Proof.
  intros Hi Hlt. destruct (index_split _ _ Hi) as (pre & suc & -> & <- & _).
  rewrite firstn_app. apply in_or_app.
  destruct (Nat.le_gt_cases n (List.length pre)); [lia|].
  right. replace (n - List.length pre) with (S (n - List.length pre - 1)) by lia.
  simpl. auto.
Qed.

Lemma index_skipn (x : Player) l j n :
  index x l = Some j -> n <= j -> In x (skipn n l).
Proof.
  intros Hi Hle. destruct (index_split _ _ Hi) as (pre & suc & -> & <- & _).
  rewrite skipn_app. apply in_or_app. right.
  replace (n - List.length pre) with 0 by lia. simpl. auto.
Qed.

Lemma NoDup_firstn_skipn {A : Type} (l : list A) n x :
  NoDup l -> In x (firstn n l) -> ~ In x (skipn n l).
Proof.
  intros Hn. rewrite <- (firstn_skipn n l) in Hn.
  destruct (NoDup_app_inv _ _ Hn) as (_ & _ & Hd). apply Hd.
Qed.

Lemma filter_length_le {A : Type} (p q : A -> bool) l :
  (forall x, In x l -> p x = true -> q x = true) ->
  List.length (filter p l) <= List.length (filter q l).
Proof.
  induction l as [|x l IH]; simpl; intros Himp; [lia|].
  specialize (IH (fun y Hy => Himp y (or_intror Hy))).
  pose proof (Himp x (or_introl eq_refl)) as Hx.
  destruct (p x); destruct (q x); simpl; try lia;
    specialize (Hx eq_refl); discriminate.
Qed.

Lemma filter_length_lt {A : Type} (p q : A -> bool) l x0 :
  (forall x, In x l -> p x = true -> q x = true) ->
  In x0 l -> p x0 = false -> q x0 = true ->
  List.length (filter p l) < List.length (filter q l).
Proof.
  induction l as [|x l IH]; simpl; intros Himp Hin Hp Hq; [tauto|].
  pose proof (filter_length_le p q l (fun y Hy => Himp y (or_intror Hy))) as Hle.
  pose proof (Himp x (or_introl eq_refl)) as Hx.
  destruct Hin as [->|Hin].
  - rewrite Hp, Hq. simpl. lia.
  - specialize (IH (fun y Hy => Himp y (or_intror Hy)) Hin Hp Hq).
    destruct (p x); destruct (q x); simpl; try lia;
      specialize (Hx eq_refl); discriminate.
Qed.

Lemma filter_length_bound {A : Type} (p : A -> bool) l :
  List.length (filter p l) <= List.length l.
Proof.
  induction l as [|x l IH]; simpl; [lia|]. destruct (p x); simpl; lia.
Qed.

Lemma matched_somewhere_In r (m : hr_matching) h :
  In r (get m h) -> matched_somewhere r m = true.
Proof.
  intros Hin. unfold matched_somewhere. apply existsb_exists.
  exists (get m h). split; [|apply mem_In; assumption].
  eapply lookup_values. apply get_lookup. eapply get_nonempty_key; eauto.
Qed.

Lemma matched_somewhere_false r (m : hr_matching) :
  matched_somewhere r m = false -> forall h, ~ In r (get m h).
Proof.
  intros Hf h Hin. apply matched_somewhere_In in Hin. congruence.
Qed.

Lemma matched_somewhere_true r (m : hr_matching) :
  NoDup (keys m) -> matched_somewhere r m = true ->
  exists h, In r (get m h).
Proof.
  intros Hn Ht. unfold matched_somewhere in Ht. apply existsb_exists in Ht.
  destruct Ht as (ml & Hv & Hm). destruct (values_lookup _ _ Hv Hn) as [h Hh].
  exists h. unfold get. rewrite Hh. apply mem_In. assumption.
Qed.

(** The free residents, as a filter of the keys. *)
Lemma free_residents_keys rp m :
  NoDup (keys rp) ->
  _get_free_residents rp m = filter (is_free_resident rp m) (keys rp).
Proof.
  intros Hn. unfold _get_free_residents, is_free_resident, matched_somewhere.
  assert (Hget : forall k l, In (k, l) rp -> get rp k = l).
  { intros k l Hin. unfold get. rewrite (In_lookup _ _ _ Hn Hin). reflexivity. }
  revert Hget. generalize rp at 1 3 5. intros d.
  induction d as [|[k l] d IH]; intros Hget; [reflexivity|].
  simpl. rewrite (Hget k l) by (simpl; auto).
  rewrite <- IH by (intros k' l' Hin; apply Hget; simpl; auto).
  destruct (nonempty l && _); reflexivity.
Qed.

Lemma free_residents_bound rp m :
  List.length (_get_free_residents rp m) <= List.length (keys rp).
Proof.
  unfold _get_free_residents, keys. rewrite !length_map.
  apply filter_length_bound.
Qed.

Lemma hd_error_In {A : Type} (l : list A) x : hd_error l = Some x -> In x l.
Proof. destruct l; simpl; [discriminate|]. intros [= ->]. auto. Qed.

Section ResInvariant.
Variables hp0 rp0 : prefs.
Variable capacities : capacities_t.
Hypothesis HI : hr_instance hp0 rp0 capacities.

Lemma res_step st :
  res_inv hp0 rp0 capacities st -> nonempty (free st) = true ->
  hr_resident_body capacities st = (res_next capacities st, Ok tt) /\
  res_inv hp0 rp0 capacities (res_next capacities st) /\
  res_measure (res_next capacities st) < res_measure st.
Proof.
  intros I Hc. pose proof (hri_consistent HI) as C.
  destruct st as [hp rp m f t].
  destruct I as [Kh Kr Km Sh Sr Mu Ma Nd Cp Fr Tr]. st_simpl.
  destruct f as [|r fr]; [discriminate|]. clear Hc.
  assert (Nkr : NoDup (keys rp)) by (rewrite Kr; apply (cons_keys_l C)).
  assert (Nkm : NoDup (keys m)) by (rewrite Km; apply (cons_keys_r C)).
  assert (Hfr : is_free_resident rp m r = true /\ In r (keys rp)).
  { rewrite free_residents_keys in Fr by assumption.
    assert (X : In r (filter (is_free_resident rp m) (keys rp)))
      by (rewrite <- Fr; simpl; auto).
    apply filter_In in X. tauto. }
  destruct Hfr as [Hfree Hrk].
  unfold is_free_resident in Hfree. apply andb_true_iff in Hfree.
  destruct Hfree as [Hne Hum]. apply negb_true_iff in Hum.
  destruct (get rp r) as [|h rl'] eqn:Hg; [discriminate|]. clear Hne.
  assert (Hhr : In h (get rp r)) by (rewrite Hg; simpl; auto).
  assert (Hrh : In r (get hp h)) by (apply Mu; assumption).
  assert (Hhk : In h (keys hp)) by (eapply get_nonempty_key; eauto).
  assert (Hhk0 : In h (keys hp0)) by (rewrite <- Kh; assumption).
  assert (Hhm : In h (keys m)) by (rewrite Km; assumption).
  destruct (hri_caps HI _ Hhk0) as [Hhc Hc1].
  assert (Nhp : forall b, NoDup (get hp b))
    by (intros b; eapply subseq_NoDup; [apply Sh | apply (cons_strict_r C)]).
  assert (Nrp : forall a, NoDup (get rp a))
    by (intros a; eapply subseq_NoDup; [apply Sr | apply (cons_strict_l C)]).
  assert (Hml : forall x, In x (get m h) -> In x (get hp h)).
  { intros x Hx. apply Mu. apply hd_error_In. apply Ma. assumption. }
  assert (Hrm : ~ In r (get m h)) by (apply matched_somewhere_false; assumption).
  unfold res_next. st_simpl. cbn [hd]. rewrite Hg. cbn [hd].
  set (hl := get hp h) in *. set (ml := get m h) in *.
  set (ml1 := ml ++ [r]).
  set (m1 := dict_set h ml1 m).
  assert (Nml1 : NoDup ml1).
  { unfold ml1. apply NoDup_app.
    - apply Nd.
    - constructor; [simpl; tauto | constructor].
    - intros x Hx [<-|[]]. tauto. }
  assert (Hml1 : forall x, In x ml1 -> In x hl).
  { unfold ml1. intros x Hx. apply in_app_or in Hx.
    destruct Hx as [Hx|[<-|[]]]; auto. }
  assert (Hlen1 : List.length ml1 = S (List.length ml))
    by (unfold ml1; rewrite length_app; simpl; lia).
  assert (Hrml1 : In r ml1) by (unfold ml1; apply in_or_app; simpl; auto).
  destruct (worst_of_exists hl ml1 r Hrml1 Hrh) as [i1 Hw1].
  destruct (worst_of_Some _ _ Hw1) as [_ Hmax1].
  destruct (worst_of_nth _ _ Hw1) as (Hn1 & Hwin & Hwi).
  rewrite Hw1.
  set (w := nth i1 hl EmptyString) in *.
  set (over := (Z.of_nat (List.length ml1) >? cap capacities h)%Z).
  set (ml2 := if over then remove1 w ml1 else ml1).
  set (m2 := if over then dict_set h ml2 m1 else m1).
  pose proof (Cp h Hhk0) as Hcap. fold ml in Hcap.
  assert (Hsub2 : forall x, In x ml2 -> In x ml1).
  { unfold ml2. intros x. destruct over; [apply In_remove1 | auto]. }
  assert (Nml2 : NoDup ml2).
  { unfold ml2. destruct over; [apply NoDup_remove1|]; assumption. }
  assert (Hlen2 : (Z.of_nat (List.length ml2) <= cap capacities h)%Z).
  { unfold ml2, over. destruct (Z.gtb_spec (Z.of_nat (List.length ml1)) (cap capacities h)).
    - pose proof (length_remove1 _ _ Hwin). lia.
    - lia. }
  assert (Hover : over = true ->
            ~ In w ml2 /\ Z.of_nat (List.length ml2) = cap capacities h).
  { unfold ml2, over.
    destruct (Z.gtb_spec (Z.of_nat (List.length ml1)) (cap capacities h));
      [|discriminate].
    intros _. split; [apply NoDup_remove1_notin; assumption|].
    pose proof (length_remove1 _ _ Hwin). lia. }
  assert (Hgm2 : forall b, get m2 b = if eq_dec b h then ml2 else get m b).
  { intros b. unfold m2, m1. destruct over.
    - rewrite dict_set_twice. apply get_dict_set.
    - rewrite get_dict_set. reflexivity. }
  assert (Hkm2 : keys m2 = keys m).
  { unfold m2, m1. destruct over.
    - rewrite dict_set_twice. apply keys_dict_set. assumption.
    - apply keys_dict_set. assumption. }
  set (full := (Z.of_nat (List.length ml2) =? cap capacities h)%Z).
  assert (Hw2 : full = true -> exists i2, worst_of hl ml2 = Some i2).
  { unfold full. intros Hf. apply Z.eqb_eq in Hf.
    destruct ml2 as [|x ml2'] eqn:E; [simpl in Hf; lia|].
    apply worst_of_exists with (x := x); [simpl; auto|].
    apply Hml1. apply Hsub2. simpl. auto. }
  set (i2 := match worst_of hl ml2 with Some i => i | None => 0 end).
  set (P := if full then firstn (i2 + 1) hl else hl).
  set (S := if full then skipn (i2 + 1) hl else []).
  assert (HPS : hl = P ++ S).
  { unfold P, S. destruct full; [symmetry; apply firstn_skipn|].
    symmetry. apply app_nil_r. }
  assert (HS2 : forall x, In x ml2 -> ~ In x S).
  { unfold S. destruct full eqn:Hf; [|simpl; tauto].
    destruct (Hw2 eq_refl) as [j Hj]. unfold i2. rewrite Hj.
    destruct (worst_of_Some _ _ Hj) as [_ Hmax2].
    intros x Hx. apply NoDup_firstn_skipn; [apply Nhp|].
    destruct (index_In _ _ (Hml1 _ (Hsub2 _ Hx))) as [k Hk].
    apply index_firstn with (j := k); [assumption|].
    specialize (Hmax2 x k Hx Hk). lia. }
  assert (HwS : over = true -> In w S).
  { intros Ho. destruct (Hover Ho) as [Hwn Hfull].
    unfold S. assert (Hf : full = true) by (apply Z.eqb_eq; assumption).
    rewrite Hf. destruct (Hw2 Hf) as [j Hj]. unfold i2. rewrite Hj.
    destruct (worst_of_Some _ _ Hj) as [(y & Hy & Hyi) _].
    apply index_skipn with (j := i1); [assumption|].
    pose proof (Hmax1 y j (Hsub2 _ Hy) Hyi) as Hle.
    assert (j <> i1).
    { intros ->. apply Hwn. replace w with y; [assumption|].
      eapply index_inj; eauto. }
    lia. }
  assert (NS : NoDup S).
  { pose proof (Nhp h) as N. fold hl in N.
    rewrite HPS in N. apply NoDup_app_inv in N. tauto. }
  assert (E1 : get m1 h = ml1) by (unfold m1; apply get_dict_set_eq).
  assert (E2 : get m2 h = ml2)
    by (rewrite Hgm2; destruct (eq_dec h h); congruence).
  assert (Km1 : In h (keys m1))
    by (unfold m1; rewrite keys_dict_set; assumption).
  assert (Km2 : In h (keys m2)) by (rewrite Hkm2; assumption).
  assert (Ehp : (if full then dict_set h (firstn (i2 + 1) hl) hp else hp)
                = dict_set h P hp).
  { unfold P. destruct full; [reflexivity|]. symmetry.
    apply dict_set_same. assumption. }
  assert (Erp : (if full then prune_from h (skipn (i2 + 1) hl) rp else rp)
                = prune_from h S rp).
  { unfold S. destruct full; reflexivity. }
  assert (HSk : forall x, In x S -> In x (keys rp)).
  { intros x Hx. apply get_nonempty_key with (x := h). apply Mu.
    fold hl. rewrite HPS. apply in_or_app. auto. }
  assert (Hgr : forall a, get (prune_from h S rp) a =
                          if in_dec string_dec a S then remove1 h (get rp a)
                          else get rp a).
  { intros a. destruct (in_dec string_dec a S).
    - apply get_prune_from_in; assumption.
    - apply get_prune_from_notin; assumption. }
  split; [|rewrite Ehp, Erp; split].
  - (* the statements of the body *)
    assert (B1 : match_append h r (mk_hr_state hp rp m (r :: fr) t) =
                 (mk_hr_state hp rp m1 (r :: fr) (m1 :: t), Ok tt))
      by (apply match_append_eq; exact Hhm).
    assert (B2 : hr_evict capacities h
                   (mk_hr_state hp rp m1 (r :: fr) (m1 :: t)) =
                 (mk_hr_state hp rp m2 (r :: fr)
                    (if over then m2 :: m1 :: t else m1 :: t), Ok tt)).
    { rewrite hr_evict_eq; try assumption.
      - rewrite E1. fold hl over. rewrite Hw1. fold w. unfold m2, ml2.
        destruct over; reflexivity.
      - intros _. rewrite E1. fold hl. congruence. }
    assert (B3 : hr_prune capacities h
                   (mk_hr_state hp rp m2 (r :: fr)
                      (if over then m2 :: m1 :: t else m1 :: t)) =
                 (mk_hr_state
                    (if full then dict_set h (firstn (i2 + 1) hl) hp else hp)
                    (if full then prune_from h (skipn (i2 + 1) hl) rp else rp)
                    m2 (r :: fr)
                    (if over then m2 :: m1 :: t else m1 :: t), Ok tt)).
    { rewrite hr_prune_eq; try assumption.
      - rewrite E2. fold hl full i2. destruct full; reflexivity.
      - apply Nhp.
      - intros x Hx. apply get_nonempty_key with (x := h). apply Mu.
        assumption.
      - rewrite E2. fold hl full. intros Hf.
        destruct (Hw2 Hf) as [j Hj]. congruence. }
    unfold hr_resident_body. bind_pure. bind_pure. bind_pure.
    bind_step ltac:(apply getitem_get; exact Hrk). rewrite Hg. bind_pure.
    bind_step ltac:(exact B1). bind_step ltac:(exact B2).
    bind_step ltac:(exact B3). reflexivity.
  - (* the invariant *)
    constructor; st_simpl.
    + rewrite keys_dict_set by assumption. assumption.
    + rewrite keys_prune_from by assumption. assumption.
    + rewrite Hkm2. assumption.
    + intros b. rewrite get_dict_set. destruct (eq_dec b h) as [->|n].
      * eapply subseq_trans; [|apply Sh]. fold hl. rewrite HPS.
        apply subseq_app_l.
      * apply Sh.
    + intros a. eapply subseq_trans; [apply subseq_prune_from|apply Sr].
      assumption.
    + (* mutual ranking *)
      intros a b. rewrite Hgr, get_dict_set.
      destruct (in_dec string_dec a S) as [Ha|Ha];
        destruct (eq_dec b h) as [->|n].
      * split.
        -- intros Hin. exfalso.
           eapply NoDup_remove1_notin; [|exact Hin]. apply Nrp.
        -- intros Hin. exfalso. pose proof (Nhp h) as N. fold hl in N.
           rewrite HPS in N. apply NoDup_app_inv in N.
           destruct N as (_ & _ & D). eapply D; eauto.
      * rewrite <- Mu. split.
        -- apply In_remove1.
        -- apply In_remove1_neq. assumption.
      * rewrite Mu. fold hl. rewrite HPS, in_app_iff. tauto.
      * apply Mu.
    + (* matched residents *)
      intros a b. rewrite Hgm2, Hgr. destruct (eq_dec b h) as [->|n].
      * intros Ha. destruct (in_dec string_dec a S) as [HaS|_];
          [exfalso; eapply HS2; eauto|].
        apply Hsub2 in Ha. unfold ml1 in Ha. apply in_app_or in Ha.
        destruct Ha as [Ha|[<-|[]]]; [apply Ma; assumption|].
        rewrite Hg. reflexivity.
      * intros Ha. apply Ma in Ha.
        destruct (in_dec string_dec a S); [|assumption].
        apply hd_remove1_neq; auto.
    + intros b. rewrite Hgm2. destruct (eq_dec b h); [assumption | apply Nd].
    + intros b Hb. rewrite Hgm2. destruct (eq_dec b h) as [->|n].
      * lia.
      * apply Cp. assumption.
    + reflexivity.
    + (* the trace *)
      assert (T1 : within_capacity hp0 capacities 1 m1).
      { intros b Hb. unfold m1. rewrite get_dict_set.
        destruct (eq_dec b h) as [->|n].
        - rewrite Hlen1. lia.
        - pose proof (Cp b Hb). lia. }
      assert (T2 : within_capacity hp0 capacities 1 m2).
      { intros b Hb. rewrite Hgm2. destruct (eq_dec b h) as [->|n].
        - lia.
        - pose proof (Cp b Hb). lia. }
      destruct over; repeat constructor; assumption.
  - (* the measure *)
    unfold res_measure. st_simpl.
    rewrite keys_prune_from by assumption.
    pose proof (free_residents_bound (prune_from h S rp) m2) as Hb.
    rewrite keys_prune_from in Hb by assumption.
    assert (Hle : forall k, In k (keys rp) ->
               List.length (get (prune_from h S rp) k)
               <= List.length (get rp k)).
    { intros k _. apply subseq_length. apply subseq_prune_from. assumption. }
    destruct over eqn:Ho.
    + (* an eviction: the evicted resident's list is shorter *)
      assert (HwS' : In w S) by (apply HwS; reflexivity).
      assert (Hhw : In h (get rp w)) by (apply Mu; apply Hml1; assumption).
      assert (Hlt : sum_over (fun k => List.length (get (prune_from h S rp) k))
                      (keys rp)
                    < sum_over (fun k => List.length (get rp k)) (keys rp)).
      { apply sum_over_lt with (k0 := w); [auto | | exact Hle].
        rewrite get_prune_from_in by assumption.
        pose proof (length_remove1 _ _ Hhw). lia. }
      simpl. nia.
    + (* no eviction: one free resident less *)
      pose proof (sum_over_le _ _ _ Hle) as Hsum.
      assert (Hfl : List.length (_get_free_residents (prune_from h S rp) m2)
                    < List.length (r :: fr)).
      { rewrite Fr. rewrite !free_residents_keys;
          [|assumption | rewrite keys_prune_from; assumption].
        rewrite keys_prune_from by assumption.
        apply filter_length_lt with (x0 := r).
        - intros k _. unfold is_free_resident. rewrite !andb_true_iff.
          intros [Hn Hm]. split.
          + pose proof (subseq_prune_from h rp k NS) as Hs.
            destruct (get (prune_from h S rp) k); [discriminate|].
            inversion Hs; reflexivity.
          + rewrite negb_true_iff in *.
            destruct (matched_somewhere k m) eqn:Hk; [|reflexivity].
            apply matched_somewhere_true in Hk; [|assumption].
            destruct Hk as [b Hb']. rewrite <- Hm. symmetry.
            apply matched_somewhere_In with (h := b). rewrite Hgm2.
            destruct (eq_dec b h) as [->|n]; [|assumption].
            unfold ml2, ml1. apply in_or_app. auto.
        - assumption.
        - unfold is_free_resident. apply andb_false_iff. right.
          apply negb_false_iff. apply matched_somewhere_In with (h := h).
          rewrite E2. unfold ml2. assumption.
        - unfold is_free_resident. rewrite Hg, Hum. reflexivity. }
      nia.
Qed.
End ResInvariant.

(* ===================================================================== *)
(** ** hr_resident_optimal: the loop and the final sort *)
(* ===================================================================== *)

Lemma get_empty_matching hp h : get (empty_matching hp) h = [].
Proof.
  unfold get, empty_matching. rewrite lookup_init.
  destruct (in_dec string_dec h (keys hp)); reflexivity.
Qed.

Lemma res_start_inv hp0 rp0 capacities :
  hr_instance hp0 rp0 capacities ->
  res_inv hp0 rp0 capacities (res_start hp0 rp0).
Proof.
  intros HI. pose proof (hri_consistent HI) as C.
  assert (W : forall s, (0 <= s)%Z ->
                within_capacity hp0 capacities s (empty_matching hp0)).
  { intros s Hs h Hh. rewrite get_empty_matching. simpl.
    destruct (hri_caps HI _ Hh). lia. }
  unfold res_start. constructor; st_simpl.
  - reflexivity.
  - reflexivity.
  - apply keys_init.
  - intros h. apply subseq_refl.
  - intros r. apply subseq_refl.
  - apply (cons_mutual C).
  - intros r h. rewrite get_empty_matching. intros [].
  - intros h. rewrite get_empty_matching. constructor.
  - apply W. lia.
  - reflexivity.
  - constructor; [apply W; lia | constructor].
Qed.

Lemma hr_resident_optimal_start fuel hp rp capacities :
  hr_resident_optimal fuel hp rp capacities =
  (while fuel (fun s => nonempty (free s)) (hr_resident_body capacities) ;;;
   hr_sort_matches ;;;
   gets hr_match) (res_start hp rp).
Proof. reflexivity. Qed.

(** The loop of [hr_resident_optimal] on an instance: it ends without an
    exception, in a state that satisfies the invariant. *)
Lemma res_loop_total hp0 rp0 capacities fuel :
  hr_instance hp0 rp0 capacities ->
  res_measure (res_start hp0 rp0) < fuel ->
  exists st,
    while fuel (fun s => nonempty (free s)) (hr_resident_body capacities)
      (res_start hp0 rp0) = (st, Ok tt)
    /\ res_inv hp0 rp0 capacities st /\ free st = [].
Proof.
  intros HI Hfuel.
  pose proof (while_rule (res_inv hp0 rp0 capacities) (fun _ _ => False)
                res_measure (fun s => nonempty (free s))
                (hr_resident_body capacities)) as W.
  assert (Hbody : forall s, res_inv hp0 rp0 capacities s ->
     nonempty (free s) = true ->
     match hr_resident_body capacities s with
     | (s', Ok _) => res_inv hp0 rp0 capacities s'
                     /\ res_measure s' < res_measure s
     | (s', Raise e) => False
     | (_, OutOfFuel) => False
     end).
  { intros s I Hc. destruct (res_step HI I Hc) as (E & I' & Hlt).
    rewrite E. auto. }
  specialize (W Hbody fuel (res_start hp0 rp0) (res_start_inv HI) Hfuel).
  destruct (while fuel _ _ (res_start hp0 rp0)) as [st [[]|e|]];
    try contradiction.
  destruct W as [I Hc]. exists st.
  split; [reflexivity | split; [assumption|]].
  destruct (free st); [reflexivity | discriminate].
Qed.

(** ** The sort *)

Lemma insert_by_rank_In l x s y :
  In y (insert_by_rank l x s) <-> y = x \/ In y s.
Proof.
  induction s as [|z s IH]; simpl; [intuition|].
  destruct (index x l), (index z l); simpl; try (intuition; fail).
  destruct (Nat.leb n n0); simpl; [intuition|]. rewrite IH. intuition.
Qed.

Lemma insert_by_rank_length l x s :
  List.length (insert_by_rank l x s) = S (List.length s).
Proof.
  induction s as [|z s IH]; simpl; [reflexivity|].
  destruct (index x l), (index z l); simpl; try reflexivity.
  destruct (Nat.leb n n0); simpl; [reflexivity|]. rewrite IH. reflexivity.
Qed.

Lemma sort_by_rank_In l ms y : In y (sort_by_rank l ms) <-> In y ms.
Proof.
  induction ms as [|x ms IH]; simpl; [tauto|].
  rewrite insert_by_rank_In, IH. intuition.
Qed.

Lemma sort_by_rank_length l ms :
  List.length (sort_by_rank l ms) = List.length ms.
Proof.
  induction ms as [|x ms IH]; simpl; [reflexivity|].
  rewrite insert_by_rank_length, IH. reflexivity.
Qed.

Lemma rank_le_trans l a b c : rank_le l a b -> rank_le l b c -> rank_le l a c.
Proof.
  intros (i & j & Hi & Hj & Hij) (j' & k & Hj' & Hk & Hjk).
  exists i, k. repeat split; auto. assert (j = j') by congruence. lia.
Qed.

Lemma insert_by_rank_sorted l x s :
  In x l -> (forall y, In y s -> In y l) ->
  StronglySorted (rank_le l) s ->
  StronglySorted (rank_le l) (insert_by_rank l x s).
Proof.
  intros Hx. induction s as [|z s IH]; intros Hs Hsorted; simpl.
  - constructor; constructor.
  - destruct (index_In _ _ Hx) as [i Hi].
    destruct (index_In _ _ (Hs z (or_introl eq_refl))) as [j Hj].
    rewrite Hi, Hj. inversion Hsorted as [|? ? Hs' Hall]; subst.
    destruct (Nat.leb_spec i j) as [Hle|Hgt].
    + assert (Hxz : rank_le l x z) by (exists i, j; auto).
      constructor; [assumption|]. constructor; [assumption|].
      eapply Forall_impl; [|exact Hall].
      intros c Hc. eapply rank_le_trans; eauto.
    + constructor.
      * apply IH; [intros y Hy; apply Hs; simpl; auto | assumption].
      * apply Forall_forall. intros c Hc. apply insert_by_rank_In in Hc.
        destruct Hc as [->|Hc].
        -- exists j, i. repeat split; auto. lia.
        -- rewrite Forall_forall in Hall. auto.
Qed.

Lemma sort_by_rank_sorted l ms :
  (forall y, In y ms -> In y l) ->
  StronglySorted (rank_le l) (sort_by_rank l ms).
Proof.
  induction ms as [|x ms IH]; intros Hms; simpl; [constructor|].
  apply insert_by_rank_sorted.
  - apply Hms. simpl. auto.
  - intros y Hy. apply sort_by_rank_In in Hy. apply Hms. simpl. auto.
  - apply IH. intros y Hy. apply Hms. simpl. auto.
Qed.

Lemma insert_by_rank_NoDup l x s :
  ~ In x s -> NoDup s -> NoDup (insert_by_rank l x s).
Proof.
  induction s as [|z s IH]; simpl; intros Hx Hn.
  - constructor; [simpl; tauto | constructor].
  - assert (N : NoDup (x :: z :: s)) by (constructor; assumption).
    destruct (index x l), (index z l); try assumption.
    destruct (Nat.leb n n0); [assumption|].
    apply NoDup_cons_iff in Hn. destruct Hn as [Hz Hn]. constructor.
    + rewrite insert_by_rank_In. simpl in Hx. intuition.
    + apply IH; [simpl in Hx; tauto | assumption].
Qed.

Lemma sort_by_rank_NoDup l ms : NoDup ms -> NoDup (sort_by_rank l ms).
Proof.
  induction 1 as [|x ms Hx Hn IH]; simpl; [constructor|].
  apply insert_by_rank_NoDup; [|assumption].
  rewrite sort_by_rank_In. assumption.
Qed.

(** Without duplicates, the order is strict. *)
Lemma rank_le_prefers l s :
  NoDup s -> StronglySorted (rank_le l) s -> StronglySorted (prefers l) s.
Proof.
  induction 1 as [|x s Hx Hn IH]; intros Hs; [constructor|].
  inversion Hs as [|? ? Hs' Hall]; subst. constructor; [auto|].
  rewrite Forall_forall in *. intros y Hy.
  destruct (Hall y Hy) as (i & j & Hi & Hj & Hij).
  exists i, j. repeat split; auto.
  destruct (Nat.eq_dec i j) as [->|]; [|lia].
  exfalso. apply Hx. replace x with y; [assumption|].
  eapply index_inj; eauto.
Qed.

Lemma prefers_subseq l l0 a b :
  subseq l l0 -> NoDup l0 -> prefers l a b -> prefers l0 a b.
Proof.
  intros Hs Hn (i & j & Hi & Hj & Hij).
  assert (Ha : In a l0).
  { eapply subseq_In; eauto. eapply nth_error_In. apply index_nth. eauto. }
  assert (Hb : In b l0).
  { eapply subseq_In; eauto. eapply nth_error_In. apply index_nth. eauto. }
  destruct (index_In _ _ Ha) as [i0 Hi0]. destruct (index_In _ _ Hb) as [j0 Hj0].
  exists i0, j0. repeat split; auto.
  eapply (@subseq_index_mono _ _ l l0 a b i j i0 j0); eauto.
Qed.

Lemma ordered_by_rank_subseq l l0 ms :
  subseq l l0 -> NoDup l0 -> ordered_by_rank l ms -> ordered_by_rank l0 ms.
Proof.
  intros Hs Hn [Hin Hsorted]. split.
  - intros x Hx. eapply subseq_In; eauto.
  - clear Hin. induction Hsorted as [|x ms Hs' IH Hall]; constructor; auto.
    eapply Forall_impl; [|exact Hall].
    intros c Hc. eapply prefers_subseq; eauto.
Qed.

Lemma lookup_app {V : Type} k (d1 d2 : dict V) :
  lookup k (d1 ++ d2) =
  match lookup k d1 with
  | Some v => Some v
  | None => lookup k d2
  end.
Proof.
  induction d1 as [|[k' v'] d1 IH]; simpl; [reflexivity|].
  destruct (eq_dec k k'); auto.
Qed.

Lemma dict_set_app_notin {V : Type} k (v : V) d1 d2 :
  ~ In k (keys d1) -> dict_set k v (d1 ++ d2) = d1 ++ dict_set k v d2.
Proof.
  induction d1 as [|[k' v'] d1 IH]; simpl; intros Hn; [reflexivity|].
  destruct (eq_dec k k') as [->|n]; [tauto|].
  rewrite IH; tauto.
Qed.

Lemma keys_sort_all hp m : keys (sort_all hp m) = keys m.
Proof.
  unfold sort_all, keys. rewrite map_map. apply map_ext.
  intros [h ms]. reflexivity.
Qed.

Lemma lookup_sort_all hp m b :
  lookup b (sort_all hp m) =
  match lookup b m with
  | Some ms => Some (sort_by_rank (get hp b) ms)
  | None => None
  end.
Proof.
  induction m as [|[h ms] m IH]; simpl; [reflexivity|].
  destruct (eq_dec b h) as [->|n]; auto.
Qed.

Lemma get_sort_all hp m b :
  get (sort_all hp m) b = sort_by_rank (get hp b) (get m b).
Proof.
  unfold get at 1 3. rewrite lookup_sort_all.
  destruct (lookup b m); reflexivity.
Qed.

Lemma length_get_sort_app hp d1 d2 b :
  List.length (get (sort_all hp d1 ++ d2) b)
  = List.length (get (d1 ++ d2) b).
Proof.
  unfold get. rewrite !lookup_app, lookup_sort_all.
  destruct (lookup b d1); [apply sort_by_rank_length | reflexivity].
Qed.

(** Lines 112-114 as a loop over the items that are not sorted yet. *)
Lemma hr_sort_loop hp rp f : forall todo done t,
  NoDup (keys (done ++ todo)) ->
  (forall h ms, In (h, ms) todo ->
     In h (keys hp) /\ forall x, In x ms -> In x (get hp h)) ->
  exists t',
    for_each todo hr_sort_one
      (mk_hr_state hp rp (sort_all hp done ++ todo) f t)
    = (mk_hr_state hp rp (sort_all hp (done ++ todo)) f (t' ++ t), Ok tt)
    /\ Forall (fun m' => forall b,
                 List.length (get m' b) = List.length (get (done ++ todo) b))
         t'.
Proof.
  induction todo as [|[h ms] todo IH]; intros done t Hn Hin.
  - exists []. split; [|constructor]. simpl. rewrite !app_nil_r. reflexivity.
  - assert (Hh : ~ In h (keys (sort_all hp done))).
    { rewrite keys_sort_all. unfold keys in *. rewrite map_app in Hn.
      simpl in Hn. apply NoDup_remove_2 in Hn. rewrite in_app_iff in Hn.
      tauto. }
    destruct (Hin h ms (or_introl eq_refl)) as [Hk Hms].
    destruct (IH (done ++ [(h, ms)]) 
                 ((sort_all hp (done ++ [(h, ms)]) ++ todo) :: t)) as (t' & E & F).
    + rewrite <- app_assoc. exact Hn.
    + intros h' ms' H'. apply Hin. simpl. auto.
    + exists (t' ++ [sort_all hp (done ++ [(h, ms)]) ++ todo]). split.
      * simpl. erewrite bind_Ok.
        -- rewrite E. rewrite <- !app_assoc. reflexivity.
        -- unfold hr_sort_one. bind_pure.
           bind_step ltac:(apply getitem_get; exact Hk).
           unfold sorted_by_index.
           replace (forallb (fun x => mem x (get hp h)) ms) with true.
           ++ bind_pure. unfold modify. st_simpl.
              rewrite dict_set_app_notin by assumption. simpl.
              destruct (eq_dec h h); [|congruence].
              replace (sort_all hp (done ++ [(h, ms)]))
                with (sort_all hp done ++ [(h, sort_by_rank (get hp h) ms)])
                by (unfold sort_all; rewrite map_app; reflexivity).
              rewrite <- !app_assoc. reflexivity.
           ++ symmetry. apply forallb_forall. intros x Hx. apply mem_In. auto.
      * apply Forall_app. split.
        -- eapply Forall_impl; [|exact F]. intros m' Hm' b.
           rewrite Hm', <- app_assoc. reflexivity.
        -- constructor; [|constructor]. intros b.
           rewrite length_get_sort_app, <- app_assoc. reflexivity.
Qed.

(** [hr_resident_optimal] on an instance: it returns, and this is what it
    returns and leaves behind. *)
Lemma hr_resident_optimal_total hp0 rp0 capacities fuel :
  hr_instance hp0 rp0 capacities ->
  res_fuel hp0 rp0 <= fuel ->
  exists st,
    hr_resident_optimal fuel hp0 rp0 capacities = (st, Ok (hr_match st))
    /\ hr_outcome hp0 rp0 capacities 1 st.
Proof.
  intros HI Hfuel. pose proof (hri_consistent HI) as C.
  destruct (@res_loop_total hp0 rp0 capacities fuel HI) as (st1 & E1 & I & Hf);
    [unfold res_fuel in Hfuel; lia|].
  destruct st1 as [hp rp m f t].
  destruct I as [Kh Kr Km Sh Sr Mu Ma Nd Cp Fr Tr]. st_simpl.
  assert (Nkm : NoDup (keys m)) by (rewrite Km; apply (cons_keys_r C)).
  destruct (@hr_sort_loop hp rp f m [] t) as (t' & E2 & F).
  - exact Nkm.
  - intros h ms Hin. pose proof (In_lookup _ _ _ Nkm Hin) as Hl.
    assert (Hg : get m h = ms) by (unfold get; rewrite Hl; reflexivity).
    split.
    + rewrite Kh, <- Km. apply lookup_In_keys. eauto.
    + intros x Hx. apply Mu. apply hd_error_In. apply Ma. rewrite Hg.
      assumption.
  - simpl in E2.
    exists (mk_hr_state hp rp (sort_all hp m) f (t' ++ t)). split.
    + rewrite hr_resident_optimal_start.
      bind_step ltac:(exact E1). unfold hr_sort_matches.
      erewrite bind_Ok; [|bind_pure; exact E2].
      reflexivity.
    + constructor; st_simpl.
      * rewrite keys_sort_all. assumption.
      * assumption.
      * assumption.
      * assumption.
      * assumption.
      * intros h. rewrite get_sort_all. split.
        -- intros x Hx. apply sort_by_rank_In in Hx.
           apply Mu. apply hd_error_In. apply Ma. assumption.
        -- apply rank_le_prefers; [apply sort_by_rank_NoDup; apply Nd|].
           apply sort_by_rank_sorted. intros x Hx.
           apply Mu. apply hd_error_In. apply Ma. assumption.
      * intros h Hh. rewrite get_sort_all, sort_by_rank_length.
        apply Cp. assumption.
      * apply Forall_app. split; [|assumption].
        eapply Forall_impl; [|exact F]. intros m' Hm' h Hh.
        rewrite Hm'. simpl. pose proof (Cp h Hh). lia.
Qed.

(* ===================================================================== *)
(** ** hr_hospital_optimal: the statements of the loop *)
(* ===================================================================== *)

Lemma lookup_unmatch_all r m b :
  lookup b (unmatch_all r m) =
  match lookup b m with
  | Some l => Some (remove1 r l)
  | None => None
  end.
Proof.
  induction m as [|[k l] m IH]; simpl; [reflexivity|].
  destruct (eq_dec b k); auto.
Qed.

Lemma get_unmatch_all r m b : get (unmatch_all r m) b = remove1 r (get m b).
Proof.
  unfold get. rewrite lookup_unmatch_all. destruct (lookup b m); reflexivity.
Qed.

Lemma keys_unmatch_all r m : keys (unmatch_all r m) = keys m.
Proof.
  unfold unmatch_all, keys. rewrite map_map. apply map_ext.
  intros [k l]. reflexivity.
Qed.

Lemma get_app_notin (d1 d2 : prefs) k :
  ~ In k (keys d1) -> get (d1 ++ d2) k = get d2 k.
Proof.
  intros Hn. unfold get. rewrite lookup_app.
  apply lookup_None in Hn. rewrite Hn. reflexivity.
Qed.

(** Lines 170-172 as a loop over the items that are not visited yet; [m0] is
    the matching the loop started from. *)
Lemma hr_unmatch_loop r hp rp f m0 : forall todo done t,
  NoDup (keys (done ++ todo)) ->
  (forall b, List.length (get (done ++ todo) b) <= List.length (get m0 b)) ->
  exists t',
    for_each todo (hr_unmatch_one r)
      (mk_hr_state hp rp (done ++ todo) f t)
    = (mk_hr_state hp rp (done ++ unmatch_all r todo) f (t' ++ t), Ok tt)
    /\ Forall (fun m' => forall b,
                 List.length (get m' b) <= List.length (get m0 b)) t'.
Proof.
  induction todo as [|[k l] todo IH]; intros done t Hn Hle.
  - exists []. split; [reflexivity | constructor].
  - assert (Hk : ~ In k (keys done)).
    { unfold keys in *. rewrite map_app in Hn. simpl in Hn.
      apply NoDup_remove_2 in Hn. rewrite in_app_iff in Hn. tauto. }
    assert (Hg : get (done ++ (k, l) :: todo) k = l).
    { rewrite get_app_notin by assumption. unfold get. simpl.
      destruct (eq_dec k k); congruence. }
    assert (Hset : dict_set k (remove1 r l) (done ++ (k, l) :: todo)
                   = (done ++ [(k, remove1 r l)]) ++ todo).
    { rewrite dict_set_app_notin by assumption. simpl.
      destruct (eq_dec k k); [|congruence]. rewrite <- app_assoc. reflexivity. }
    assert (Hn' : NoDup (keys ((done ++ [(k, remove1 r l)]) ++ todo))).
    { rewrite <- Hset. rewrite keys_dict_set; [assumption|].
      unfold keys. rewrite map_app. apply in_or_app. simpl. auto. }
    assert (Hle' : forall b,
               List.length (get ((done ++ [(k, remove1 r l)]) ++ todo) b)
               <= List.length (get m0 b)).
    { intros b. rewrite <- Hset, get_dict_set.
      destruct (eq_dec b k) as [->|n]; [|apply Hle].
      specialize (Hle k). rewrite Hg in Hle.
      pose proof (length_remove1_le r l). lia. }
    simpl. destruct (mem r l) eqn:Hm.
    + destruct (IH (done ++ [(k, remove1 r l)])
                  (((done ++ [(k, remove1 r l)]) ++ todo) :: t) Hn' Hle')
        as (t' & E & F).
      exists (t' ++ [(done ++ [(k, remove1 r l)]) ++ todo]). split.
      * erewrite bind_Ok.
        -- rewrite E. rewrite <- !app_assoc. reflexivity.
        -- rewrite match_remove_eq.
           ++ rewrite Hg, Hset. reflexivity.
           ++ unfold keys. rewrite map_app. apply in_or_app. simpl. auto.
           ++ rewrite Hg. apply mem_In. assumption.
      * apply Forall_app. split; [assumption|].
        constructor; [assumption | constructor].
    + pose proof Hm as Hnot. apply mem_false in Hnot.
      rewrite remove1_notin in * by assumption.
      destruct (IH (done ++ [(k, l)]) t Hn' Hle') as (t' & E & F).
      exists t'. split; [|assumption].
      bind_pure. rewrite <- app_assoc in E. simpl in E. rewrite E.
      rewrite <- !app_assoc. reflexivity.
Qed.

Lemma hr_unmatch_eq r hp rp m f t :
  NoDup (keys m) ->
  exists t',
    hr_unmatch r (mk_hr_state hp rp m f t)
    = (mk_hr_state hp rp (unmatch_all r m) f (t' ++ t), Ok tt)
    /\ Forall (fun m' => forall b,
                 List.length (get m' b) <= List.length (get m b)) t'.
Proof.
  intros Hn.
  destruct (@hr_unmatch_loop r hp rp f m m [] t Hn (fun b => le_n _))
    as (t' & E & F).
  exists t'. split; [|assumption].
  unfold hr_unmatch. bind_pure. exact E.
Qed.

(** Lines 178-181: every successor's list loses the resident, and the
    resident's list loses the successors. *)
Lemma hosp_prune_loop r pre m f t : forall succs hp rp,
  In r (keys rp) ->
  get rp r = pre ++ succs ->
  NoDup (pre ++ succs) ->
  (forall x, In x succs -> In x (keys hp) /\ In r (get hp x)) ->
  for_each succs (fun successor =>
      hospital_prefs_remove successor r ;;;
      resident_prefs_remove r successor) (mk_hr_state hp rp m f t) =
  (mk_hr_state (prune_from r succs hp) (dict_set r pre rp) m f t, Ok tt).
Proof.
  induction succs as [|x succs IH]; intros hp rp Hr Hg Hn Hx.
  - simpl. unfold ret. rewrite app_nil_r in Hg. rewrite <- Hg.
    rewrite dict_set_same by assumption. reflexivity.
  - simpl.
    destruct (NoDup_app_inv _ _ Hn) as (Np & Ns & Hd).
    apply NoDup_cons_iff in Ns. destruct Ns as [Hxs Ns].
    assert (Hxp : ~ In x pre) by (intros Hi; apply (Hd x Hi); simpl; auto).
    destruct (Hx x (or_introl eq_refl)) as [Hkx Hrx].
    erewrite bind_Ok;
      [|bind_step ltac:(apply hospital_prefs_remove_eq; assumption);
        apply resident_prefs_remove_eq;
        [assumption | rewrite Hg; apply in_or_app; simpl; auto]].
    rewrite Hg, remove1_app_notin, remove1_head by assumption.
    rewrite IH.
    + rewrite dict_set_twice. reflexivity.
    + rewrite keys_dict_set; assumption.
    + apply get_dict_set_eq.
    + apply NoDup_remove in Hn. tauto.
    + intros y Hy. destruct (Hx y (or_intror Hy)) as [Hky Hry].
      rewrite keys_dict_set by assumption. split; [assumption|].
      rewrite get_dict_set_neq; [assumption|]. intros ->. tauto.
Qed.

(** [_get_free_hospitals] returns hospitals with room and with a resident
    they are not matched to. *)
Lemma get_free_hospitals_spec capacities m (s : hr_state) : forall d,
  (forall h, In h (keys d) -> In h (keys m) /\ In h (keys capacities)) ->
  exists fs,
    _get_free_hospitals d capacities m s = (s, Ok fs) /\
    forall h, In h fs ->
      exists hl, In (h, hl) d /\
        (Z.of_nat (List.length (get m h)) < cap capacities h)%Z /\
        exists x, In x hl /\ ~ In x (get m h).
Proof.
  induction d as [|[h hl] d IH]; intros Hk.
  - exists []. split; [reflexivity | intros h []].
  - destruct (IH (fun k Hin => Hk k (or_intror Hin))) as (fs & E & Hfs).
    destruct (Hk h (or_introl eq_refl)) as [Hm Hc].
    set (b := (Z.of_nat (List.length (get m h)) <? cap capacities h)%Z
              && existsb truthy
                   (filter (fun resident => negb (mem resident (get m h))) hl)).
    assert (Eb : is_free_hospital capacities m h hl s = (s, Ok b)).
    { unfold is_free_hospital.
      bind_step ltac:(apply getitem_get; exact Hm).
      bind_step ltac:(apply getitem_cap; exact Hc).
      unfold b. destruct (_ <? _)%Z; reflexivity. }
    exists (if b then h :: fs else fs). split.
    + simpl. bind_step ltac:(exact Eb). bind_step ltac:(exact E). reflexivity.
    + intros k Hin.
      assert (Hcase : (b = true /\ k = h) \/ In k fs).
      { destruct b; [destruct Hin; auto | auto]. }
      destruct Hcase as [[Hb ->]|Hin'].
      * unfold b in Hb. apply andb_true_iff in Hb. destruct Hb as [Hlt Hex].
        apply Z.ltb_lt in Hlt. apply existsb_exists in Hex.
        destruct Hex as (x & Hx & _). apply filter_In in Hx.
        destruct Hx as [Hxl Hxm]. apply negb_true_iff, mem_false in Hxm.
        exists hl. simpl. eauto 6.
      * destruct (Hfs k Hin') as (hl' & Hin2 & Rest). exists hl'.
        simpl. auto.
Qed.

Lemma filter_none {A : Type} (p : A -> bool) l :
  (forall x, In x l -> p x = false) -> filter p l = [].
Proof.
  induction l as [|x l IH]; simpl; intros Hp; [reflexivity|].
  rewrite (Hp x) by auto. apply IH. auto.
Qed.

Lemma filter_all {A : Type} (p : A -> bool) l :
  (forall x, In x l -> p x = true) -> filter p l = l.
Proof.
  induction l as [|x l IH]; simpl; intros Hp; [reflexivity|].
  rewrite (Hp x) by auto. rewrite IH; auto.
Qed.

Lemma filter_notin_prefix (ml tail : list Player) :
  NoDup (ml ++ tail) ->
  filter (fun x => negb (mem x ml)) (ml ++ tail) = tail.
Proof.
  intros Hn. destruct (NoDup_app_inv _ _ Hn) as (_ & _ & Hd).
  rewrite filter_app. rewrite filter_none, filter_all.
  - reflexivity.
  - intros x Hx. apply negb_true_iff, mem_false. intros Hm. eapply Hd; eauto.
  - intros x Hx. apply negb_false_iff, mem_In. assumption.
Qed.

Lemma getitem_guarded {St : Type} (hl : list Player) (m : hr_matching) h
    (s : St) :
  hl <> [] -> In h (keys m) ->
  (match hl with
   | [] => ret []
   | _ :: _ => getitem m h
   end) s = (s, Ok (get m h)).
Proof.
  intros Hne Hk. destruct hl; [congruence|]. apply getitem_get. assumption.
Qed.

(* ===================================================================== *)
(** ** hr_hospital_optimal: the invariant of the loop *)
(* ===================================================================== *)

Section HospInvariant.
Variables hp0 rp0 : prefs.
Variable capacities : capacities_t.
Hypothesis HI : hr_instance hp0 rp0 capacities.

Lemma hosp_step st :
  hosp_inv hp0 rp0 capacities st -> nonempty (free st) = true ->
  exists st',
    hr_hospital_body capacities st = (st', Ok tt) /\
    hosp_inv hp0 rp0 capacities st' /\
    hosp_measure st' < hosp_measure st.
Proof.
  intros I Hc. pose proof (hri_consistent HI) as C.
  destruct st as [hp rp m f t].
  destruct I as [Kh Kr Km Sh Sr Mu Px La Cp Fr Tr]. st_simpl.
  destruct f as [|h fh]; [discriminate|]. clear Hc.
  destruct (Fr h (or_introl eq_refl)) as (Hhk0 & Hlt & x0 & Hx0 & Hx0m).
  assert (Hhk : In h (keys hp)) by (rewrite Kh; assumption).
  assert (Hhm : In h (keys m)) by (rewrite Km; assumption).
  assert (Nkm : NoDup (keys m)) by (rewrite Km; apply (cons_keys_r C)).
  assert (Nhp : forall b, NoDup (get hp b))
    by (intros b; eapply subseq_NoDup; [apply Sh | apply (cons_strict_r C)]).
  assert (Nrp : forall a, NoDup (get rp a))
    by (intros a; eapply subseq_NoDup; [apply Sr | apply (cons_strict_l C)]).
  assert (Nm : forall b, NoDup (get m b)).
  { intros b. destruct (Px b) as [tl Htl]. pose proof (Nhp b) as N.
    rewrite Htl in N. apply NoDup_app_inv in N. tauto. }
  destruct (Px h) as [tail Htail].
  assert (Hx0t : In x0 tail).
  { rewrite Htail in Hx0. apply in_app_or in Hx0. tauto. }
  destruct tail as [|r tail']; [destruct Hx0t|]. clear x0 Hx0 Hx0m Hx0t.
  assert (Hfilter : filter (fun x => negb (mem x (get m h))) (get hp h)
                    = r :: tail').
  { rewrite Htail. apply filter_notin_prefix. rewrite <- Htail. apply Nhp. }
  assert (Hrh : In r (get hp h))
    by (rewrite Htail; apply in_or_app; simpl; auto).
  assert (Hrm : ~ In r (get m h)).
  { pose proof (Nhp h) as N. rewrite Htail in N.
    apply NoDup_app_inv in N. destruct N as (_ & _ & D).
    intros Hin. apply (D r Hin). simpl. auto. }
  assert (Hhr : In h (get rp r)) by (apply Mu; assumption).
  assert (Hrk : In r (keys rp)) by (eapply get_nonempty_key; eauto).
  destruct (index_In _ _ Hhr) as [idx Hidx].
  destruct (index_split _ _ Hidx) as (pre & succs & Hrl & Hlen & Hnp & Hsk).
  pose proof (Nrp r) as Nrl. rewrite Hrl in Nrl.
  destruct (NoDup_app_inv _ _ Nrl) as (Npre & Nsuc' & Hdis).
  apply NoDup_cons_iff in Nsuc'. destruct Nsuc' as [Hh_suc Nsuc].
  assert (Hsuc_pre : forall x, In x succs -> ~ In x (pre ++ [h])).
  { intros x Hx Hin. apply in_app_or in Hin. destruct Hin as [Hin|[<-|[]]].
    - apply (Hdis x Hin). simpl. auto.
    - tauto. }
  assert (Hsuc : forall x, In x succs -> In x (keys hp) /\ In r (get hp x)).
  { intros x Hx.
    assert (In r (get hp x))
      by (apply Mu; rewrite Hrl; apply in_or_app; simpl; auto).
    split; [eapply get_nonempty_key; eauto | assumption]. }
  destruct (@hr_unmatch_eq r hp rp m (h :: fh) t Nkm) as (t' & Eun & Ft').
  set (m1 := unmatch_all r m) in *.
  assert (Hgm1 : forall b, get m1 b = remove1 r (get m b))
    by (intros b; apply get_unmatch_all).
  assert (Km1 : keys m1 = keys m) by apply keys_unmatch_all.
  set (m2 := dict_set h (get m1 h ++ [r]) m1).
  assert (Hgm2 : forall b, get m2 b = if eq_dec b h then get m h ++ [r]
                                      else remove1 r (get m b)).
  { intros b. unfold m2. rewrite get_dict_set, !Hgm1.
    destruct (eq_dec b h); [|reflexivity].
    rewrite remove1_notin by assumption. reflexivity. }
  assert (Km2 : keys m2 = keys m).
  { unfold m2. rewrite keys_dict_set; rewrite Km1; auto. }
  set (hp' := prune_from r succs hp).
  set (rp' := dict_set r (pre ++ [h]) rp).
  assert (Khp' : keys hp' = keys hp).
  { unfold hp'. apply keys_prune_from. intros x Hx. apply Hsuc. assumption. }
  assert (Hghp' : forall b, get hp' b =
                            if in_dec string_dec b succs
                            then remove1 r (get hp b) else get hp b).
  { intros b. unfold hp'. destruct (in_dec string_dec b succs).
    - apply get_prune_from_in; assumption.
    - apply get_prune_from_notin; assumption. }
  (* a resident matched somewhere else is matched to a successor *)
  assert (Hother : forall b, b <> h -> In r (get m b) -> In b succs).
  { intros b Hb Hin. destruct (La r b Hin) as [p Hp].
    rewrite Hrl in Hp. eapply app_snoc_last; eauto. }
  (* the new prefixes, and what is left after them *)
  assert (Hpre' : forall b tl, get hp b = get m b ++ tl ->
             exists tl', get hp' b = get m2 b ++ tl' /\
                         List.length tl' <= List.length tl /\
                         (b = h -> List.length tl' < List.length tl)).
  { intros b tl Htl. rewrite Hghp', Hgm2.
    destruct (eq_dec b h) as [->|n].
    - destruct (in_dec string_dec h succs); [tauto|].
      rewrite Htail in Htl. apply app_inv_head in Htl. subst tl.
      exists tail'. rewrite Htail, <- app_assoc. simpl. auto.
    - destruct (in_dec string_dec b succs) as [Hb|Hb].
      + destruct (in_dec string_dec r (get m b)) as [Hr|Hr].
        * exists tl. rewrite Htl, remove1_app_in by assumption.
          split; [reflexivity | split; [lia | tauto]].
        * exists (remove1 r tl).
          rewrite Htl, remove1_app_notin, (remove1_notin _ _ Hr) by assumption.
          split; [reflexivity|]. split; [apply length_remove1_le | tauto].
      + exists tl. rewrite remove1_notin.
        * split; [assumption | split; [lia | tauto]].
        * intros Hr. apply Hb. apply Hother; assumption. }
  destruct (@get_free_hospitals_spec capacities m2
              (mk_hr_state hp' rp' m2 (h :: fh) (m2 :: t' ++ t)) hp')
    as (fs & Efree & Hfs).
  { intros k Hk. rewrite Khp', Kh in Hk. split.
    - rewrite Km2, Km. assumption.
    - apply (hri_caps HI). assumption. }
  exists (mk_hr_state hp' rp' m2 fs (m2 :: t' ++ t)).
  split; [|split].
  - (* the statements of the body *)
    unfold hr_hospital_body. bind_pure. bind_pure. bind_pure.
    bind_step ltac:(apply getitem_get; exact Hhk). bind_pure.
    bind_step ltac:(apply getitem_guarded;
                    [intros E; rewrite E in Hrh; destruct Hrh | exact Hhm]).
    rewrite Hfilter. bind_pure.
    bind_step ltac:(exact Eun).
    bind_step ltac:(apply match_append_eq; rewrite Km1; exact Hhm).
    fold m2. bind_pure.
    bind_step ltac:(apply getitem_get; exact Hrk).
    rewrite Hidx, Hsk.
    erewrite bind_Ok;
      [|apply hosp_prune_loop with (pre := pre ++ [h]);
        [exact Hrk | rewrite Hrl, <- app_assoc; reflexivity
         | rewrite <- app_assoc; exact Nrl | exact Hsuc]].
    fold hp' rp'. unfold refresh_free_hospitals. bind_pure. bind_pure.
    bind_step ltac:(exact Efree). reflexivity.
  - (* the invariant *)
    constructor; st_simpl.
    + rewrite Khp'. assumption.
    + unfold rp'. rewrite keys_dict_set by assumption. assumption.
    + rewrite Km2. assumption.
    + intros b. eapply subseq_trans; [|apply Sh].
      unfold hp'. apply subseq_prune_from. assumption.
    + intros a. unfold rp'. rewrite get_dict_set.
      destruct (eq_dec a r) as [->|n]; [|apply Sr].
      eapply subseq_trans; [|apply Sr]. rewrite Hrl.
      apply subseq_app; [apply subseq_refl|]. apply subseq_keep.
      apply subseq_nil.
    + (* mutual ranking *)
      intros a b. unfold rp'. rewrite Hghp', get_dict_set.
      destruct (in_dec string_dec b succs) as [Hb|Hb];
        destruct (eq_dec a r) as [->|n].
      * split.
        -- intros Hin. exfalso. eapply Hsuc_pre; eauto.
        -- intros Hin. exfalso.
           eapply NoDup_remove1_notin; [|exact Hin]. apply Nhp.
      * rewrite Mu. split.
        -- apply In_remove1_neq. assumption.
        -- apply In_remove1.
      * rewrite <- Mu, Hrl. rewrite !in_app_iff. simpl. intuition.
      * apply Mu.
    + (* the prefixes *)
      intros b. destruct (Px b) as [tl Htl].
      destruct (Hpre' b tl Htl) as (tl' & E & _). eauto.
    + (* the last hospital of a matched resident *)
      intros a b. rewrite Hgm2. unfold rp'. rewrite get_dict_set.
      destruct (eq_dec b h) as [->|n].
      * intros Hin. apply in_app_or in Hin.
        destruct Hin as [Hin|[<-|[]]].
        -- destruct (eq_dec a r) as [->|]; [tauto|]. apply La. assumption.
        -- destruct (eq_dec r r); [eauto | congruence].
      * intros Hin.
        assert (a <> r).
        { intros ->. eapply NoDup_remove1_notin; [|exact Hin]. apply Nm. }
        destruct (eq_dec a r); [congruence|].
        apply La. eapply In_remove1; eauto.
    + (* the capacities *)
      intros b Hb. rewrite Hgm2. destruct (eq_dec b h) as [->|n].
      * rewrite length_app. simpl. lia.
      * pose proof (Cp b Hb). pose proof (length_remove1_le r (get m b)). lia.
    + (* the free hospitals *)
      intros k Hk. destruct (Hfs k Hk) as (hl & Hin & Hl & x & Hx & Hxm).
      assert (Hkk : In k (keys hp')).
      { unfold keys. change k with (fst (k, hl)). apply in_map. assumption. }
      assert (Hg : get hp' k = hl).
      { unfold get. rewrite (In_lookup k hl hp'); [reflexivity | | assumption].
        rewrite Khp', Kh. apply (cons_keys_r C). }
      split; [rewrite <- Kh, <- Khp'; assumption|].
      split; [assumption|]. exists x. rewrite Hg. auto.
    + (* the trace *)
      assert (T2 : within_capacity hp0 capacities 0 m2).
      { intros b Hb. rewrite Hgm2. destruct (eq_dec b h) as [->|n].
        - rewrite length_app. simpl. lia.
        - pose proof (Cp b Hb). pose proof (length_remove1_le r (get m b)). lia. }
      constructor; [assumption|]. apply Forall_app. split; [|assumption].
      eapply Forall_impl; [|exact Ft']. intros m' Hm' b Hb.
      pose proof (Cp b Hb). specialize (Hm' b). lia.
  - (* the measure *)
    unfold hosp_measure. st_simpl. rewrite Khp'.
    apply sum_over_lt with (k0 := h).
    + assumption.
    + destruct (Hpre' h _ Htail) as (tl' & E & _ & Hl).
      rewrite E, Htail, !length_app. specialize (Hl eq_refl). simpl in *. lia.
    + intros b _. destruct (Px b) as [tl Htl].
      destruct (Hpre' b tl Htl) as (tl' & E & Hl & _).
      rewrite E, Htl, !length_app. lia.
Qed.
End HospInvariant.

(* ===================================================================== *)
(** ** hr_hospital_optimal: the whole run *)
(* ===================================================================== *)

Lemma prefix_sorted_gen : forall (ms pre tl : list Player),
  NoDup (pre ++ ms ++ tl) ->
  StronglySorted (prefers (pre ++ ms ++ tl)) ms.
Proof.
  induction ms as [|x ms IH]; intros pre tl Hn; [constructor|].
  constructor.
  - specialize (IH (pre ++ [x]) tl). rewrite <- app_assoc in IH.
    apply IH. exact Hn.
  - apply Forall_forall. intros y Hy.
    destruct (NoDup_app_inv _ _ Hn) as (_ & Nx & Hd).
    assert (Hxp : ~ In x pre) by (intros Hi; apply (Hd x Hi); simpl; auto).
    assert (Hyl : In y (pre ++ (x :: ms) ++ tl)).
    { apply in_or_app. right. simpl. right. apply in_or_app. auto. }
    destruct (index_In _ _ Hyl) as [j Hj].
    exists (List.length pre), j. split; [|split; [assumption|]].
    + apply index_app_notin. assumption.
    + assert (Hny : ~ In y (pre ++ [x])).
      { intros Hin. apply in_app_or in Hin. destruct Hin as [Hin|[<-|[]]].
        - apply (Hd y Hin). simpl. right. apply in_or_app. auto.
        - simpl in Nx. apply NoDup_cons_iff in Nx. destruct Nx as [Nx _].
          apply Nx. apply in_or_app. auto. }
      replace (pre ++ (x :: ms) ++ tl) with ((pre ++ [x]) ++ ms ++ tl) in Hj
        by (rewrite <- app_assoc; reflexivity).
      pose proof (index_app_ge _ _ _ Hny Hj) as Hge.
      rewrite length_app in Hge. simpl in Hge. lia.
Qed.

Lemma prefix_ordered (ms tl : list Player) :
  NoDup (ms ++ tl) -> ordered_by_rank (ms ++ tl) ms.
Proof.
  intros Hn. split.
  - intros x Hx. apply in_or_app. auto.
  - apply (prefix_sorted_gen ms [] tl). exact Hn.
Qed.

Lemma hosp_start hp0 rp0 capacities :
  hr_instance hp0 rp0 capacities ->
  exists st0,
    refresh_free_hospitals capacities
      (mk_hr_state hp0 rp0 (empty_matching hp0) [] [empty_matching hp0])
    = (st0, Ok tt)
    /\ hosp_inv hp0 rp0 capacities st0
    /\ hosp_measure st0 < hosp_fuel hp0.
Proof.
  intros HI. pose proof (hri_consistent HI) as C.
  set (m0 := empty_matching hp0).
  destruct (@get_free_hospitals_spec capacities m0
              (mk_hr_state hp0 rp0 m0 [] [m0]) hp0) as (fs & E & Hfs).
  { intros h Hh. split.
    - unfold m0, empty_matching. rewrite keys_init. assumption.
    - apply (hri_caps HI). assumption. }
  exists (mk_hr_state hp0 rp0 m0 fs [m0]). split; [|split].
  - unfold refresh_free_hospitals.
    bind_pure. bind_pure. fold m0.
    bind_step ltac:(exact E). reflexivity.
  - assert (W : within_capacity hp0 capacities 0 m0).
    { intros h Hh. unfold m0. rewrite get_empty_matching. simpl.
      destruct (hri_caps HI _ Hh). lia. }
    constructor; st_simpl.
    + reflexivity.
    + reflexivity.
    + apply keys_init.
    + intros h. apply subseq_refl.
    + intros r. apply subseq_refl.
    + apply (cons_mutual C).
    + intros h. unfold m0. rewrite get_empty_matching. simpl. eauto.
    + intros r h. unfold m0. rewrite get_empty_matching. intros [].
    + exact W.
    + intros h Hh. destruct (Hfs h Hh) as (hl & Hin & Hl & x & Hx & Hxm).
      assert (Hg : get hp0 h = hl).
      { unfold get. rewrite (In_lookup h hl hp0); [reflexivity | | assumption].
        apply (cons_keys_r C). }
      split.
      * unfold keys. change h with (fst (h, hl)). apply in_map. assumption.
      * split; [assumption|]. exists x. rewrite Hg. auto.
    + constructor; [exact W | constructor].
  - unfold hosp_measure, hosp_fuel. st_simpl.
    apply Nat.lt_succ_r. apply sum_over_le. intros h _. lia.
Qed.

(** [hr_hospital_optimal] on an instance: it returns, and this is what it
    returns and leaves behind. *)
Lemma hr_hospital_optimal_total hp0 rp0 capacities fuel :
  hr_instance hp0 rp0 capacities ->
  hosp_fuel hp0 <= fuel ->
  exists st,
    hr_hospital_optimal fuel hp0 rp0 capacities = (st, Ok (hr_match st))
    /\ hr_outcome hp0 rp0 capacities 0 st.
Proof.
  intros HI Hfuel. pose proof (hri_consistent HI) as C.
  destruct (hosp_start HI) as (st0 & E0 & I0 & Hm0).
  pose proof (while_rule (hosp_inv hp0 rp0 capacities) (fun _ _ => False)
                hosp_measure (fun s => nonempty (free s))
                (hr_hospital_body capacities)) as W.
  assert (Hbody : forall s, hosp_inv hp0 rp0 capacities s ->
     nonempty (free s) = true ->
     match hr_hospital_body capacities s with
     | (s', Ok _) => hosp_inv hp0 rp0 capacities s'
                     /\ hosp_measure s' < hosp_measure s
     | (s', Raise e) => False
     | (_, OutOfFuel) => False
     end).
  { intros s I Hc. destruct (hosp_step HI I Hc) as (s' & E & I' & Hlt).
    rewrite E. auto. }
  specialize (W Hbody fuel st0 I0 ltac:(lia)).
  destruct (while fuel _ _ st0) as [st [[]|e|]] eqn:El; try contradiction.
  destruct W as [I _]. exists st. split.
  - unfold hr_hospital_optimal, hr_hospital_optimal_run.
    unfold hr_init. bind_pure.
    bind_step ltac:(exact E0). bind_step ltac:(exact El). reflexivity.
  - destruct I as [Kh Kr Km Sh Sr Mu Px La Cp Fr Tr].
    constructor; auto.
    intros h. destruct (Px h) as [tl Htl]. rewrite Htl.
    apply prefix_ordered. rewrite <- Htl.
    eapply subseq_NoDup; [apply Sh | apply (cons_strict_r C)].
Qed.

Lemma hr_instanceb_sound hp rp capacities :
  hr_instanceb hp rp capacities = true -> hr_instance hp rp capacities.
Proof.
  unfold hr_instanceb. rewrite andb_true_iff, forallb_forall. intros [C Hc].
  constructor; [apply consistentb_sound; assumption|].
  intros h Hh. specialize (Hc h Hh). unfold cap.
  destruct (lookup h capacities) as [c|] eqn:E; [|discriminate].
  split; [apply lookup_In_keys; eauto | apply Z.leb_le; assumption].
Qed.

(** The heads of the iterations of [hr_resident_optimal]: whatever the number
    of iterations, the loop is in a state that satisfies the invariant. *)
Lemma res_loop_heads hp0 rp0 capacities n :
  hr_instance hp0 rp0 capacities ->
  res_inv hp0 rp0 capacities
    (fst (while n (fun s => nonempty (free s)) (hr_resident_body capacities)
            (res_start hp0 rp0))).
Proof.
  intros HI.
  pose proof (while_invariant (res_inv hp0 rp0 capacities) (fun _ _ => False)
                (fun s => nonempty (free s))
                (hr_resident_body capacities)) as W.
  assert (Hbody : forall s, res_inv hp0 rp0 capacities s ->
     nonempty (free s) = true ->
     match hr_resident_body capacities s with
     | (s', Ok _) => res_inv hp0 rp0 capacities s'
     | (s', Raise e) => False
     | (s', OutOfFuel) => res_inv hp0 rp0 capacities s'
     end).
  { intros s I Hc. destruct (res_step HI I Hc) as (E & I' & _).
    rewrite E. assumption. }
  specialize (W Hbody n (res_start hp0 rp0) (res_start_inv HI)).
  destruct (while n _ _ (res_start hp0 rp0)) as [st [[]|e|]]; simpl; tauto.
Qed.

Lemma sm_inv_shrunk sp0 rp0 st :
  sm_inv sp0 rp0 st ->
  shrunk (suitor_prefs st) sp0 /\ shrunk (reviewer_prefs st) rp0.
Proof.
  intros I. split; split.
  - apply (smv_keys_s I).
  - apply (smv_sub_s I).
  - apply (smv_keys_r I).
  - intros r. destruct (smv_pre_r I r) as [tl E]. rewrite E.
    apply subseq_app_l.
Qed.

(* ===================================================================== *)
(** ** The properties of stable_marriage *)
(* ===================================================================== *)

Lemma roles_suitor sp rp :
  proposers sp rp "suitor" = sp /\ acceptors sp rp "suitor" = rp.
Proof.
  unfold proposers, acceptors.
  destruct (string_dec "suitor" "reviewer"); [discriminate | auto].
Qed.

Lemma roles_reviewer sp rp :
  proposers sp rp "reviewer" = rp /\ acceptors sp rp "reviewer" = sp.
Proof.
  unfold proposers, acceptors.
  destruct (string_dec "reviewer" "reviewer"); [auto | congruence].
Qed.

(** The runs of the documentation's instance and of the tests' instance. *)
Example stable_marriage_suitor_optimal :
  snd (stable_marriage 40 ex_suitors ex_reviewers "suitor")
  = Ok [("A", Some "F"); ("B", Some "D"); ("C", Some "E")].
Proof. vm_compute. reflexivity. Qed.

Example stable_marriage_reviewer_optimal :
  snd (stable_marriage 40 ex_suitors ex_reviewers "reviewer")
  = Ok [("D", Some "B"); ("E", Some "C"); ("F", Some "A")].
Proof. vm_compute. reflexivity. Qed.

Example hospital_resident_resident_optimal :
  snd (hospital_resident 60 test_hospitals test_residents test_capacities
         "resident")
  = Ok [("X", ["D"]); ("Y", ["A"; "B"]); ("Z", ["C"])].
Proof. vm_compute. reflexivity. Qed.

Example hospital_resident_hospital_optimal :
  snd (hospital_resident 60 test_hospitals test_residents test_capacities
         "hospital")
  = Ok [("X", ["D"]); ("Y", ["A"; "B"]); ("Z", ["C"])].
Proof. vm_compute. reflexivity. Qed.

(** C1: on an instance with complete strict preference lists over equal-sized
    sides, [stable_marriage] returns, for either value of [optimal], a
    matching with no blocking pair: no proposer [s] and acceptor [r] such that
    [s] ranks [r] before the partner it was given and [r] ranks [s] before
    the partner it was given.  Everybody has a partner in that matching, so
    the statement is about all the pairs. *)
Theorem stable_marriage_stable sp rp fuel :
  sm_instance sp rp -> sm_fuel sp rp <= fuel ->
  (exists store m,
      stable_marriage fuel sp rp "suitor" = (store, Ok m) /\
      stable sp rp m /\ bijection sp rp m)
  /\
  (exists store m,
      stable_marriage fuel sp rp "reviewer" = (store, Ok m) /\
      stable rp sp m /\ bijection rp sp m).
Proof.
  intros SI Hfuel. split.
  - destruct (stable_marriage_total "suitor" SI Hfuel) as (st & E & I & Hq).
    destruct (roles_suitor sp rp) as [Ep Ea]. rewrite Ep, Ea in I.
    eexists. exists (matching st). split; [exact E|]. split.
    + apply sm_inv_stable; [apply (smi_consistent SI) | assumption].
    + apply sm_inv_bijection; assumption.
  - destruct (stable_marriage_total "reviewer" SI Hfuel) as (st & E & I & Hq).
    destruct (roles_reviewer sp rp) as [Ep Ea]. rewrite Ep, Ea in I.
    eexists. exists (matching st). split; [exact E|]. split.
    + apply sm_inv_stable; [|assumption].
      apply consistent_sym. apply (smi_consistent SI).
    + apply sm_inv_bijection; auto using sm_instance_sym.
Qed.

Lemma stable_marriage_stable_witness :
  sm_instance ex_suitors ex_reviewers /\
  sm_fuel ex_suitors ex_reviewers <= 40 /\
  (exists store m,
      stable_marriage 40 ex_suitors ex_reviewers "suitor" = (store, Ok m) /\
      stable ex_suitors ex_reviewers m /\
      bijection ex_suitors ex_reviewers m)
  /\
  (exists store m,
      stable_marriage 40 ex_suitors ex_reviewers "reviewer" = (store, Ok m) /\
      stable ex_reviewers ex_suitors m /\
      bijection ex_reviewers ex_suitors m).
Proof.
  assert (SI : sm_instance ex_suitors ex_reviewers)
    by (apply sm_instanceb_sound; vm_compute; reflexivity).
  assert (F : sm_fuel ex_suitors ex_reviewers <= 40)
    by (vm_compute; lia).
  split; [exact SI|]. split; [exact F|].
  exact (stable_marriage_stable SI F).
Defined.

(** C9: on an instance with complete strict preference lists over equal-sized
    sides, the matching [stable_marriage] returns is a bijection: its keys are
    the proposers, each once, and its values are the acceptors, each once,
    with no [None] left. *)
Theorem stable_marriage_bijection sp rp fuel :
  sm_instance sp rp -> sm_fuel sp rp <= fuel ->
  (exists store m,
      stable_marriage fuel sp rp "suitor" = (store, Ok m) /\ bijection sp rp m)
  /\
  (exists store m,
      stable_marriage fuel sp rp "reviewer" = (store, Ok m)
      /\ bijection rp sp m).
Proof.
  intros SI Hfuel. split.
  - destruct (stable_marriage_total "suitor" SI Hfuel) as (st & E & I & Hq).
    destruct (roles_suitor sp rp) as [Ep Ea]. rewrite Ep, Ea in I.
    eexists. exists (matching st). split; [exact E|].
    apply sm_inv_bijection; assumption.
  - destruct (stable_marriage_total "reviewer" SI Hfuel) as (st & E & I & Hq).
    destruct (roles_reviewer sp rp) as [Ep Ea]. rewrite Ep, Ea in I.
    eexists. exists (matching st). split; [exact E|].
    apply sm_inv_bijection; auto using sm_instance_sym.
Qed.

Lemma stable_marriage_bijection_witness :
  sm_instance ex_suitors ex_reviewers /\
  sm_fuel ex_suitors ex_reviewers <= 40 /\
  (exists store m,
      stable_marriage 40 ex_suitors ex_reviewers "suitor" = (store, Ok m)
      /\ bijection ex_suitors ex_reviewers m)
  /\
  (exists store m,
      stable_marriage 40 ex_suitors ex_reviewers "reviewer" = (store, Ok m)
      /\ bijection ex_reviewers ex_suitors m).
Proof.
  assert (SI : sm_instance ex_suitors ex_reviewers)
    by (apply sm_instanceb_sound; vm_compute; reflexivity).
  assert (F : sm_fuel ex_suitors ex_reviewers <= 40)
    by (vm_compute; lia).
  split; [exact SI|]. split; [exact F|].
  exact (stable_marriage_bijection SI F).
Defined.

(** C8: [stable_marriage(A, B, optimal="reviewer")] returns what
    [stable_marriage(B, A, optimal="suitor")] returns, and leaves the two
    dictionaries as that call leaves them, each in its own argument. *)
Theorem stable_marriage_role_swap fuel (A B : prefs) :
  stable_marriage fuel A B "reviewer" =
  (let '((b, a), r) := stable_marriage fuel B A "suitor" in ((a, b), r)).
Proof.
  unfold stable_marriage.
  destruct (string_dec "reviewer" "reviewer") as [_|n]; [|congruence].
  destruct (string_dec "suitor" "reviewer") as [e|_]; [discriminate|].
  destruct (sm_loop fuel (sm_init B A)) as [s [[]|e|]]; reflexivity.
Qed.

(* ===================================================================== *)
(** ** The properties of the entry point hospital_resident *)
(* ===================================================================== *)

(** C5: the consistency check is asked to reject a hospital that ranks a
    resident who does not rank it back.  [_check_inputs] goes through the
    residents' lists only: on the input of the repository's test
    [test_raises_extra_rank_error], where hospital Z ranks resident A who
    does not rank Z, the check raises nothing and the call returns a
    matching, where the test expects a [ValueError]. *)
Theorem check_inputs_misses_hospital_side :
  ~ hospitals_ranked test_hospitals_extra test_residents /\
  _check_inputs test_hospitals_extra test_residents
    (hr_init test_hospitals_extra test_residents)
  = (hr_init test_hospitals_extra test_residents, Ok tt) /\
  snd (hospital_resident 20 test_hospitals_extra test_residents
         test_capacities "resident")
  = Ok [("X", ["D"]); ("Y", ["A"; "B"]); ("Z", ["C"])].
Proof.
  split; [|split].
  - intros H.
    assert (X : In "Z" (get test_residents "A"))
      by (apply H; vm_compute; tauto).
    vm_compute in X. destruct X as [X|[]]. discriminate.
  - vm_compute. reflexivity.
  - vm_compute. reflexivity.
Qed.

(** The exception of a rejected input carries a fixed message, which names
    no pair: the inputs whose offending pairs are (B, X) and (Q, W) raise the
    same exception. *)
Example check_inputs_names_no_pair :
  snd (hospital_resident 20 test_hospitals_missing test_residents
         test_capacities "resident")
  = Raise (ValueError "Hospitals must rank all residents who rank them.") /\
  snd (hospital_resident 20 lone_hospital lone_resident lone_capacity
         "resident")
  = Raise (ValueError "Hospitals must rank all residents who rank them.").
Proof. split; vm_compute; reflexivity. Qed.

(** C10: an input that violates mutual ranking consistency and has an
    unrecognized [optimal] is asked to raise the consistency error.  The check
    does run first, but it misses the hospital that ranks a resident who does
    not rank it back: on that input the call raises the error of the unknown
    option. *)
Theorem unknown_optimal_after_one_sided_check :
  ~ hospitals_ranked test_hospitals_extra test_residents /\
  hospital_resident 20 test_hospitals_extra test_residents
    test_capacities "foo"
  = (hr_init test_hospitals_extra test_residents,
     Raise (InvalidOptimalityOption "foo")).
Proof.
  split.
  - intros H.
    assert (X : In "Z" (get test_residents "A"))
      by (apply H; vm_compute; tauto).
    vm_compute in X. destruct X as [X|[]]. discriminate.
  - vm_compute. reflexivity.
Qed.

(** C6, as stated, fails: [stable_marriage] does not look at [optimal] beyond
    the comparison with "reviewer", so an unknown value returns a matching and
    prunes the caller's lists; and [hospital_resident] raises the consistency
    error, not the error of the unknown option, when the check fails first. *)
Lemma unknown_optimal_not_always_rejected :
  stable_marriage 40 ex_suitors ex_reviewers "foo"
  = (([("A", ["F"]); ("B", ["D"]); ("C", ["E"])],
      [("D", ["B"]); ("E", ["C"]); ("F", ["A"])]),
     Ok [("A", Some "F"); ("B", Some "D"); ("C", Some "E")])
  /\
  snd (hospital_resident 20 test_hospitals_missing test_residents
         test_capacities "foo")
  = Raise InputConsistencyError
  /\ InputConsistencyError <> InvalidOptimalityOption "foo".
Proof.
  split; [vm_compute; reflexivity|].
  split; [vm_compute; reflexivity|].
  vm_compute. discriminate.
Qed.

(** C6, amended: a call of [hospital_resident] whose inputs pass the
    consistency check and whose [optimal] is neither "resident" nor
    "hospital" raises the error of the unknown option before any solver
    step: the store is the one of the call, with the caller's dictionaries
    untouched and no matching. *)
Theorem hospital_resident_unknown_optimal fuel hp rp capacities optimal :
  residents_ranked hp rp ->
  optimal <> "resident" -> optimal <> "hospital" ->
  hospital_resident fuel hp rp capacities optimal =
  (hr_init hp rp, Raise (InvalidOptimalityOption optimal)).
Proof.
  intros Hr N1 N2. rewrite hospital_resident_dispatch by assumption.
  destruct (string_dec optimal "resident"); [contradiction|].
  destruct (string_dec optimal "hospital"); [contradiction|].
  reflexivity.
Qed.

Lemma hospital_resident_unknown_optimal_witness :
  residents_ranked test_hospitals test_residents /\
  "foo" <> "resident" /\ "foo" <> "hospital" /\
  hospital_resident 20 test_hospitals test_residents test_capacities "foo" =
  (hr_init test_hospitals test_residents,
   Raise (InvalidOptimalityOption "foo")).
Proof.
  assert (R : residents_ranked test_hospitals test_residents)
    by (apply residents_rankedb_sound; vm_compute; reflexivity).
  assert (N1 : "foo" <> "resident") by discriminate.
  assert (N2 : "foo" <> "hospital") by discriminate.
  split; [exact R|]. split; [exact N1|]. split; [exact N2|].
  exact (hospital_resident_unknown_optimal 20 test_capacities R N1 N2).
Defined.

(* ===================================================================== *)
(** ** The properties of the two HR solvers *)
(* ===================================================================== *)

(** C7: for both HR variants the sequence of every hospital in the returned
    matching is in ascending order of that hospital's preference rank: its
    members are in the hospital's list and each comes before all the later
    ones, both in the list the caller supplied and in the pruned list the
    call leaves.  [hr_resident_optimal] gets there by its final sort,
    [hr_hospital_optimal] without one. *)
Theorem hr_matching_ordered hp rp capacities fuel :
  hr_instance hp rp capacities ->
  res_fuel hp rp <= fuel -> hosp_fuel hp <= fuel ->
  (exists st m,
      hr_resident_optimal fuel hp rp capacities = (st, Ok m) /\
      forall h, ordered_by_rank (get hp h) (get m h) /\
                ordered_by_rank (get (hospital_prefs st) h) (get m h))
  /\
  (exists st m,
      hr_hospital_optimal fuel hp rp capacities = (st, Ok m) /\
      forall h, ordered_by_rank (get hp h) (get m h) /\
                ordered_by_rank (get (hospital_prefs st) h) (get m h)).
Proof.
  intros HI F1 F2. pose proof (hri_consistent HI) as C. split.
  - destruct (hr_resident_optimal_total HI F1) as (st & E & O).
    exists st, (hr_match st). split; [exact E|]. intros h. split.
    + eapply ordered_by_rank_subseq;
        [apply (hro_sub_h O) | apply (cons_strict_r C) | apply (hro_ordered O)].
    + apply (hro_ordered O).
  - destruct (hr_hospital_optimal_total HI F2) as (st & E & O).
    exists st, (hr_match st). split; [exact E|]. intros h. split.
    + eapply ordered_by_rank_subseq;
        [apply (hro_sub_h O) | apply (cons_strict_r C) | apply (hro_ordered O)].
    + apply (hro_ordered O).
Qed.

Lemma hr_matching_ordered_witness :
  hr_instance test_hospitals test_residents test_capacities /\
  res_fuel test_hospitals test_residents <= 60 /\
  hosp_fuel test_hospitals <= 60 /\
  (exists st m,
      hr_resident_optimal 60 test_hospitals test_residents test_capacities
      = (st, Ok m) /\
      forall h, ordered_by_rank (get test_hospitals h) (get m h) /\
                ordered_by_rank (get (hospital_prefs st) h) (get m h))
  /\
  (exists st m,
      hr_hospital_optimal 60 test_hospitals test_residents test_capacities
      = (st, Ok m) /\
      forall h, ordered_by_rank (get test_hospitals h) (get m h) /\
                ordered_by_rank (get (hospital_prefs st) h) (get m h)).
Proof.
  assert (HI : hr_instance test_hospitals test_residents test_capacities)
    by (apply hr_instanceb_sound; vm_compute; reflexivity).
  assert (F1 : res_fuel test_hospitals test_residents <= 60)
    by (vm_compute; lia).
  assert (F2 : hosp_fuel test_hospitals <= 60) by (vm_compute; lia).
  split; [exact HI|]. split; [exact F1|]. split; [exact F2|].
  exact (hr_matching_ordered HI F1 F2).
Defined.

(** C2, as stated, fails for [hr_resident_optimal]: the resident is appended
    to the hospital's sequence before the worst match is evicted, so between
    the two statements a full hospital holds one resident too many.  Here X
    has capacity 1 and holds A and B after line 93. *)
Lemma resident_optimal_oversubscribes :
  ~ Forall (within_capacity over_hospitals over_capacities 0)
      (trace (fst (hr_resident_optimal 10 over_hospitals over_residents
                     over_capacities))).
Proof.
  intros F. rewrite Forall_forall in F.
  assert (Hin : In [("X", ["A"; "B"])]
                  (trace (fst (hr_resident_optimal 10 over_hospitals
                                 over_residents over_capacities))))
    by (vm_compute; tauto).
  specialize (F _ Hin "X" ltac:(vm_compute; tauto)).
  vm_compute in F. apply F. reflexivity.
Qed.

(** C2, amended: on an HR instance, [hr_hospital_optimal] keeps every
    hospital's sequence within its capacity after every statement that
    changes the matching; [hr_resident_optimal] keeps it within capacity at
    the head of every iteration of its loop and in the matching it returns,
    and within capacity plus one after every statement. *)
Theorem capacity_respected hp rp capacities fuel :
  hr_instance hp rp capacities ->
  res_fuel hp rp <= fuel -> hosp_fuel hp <= fuel ->
  (exists st m,
      hr_resident_optimal fuel hp rp capacities = (st, Ok m) /\
      within_capacity hp capacities 0 m /\
      Forall (within_capacity hp capacities 1) (trace st) /\
      forall n,
        within_capacity hp capacities 0
          (hr_match
             (fst (while n (fun s => nonempty (free s))
                     (hr_resident_body capacities) (res_start hp rp)))))
  /\
  (exists st m,
      hr_hospital_optimal fuel hp rp capacities = (st, Ok m) /\
      within_capacity hp capacities 0 m /\
      Forall (within_capacity hp capacities 0) (trace st)).
Proof.
  intros HI F1 F2. split.
  - destruct (hr_resident_optimal_total HI F1) as (st & E & O).
    exists st, (hr_match st). split; [exact E|].
    split; [apply (hro_cap O)|]. split; [apply (hro_trace O)|].
    intros n. apply (rsv_cap (res_loop_heads n HI)).
  - destruct (hr_hospital_optimal_total HI F2) as (st & E & O).
    exists st, (hr_match st). split; [exact E|].
    split; [apply (hro_cap O) | apply (hro_trace O)].
Qed.

Lemma capacity_respected_witness :
  hr_instance test_hospitals test_residents test_capacities /\
  res_fuel test_hospitals test_residents <= 60 /\
  hosp_fuel test_hospitals <= 60 /\
  (exists st m,
      hr_resident_optimal 60 test_hospitals test_residents test_capacities
      = (st, Ok m) /\
      within_capacity test_hospitals test_capacities 0 m /\
      Forall (within_capacity test_hospitals test_capacities 1) (trace st) /\
      forall n,
        within_capacity test_hospitals test_capacities 0
          (hr_match
             (fst (while n (fun s => nonempty (free s))
                     (hr_resident_body test_capacities)
                     (res_start test_hospitals test_residents)))))
  /\
  (exists st m,
      hr_hospital_optimal 60 test_hospitals test_residents test_capacities
      = (st, Ok m) /\
      within_capacity test_hospitals test_capacities 0 m /\
      Forall (within_capacity test_hospitals test_capacities 0) (trace st)).
Proof.
  assert (HI : hr_instance test_hospitals test_residents test_capacities)
    by (apply hr_instanceb_sound; vm_compute; reflexivity).
  assert (F1 : res_fuel test_hospitals test_residents <= 60)
    by (vm_compute; lia).
  assert (F2 : hosp_fuel test_hospitals <= 60) by (vm_compute; lia).
  split; [exact HI|]. split; [exact F1|]. split; [exact F2|].
  exact (capacity_respected HI F1 F2).
Defined.

(* ===================================================================== *)
(** ** More facts about preference lists *)
(* ===================================================================== *)

Lemma prefers_irrefl l a : ~ prefers l a a.
Proof. intros (i & j & Hi & Hj & Hij). rewrite Hi in Hj. injection Hj. lia. Qed.

Lemma prefers_asym l a b : prefers l a b -> prefers l b a -> False.
Proof.
  intros (i & j & Hi & Hj & Hij) (j' & i' & Hj' & Hi' & Hji).
  rewrite Hi in Hi'. rewrite Hj in Hj'. injection Hi'. injection Hj'. lia.
Qed.

Lemma prefers_total l a b :
  In a l -> In b l -> a <> b -> prefers l a b \/ prefers l b a.
Proof.
  intros Ha Hb Hn.
  destruct (index_In _ _ Ha) as [i Hi]. destruct (index_In _ _ Hb) as [j Hj].
  destruct (Nat.lt_trichotomy i j) as [Hlt|[->|Hgt]].
  - left. exists i, j. auto.
  - exfalso. apply Hn. eapply index_inj; eauto.
  - right. exists j, i. auto.
Qed.

Lemma prefers_In l a b : prefers l a b -> In a l /\ In b l.
Proof.
  intros (i & j & Hi & Hj & _). split.
  - eapply nth_error_In. apply index_nth. eauto.
  - eapply nth_error_In. apply index_nth. eauto.
Qed.

Lemma prefers_head (x : Player) l y :
  In y (x :: l) -> y <> x -> prefers (x :: l) x y.
Proof.
  intros Hy Hn. destruct (index_In _ _ Hy) as [j Hj].
  exists 0, j. split; [|split; [assumption|]].
  - simpl. destruct (eq_dec x x); congruence.
  - simpl in Hj. destruct (eq_dec y x); [congruence|].
    destruct (index y l); [|discriminate]. injection Hj. lia.
Qed.

Lemma prefers_app_l l tail a b : prefers l a b -> prefers (l ++ tail) a b.
Proof.
  intros (i & j & Hi & Hj & Hij). exists i, j.
  split; [|split]; auto using index_app_l.
Qed.

(** In a list without duplicates, [x] comes before all that follow it. *)
Lemma prefers_later (x : Player) pre suc y :
  NoDup (pre ++ x :: suc) -> In y suc -> prefers (pre ++ x :: suc) x y.
Proof.
  intros Hn Hy.
  destruct (NoDup_app_inv _ _ Hn) as (_ & Nx & Hd).
  apply NoDup_cons_iff in Nx. destruct Nx as [Hxs _].
  assert (Hxp : ~ In x pre) by (intros Hi; apply (Hd x Hi); simpl; auto).
  assert (Hyl : In y (pre ++ x :: suc)) by (apply in_or_app; simpl; auto).
  destruct (index_In _ _ Hyl) as [j Hj].
  exists (List.length pre), j. split; [|split; [assumption|]].
  - apply index_app_notin. assumption.
  - assert (Hny : ~ In y (pre ++ [x])).
    { intros Hin. apply in_app_or in Hin. destruct Hin as [Hin|[<-|[]]].
      - apply (Hd y Hin). simpl. auto.
      - tauto. }
    replace (pre ++ x :: suc) with ((pre ++ [x]) ++ suc) in Hj
      by (rewrite <- app_assoc; reflexivity).
    pose proof (index_app_ge _ _ _ Hny Hj) as Hge.
    rewrite length_app in Hge. simpl in Hge. lia.
Qed.

(** A dictionary whose values are all different maps one key to a value. *)
Lemma lookup_inj {V : Type} (m : dict V) k1 k2 v :
  NoDup (values m) ->
  lookup k1 m = Some v -> lookup k2 m = Some v -> k1 = k2.
Proof.
  induction m as [|[k w] m IH]; simpl; [discriminate|].
  intros Hn. apply NoDup_cons_iff in Hn. destruct Hn as [Hw Hn].
  destruct (eq_dec k1 k) as [->|n1]; destruct (eq_dec k2 k) as [->|n2].
  - reflexivity.
  - intros [= ->] H2. exfalso. apply Hw. eapply lookup_values; eauto.
  - intros H1 [= ->]. exfalso. apply Hw. eapply lookup_values; eauto.
  - apply IH. assumption.
Qed.

(* ===================================================================== *)
(** ** stable_marriage: the proposers get their best stable partner *)
(* ===================================================================== *)

(** What a stable bijection gives to a proposer. *)
Lemma bijection_partner sp0 rp0 m' s :
  bijection sp0 rp0 m' -> In s (keys sp0) ->
  exists r, lookup s m' = Some (Some r) /\ In r (keys rp0).
Proof.
  intros (Hk & _ & _ & Hp) Hs. rewrite <- Hk in Hs.
  apply lookup_In_keys in Hs. destruct Hs as [v Hv].
  assert (Hin : In v (map Some (keys rp0))).
  { eapply Permutation_in; [exact Hp|]. eapply lookup_values; eauto. }
  apply in_map_iff in Hin. destruct Hin as (r & <- & Hr). eauto.
Qed.

Lemma bijection_inj sp0 rp0 m' a b v :
  bijection sp0 rp0 m' ->
  lookup a m' = Some v -> lookup b m' = Some v -> a = b.
Proof.
  intros (_ & _ & Nr & Hp). apply lookup_inj.
  eapply Permutation_NoDup; [apply Permutation_sym; exact Hp|].
  apply NoDup_map_Some. assumption.
Qed.

Lemma bijection_key sp0 rp0 m' s v :
  bijection sp0 rp0 m' -> lookup s m' = Some v -> In s (keys sp0).
Proof.
  intros (Hk & _) Hl. rewrite <- Hk. apply lookup_In_keys. eauto.
Qed.

Section SmOptimal.
Variables sp0 rp0 : prefs.
Hypothesis SI : sm_instance sp0 rp0.

Lemma sm_init_no_stable_partner :
  sm_no_stable_partner sp0 rp0 (sm_init sp0 rp0).
Proof. intros s r Hin Hout. simpl in Hout. contradiction. Qed.

(** One iteration deletes only pairs of no stable matching. *)
Lemma sm_next_no_stable_partner st s q r l' :
  sm_inv sp0 rp0 st ->
  sm_no_stable_partner sp0 rp0 st ->
  suitors st = s :: q ->
  get (suitor_prefs st) s = r :: l' ->
  sm_no_stable_partner sp0 rp0 (sm_next st s r).
Proof.
  intros I O Hq Hg a b Hb0 Hnb m' Bij Stab Hm'.
  pose proof (smi_consistent SI) as C.
  destruct (in_dec string_dec b (get (suitor_prefs st) a)) as [Hold|Hold];
    [|exact (O a b Hb0 Hold m' Bij Stab Hm')].
  destruct (sm_inv_head_key I Hq) as [_ Hs].
  assert (Hrs : In r (get (suitor_prefs st) s)) by (rewrite Hg; simpl; auto).
  assert (Hsr : In s (get (reviewer_prefs st) r)) by (apply (smv_mutual I); auto).
  pose proof (sm_inv_nodup_r (smi_consistent SI) r I) as Hnr.
  destruct (index_In _ _ Hsr) as [i Hi].
  destruct (index_split _ _ Hi) as (pre & suc & Hl & Hlen & Hnp & Hsk).
  unfold sm_next in Hnb. cbn [suitor_prefs] in Hnb. rewrite Hi, Hsk in Hnb.
  rewrite Hl in Hnr.
  destruct (NoDup_app_inv _ _ Hnr) as (_ & Nsuc' & _).
  apply NoDup_cons_iff in Nsuc'. destruct Nsuc' as [Hs_suc Nsuc].
  (* the pair that has just been deleted is ([a], [r]), with [a] after [s] *)
  assert (Ha : In a suc /\ b = r).
  { destruct (in_dec string_dec a suc) as [Ha|Ha].
    - split; [assumption|]. rewrite get_prune_from_in in Hnb by assumption.
      destruct (eq_dec b r) as [e|n]; [assumption|].
      exfalso. apply Hnb. apply In_remove1_neq; assumption.
    - rewrite get_prune_from_notin in Hnb by assumption. contradiction. }
  destruct Ha as [Ha ->].
  assert (Hsa : prefers (get rp0 r) s a).
  { destruct (smv_pre_r I r) as [tail ->]. apply prefers_app_l.
    rewrite Hl. apply prefers_later; assumption. }
  (* what the stable matching gives to [s] *)
  rewrite (smv_keys_s I) in Hs.
  destruct (bijection_partner s Bij Hs) as (r2 & Hs2 & Hr2).
  assert (Hne : r2 <> r).
  { intros ->. assert (s = a) by (eapply bijection_inj; eauto). subst a.
    contradiction. }
  assert (Hr20 : In r2 (get sp0 s)) by (apply (smi_complete SI); assumption).
  assert (Hpref : prefers (get sp0 s) r r2).
  { destruct (in_dec string_dec r2 (get (suitor_prefs st) s)) as [Hin|Hout].
    - eapply prefers_subseq;
        [apply (smv_sub_s I) | apply (cons_strict_l C) |].
      rewrite Hg in *. apply prefers_head; assumption.
    - exfalso. exact (O s r2 Hr20 Hout m' Bij Stab Hs2). }
  apply (Stab s r). exists r2, a. auto.
Qed.

(** The loop on a complete instance ends in a state that satisfies both
    invariants. *)
Lemma sm_loop_optimal fuel :
  sm_measure (sm_init sp0 rp0) < fuel ->
  exists st, sm_loop fuel (sm_init sp0 rp0) = (st, Ok tt)
             /\ sm_inv sp0 rp0 st /\ suitors st = []
             /\ sm_no_stable_partner sp0 rp0 st.
Proof.
  intros Hfuel. pose proof (smi_consistent SI) as C. unfold sm_loop.
  pose proof (while_rule
                (fun s => sm_inv sp0 rp0 s /\ sm_no_stable_partner sp0 rp0 s)
                (fun _ _ => False)
                sm_measure (fun s => nonempty (suitors s)) sm_body) as W.
  assert (Hbody : forall s,
     sm_inv sp0 rp0 s /\ sm_no_stable_partner sp0 rp0 s ->
     nonempty (suitors s) = true ->
     match sm_body s with
     | (s', Ok _) => (sm_inv sp0 rp0 s' /\ sm_no_stable_partner sp0 rp0 s')
                     /\ sm_measure s' < sm_measure s
     | (s', Raise e) => False
     | (_, OutOfFuel) => False
     end).
  { intros s [I O] Hc. destruct (suitors s) as [|x q] eqn:Hq; [discriminate|].
    destruct (get (suitor_prefs s) x) as [|r l'] eqn:Hg.
    - exfalso. eapply sm_inv_nonempty; eauto.
    - rewrite (sm_inv_body C I Hq Hg).
      destruct (sm_next_inv C I Hq Hg) as [I' Hlt].
      split; [split|]; auto.
      eapply sm_next_no_stable_partner; eauto. }
  specialize (W Hbody fuel (sm_init sp0 rp0)
                (conj (sm_init_inv C) sm_init_no_stable_partner) Hfuel).
  destruct (while fuel _ sm_body (sm_init sp0 rp0)) as [st [[]|e|]];
    try contradiction.
  destruct W as [[I O] Hc]. exists st.
  split; [reflexivity|]. split; [assumption|]. split; [|assumption].
  destruct (suitors st); [reflexivity | discriminate].
Qed.

(** In a state that satisfies the invariants, a proposer's partner is at
    least as good as the one any stable matching gives. *)
Lemma sm_inv_optimal st m' s r r' :
  sm_inv sp0 rp0 st -> sm_no_stable_partner sp0 rp0 st ->
  bijection sp0 rp0 m' -> stable sp0 rp0 m' ->
  lookup s (matching st) = Some (Some r) ->
  lookup s m' = Some (Some r') ->
  r = r' \/ prefers (get sp0 s) r r'.
Proof.
  intros I O Bij Stab Hm Hm'. pose proof (smi_consistent SI) as C.
  destruct (smv_matched I _ Hm) as [Hh _].
  destruct (get (suitor_prefs st) s) as [|x l] eqn:Hg; [discriminate|].
  injection Hh as ->.
  pose proof (bijection_key _ Bij Hm') as Hs.
  destruct (bijection_partner s Bij Hs) as (r2 & Hs2 & Hr2).
  assert (r2 = r') by congruence. subst r2.
  assert (Hr0 : In r' (get sp0 s)) by (apply (smi_complete SI); assumption).
  destruct (eq_dec r r') as [e|n]; [auto|]. right.
  destruct (in_dec string_dec r' (get (suitor_prefs st) s)) as [Hin|Hout].
  - eapply prefers_subseq; [apply (smv_sub_s I) | apply (cons_strict_l C) |].
    rewrite Hg in *. apply prefers_head; [assumption | congruence].
  - exfalso. exact (O s r' Hr0 Hout m' Bij Stab Hm').
Qed.

(** And an acceptor's partner is at most as good. *)
Lemma sm_inv_pessimal st m' s s' r :
  sm_inv sp0 rp0 st -> sm_no_stable_partner sp0 rp0 st ->
  bijection sp0 rp0 m' -> stable sp0 rp0 m' ->
  lookup s (matching st) = Some (Some r) ->
  lookup s' m' = Some (Some r) ->
  s = s' \/ prefers (get rp0 r) s' s.
Proof.
  intros I O Bij Stab Hm Hm'. pose proof (smi_consistent SI) as C.
  destruct (eq_dec s s') as [e|n]; [auto|]. right.
  assert (Hs : In s (keys sp0)).
  { rewrite <- (smv_keys_m I). apply lookup_In_keys. eauto. }
  pose proof (bijection_key _ Bij Hm') as Hs'.
  destruct (bijection_partner s Bij Hs) as (r2 & Hs2 & Hr2).
  destruct (bijection_partner s' Bij Hs') as (r3 & Hs3 & Hr).
  assert (r3 = r) by congruence. subst r3.
  assert (Hne : r <> r2).
  { intros <-. apply n. eapply bijection_inj; eauto. }
  destruct (@sm_inv_optimal st m' s r r2 I O Bij Stab Hm Hs2) as [e|Hpref]; [contradiction|].
  assert (Hin : In s (get rp0 r))
    by (apply (cons_mutual C); apply (smi_complete SI); assumption).
  assert (Hin' : In s' (get rp0 r))
    by (apply (cons_mutual C); apply (smi_complete SI); assumption).
  destruct (prefers_total _ Hin' Hin (not_eq_sym n)) as [H|H]; [assumption|].
  exfalso. apply (Stab s r). exists r2, s'. auto.
Qed.
End SmOptimal.

(** The call on a complete instance, with both invariants. *)
Lemma stable_marriage_optimal_total sp rp optimal fuel :
  sm_instance sp rp -> sm_fuel sp rp <= fuel ->
  exists st,
    stable_marriage fuel sp rp optimal =
      ((if string_dec optimal "reviewer"
        then (reviewer_prefs st, suitor_prefs st)
        else (suitor_prefs st, reviewer_prefs st)), Ok (matching st)) /\
    sm_inv (proposers sp rp optimal) (acceptors sp rp optimal) st /\
    suitors st = [] /\
    sm_no_stable_partner (proposers sp rp optimal) (acceptors sp rp optimal) st.
Proof.
  intros SI Hfuel.
  destruct (@sm_loop_optimal (proposers sp rp optimal)
              (acceptors sp rp optimal) (sm_instance_roles optimal SI) fuel)
    as (st & Hl & I & Hq & O).
  - pose proof (sm_fuel_roles sp rp optimal). lia.
  - exists st. split; [|auto].
    rewrite (stable_marriage_loop _ _ _ _ Hl). reflexivity.
Qed.

(* ===================================================================== *)
(** ** stable_marriage: sides of different sizes *)
(* ===================================================================== *)

Lemma sm_roomb_sound sp rp : sm_roomb sp rp = true -> sm_room sp rp.
Proof.
  unfold sm_roomb. rewrite !andb_true_iff. intros [[C Hc] Hs].
  constructor.
  - apply consistentb_sound. assumption.
  - intros s r Hks Hkr. rewrite forallb_forall in Hc.
    apply get_lookup in Hks. apply lookup_In in Hks. apply Hc in Hks.
    rewrite forallb_forall in Hks. apply mem_In. auto.
  - apply Nat.leb_le. assumption.
Qed.

Lemma length_keys {V : Type} (d : dict V) : List.length (keys d) = List.length d.
Proof. unfold keys. apply length_map. Qed.

Lemma length_values {V : Type} (d : dict V) :
  List.length (values d) = List.length d.
Proof. unfold values. apply length_map. Qed.

Section SmSizes.
Variables sp0 rp0 : prefs.
Hypothesis C : consistent sp0 rp0.

(** The partners of a state whose queue is empty. *)
Lemma sm_final_partner st s :
  sm_inv sp0 rp0 st -> suitors st = [] -> In s (keys sp0) ->
  exists r, lookup s (matching st) = Some (Some r) /\ In r (keys rp0).
Proof.
  intros I Hq Hs. rewrite <- (smv_keys_m I) in Hs.
  apply lookup_In_keys in Hs. destruct Hs as [[r|] Hv].
  - exists r. split; [assumption|].
    destruct (smv_matched I _ Hv) as [Hh _].
    rewrite <- (smv_keys_r I).
    eapply sm_inv_key_r; [exact I | apply hd_error_In; eassumption].
  - apply (smv_queue I) in Hv. rewrite Hq in Hv. destruct Hv.
Qed.

(** A state whose queue is empty has as many acceptors as proposers, or
    more. *)
Lemma sm_final_sizes st :
  sm_inv sp0 rp0 st -> suitors st = [] ->
  List.length sp0 <= List.length rp0.
Proof.
  intros I Hq.
  assert (Hkn : NoDup (keys (matching st)))
    by (rewrite (smv_keys_m I); apply (cons_keys_l C)).
  assert (Hincl : incl (values (matching st)) (map Some (keys rp0))).
  { intros v Hv. destruct (values_lookup _ _ Hv Hkn) as [k Hk].
    assert (Hks : In k (keys sp0)).
    { rewrite <- (smv_keys_m I). apply lookup_In_keys. eauto. }
    destruct (sm_final_partner k I Hq Hks) as (r & Hr & Hrk).
    assert (v = Some r) by congruence. subst v. apply in_map. assumption. }
  apply NoDup_incl_length in Hincl.
  - rewrite length_values, length_map, length_keys in Hincl.
    rewrite <- (length_keys sp0), <- (smv_keys_m I), length_keys. assumption.
  - apply NoDup_values; [assumption|].
    intros k1 k2 [r|] H1 H2.
    + eapply sm_inv_injective; eauto.
    + apply (smv_queue I) in H1. rewrite Hq in H1. destruct H1.
Qed.

(** No pair blocks the matching of the invariant, an acceptor without a
    partner included. *)
Lemma sm_inv_stable_open st s r :
  sm_inv sp0 rp0 st -> ~ blocking_pair_open sp0 rp0 (matching st) s r.
Proof.
  intros I [(r' & Hs & Hpref) Hr].
  destruct Hr as [[Hfree Hin]|(s' & Hs' & Hpref')].
  - destruct (smv_matched I _ Hs) as [Hh _].
    destruct (get (suitor_prefs st) s) as [|x l] eqn:Hg; [discriminate|].
    injection Hh as ->.
    assert (Hnr : ~ In r (get (suitor_prefs st) s)).
    { intros Hin'. rewrite Hg in Hin'.
      assert (Hne : r <> r') by (intros ->; eapply prefers_irrefl; eauto).
      eapply prefers_asym; [exact Hpref|].
      eapply prefers_subseq; [apply (smv_sub_s I) | apply (cons_strict_l C)|].
      rewrite Hg. apply prefers_head; assumption. }
    rewrite (smv_mutual I) in Hnr.
    assert (Hne : get (reviewer_prefs st) r <> get rp0 r) by congruence.
    destruct (smv_cut I _ Hne) as [a Ha]. exact (Hfree a Ha).
  - apply (sm_inv_stable C I (s := s) (r := r)). exists r', s'. auto.
Qed.
End SmSizes.

Section SmRoom.
Variables sp0 rp0 : prefs.
Hypothesis SR : sm_room sp0 rp0.

(** With complete lists and no more proposers than acceptors, the suitor at
    the head of the queue always has somebody left to propose to. *)
Lemma sm_room_nonempty st s q :
  sm_inv sp0 rp0 st ->
  suitors st = s :: q ->
  get (suitor_prefs st) s <> [].
Proof.
  destruct SR as [C Hcomp Hsz]. intros I Hq Hempty.
  destruct (sm_inv_head_key I Hq) as [Hm Hs].
  rewrite (smv_keys_s I) in Hs.
  set (vs := values (matching st)).
  assert (Hall : incl (map Some (keys rp0)) (remove1 None vs)).
  { intros v Hv. apply in_map_iff in Hv. destruct Hv as (r & <- & Hr).
    apply In_remove1_neq; [discriminate|].
    assert (Hne : get (reviewer_prefs st) r <> get rp0 r).
    { intros E.
      assert (Hin : In s (get rp0 r))
        by (apply (cons_mutual C); apply Hcomp; assumption).
      rewrite <- E in Hin. apply (smv_mutual I) in Hin.
      rewrite Hempty in Hin. destruct Hin. }
    destruct (smv_cut I _ Hne) as [a Ha].
    eapply lookup_values; eauto. }
  apply NoDup_incl_length in Hall;
    [|apply NoDup_map_Some; apply (cons_keys_r C)].
  assert (Hnone : In None vs) by (eapply lookup_values; eauto).
  pose proof (length_remove1 _ _ Hnone) as Hlen.
  assert (Hvs : List.length vs = List.length sp0).
  { unfold vs. rewrite length_values, <- length_keys, (smv_keys_m I).
    apply length_keys. }
  rewrite length_map, length_keys in Hall. lia.
Qed.

Lemma sm_loop_room fuel :
  sm_measure (sm_init sp0 rp0) < fuel ->
  exists st, sm_loop fuel (sm_init sp0 rp0) = (st, Ok tt)
             /\ sm_inv sp0 rp0 st /\ suitors st = [].
Proof.
  intros Hfuel. pose proof (smr_consistent SR) as C. unfold sm_loop.
  pose proof (while_rule (sm_inv sp0 rp0) (fun _ _ => False)
                sm_measure (fun s => nonempty (suitors s)) sm_body) as W.
  assert (Hbody : forall s, sm_inv sp0 rp0 s -> nonempty (suitors s) = true ->
     match sm_body s with
     | (s', Ok _) => sm_inv sp0 rp0 s' /\ sm_measure s' < sm_measure s
     | (s', Raise e) => False
     | (_, OutOfFuel) => False
     end).
  { intros s I Hc. destruct (suitors s) as [|x q] eqn:Hq; [discriminate|].
    destruct (get (suitor_prefs s) x) as [|r l'] eqn:Hg.
    - exfalso. eapply sm_room_nonempty; eauto.
    - rewrite (sm_inv_body C I Hq Hg). eapply sm_next_inv; eauto. }
  specialize (W Hbody fuel (sm_init sp0 rp0) (sm_init_inv C) Hfuel).
  destruct (while fuel _ sm_body (sm_init sp0 rp0)) as [st [[]|e|]];
    try contradiction.
  destruct W as [I Hc]. exists st.
  split; [reflexivity | split; [assumption|]].
  destruct (suitors st); [reflexivity | discriminate].
Qed.
End SmRoom.

(** With more proposers than acceptors the loop cannot end with everybody
    matched: it stops at a suitor whose list is empty. *)
Lemma sm_loop_crowded sp0 rp0 fuel :
  consistent sp0 rp0 ->
  List.length rp0 < List.length sp0 ->
  sm_measure (sm_init sp0 rp0) < fuel ->
  exists st, sm_loop fuel (sm_init sp0 rp0) = (st, Raise IndexError).
Proof.
  intros C Hsz Hfuel. pose proof (sm_loop_consistent C Hfuel) as L.
  destruct (sm_loop fuel (sm_init sp0 rp0)) as [st [[]|e|]].
  - destruct L as [I Hq]. pose proof (sm_final_sizes C I Hq). lia.
  - subst e. eauto.
  - contradiction.
Qed.

Lemma consistent_roles sp rp optimal :
  consistent sp rp ->
  consistent (proposers sp rp optimal) (acceptors sp rp optimal).
Proof.
  intros C. unfold proposers, acceptors.
  destruct (string_dec optimal "reviewer"); auto using consistent_sym.
Qed.

(** In a list without duplicates, the members of a prefix come before the
    members of the rest. *)
Lemma prefers_across (l tail : list Player) a b :
  NoDup (l ++ tail) -> In a l -> In b tail -> prefers (l ++ tail) a b.
Proof.
  intros Hn Ha Hb. apply in_split in Ha. destruct Ha as (l1 & l2 & ->).
  rewrite <- app_assoc in *. simpl in *.
  apply prefers_later; [assumption|]. apply in_or_app. auto.
Qed.

(** A list is included in another one, or has a member that is not in it. *)
Lemma incl_or_witness (l l' : list Player) :
  (forall x, In x l -> In x l') \/ exists x, In x l /\ ~ In x l'.
Proof.
  induction l as [|y l IH].
  - left. intros x [].
  - destruct (in_dec string_dec y l') as [Hy|Hy].
    + destruct IH as [IH|(x & Hx & Hn)].
      * left. intros x [<-|Hx]; auto.
      * right. exists x. simpl. auto.
    + right. exists y. simpl. auto.
Qed.

(* ===================================================================== *)
(** ** hr_resident_optimal: the matching is stable *)
(* ===================================================================== *)

Section ResStable.
Variables hp0 rp0 : prefs.
Variable capacities : capacities_t.
Hypothesis HI : hr_instance hp0 rp0 capacities.

(** What one iteration changes of a hospital's list and of the matching. *)
Lemma res_next_shape st :
  res_inv hp0 rp0 capacities st -> nonempty (free st) = true ->
  exists r h P S ml2,
    hd_error (free st) = Some r /\
    hd_error (get (resident_prefs st) r) = Some h /\
    In h (keys hp0) /\
    get (hospital_prefs st) h = P ++ S /\
    hospital_prefs (res_next capacities st) = dict_set h P (hospital_prefs st) /\
    resident_prefs (res_next capacities st)
    = prune_from h S (resident_prefs st) /\
    NoDup S /\
    (forall b, get (hr_match (res_next capacities st)) b
               = if eq_dec b h then ml2 else get (hr_match st) b) /\
    (forall x, In x ml2 -> In x (get (hr_match st) h) \/ x = r) /\
    (forall x, In x ml2 -> In x P) /\
    (S <> [] -> Z.of_nat (List.length ml2) = cap capacities h) /\
    (Z.of_nat (List.length (get (hr_match st) h)) = cap capacities h ->
     Z.of_nat (List.length ml2) = cap capacities h) /\
    ~ In r (get (hr_match st) h) /\
    (S = [] -> ml2 = get (hr_match st) h ++ [r]).
Proof.
  intros I Hc. pose proof (hri_consistent HI) as C.
  destruct st as [hp rp m f t].
  destruct I as [Kh Kr Km Sh Sr Mu Ma Nd Cp Fr Tr]. st_simpl.
  destruct f as [|r fr]; [discriminate|]. clear Hc.
  assert (Nkr : NoDup (keys rp)) by (rewrite Kr; apply (cons_keys_l C)).
  assert (Nkm : NoDup (keys m)) by (rewrite Km; apply (cons_keys_r C)).
  assert (Hfr : is_free_resident rp m r = true /\ In r (keys rp)).
  { rewrite free_residents_keys in Fr by assumption.
    assert (X : In r (filter (is_free_resident rp m) (keys rp)))
      by (rewrite <- Fr; simpl; auto).
    apply filter_In in X. tauto. }
  destruct Hfr as [Hfree Hrk].
  unfold is_free_resident in Hfree. apply andb_true_iff in Hfree.
  destruct Hfree as [Hne Hum]. apply negb_true_iff in Hum.
  destruct (get rp r) as [|h rl'] eqn:Hg; [discriminate|]. clear Hne.
  assert (Hhr : In h (get rp r)) by (rewrite Hg; simpl; auto).
  assert (Hrh : In r (get hp h)) by (apply Mu; assumption).
  assert (Hhk : In h (keys hp)) by (eapply get_nonempty_key; eauto).
  assert (Hhk0 : In h (keys hp0)) by (rewrite <- Kh; assumption).
  assert (Hhm : In h (keys m)) by (rewrite Km; assumption).
  destruct (hri_caps HI _ Hhk0) as [Hhc Hc1].
  assert (Nhp : forall b, NoDup (get hp b))
    by (intros b; eapply subseq_NoDup; [apply Sh | apply (cons_strict_r C)]).
  assert (Nrp : forall a, NoDup (get rp a))
    by (intros a; eapply subseq_NoDup; [apply Sr | apply (cons_strict_l C)]).
  assert (Hml : forall x, In x (get m h) -> In x (get hp h)).
  { intros x Hx. apply Mu. apply hd_error_In. apply Ma. assumption. }
  assert (Hrm : ~ In r (get m h)) by (apply matched_somewhere_false; assumption).
  unfold res_next. st_simpl. cbn [hd]. rewrite Hg. cbn [hd].
  set (hl := get hp h) in *. set (ml := get m h) in *.
  set (ml1 := ml ++ [r]).
  set (m1 := dict_set h ml1 m).
  assert (Nml1 : NoDup ml1).
  { unfold ml1. apply NoDup_app.
    - apply Nd.
    - constructor; [simpl; tauto | constructor].
    - intros x Hx [<-|[]]. tauto. }
  assert (Hml1 : forall x, In x ml1 -> In x hl).
  { unfold ml1. intros x Hx. apply in_app_or in Hx.
    destruct Hx as [Hx|[<-|[]]]; auto. }
  assert (Hlen1 : List.length ml1 = S (List.length ml))
    by (unfold ml1; rewrite length_app; simpl; lia).
  assert (Hrml1 : In r ml1) by (unfold ml1; apply in_or_app; simpl; auto).
  destruct (worst_of_exists hl ml1 r Hrml1 Hrh) as [i1 Hw1].
  destruct (worst_of_Some _ _ Hw1) as [_ Hmax1].
  destruct (worst_of_nth _ _ Hw1) as (Hn1 & Hwin & Hwi).
  rewrite Hw1.
  set (w := nth i1 hl EmptyString) in *.
  set (over := (Z.of_nat (List.length ml1) >? cap capacities h)%Z).
  set (ml2 := if over then remove1 w ml1 else ml1).
  set (m2 := if over then dict_set h ml2 m1 else m1).
  pose proof (Cp h Hhk0) as Hcap. fold ml in Hcap.
  assert (Hsub2 : forall x, In x ml2 -> In x ml1).
  { unfold ml2. intros x. destruct over; [apply In_remove1 | auto]. }
  assert (Nml2 : NoDup ml2).
  { unfold ml2. destruct over; [apply NoDup_remove1|]; assumption. }
  assert (Hlen2 : (Z.of_nat (List.length ml2) <= cap capacities h)%Z).
  { unfold ml2, over. destruct (Z.gtb_spec (Z.of_nat (List.length ml1)) (cap capacities h)).
    - pose proof (length_remove1 _ _ Hwin). lia.
    - lia. }
  assert (Hover : over = true ->
            ~ In w ml2 /\ Z.of_nat (List.length ml2) = cap capacities h).
  { unfold ml2, over.
    destruct (Z.gtb_spec (Z.of_nat (List.length ml1)) (cap capacities h));
      [|discriminate].
    intros _. split; [apply NoDup_remove1_notin; assumption|].
    pose proof (length_remove1 _ _ Hwin). lia. }
  assert (Hgm2 : forall b, get m2 b = if eq_dec b h then ml2 else get m b).
  { intros b. unfold m2, m1. destruct over.
    - rewrite dict_set_twice. apply get_dict_set.
    - rewrite get_dict_set. reflexivity. }
  assert (Hkm2 : keys m2 = keys m).
  { unfold m2, m1. destruct over.
    - rewrite dict_set_twice. apply keys_dict_set. assumption.
    - apply keys_dict_set. assumption. }
  set (full := (Z.of_nat (List.length ml2) =? cap capacities h)%Z).
  assert (Hw2 : full = true -> exists i2, worst_of hl ml2 = Some i2).
  { unfold full. intros Hf. apply Z.eqb_eq in Hf.
    destruct ml2 as [|x ml2'] eqn:E; [simpl in Hf; lia|].
    apply worst_of_exists with (x := x); [simpl; auto|].
    apply Hml1. apply Hsub2. simpl. auto. }
  set (i2 := match worst_of hl ml2 with Some i => i | None => 0 end).
  set (P := if full then firstn (i2 + 1) hl else hl).
  set (S := if full then skipn (i2 + 1) hl else []).
  assert (HPS : hl = P ++ S).
  { unfold P, S. destruct full; [symmetry; apply firstn_skipn|].
    symmetry. apply app_nil_r. }
  assert (HS2 : forall x, In x ml2 -> ~ In x S).
  { unfold S. destruct full eqn:Hf; [|simpl; tauto].
    destruct (Hw2 eq_refl) as [j Hj]. unfold i2. rewrite Hj.
    destruct (worst_of_Some _ _ Hj) as [_ Hmax2].
    intros x Hx. apply NoDup_firstn_skipn; [apply Nhp|].
    destruct (index_In _ _ (Hml1 _ (Hsub2 _ Hx))) as [k Hk].
    apply index_firstn with (j := k); [assumption|].
    specialize (Hmax2 x k Hx Hk). lia. }
  assert (HwS : over = true -> In w S).
  { intros Ho. destruct (Hover Ho) as [Hwn Hfull].
    unfold S. assert (Hf : full = true) by (apply Z.eqb_eq; assumption).
    rewrite Hf. destruct (Hw2 Hf) as [j Hj]. unfold i2. rewrite Hj.
    destruct (worst_of_Some _ _ Hj) as [(y & Hy & Hyi) _].
    apply index_skipn with (j := i1); [assumption|].
    pose proof (Hmax1 y j (Hsub2 _ Hy) Hyi) as Hle.
    assert (j <> i1).
    { intros ->. apply Hwn. replace w with y; [assumption|].
      eapply index_inj; eauto. }
    lia. }
  assert (NS : NoDup S).
  { pose proof (Nhp h) as N. fold hl in N.
    rewrite HPS in N. apply NoDup_app_inv in N. tauto. }
  assert (E1 : get m1 h = ml1) by (unfold m1; apply get_dict_set_eq).
  assert (E2 : get m2 h = ml2)
    by (rewrite Hgm2; destruct (eq_dec h h); congruence).
  assert (Km1 : In h (keys m1))
    by (unfold m1; rewrite keys_dict_set; assumption).
  assert (Km2 : In h (keys m2)) by (rewrite Hkm2; assumption).
  assert (Ehp : (if full then dict_set h (firstn (i2 + 1) hl) hp else hp)
                = dict_set h P hp).
  { unfold P. destruct full; [reflexivity|]. symmetry.
    apply dict_set_same. assumption. }
  assert (Erp : (if full then prune_from h (skipn (i2 + 1) hl) rp else rp)
                = prune_from h S rp).
  { unfold S. destruct full; reflexivity. }
  exists r, h, P, S, ml2. cbn [hd_error]. rewrite Hg. cbn [hd_error].
  split; [reflexivity|]. split; [reflexivity|].
  split; [assumption|]. split; [assumption|]. split; [assumption|].
  split; [assumption|]. split; [assumption|]. split; [assumption|].
  split; [|split; [|split; [|split; [|split]]]].
  - intros x Hx. apply Hsub2 in Hx. unfold ml1 in Hx. apply in_app_or in Hx.
    destruct Hx as [Hx|[<-|[]]]; auto.
  - intros x Hx. pose proof (Hml1 _ (Hsub2 _ Hx)) as Hxl.
    rewrite HPS in Hxl. apply in_app_or in Hxl.
    destruct Hxl as [Hxl|Hxl]; [assumption|].
    exfalso. eapply HS2; eauto.
  - unfold S. destruct full eqn:Hf; [|congruence].
    intros _. apply Z.eqb_eq. assumption.
  - intros Hfull. apply Hover. unfold over. apply Z.gtb_lt.
    cbn [hr_match] in Hfull. fold ml in Hfull. rewrite Hlen1. lia.
  - exact Hrm.
  - intros HS. unfold ml2. destruct over eqn:Ho; [|reflexivity].
    exfalso. pose proof (HwS eq_refl) as X. rewrite HS in X. destruct X.
Qed.

Lemma res_start_cut : res_cut hp0 capacities (res_start hp0 rp0).
Proof.
  unfold res_start. constructor; st_simpl.
  - intros h. exists []. rewrite app_nil_r. reflexivity.
  - intros h Hne. congruence.
Qed.

Lemma res_next_cut st :
  res_inv hp0 rp0 capacities st -> res_cut hp0 capacities st ->
  nonempty (free st) = true ->
  res_cut hp0 capacities (res_next capacities st).
Proof.
  intros I [Px Fu] Hc.
  destruct (res_next_shape I Hc)
    as (r & h & P & S & ml2 & _ & _ & Hk & HPS & Ehp & _ & _ & Hgm & _ & _
        & HS & Hfull & _).
  constructor.
  - intros b. rewrite Ehp, get_dict_set.
    destruct (eq_dec b h) as [->|n]; [|apply Px].
    destruct (Px h) as [tail E]. exists (S ++ tail).
    rewrite E, HPS, app_assoc. reflexivity.
  - intros b. rewrite Ehp, get_dict_set, Hgm.
    destruct (eq_dec b h) as [->|n]; [|apply Fu].
    intros Hne. destruct S as [|x S'].
    + apply Hfull. apply Fu. rewrite HPS, app_nil_r. assumption.
    + apply HS. discriminate.
Qed.

Lemma res_start_no_pair :
  hr_no_stable_pair hp0 rp0 capacities (res_start hp0 rp0).
Proof. intros r h Hin Hout. simpl in Hout. contradiction. Qed.

(** One iteration deletes only pairs of no stable matching. *)
Lemma res_next_no_pair st :
  res_inv hp0 rp0 capacities st ->
  hr_no_stable_pair hp0 rp0 capacities st ->
  nonempty (free st) = true ->
  hr_no_stable_pair hp0 rp0 capacities (res_next capacities st).
Proof.
  intros I O Hc a b Hb0 Hnb M SM HaM.
  pose proof (hri_consistent HI) as C.
  destruct (in_dec string_dec b (get (resident_prefs st) a)) as [Hold|Hold];
    [|exact (O a b Hb0 Hold M SM HaM)].
  destruct (res_step HI I Hc) as (_ & I' & _).
  destruct (res_next_shape I Hc)
    as (r & h & P & S & ml2 & _ & _ & Hk & HPS & Ehp & Erp & NS & Hgm & _
        & HP & HS & _).
  assert (Hget : forall x, get (resident_prefs (res_next capacities st)) x =
                           if in_dec string_dec x S
                           then remove1 h (get (resident_prefs st) x)
                           else get (resident_prefs st) x).
  { intros x. rewrite Erp. destruct (in_dec string_dec x S).
    - apply get_prune_from_in; assumption.
    - apply get_prune_from_notin; assumption. }
  (* the pair that has just been deleted is ([a], [h]), with [a] after the
     residents of the sequence of [h] *)
  assert (Ha : In a S /\ b = h).
  { rewrite Hget in Hnb. destruct (in_dec string_dec a S) as [Ha|Ha];
      [|contradiction].
    split; [assumption|]. destruct (eq_dec b h) as [e|n]; [assumption|].
    exfalso. apply Hnb. apply In_remove1_neq; assumption. }
  destruct Ha as [Ha ->].
  assert (Nhl : NoDup (P ++ S)).
  { rewrite <- HPS. eapply subseq_NoDup; [apply (rsv_sub_h I)|].
    apply (cons_strict_r C). }
  assert (Hml2 : get (hr_match (res_next capacities st)) h = ml2).
  { rewrite Hgm. destruct (eq_dec h h); congruence. }
  assert (Hfull : Z.of_nat (List.length ml2) = cap capacities h).
  { apply HS. intros ->. destruct Ha. }
  assert (Nml2 : NoDup ml2) by (rewrite <- Hml2; apply (rsv_nodup I')).
  assert (Ha2 : ~ In a ml2).
  { intros X. apply HP in X. apply NoDup_app_inv in Nhl.
    destruct Nhl as (_ & _ & D). eapply D; eauto. }
  (* somebody of the sequence is not with [h] in the stable matching *)
  destruct (incl_or_witness ml2 (get M h)) as [Hall|(x & Hx & HxM)].
  { exfalso.
    assert (Hincl : incl (a :: ml2) (get M h)).
    { intros y [<-|Hy]; auto. }
    apply NoDup_incl_length in Hincl; [|constructor; assumption].
    pose proof (hsm_capacity SM h Hk) as Hcap. simpl in Hincl. lia. }
  assert (Hhd : hd_error (get (resident_prefs (res_next capacities st)) x)
                = Some h).
  { apply (rsv_matched I'). rewrite Hml2. assumption. }
  pose proof (hsm_stable SM) as St. unfold hr_stable in St.
  apply (St x h). split; [|split; [|split]].
  - eapply subseq_In; [apply (rsv_sub_r I')|]. apply hd_error_In. assumption.
  - eapply subseq_In; [apply (rsv_sub_h I)|]. rewrite HPS.
    apply in_or_app. auto.
  - intros h' Hh'.
    assert (Hne : h' <> h) by (intros ->; contradiction).
    destruct (hra_acceptable (hsm_assignment SM) _ _ Hh') as [_ Hacc].
    assert (Hh0 : In h (get rp0 x)).
    { eapply subseq_In; [apply (rsv_sub_r I')|]. apply hd_error_In.
      assumption. }
    destruct (prefers_total _ Hh0 Hacc (not_eq_sym Hne)) as [Hp|Hp];
      [assumption|].
    exfalso.
    destruct (in_dec string_dec h'
                (get (resident_prefs (res_next capacities st)) x))
      as [Hin|Hout].
    + destruct (get (resident_prefs (res_next capacities st)) x)
        as [|y l] eqn:Hg; [discriminate|].
      injection Hhd as ->.
      eapply prefers_asym; [exact Hp|].
      eapply prefers_subseq;
        [apply (rsv_sub_r I') | apply (cons_strict_l C)|].
      rewrite Hg. apply prefers_head; assumption.
    + assert (Hout0 : ~ In h' (get (resident_prefs st) x)).
      { intros X. apply Hout. rewrite Hget.
        destruct (in_dec string_dec x S); [|assumption].
        apply In_remove1_neq; assumption. }
      exact (O x h' Hacc Hout0 M SM Hh').
  - right. exists a. split; [assumption|].
    eapply prefers_subseq; [apply (rsv_sub_h I) | apply (cons_strict_r C)|].
    rewrite HPS. apply prefers_across; auto.
Qed.

(** The loop ends in a state that satisfies the three invariants. *)
Lemma res_loop_cut fuel :
  res_measure (res_start hp0 rp0) < fuel ->
  exists st,
    while fuel (fun s => nonempty (free s)) (hr_resident_body capacities)
      (res_start hp0 rp0) = (st, Ok tt)
    /\ res_inv hp0 rp0 capacities st /\ res_cut hp0 capacities st
    /\ hr_no_stable_pair hp0 rp0 capacities st
    /\ free st = [].
Proof.
  intros Hfuel.
  pose proof (while_rule
                (fun s => res_inv hp0 rp0 capacities s
                          /\ res_cut hp0 capacities s
                          /\ hr_no_stable_pair hp0 rp0 capacities s)
                (fun _ _ => False)
                res_measure (fun s => nonempty (free s))
                (hr_resident_body capacities)) as W.
  assert (Hbody : forall s,
     res_inv hp0 rp0 capacities s /\ res_cut hp0 capacities s
     /\ hr_no_stable_pair hp0 rp0 capacities s ->
     nonempty (free s) = true ->
     match hr_resident_body capacities s with
     | (s', Ok _) => (res_inv hp0 rp0 capacities s'
                      /\ res_cut hp0 capacities s'
                      /\ hr_no_stable_pair hp0 rp0 capacities s')
                     /\ res_measure s' < res_measure s
     | (s', Raise e) => False
     | (_, OutOfFuel) => False
     end).
  { intros s (I & K & O) Hc. destruct (res_step HI I Hc) as (E & I' & Hlt).
    rewrite E. split; [split; [|split]|]; auto.
    - apply res_next_cut; assumption.
    - apply res_next_no_pair; assumption. }
  specialize (W Hbody fuel (res_start hp0 rp0)
                (conj (res_start_inv HI)
                   (conj res_start_cut res_start_no_pair)) Hfuel).
  destruct (while fuel _ _ (res_start hp0 rp0)) as [st [[]|e|]];
    try contradiction.
  destruct W as [(I & K & O) Hc]. exists st.
  split; [reflexivity|]. split; [assumption|]. split; [assumption|].
  split; [assumption|].
  destruct (free st); [reflexivity | discriminate].
Qed.

(** The call: the loop, then the sort of every sequence. *)
Lemma hr_resident_optimal_end fuel :
  res_fuel hp0 rp0 <= fuel ->
  exists st1 st,
    res_inv hp0 rp0 capacities st1 /\ res_cut hp0 capacities st1 /\
    hr_no_stable_pair hp0 rp0 capacities st1 /\
    free st1 = [] /\
    hr_resident_optimal fuel hp0 rp0 capacities = (st, Ok (hr_match st)) /\
    hr_match st = sort_all (hospital_prefs st1) (hr_match st1) /\
    hospital_prefs st = hospital_prefs st1 /\
    resident_prefs st = resident_prefs st1.
Proof.
  intros Hfuel. pose proof (hri_consistent HI) as C.
  destruct (@res_loop_cut fuel) as (st1 & E1 & I & K & O & Hf);
    [unfold res_fuel in Hfuel; lia|].
  exists st1. destruct st1 as [hp rp m f t].
  pose proof I as I0.
  destruct I as [Kh Kr Km Sh Sr Mu Ma Nd Cp Fr Tr]. st_simpl.
  assert (Nkm : NoDup (keys m)) by (rewrite Km; apply (cons_keys_r C)).
  destruct (@hr_sort_loop hp rp f m [] t) as (t' & E2 & F).
  - exact Nkm.
  - intros h ms Hin. pose proof (In_lookup _ _ _ Nkm Hin) as Hl.
    assert (Hg : get m h = ms) by (unfold get; rewrite Hl; reflexivity).
    split.
    + rewrite Kh, <- Km. apply lookup_In_keys. eauto.
    + intros x Hx. apply Mu. apply hd_error_In. apply Ma. rewrite Hg.
      assumption.
  - simpl in E2.
    exists (mk_hr_state hp rp (sort_all hp m) f (t' ++ t)).
    split; [assumption|]. split; [assumption|]. split; [assumption|].
    split; [assumption|]. split; [|auto].
    rewrite hr_resident_optimal_start.
    bind_step ltac:(exact E1). unfold hr_sort_matches.
    erewrite bind_Ok; [|bind_pure; exact E2].
    reflexivity.
Qed.

(** The residents of the sequences of a state of the loop, in whatever
    order, are a matching of the instance. *)
Lemma res_inv_assignment st (m : hr_matching) :
  res_inv hp0 rp0 capacities st ->
  keys m = keys (hr_match st) ->
  (forall h, NoDup (get m h)) ->
  (forall h x, In x (get m h) <-> In x (get (hr_match st) h)) ->
  hr_assignment hp0 rp0 m.
Proof.
  intros I Hk Hn Hm. constructor.
  - rewrite Hk. apply (rsv_keys_m I).
  - intros r h Hin. apply Hm in Hin.
    pose proof (hd_error_In _ (rsv_matched I _ _ Hin)) as Hh. split.
    + eapply subseq_In; [apply (rsv_sub_h I)|]. apply (rsv_mutual I).
      assumption.
    + eapply subseq_In; [apply (rsv_sub_r I) | assumption].
  - assumption.
  - intros r h h' H1 H2. apply Hm in H1, H2.
    pose proof (rsv_matched I _ _ H1) as E1.
    pose proof (rsv_matched I _ _ H2) as E2. congruence.
Qed.

(** At the end of the loop no pair blocks the matching. *)
Lemma res_inv_stable st (m : hr_matching) :
  res_inv hp0 rp0 capacities st -> res_cut hp0 capacities st ->
  free st = [] ->
  (forall h x, In x (get m h) <-> In x (get (hr_match st) h)) ->
  (forall h, List.length (get m h) = List.length (get (hr_match st) h)) ->
  hr_stable hp0 rp0 capacities m.
Proof.
  intros I K Hf Hm Hl r h (Hh & Hr & Hres & Hhosp).
  pose proof (hri_consistent HI) as C.
  destruct (in_dec string_dec h (get (resident_prefs st) r)) as [Hin|Hout].
  - (* the pair is still in the lists: [r] is matched to the head of their
       list *)
    assert (Hrk : In r (keys (resident_prefs st)))
      by (eapply get_nonempty_key; eauto).
    assert (Nkr : NoDup (keys (resident_prefs st)))
      by (rewrite (rsv_keys_r I); apply (cons_keys_l C)).
    assert (Nkm : NoDup (keys (hr_match st)))
      by (rewrite (rsv_keys_m I); apply (cons_keys_r C)).
    assert (Hfree : is_free_resident (resident_prefs st) (hr_match st) r
                    = false).
    { destruct (is_free_resident (resident_prefs st) (hr_match st) r) eqn:E;
        [|reflexivity].
      exfalso. pose proof (rsv_free I) as Fr.
      rewrite free_residents_keys, Hf in Fr by assumption.
      assert (X : In r (filter (is_free_resident (resident_prefs st)
                                  (hr_match st)) (keys (resident_prefs st))))
        by (apply filter_In; auto).
      rewrite <- Fr in X. destruct X. }
    unfold is_free_resident in Hfree.
    destruct (get (resident_prefs st) r) as [|h1 l] eqn:Hg; [destruct Hin|].
    simpl in Hfree. apply negb_false_iff in Hfree.
    destruct (matched_somewhere_true _ _ Nkm Hfree) as [h' Hh'].
    pose proof (rsv_matched I _ _ Hh') as Hhd. rewrite Hg in Hhd.
    injection Hhd as ->.
    apply Hm in Hh'. specialize (Hres _ Hh').
    destruct (eq_dec h h') as [->|n]; [eapply prefers_irrefl; eauto|].
    eapply prefers_asym; [exact Hres|].
    eapply prefers_subseq; [apply (rsv_sub_r I) | apply (cons_strict_l C)|].
    rewrite Hg. apply prefers_head; assumption.
  - (* the pair was deleted: [h] is full, with residents it likes better *)
    assert (Hnr : ~ In r (get (hospital_prefs st) h)).
    { intros X. apply Hout. apply (rsv_mutual I). assumption. }
    assert (Hne : get (hospital_prefs st) h <> get hp0 h) by congruence.
    pose proof (rsc_full K _ Hne) as Hfull.
    destruct Hhosp as [Hroom|(r' & Hr' & Hpref)]; [rewrite Hl in Hroom; lia|].
    apply Hm in Hr'.
    assert (Hr'h : In r' (get (hospital_prefs st) h)).
    { apply (rsv_mutual I). apply hd_error_In. apply (rsv_matched I).
      assumption. }
    destruct (rsc_prefix K h) as [tail E].
    eapply prefers_asym; [exact Hpref|]. rewrite E.
    apply prefers_across; [rewrite <- E; apply (cons_strict_r C) | assumption|].
    rewrite E in Hr. apply in_app_or in Hr. tauto.
Qed.
(** At the end of the loop, a resident whom some stable matching gives a
    hospital is in the sequence of a hospital they like at least as much. *)
Lemma res_inv_optimal st m' r h' :
  res_inv hp0 rp0 capacities st ->
  hr_no_stable_pair hp0 rp0 capacities st ->
  free st = [] ->
  hr_stable_matching hp0 rp0 capacities m' ->
  In r (get m' h') ->
  exists h, In r (get (hr_match st) h) /\
            (h = h' \/ prefers (get rp0 r) h h').
Proof.
  intros I O Hf SM Hr'. pose proof (hri_consistent HI) as C.
  destruct (hra_acceptable (hsm_assignment SM) _ _ Hr') as [_ Hacc].
  destruct (in_dec string_dec h' (get (resident_prefs st) r)) as [Hin|Hout];
    [|exfalso; exact (O r h' Hacc Hout m' SM Hr')].
  assert (Hrk : In r (keys (resident_prefs st)))
    by (eapply get_nonempty_key; eauto).
  assert (Nkr : NoDup (keys (resident_prefs st)))
    by (rewrite (rsv_keys_r I); apply (cons_keys_l C)).
  assert (Nkm : NoDup (keys (hr_match st)))
    by (rewrite (rsv_keys_m I); apply (cons_keys_r C)).
  assert (Hfree : is_free_resident (resident_prefs st) (hr_match st) r
                  = false).
  { destruct (is_free_resident (resident_prefs st) (hr_match st) r) eqn:E;
      [|reflexivity].
    exfalso. pose proof (rsv_free I) as Fr.
    rewrite free_residents_keys, Hf in Fr by assumption.
    assert (X : In r (filter (is_free_resident (resident_prefs st)
                                (hr_match st)) (keys (resident_prefs st))))
      by (apply filter_In; auto).
    rewrite <- Fr in X. destruct X. }
  unfold is_free_resident in Hfree.
  destruct (get (resident_prefs st) r) as [|h1 l] eqn:Hg; [destruct Hin|].
  simpl in Hfree. apply negb_false_iff in Hfree.
  destruct (matched_somewhere_true _ _ Nkm Hfree) as [h Hh].
  pose proof (rsv_matched I _ _ Hh) as Hhd. rewrite Hg in Hhd.
  injection Hhd as ->. exists h. split; [assumption|].
  destruct (eq_dec h h') as [e|n]; [auto|]. right.
  eapply prefers_subseq; [apply (rsv_sub_r I) | apply (cons_strict_l C)|].
  rewrite Hg. apply prefers_head; [assumption | congruence].
Qed.
(** The call, and what is known of the matching it returns. *)
Lemma hr_resident_optimal_summary fuel :
  res_fuel hp0 rp0 <= fuel ->
  exists st m,
    hr_resident_optimal fuel hp0 rp0 capacities = (st, Ok m) /\
    hr_stable_matching hp0 rp0 capacities m /\
    forall m', hr_stable_matching hp0 rp0 capacities m' ->
    forall r h', In r (get m' h') ->
      exists h, In r (get m h) /\ (h = h' \/ prefers (get rp0 r) h h').
Proof.
  intros Hfuel.
  destruct (hr_resident_optimal_end Hfuel)
    as (st1 & st & I & K & O & Hf & E & Em & _).
  assert (Hmem : forall h x, In x (get (hr_match st) h)
                             <-> In x (get (hr_match st1) h)).
  { intros h x. rewrite Em, get_sort_all. apply sort_by_rank_In. }
  assert (Hlen : forall h, List.length (get (hr_match st) h)
                           = List.length (get (hr_match st1) h)).
  { intros h. rewrite Em, get_sort_all. apply sort_by_rank_length. }
  exists st, (hr_match st). split; [exact E|]. split.
  - constructor.
    + eapply res_inv_assignment; [exact I | rewrite Em; apply keys_sort_all
                                  | | exact Hmem].
      intros h. rewrite Em, get_sort_all. apply sort_by_rank_NoDup.
      apply (rsv_nodup I).
    + intros h Hh. rewrite Hlen. apply (rsv_cap I). exact Hh.
    + eapply res_inv_stable; eauto.
  - intros m' SM r h' Hr.
    destruct (@res_inv_optimal st1 m' r h' I O Hf SM Hr) as (h & Hh & Hp).
    exists h. split; [apply Hmem; exact Hh | exact Hp].
Qed.
End ResStable.

(* ===================================================================== *)
(** ** hr_hospital_optimal: the matching is stable *)
(* ===================================================================== *)

(** [_get_free_hospitals] is a filter of the hospitals. *)
Lemma get_free_hospitals_eq capacities m (s : hr_state) : forall d,
  (forall h, In h (keys d) -> In h (keys m) /\ In h (keys capacities)) ->
  _get_free_hospitals d capacities m s
  = (s, Ok (free_hospitals capacities d m)).
Proof.
  unfold free_hospitals.
  induction d as [|[h hl] d IH]; intros Hk; [reflexivity|].
  destruct (Hk h (or_introl eq_refl)) as [Hm Hc].
  assert (Eb : is_free_hospital capacities m h hl s
               = (s, Ok (free_hospitalb capacities m h hl))).
  { unfold is_free_hospital, free_hospitalb.
    bind_step ltac:(apply getitem_get; exact Hm).
    bind_step ltac:(apply getitem_cap; exact Hc).
    destruct (_ <? _)%Z; reflexivity. }
  simpl. bind_step ltac:(exact Eb).
  bind_step ltac:(apply IH; intros k Hin; apply Hk; simpl; auto).
  destruct (free_hospitalb capacities m h hl); reflexivity.
Qed.

Section HospStable.
Variables hp0 rp0 : prefs.
Variable capacities : capacities_t.
Hypothesis HI : hr_instance hp0 rp0 capacities.

Lemma hosp_step_cut st :
  hosp_inv hp0 rp0 capacities st -> hosp_cut rp0 capacities st ->
  nonempty (free st) = true ->
  exists st',
    hr_hospital_body capacities st = (st', Ok tt) /\
    hosp_cut rp0 capacities st' /\
    (hr_no_stable_pair hp0 rp0 capacities st ->
     hr_no_stable_pair hp0 rp0 capacities st').
Proof.
  intros I [Qx Gm Fe] Hc. pose proof (hri_consistent HI) as C.
  destruct st as [hp rp m f t].
  destruct I as [Kh Kr Km Sh Sr Mu Px La Cp Fr Tr]. st_simpl.
  destruct f as [|h fh]; [discriminate|]. clear Hc.
  destruct (Fr h (or_introl eq_refl)) as (Hhk0 & Hlt & x0 & Hx0 & Hx0m).
  assert (Hhk : In h (keys hp)) by (rewrite Kh; assumption).
  assert (Hhm : In h (keys m)) by (rewrite Km; assumption).
  assert (Nkm : NoDup (keys m)) by (rewrite Km; apply (cons_keys_r C)).
  assert (Nhp : forall b, NoDup (get hp b))
    by (intros b; eapply subseq_NoDup; [apply Sh | apply (cons_strict_r C)]).
  assert (Nrp : forall a, NoDup (get rp a))
    by (intros a; eapply subseq_NoDup; [apply Sr | apply (cons_strict_l C)]).
  assert (Nm : forall b, NoDup (get m b)).
  { intros b. destruct (Px b) as [tl Htl]. pose proof (Nhp b) as N.
    rewrite Htl in N. apply NoDup_app_inv in N. tauto. }
  destruct (Px h) as [tail Htail].
  assert (Hx0t : In x0 tail).
  { rewrite Htail in Hx0. apply in_app_or in Hx0. tauto. }
  destruct tail as [|r tail']; [destruct Hx0t|]. clear x0 Hx0 Hx0m Hx0t.
  assert (Hfilter : filter (fun x => negb (mem x (get m h))) (get hp h)
                    = r :: tail').
  { rewrite Htail. apply filter_notin_prefix. rewrite <- Htail. apply Nhp. }
  assert (Hrh : In r (get hp h))
    by (rewrite Htail; apply in_or_app; simpl; auto).
  assert (Hrm : ~ In r (get m h)).
  { pose proof (Nhp h) as N. rewrite Htail in N.
    apply NoDup_app_inv in N. destruct N as (_ & _ & D).
    intros Hin. apply (D r Hin). simpl. auto. }
  assert (Hhr : In h (get rp r)) by (apply Mu; assumption).
  assert (Hrk : In r (keys rp)) by (eapply get_nonempty_key; eauto).
  destruct (index_In _ _ Hhr) as [idx Hidx].
  destruct (index_split _ _ Hidx) as (pre & succs & Hrl & Hlen & Hnp & Hsk).
  pose proof (Nrp r) as Nrl. rewrite Hrl in Nrl.
  destruct (NoDup_app_inv _ _ Nrl) as (Npre & Nsuc' & Hdis).
  apply NoDup_cons_iff in Nsuc'. destruct Nsuc' as [Hh_suc Nsuc].
  assert (Hsuc_pre : forall x, In x succs -> ~ In x (pre ++ [h])).
  { intros x Hx Hin. apply in_app_or in Hin. destruct Hin as [Hin|[<-|[]]].
    - apply (Hdis x Hin). simpl. auto.
    - tauto. }
  assert (Hsuc : forall x, In x succs -> In x (keys hp) /\ In r (get hp x)).
  { intros x Hx.
    assert (In r (get hp x))
      by (apply Mu; rewrite Hrl; apply in_or_app; simpl; auto).
    split; [eapply get_nonempty_key; eauto | assumption]. }
  destruct (@hr_unmatch_eq r hp rp m (h :: fh) t Nkm) as (t' & Eun & Ft').
  set (m1 := unmatch_all r m) in *.
  assert (Hgm1 : forall b, get m1 b = remove1 r (get m b))
    by (intros b; apply get_unmatch_all).
  assert (Km1 : keys m1 = keys m) by apply keys_unmatch_all.
  set (m2 := dict_set h (get m1 h ++ [r]) m1).
  assert (Hgm2 : forall b, get m2 b = if eq_dec b h then get m h ++ [r]
                                      else remove1 r (get m b)).
  { intros b. unfold m2. rewrite get_dict_set, !Hgm1.
    destruct (eq_dec b h); [|reflexivity].
    rewrite remove1_notin by assumption. reflexivity. }
  assert (Km2 : keys m2 = keys m).
  { unfold m2. rewrite keys_dict_set; rewrite Km1; auto. }
  set (hp' := prune_from r succs hp).
  set (rp' := dict_set r (pre ++ [h]) rp).
  assert (Khp' : keys hp' = keys hp).
  { unfold hp'. apply keys_prune_from. intros x Hx. apply Hsuc. assumption. }
  assert (Hghp' : forall b, get hp' b =
                            if in_dec string_dec b succs
                            then remove1 r (get hp b) else get hp b).
  { intros b. unfold hp'. destruct (in_dec string_dec b succs).
    - apply get_prune_from_in; assumption.
    - apply get_prune_from_notin; assumption. }
  (* a resident matched somewhere else is matched to a successor *)
  assert (Hother : forall b, b <> h -> In r (get m b) -> In b succs).
  { intros b Hb Hin. destruct (La r b Hin) as [p Hp].
    rewrite Hrl in Hp. eapply app_snoc_last; eauto. }
  (* the new prefixes, and what is left after them *)
  assert (Hpre' : forall b tl, get hp b = get m b ++ tl ->
             exists tl', get hp' b = get m2 b ++ tl' /\
                         List.length tl' <= List.length tl /\
                         (b = h -> List.length tl' < List.length tl)).
  { intros b tl Htl. rewrite Hghp', Hgm2.
    destruct (eq_dec b h) as [->|n].
    - destruct (in_dec string_dec h succs); [tauto|].
      rewrite Htail in Htl. apply app_inv_head in Htl. subst tl.
      exists tail'. rewrite Htail, <- app_assoc. simpl. auto.
    - destruct (in_dec string_dec b succs) as [Hb|Hb].
      + destruct (in_dec string_dec r (get m b)) as [Hr|Hr].
        * exists tl. rewrite Htl, remove1_app_in by assumption.
          split; [reflexivity | split; [lia | tauto]].
        * exists (remove1 r tl).
          rewrite Htl, remove1_app_notin, (remove1_notin _ _ Hr) by assumption.
          split; [reflexivity|]. split; [apply length_remove1_le | tauto].
      + exists tl. rewrite remove1_notin.
        * split; [assumption | split; [lia | tauto]].
        * intros Hr. apply Hb. apply Hother; assumption. }
  set (fs := free_hospitals capacities hp' m2).
  assert (Efree : _get_free_hospitals hp' capacities m2
                    (mk_hr_state hp' rp' m2 (h :: fh) (m2 :: t' ++ t))
                  = (mk_hr_state hp' rp' m2 (h :: fh) (m2 :: t' ++ t), Ok fs)).
  { apply get_free_hospitals_eq. intros k Hk. rewrite Khp', Kh in Hk. split.
    - rewrite Km2, Km. assumption.
    - apply (hri_caps HI). assumption. }
  exists (mk_hr_state hp' rp' m2 fs (m2 :: t' ++ t)).
  split.
  - (* the statements of the body *)
    unfold hr_hospital_body. bind_pure. bind_pure. bind_pure.
    bind_step ltac:(apply getitem_get; exact Hhk). bind_pure.
    bind_step ltac:(apply getitem_guarded;
                    [intros E; rewrite E in Hrh; destruct Hrh | exact Hhm]).
    rewrite Hfilter. bind_pure.
    bind_step ltac:(exact Eun).
    bind_step ltac:(apply match_append_eq; rewrite Km1; exact Hhm).
    fold m2. bind_pure.
    bind_step ltac:(apply getitem_get; exact Hrk).
    rewrite Hidx, Hsk.
    erewrite bind_Ok;
      [|apply hosp_prune_loop with (pre := pre ++ [h]);
        [exact Hrk | rewrite Hrl, <- app_assoc; reflexivity
         | rewrite <- app_assoc; exact Nrl | exact Hsuc]].
    fold hp' rp'. unfold refresh_free_hospitals. bind_pure. bind_pure.
    bind_step ltac:(exact Efree). reflexivity.
  - split.
    + constructor; st_simpl.
      * intros a. unfold rp'. rewrite get_dict_set.
        destruct (eq_dec a r) as [->|n]; [|apply Qx].
        destruct (Qx r) as [tl E]. exists (succs ++ tl).
        rewrite E, Hrl, <- !app_assoc. reflexivity.
      * intros a. unfold rp'. rewrite get_dict_set.
        destruct (eq_dec a r) as [->|n].
        -- intros _. exists h. rewrite Hgm2.
           destruct (eq_dec h h); [|congruence]. apply in_or_app. simpl. auto.
        -- intros Hne. destruct (Gm a Hne) as [b Hb]. exists b. rewrite Hgm2.
           destruct (eq_dec b h) as [->|nb]; [apply in_or_app; auto|].
           apply In_remove1_neq; assumption.
      * reflexivity.
    + (* the pairs that have just been deleted are those of [r] and the
         hospitals after [h]: with any of them, [r] and [h] would block *)
      intros O a b Hb0 Hnb M SM HaM. st_simpl.
      destruct (in_dec string_dec b (get rp a)) as [Hold|Hold];
        [|exact (O a b Hb0 Hold M SM HaM)].
      assert (Ha : a = r /\ In b succs).
      { unfold rp' in Hnb. rewrite get_dict_set in Hnb.
        destruct (eq_dec a r) as [->|n]; [|contradiction].
        split; [reflexivity|]. rewrite Hrl in Hold. apply in_app_or in Hold.
        destruct Hold as [Hp|[<-|Hs]]; [| |assumption];
          exfalso; apply Hnb; apply in_or_app; simpl; auto. }
      destruct Ha as [-> Hb].
      assert (Hbh : b <> h) by (intros ->; contradiction).
      assert (Hr0 : In r (get hp0 h))
        by (eapply subseq_In; [apply Sh | exact Hrh]).
      pose proof (hsm_stable SM) as St. unfold hr_stable in St.
      apply (St r h). split; [|split; [|split]].
      * eapply subseq_In; [apply Sr | exact Hhr].
      * exact Hr0.
      * intros h' Hh'.
        assert (h' = b) by (eapply (hra_once (hsm_assignment SM)); eauto).
        subst h'.
        eapply prefers_subseq; [apply Sr | apply (cons_strict_l C)|].
        rewrite Hrl. apply prefers_later; assumption.
      * destruct (incl_or_witness (get M h) (get m h))
          as [Hall|(x & Hx & Hxm)].
        -- left.
           pose proof (NoDup_incl_length
                         (hra_nodup (hsm_assignment SM) h) Hall).
           lia.
        -- right. exists x. split; [assumption|].
           destruct (hra_acceptable (hsm_assignment SM) _ _ Hx)
             as [Hx0 Hhx0].
           assert (Hxr : x <> r).
           { intros ->. apply Hbh.
             eapply (hra_once (hsm_assignment SM)); eauto. }
           destruct (prefers_total _ Hr0 Hx0 (not_eq_sym Hxr)) as [Hp|Hp];
             [assumption|].
           exfalso.
           destruct (in_dec string_dec x (get hp h)) as [Hin|Hout].
           ++ rewrite Htail in Hin. apply in_app_or in Hin.
              destruct Hin as [Hin|[Hin|Hin]]; [contradiction | congruence|].
              eapply prefers_asym; [exact Hp|].
              eapply prefers_subseq; [apply Sh | apply (cons_strict_r C)|].
              rewrite Htail. apply prefers_later; [|assumption].
              rewrite <- Htail. apply Nhp.
           ++ assert (Hout' : ~ In h (get rp x)).
              { intros X. apply Hout. apply Mu. exact X. }
              exact (O x h Hhx0 Hout' M SM Hx).
Qed.

Lemma hosp_start_cut :
  exists st0,
    refresh_free_hospitals capacities
      (mk_hr_state hp0 rp0 (empty_matching hp0) [] [empty_matching hp0])
    = (st0, Ok tt)
    /\ hosp_cut rp0 capacities st0
    /\ hr_no_stable_pair hp0 rp0 capacities st0.
Proof.
  set (m0 := empty_matching hp0).
  exists (mk_hr_state hp0 rp0 m0 (free_hospitals capacities hp0 m0) [m0]).
  split.
  - unfold refresh_free_hospitals. bind_pure. bind_pure.
    bind_step ltac:(apply get_free_hospitals_eq; intros h Hh; split;
                    [unfold m0, empty_matching; rewrite keys_init; exact Hh
                    | apply (hri_caps HI); exact Hh]).
    reflexivity.
  - split.
    + constructor; st_simpl.
      * intros r. exists []. rewrite app_nil_r. reflexivity.
      * intros r Hne. congruence.
      * reflexivity.
    + intros r h Hin Hout. simpl in Hout. contradiction.
Qed.

(** The call: it returns the matching of a state that satisfies both
    invariants, with no free hospital. *)
Lemma hr_hospital_optimal_end fuel :
  hosp_fuel hp0 <= fuel ->
  exists st,
    hr_hospital_optimal fuel hp0 rp0 capacities = (st, Ok (hr_match st))
    /\ hosp_inv hp0 rp0 capacities st /\ hosp_cut rp0 capacities st
    /\ hr_no_stable_pair hp0 rp0 capacities st
    /\ free st = [].
Proof.
  intros Hfuel.
  destruct (hosp_start HI) as (st0 & E0 & I0 & Hm0).
  destruct hosp_start_cut as (st0' & E0' & K0 & O0).
  assert (st0' = st0) by congruence. subst st0'.
  pose proof (while_rule
                (fun s => hosp_inv hp0 rp0 capacities s
                          /\ hosp_cut rp0 capacities s
                          /\ hr_no_stable_pair hp0 rp0 capacities s)
                (fun _ _ => False)
                hosp_measure (fun s => nonempty (free s))
                (hr_hospital_body capacities)) as W.
  assert (Hbody : forall s,
     hosp_inv hp0 rp0 capacities s /\ hosp_cut rp0 capacities s
     /\ hr_no_stable_pair hp0 rp0 capacities s ->
     nonempty (free s) = true ->
     match hr_hospital_body capacities s with
     | (s', Ok _) => (hosp_inv hp0 rp0 capacities s'
                      /\ hosp_cut rp0 capacities s'
                      /\ hr_no_stable_pair hp0 rp0 capacities s')
                     /\ hosp_measure s' < hosp_measure s
     | (s', Raise e) => False
     | (_, OutOfFuel) => False
     end).
  { intros s (I & K & O) Hc.
    destruct (hosp_step HI I Hc) as (s' & E & I' & Hlt).
    destruct (hosp_step_cut I K Hc) as (s2 & E2 & K' & O').
    assert (s2 = s') by congruence. subst s2.
    rewrite E. auto. }
  specialize (W Hbody fuel st0 (conj I0 (conj K0 O0)) ltac:(lia)).
  destruct (while fuel _ _ st0) as [st [[]|e|]] eqn:El; try contradiction.
  destruct W as [(I & K & O) Hc]. exists st.
  split; [|split; [|split; [|split]]]; auto.
  - unfold hr_hospital_optimal, hr_hospital_optimal_run.
    unfold hr_init. bind_pure.
    bind_step ltac:(exact E0). bind_step ltac:(exact El). reflexivity.
  - destruct (free st); [reflexivity | discriminate].
Qed.

(** The sequences of a state of the loop are a matching of the instance. *)
Lemma hosp_inv_assignment st :
  hosp_inv hp0 rp0 capacities st -> hr_assignment hp0 rp0 (hr_match st).
Proof.
  intros I. pose proof (hri_consistent HI) as C.
  assert (Nhp : forall b, NoDup (get (hospital_prefs st) b)).
  { intros b. eapply subseq_NoDup; [apply (hsv_sub_h I)|].
    apply (cons_strict_r C). }
  constructor.
  - apply (hsv_keys_m I).
  - intros r h Hin. split.
    + eapply subseq_In; [apply (hsv_sub_h I)|].
      destruct (hsv_prefix I h) as [tl ->]. apply in_or_app. auto.
    + eapply subseq_In; [apply (hsv_sub_r I)|].
      destruct (hsv_last I _ _ Hin) as [pre ->]. apply in_or_app. simpl. auto.
  - intros h. destruct (hsv_prefix I h) as [tl E]. pose proof (Nhp h) as N.
    rewrite E in N. apply NoDup_app_inv in N. tauto.
  - intros r h h' H1 H2.
    destruct (hsv_last I _ _ H1) as [p1 E1].
    destruct (hsv_last I _ _ H2) as [p2 E2].
    rewrite E1 in E2. apply app_inj_tail in E2. tauto.
Qed.

(** When no hospital is free and every resident's name counts as true, no
    pair blocks the matching. *)
Lemma hosp_inv_stable st :
  hosp_inv hp0 rp0 capacities st -> hosp_cut rp0 capacities st ->
  free st = [] ->
  (forall r, In r (keys rp0) -> truthy r = true) ->
  hr_stable hp0 rp0 capacities (hr_match st).
Proof.
  intros I K Hf Ht r h (Hh & Hr & Hres & Hhosp).
  pose proof (hri_consistent HI) as C.
  assert (Nhp : NoDup (get (hospital_prefs st) h)).
  { eapply subseq_NoDup; [apply (hsv_sub_h I)|]. apply (cons_strict_r C). }
  assert (Hrm : ~ In r (get (hr_match st) h)).
  { intros X. eapply prefers_irrefl. apply (Hres _ X). }
  destruct (in_dec string_dec r (get (hospital_prefs st) h)) as [Hin|Hout].
  - (* the pair is still in the lists: [h] is full, with residents that come
       before [r] *)
    destruct (hsv_prefix I h) as [tl E].
    assert (Hrt : In r tl).
    { rewrite E in Hin. apply in_app_or in Hin. tauto. }
    assert (Hbefore : forall r', In r' (get (hr_match st) h) ->
                                 prefers (get hp0 h) r' r).
    { intros r' Hr'. eapply prefers_subseq;
        [apply (hsv_sub_h I) | apply (cons_strict_r C)|].
      rewrite E. apply prefers_across; [rewrite <- E|..]; assumption. }
    destruct Hhosp as [Hroom|(r' & Hr' & Hpref)].
    + assert (Hk : In h (keys (hospital_prefs st)))
        by (eapply get_nonempty_key; eauto).
      assert (Hfree : In h (free st)).
      { rewrite (hsc_free K). unfold free_hospitals.
        change h with (fst (h, get (hospital_prefs st) h)). apply in_map.
        apply filter_In. split.
        - apply lookup_In. apply get_lookup. assumption.
        - unfold free_hospitalb. apply andb_true_iff. split.
          + apply Z.ltb_lt. assumption.
          + apply existsb_exists. exists r. split.
            * apply filter_In. split; [assumption|].
              apply negb_true_iff. apply mem_false. assumption.
            * apply Ht. eapply get_nonempty_key; eauto. }
      rewrite Hf in Hfree. destruct Hfree.
    + eapply prefers_asym; [exact Hpref | auto].
  - (* the pair was deleted: [r] has a hospital they like better *)
    assert (Hnh : ~ In h (get (resident_prefs st) r)).
    { intros X. apply Hout. apply (hsv_mutual I). assumption. }
    assert (Hne : get (resident_prefs st) r <> get rp0 r) by congruence.
    destruct (hsc_matched K _ Hne) as [h' Hh'].
    destruct (hsv_last I _ _ Hh') as [pre Epre].
    destruct (hsc_prefix K r) as [tl E].
    eapply prefers_asym; [exact (Hres _ Hh')|]. rewrite E.
    apply prefers_across.
    + rewrite <- E. apply (cons_strict_l C).
    + rewrite Epre. apply in_or_app. simpl. auto.
    + rewrite E in Hh. apply in_app_or in Hh. tauto.
Qed.
(** A resident in the sequence of a hospital has, in any stable matching,
    that hospital or one they like better. *)
Lemma hosp_inv_pessimal st m' r h h' :
  hosp_inv hp0 rp0 capacities st -> hosp_cut rp0 capacities st ->
  hr_no_stable_pair hp0 rp0 capacities st ->
  hr_stable_matching hp0 rp0 capacities m' ->
  In r (get (hr_match st) h) -> In r (get m' h') ->
  h' = h \/ prefers (get rp0 r) h' h.
Proof.
  intros I K O SM Hm Hm'. pose proof (hri_consistent HI) as C.
  destruct (hra_acceptable (hsm_assignment SM) _ _ Hm') as [_ Hacc].
  destruct (in_dec string_dec h' (get (resident_prefs st) r)) as [Hin|Hout];
    [|exfalso; exact (O r h' Hacc Hout m' SM Hm')].
  destruct (hsv_last I _ _ Hm) as [pre Epre].
  destruct (eq_dec h' h) as [e|n]; [auto|]. right.
  eapply prefers_subseq; [apply (hsv_sub_r I) | apply (cons_strict_l C)|].
  rewrite Epre in *. apply prefers_across.
  - rewrite <- Epre. eapply subseq_NoDup; [apply (hsv_sub_r I)|].
    apply (cons_strict_l C).
  - apply in_app_or in Hin. destruct Hin as [Hin|[Hin|[]]]; congruence.
  - simpl. auto.
Qed.

(** The call, and what is known of the matching it returns. *)
Lemma hr_hospital_optimal_summary fuel :
  (forall r, In r (keys rp0) -> truthy r = true) ->
  hosp_fuel hp0 <= fuel ->
  exists st m,
    hr_hospital_optimal fuel hp0 rp0 capacities = (st, Ok m) /\
    hr_stable_matching hp0 rp0 capacities m /\
    forall m', hr_stable_matching hp0 rp0 capacities m' ->
    forall r h h', In r (get m h) -> In r (get m' h') ->
      h' = h \/ prefers (get rp0 r) h' h.
Proof.
  intros Ht Hfuel.
  destruct (hr_hospital_optimal_end Hfuel) as (st & E & I & K & O & Hf).
  exists st, (hr_match st). split; [exact E|]. split.
  - constructor.
    + apply hosp_inv_assignment. exact I.
    + apply (hsv_cap I).
    + apply hosp_inv_stable; assumption.
  - intros m' SM r h h' Hm Hm'.
    exact (@hosp_inv_pessimal st m' r h h' I K O SM Hm Hm').
Qed.
End HospStable.

Lemma hr_instance_ranked hp rp capacities :
  hr_instance hp rp capacities -> residents_ranked hp rp.
Proof. intros HI r h Hh. apply (cons_mutual (hri_consistent HI)). exact Hh. Qed.

(** The sorted sequences have the residents of the sequences of the loop. *)
Lemma sort_all_members hp (m : hr_matching) h x :
  In x (get (sort_all hp m) h) <-> In x (get m h).
Proof. rewrite get_sort_all. apply sort_by_rank_In. Qed.

Lemma sort_all_length hp (m : hr_matching) h :
  List.length (get (sort_all hp m) h) = List.length (get m h).
Proof. rewrite get_sort_all. apply sort_by_rank_length. Qed.

(* ===================================================================== *)
(** ** hr_resident_optimal: hospitals without room *)
(* ===================================================================== *)

Lemma lookup_at_least_one capacities h :
  lookup h (at_least_one capacities)
  = option_map (Z.max 1) (lookup h capacities).
Proof.
  induction capacities as [|[k c] d IH]; simpl; [reflexivity|].
  destruct (eq_dec h k); [reflexivity | exact IH].
Qed.

Lemma keys_at_least_one capacities :
  keys (at_least_one capacities) = keys capacities.
Proof.
  unfold keys, at_least_one. rewrite map_map. apply map_ext.
  intros [k c]. reflexivity.
Qed.

Lemma cap_at_least_one capacities h :
  In h (keys capacities) ->
  cap (at_least_one capacities) h = Z.max 1 (cap capacities h).
Proof.
  intros Hk. apply lookup_In_keys in Hk. destruct Hk as [c Hc].
  unfold cap. rewrite lookup_at_least_one, Hc. reflexivity.
Qed.

Lemma lookup_at_least_one_same capacities h :
  (1 <= cap capacities h)%Z ->
  lookup h (at_least_one capacities) = lookup h capacities.
Proof.
  unfold cap. rewrite lookup_at_least_one.
  destruct (lookup h capacities) as [c|]; simpl; [|lia].
  intros Hc. f_equal. lia.
Qed.

(** The two statements that read [capacities] read it at the hospital. *)
Lemma hr_evict_caps capacities capacities' h :
  lookup h capacities = lookup h capacities' ->
  hr_evict capacities h = hr_evict capacities' h.
Proof. unfold hr_evict, getitem. intros ->. reflexivity. Qed.

Lemma hr_prune_caps capacities capacities' h :
  lookup h capacities = lookup h capacities' ->
  hr_prune capacities h = hr_prune capacities' h.
Proof. unfold hr_prune, getitem. intros ->. reflexivity. Qed.

(** The body of the loop once the resident and the hospital are known. *)
Lemma res_body_unfold capacities hp rp m r fr t h rl :
  In r (keys rp) -> get rp r = h :: rl ->
  hr_resident_body capacities (mk_hr_state hp rp m (r :: fr) t) =
  (match_append h r ;;; hr_evict capacities h ;;; hr_prune capacities h ;;;
   refresh_free_residents) (mk_hr_state hp rp m (r :: fr) t).
Proof.
  intros Hk Hg.
  set (rhs := (match_append h r ;;; _) _).
  unfold hr_resident_body. bind_pure. bind_pure. bind_pure.
  bind_step ltac:(apply getitem_get; exact Hk). rewrite Hg. bind_pure.
  reflexivity.
Qed.

Lemma res_body_caps capacities capacities' hp rp m r fr t h rl :
  In r (keys rp) -> get rp r = h :: rl ->
  lookup h capacities = lookup h capacities' ->
  hr_resident_body capacities (mk_hr_state hp rp m (r :: fr) t) =
  hr_resident_body capacities' (mk_hr_state hp rp m (r :: fr) t).
Proof.
  intros Hk Hg Hl.
  rewrite (@res_body_unfold capacities hp rp m r fr t h rl Hk Hg).
  rewrite (@res_body_unfold capacities' hp rp m r fr t h rl Hk Hg).
  rewrite (hr_evict_caps _ _ _ Hl), (hr_prune_caps _ _ _ Hl). reflexivity.
Qed.

Lemma worst_of_nobody hl : worst_of hl [] = None.
Proof.
  unfold worst_of. rewrite filter_none; [reflexivity|]. intros x _. reflexivity.
Qed.

Lemma worst_of_single hl (r : Player) :
  In r hl ->
  exists i, worst_of hl [r] = Some i /\ nth i hl EmptyString = r.
Proof.
  intros Hin. destruct (worst_of_exists hl [r] r) as [i Hi]; simpl; auto.
  exists i. split; [assumption|].
  destruct (worst_of_nth _ _ Hi) as (_ & Hm & _). simpl in Hm.
  destruct Hm as [Hm|[]]. congruence.
Qed.

(** Lines 100-101 at a hospital of capacity zero whose sequence is empty:
    [max] is asked for the largest of no index. *)
Lemma hr_prune_nobody capacities hp rp m f t h :
  In h (keys m) -> In h (keys capacities) -> In h (keys hp) ->
  get m h = [] -> cap capacities h = 0%Z -> get hp h <> [] ->
  hr_prune capacities h (mk_hr_state hp rp m f t)
  = (mk_hr_state hp rp m f t, Raise MaxEmpty).
Proof.
  intros Hm Hc Hh Hg Hz Hne. unfold hr_prune.
  bind_step ltac:(apply match_len_eq; exact Hm).
  bind_step ltac:(apply getitem_cap; exact Hc).
  rewrite Hg, Hz. simpl. apply bind_Raise.
  unfold worst_idx. bind_pure. bind_pure. unfold _get_worst_idx.
  bind_step ltac:(apply getitem_get; exact Hh).
  bind_step ltac:(apply getitem_guarded; [exact Hne | exact Hm]).
  rewrite Hg, worst_of_nobody. reflexivity.
Qed.

(** The resident at the head of [free], and the hospital they propose to. *)
Lemma res_head hp0 rp0 capacities st :
  consistent rp0 hp0 ->
  res_inv hp0 rp0 capacities st -> nonempty (free st) = true ->
  exists r fr h rl,
    free st = r :: fr /\ In r (keys (resident_prefs st)) /\
    get (resident_prefs st) r = h :: rl /\ In h (keys hp0) /\
    In r (get (hospital_prefs st) h) /\
    forall b, ~ In r (get (hr_match st) b).
Proof.
  intros C I Hc. destruct (free st) as [|r fr] eqn:Hf; [discriminate|].
  assert (Nkr : NoDup (keys (resident_prefs st)))
    by (rewrite (rsv_keys_r I); apply (cons_keys_l C)).
  assert (Hfr : is_free_resident (resident_prefs st) (hr_match st) r = true
                /\ In r (keys (resident_prefs st))).
  { pose proof (rsv_free I) as Fr.
    rewrite free_residents_keys, Hf in Fr by assumption.
    assert (X : In r (filter (is_free_resident (resident_prefs st)
                                (hr_match st)) (keys (resident_prefs st))))
      by (rewrite <- Fr; simpl; auto).
    apply filter_In in X. tauto. }
  destruct Hfr as [Hfree Hrk].
  unfold is_free_resident in Hfree. apply andb_true_iff in Hfree.
  destruct Hfree as [Hne Hum]. apply negb_true_iff in Hum.
  destruct (get (resident_prefs st) r) as [|h rl] eqn:Hg; [discriminate|].
  exists r, fr, h, rl.
  assert (Hrh : In r (get (hospital_prefs st) h)).
  { apply (rsv_mutual I). rewrite Hg. simpl. auto. }
  split; [reflexivity|]. split; [assumption|]. split; [exact Hg|].
  split; [|split; [assumption|]].
  - rewrite <- (rsv_keys_h I). eapply get_nonempty_key; eauto.
  - apply matched_somewhere_false. assumption.
Qed.

Section ResRelaxed.
Variables hp0 rp0 : prefs.
Variable capacities : capacities_t.
Hypothesis C : consistent rp0 hp0.
Hypothesis Hcaps : forall h, In h (keys hp0) -> In h (keys capacities).

Lemma at_least_one_instance :
  hr_instance hp0 rp0 (at_least_one capacities).
Proof.
  constructor; [exact C|]. intros h Hh. pose proof (Hcaps h Hh) as Hk.
  split; [rewrite keys_at_least_one; exact Hk|].
  rewrite cap_at_least_one by exact Hk. lia.
Qed.

Variables r0 h0 : Player.
Hypothesis Hshut : (cap capacities h0 <= 0)%Z.

Lemma res_start_stuck :
  hd_error (get rp0 r0) = Some h0 ->
  res_stuck capacities r0 h0 (res_start hp0 rp0).
Proof.
  intros Hh. unfold res_start. constructor; st_simpl.
  - intros h _. apply get_empty_matching.
  - exact Hh.
  - intros h. rewrite get_empty_matching. intros [].
Qed.

(** While [r0] is stuck the loop goes on. *)
Lemma res_stuck_free st :
  res_inv hp0 rp0 (at_least_one capacities) st ->
  res_stuck capacities r0 h0 st ->
  nonempty (free st) = true.
Proof.
  intros I [_ Hh Ho].
  assert (Nkr : NoDup (keys (resident_prefs st)))
    by (rewrite (rsv_keys_r I); apply (cons_keys_l C)).
  rewrite (rsv_free I), free_residents_keys by assumption.
  assert (X : In r0 (filter (is_free_resident (resident_prefs st)
                               (hr_match st)) (keys (resident_prefs st)))).
  { apply filter_In. split.
    - eapply get_nonempty_key. apply hd_error_In. exact Hh.
    - unfold is_free_resident. apply andb_true_iff. split.
      + destruct (get (resident_prefs st) r0); [discriminate | reflexivity].
      + apply negb_true_iff.
        destruct (matched_somewhere r0 (hr_match st)) eqn:E; [|reflexivity].
        apply matched_somewhere_true in E.
        * destruct E as [h E]. exfalso. exact (Ho h E).
        * rewrite (rsv_keys_m I). apply (cons_keys_r C). }
  destruct (filter _ _); [destruct X | reflexivity].
Qed.

(** A proposal to a hospital with room is the iteration of an instance. *)
Lemma res_relaxed_room st r fr h rl :
  res_inv hp0 rp0 (at_least_one capacities) st ->
  res_stuck capacities r0 h0 st ->
  free st = r :: fr -> get (resident_prefs st) r = h :: rl ->
  (1 <= cap capacities h)%Z ->
  exists st',
    hr_resident_body capacities st = (st', Ok tt) /\
    res_inv hp0 rp0 (at_least_one capacities) st' /\
    res_stuck capacities r0 h0 st' /\
    res_measure st' < res_measure st.
Proof.
  intros I [J1 J2 J3] Hf Hg Hroom.
  pose proof at_least_one_instance as HI1.
  assert (Hc : nonempty (free st) = true) by (rewrite Hf; reflexivity).
  destruct (res_step HI1 I Hc) as (E & I' & Hlt).
  destruct (res_next_shape HI1 I Hc)
    as (r' & h' & P & S & ml2 & Hr' & Hh' & Hk & HPS & Ehp & Erp & NS & Hgm
        & Hml2 & _).
  rewrite Hf in Hr'. simpl in Hr'. injection Hr' as <-.
  rewrite Hg in Hh'. simpl in Hh'. injection Hh' as <-.
  exists (res_next (at_least_one capacities) st).
  assert (Hne : h0 <> h) by (intros ->; lia).
  split; [|split; [assumption|split; [|assumption]]].
  - rewrite <- E. destruct st as [hp rp m f t]. simpl in Hf, Hg. subst f.
    apply res_body_caps with (h := h) (rl := rl); [|assumption|].
    + eapply get_nonempty_key with (x := h). rewrite Hg. simpl. auto.
    + symmetry. apply lookup_at_least_one_same. assumption.
  - constructor.
    + intros b Hb. rewrite Hgm. destruct (eq_dec b h) as [->|n]; [lia|].
      apply J1. assumption.
    + rewrite Erp.
      destruct (in_dec string_dec r0 S) as [Hin|Hout].
      * rewrite get_prune_from_in by assumption.
        apply hd_remove1_neq; [congruence | assumption].
      * rewrite get_prune_from_notin by assumption. assumption.
    + intros b. rewrite Hgm. destruct (eq_dec b h) as [->|n]; [|apply J3].
      intros X. destruct (Hml2 _ X) as [X'|X']; [exact (J3 _ X')|].
      subst r. rewrite Hg in J2. simpl in J2. congruence.
Qed.

(** A proposal to a hospital of capacity zero ends in the error of [max]. *)
Lemma res_relaxed_zero st r fr h rl :
  res_inv hp0 rp0 (at_least_one capacities) st ->
  res_stuck capacities r0 h0 st ->
  free st = r :: fr -> get (resident_prefs st) r = h :: rl ->
  cap capacities h = 0%Z ->
  exists st', hr_resident_body capacities st = (st', Raise MaxEmpty).
Proof.
  intros I [J1 _ _] Hf Hg Hz.
  assert (Hc : nonempty (free st) = true) by (rewrite Hf; reflexivity).
  destruct (res_head C I Hc) as (r' & fr' & h' & rl' & Hf' & Hrk & Hg' & Hk0
                                 & Hrh & _).
  rewrite Hf in Hf'. injection Hf' as <- <-.
  rewrite Hg in Hg'. injection Hg' as <- <-.
  assert (Hme : get (hr_match st) h = []) by (apply J1; lia).
  assert (Hkc : In h (keys capacities)) by (apply Hcaps; assumption).
  pose proof (rsv_keys_h I) as Kh0. pose proof (rsv_keys_m I) as Km0.
  pose proof (rsv_free I) as Fr0.
  destruct st as [hp rp m f t]. st_simpl. subst f.
  assert (Hkh : In h (keys hp)) by (rewrite Kh0; assumption).
  assert (Hkm : In h (keys m)) by (rewrite Km0; assumption).
  destruct (worst_of_single _ _ Hrh) as (i & Hi & Hn).
  set (m1 := dict_set h [r] m).
  set (m2 := dict_set h [] m1).
  exists (mk_hr_state hp rp m2 (r :: fr) (m2 :: m1 :: t)).
  rewrite (@res_body_unfold capacities hp rp m r fr t h rl Hrk Hg).
  bind_step ltac:(apply match_append_eq; exact Hkm).
  rewrite Hme. simpl app. fold m1.
  assert (Km1 : In h (keys m1)) by (unfold m1; rewrite keys_dict_set; assumption).
  assert (G1 : get m1 h = [r]) by (unfold m1; apply get_dict_set_eq).
  erewrite bind_Ok.
  2:{ rewrite hr_evict_eq; try assumption.
      - rewrite G1, Hz, Hi, Hn. simpl.
        destruct (eq_dec r r); [|congruence]. fold m2. reflexivity.
      - intros _. rewrite G1, Hi. discriminate. }
  apply bind_Raise. apply hr_prune_nobody; try assumption.
  - unfold m2. rewrite keys_dict_set; assumption.
  - unfold m2. apply get_dict_set_eq.
  - intros E. rewrite E in Hrh. destruct Hrh.
Qed.

(** A proposal to a hospital of negative capacity changes nothing: the
    resident is appended and evicted at once, nothing is pruned. *)
Lemma res_relaxed_negative st r fr h rl :
  res_inv hp0 rp0 (at_least_one capacities) st ->
  res_stuck capacities r0 h0 st ->
  free st = r :: fr -> get (resident_prefs st) r = h :: rl ->
  (cap capacities h < 0)%Z ->
  exists st',
    hr_resident_body capacities st = (st', Ok tt) /\
    res_inv hp0 rp0 (at_least_one capacities) st' /\
    res_stuck capacities r0 h0 st'.
Proof.
  intros I J Hf Hg Hz. pose proof J as [J1 J2 J3].
  assert (Hc : nonempty (free st) = true) by (rewrite Hf; reflexivity).
  destruct (res_head C I Hc) as (r' & fr' & h' & rl' & Hf' & Hrk & Hg' & Hk0
                                 & Hrh & _).
  rewrite Hf in Hf'. injection Hf' as <- <-.
  rewrite Hg in Hg'. injection Hg' as <- <-.
  assert (Hme : get (hr_match st) h = []) by (apply J1; lia).
  assert (Hkc : In h (keys capacities)) by (apply Hcaps; assumption).
  pose proof (rsv_keys_h I) as Kh0. pose proof (rsv_keys_m I) as Km0.
  pose proof (rsv_free I) as Fr0.
  destruct st as [hp rp m f t]. st_simpl. subst f.
  assert (Hkh : In h (keys hp)) by (rewrite Kh0; assumption).
  assert (Hkm : In h (keys m)) by (rewrite Km0; assumption).
  destruct (worst_of_single _ _ Hrh) as (i & Hi & Hn).
  set (m1 := dict_set h [r] m).
  assert (Em2 : dict_set h [] m1 = m).
  { unfold m1. rewrite dict_set_twice. rewrite <- Hme at 1.
    apply dict_set_same. assumption. }
  exists (mk_hr_state hp rp m (r :: fr) (m :: m1 :: t)).
  split; [|split].
  - rewrite (@res_body_unfold capacities hp rp m r fr t h rl Hrk Hg).
    bind_step ltac:(apply match_append_eq; exact Hkm).
    rewrite Hme. simpl app. fold m1.
    assert (Km1 : In h (keys m1))
      by (unfold m1; rewrite keys_dict_set; assumption).
    assert (G1 : get m1 h = [r]) by (unfold m1; apply get_dict_set_eq).
    erewrite bind_Ok.
    2:{ rewrite hr_evict_eq; try assumption.
        - rewrite G1, Hi, Hn.
          change (Z.of_nat (List.length [r])) with 1%Z.
          replace (1 >? cap capacities h)%Z with true
            by (symmetry; apply Z.gtb_lt; lia).
          cbn [remove1]. destruct (eq_dec r r); [|congruence].
          rewrite Em2. reflexivity.
        - intros _. rewrite G1, Hi. discriminate. }
    erewrite bind_Ok.
    2:{ rewrite hr_prune_eq; try assumption.
        - rewrite Hme.
          change (Z.of_nat (List.length (@nil Player))) with 0%Z.
          replace (0 =? cap capacities h)%Z with false
            by (symmetry; apply Z.eqb_neq; lia).
          reflexivity.
        - eapply subseq_NoDup; [apply (rsv_sub_h I)|]. apply (cons_strict_r C).
        - intros x Hx. apply get_nonempty_key with (x := h).
          apply (rsv_mutual I). assumption.
        - rewrite Hme. intros E. apply Z.eqb_eq in E. simpl in E. lia. }
    unfold refresh_free_residents, modify. st_simpl.
    rewrite <- Fr0. reflexivity.
  - destruct I as [Kh Kr Km Sh Sr Mu Ma Nd Cp Fr Tr]. st_simpl.
    constructor; st_simpl; auto.
    constructor; [|constructor; [|assumption]].
    + intros b Hb. pose proof (Cp b Hb). lia.
    + intros b Hb. unfold m1. rewrite get_dict_set.
      destruct (eq_dec b h) as [->|n].
      * rewrite cap_at_least_one by assumption. simpl. lia.
      * pose proof (Cp b Hb). lia.
  - constructor; st_simpl; assumption.
Qed.
End ResRelaxed.

Lemma bind_OutOfFuel {St A B : Type} (m : M St A) (k : A -> M St B) s s' :
  m s = (s', OutOfFuel) -> bind m k s = (s', OutOfFuel).
Proof. unfold bind. intros ->. reflexivity. Qed.

(** With capacities that are not negative, and a resident whose first choice
    has capacity zero, the loop ends in the error of [max]. *)
Lemma res_loop_zero hp0 rp0 capacities r0 h0 fuel :
  consistent rp0 hp0 ->
  (forall h, In h (keys hp0) ->
     In h (keys capacities) /\ (0 <= cap capacities h)%Z) ->
  hd_error (get rp0 r0) = Some h0 -> cap capacities h0 = 0%Z ->
  res_measure (res_start hp0 rp0) < fuel ->
  exists st,
    while fuel (fun s => nonempty (free s)) (hr_resident_body capacities)
      (res_start hp0 rp0) = (st, Raise MaxEmpty).
Proof.
  intros C Hcaps Hh Hz Hfuel.
  assert (Hk : forall h, In h (keys hp0) -> In h (keys capacities))
    by (intros h Hin; apply Hcaps; exact Hin).
  assert (Hshut : (cap capacities h0 <= 0)%Z) by lia.
  pose proof (while_rule
                (fun s => res_inv hp0 rp0 (at_least_one capacities) s
                          /\ res_stuck capacities r0 h0 s)
                (fun _ e => e = MaxEmpty)
                res_measure (fun s => nonempty (free s))
                (hr_resident_body capacities)) as W.
  assert (Hbody : forall s,
     res_inv hp0 rp0 (at_least_one capacities) s
     /\ res_stuck capacities r0 h0 s ->
     nonempty (free s) = true ->
     match hr_resident_body capacities s with
     | (s', Ok _) => (res_inv hp0 rp0 (at_least_one capacities) s'
                      /\ res_stuck capacities r0 h0 s')
                     /\ res_measure s' < res_measure s
     | (s', Raise e) => e = MaxEmpty
     | (_, OutOfFuel) => False
     end).
  { intros s [I J] Hc.
    destruct (res_head C I Hc) as (r & fr & h & rl & Hf & _ & Hg & Hk0 & _).
    destruct (Z_le_gt_dec 1 (cap capacities h)) as [Hroom|Hno].
    - edestruct res_relaxed_room as (s' & E & I' & J' & Hlt);
        [exact C | exact Hk | exact Hshut | exact I | exact J | exact Hf
         | exact Hg | exact Hroom |].
      rewrite E. auto.
    - destruct (Hcaps h Hk0) as [_ Hge].
      edestruct res_relaxed_zero as (s' & E);
        [exact C | exact Hk | exact I | exact J | exact Hf | exact Hg | |].
      { lia. }
      rewrite E. reflexivity. }
  specialize (W Hbody fuel (res_start hp0 rp0)
                (conj (res_start_inv (at_least_one_instance capacities C Hk))
                   (res_start_stuck hp0 rp0 capacities r0 Hh)) Hfuel).
  destruct (while fuel _ _ (res_start hp0 rp0)) as [st [[]|e|]].
  - destruct W as [[I J] Hc]. rewrite (res_stuck_free C I J) in Hc.
    discriminate.
  - subst e. eauto.
  - contradiction.
Qed.

(** With no capacity zero, and a resident whose first choice has a negative
    capacity, the loop never ends. *)
Lemma res_loop_negative hp0 rp0 capacities r0 h0 fuel :
  consistent rp0 hp0 ->
  (forall h, In h (keys hp0) ->
     In h (keys capacities) /\ cap capacities h <> 0%Z) ->
  hd_error (get rp0 r0) = Some h0 -> (cap capacities h0 < 0)%Z ->
  exists st,
    while fuel (fun s => nonempty (free s)) (hr_resident_body capacities)
      (res_start hp0 rp0) = (st, OutOfFuel).
Proof.
  intros C Hcaps Hh Hz.
  assert (Hk : forall h, In h (keys hp0) -> In h (keys capacities))
    by (intros h Hin; apply Hcaps; exact Hin).
  assert (Hshut : (cap capacities h0 <= 0)%Z) by lia.
  pose proof (while_invariant
                (fun s => res_inv hp0 rp0 (at_least_one capacities) s
                          /\ res_stuck capacities r0 h0 s)
                (fun _ _ => False)
                (fun s => nonempty (free s))
                (hr_resident_body capacities)) as W.
  assert (Hbody : forall s,
     res_inv hp0 rp0 (at_least_one capacities) s
     /\ res_stuck capacities r0 h0 s ->
     nonempty (free s) = true ->
     match hr_resident_body capacities s with
     | (s', Ok _) => res_inv hp0 rp0 (at_least_one capacities) s'
                     /\ res_stuck capacities r0 h0 s'
     | (s', Raise e) => False
     | (s', OutOfFuel) => res_inv hp0 rp0 (at_least_one capacities) s'
                          /\ res_stuck capacities r0 h0 s'
     end).
  { intros s [I J] Hc.
    destruct (res_head C I Hc) as (r & fr & h & rl & Hf & _ & Hg & Hk0 & _).
    destruct (Z_le_gt_dec 1 (cap capacities h)) as [Hroom|Hno].
    - edestruct res_relaxed_room as (s' & E & I' & J' & Hlt);
        [exact C | exact Hk | exact Hshut | exact I | exact J | exact Hf
         | exact Hg | exact Hroom |].
      rewrite E. auto.
    - destruct (Hcaps h Hk0) as [_ Hne].
      edestruct res_relaxed_negative as (s' & E & I' & J');
        [exact C | exact Hk | exact I | exact J | exact Hf | exact Hg | |].
      { lia. }
      rewrite E. auto. }
  specialize (W Hbody fuel (res_start hp0 rp0)
                (conj (res_start_inv (at_least_one_instance capacities C Hk))
                   (res_start_stuck hp0 rp0 capacities r0 Hh))).
  destruct (while fuel _ _ (res_start hp0 rp0)) as [st [[]|e|]].
  - destruct W as [[I J] Hc]. rewrite (res_stuck_free C I J) in Hc.
    discriminate.
  - contradiction.
  - eauto.
Qed.

(* ===================================================================== *)
(** ** The helpers of hospital_resident.py *)
(* ===================================================================== *)

Section CheckOutcome.
Context {St : Type}.
Variables hp rp : prefs.

(** The check of one resident's list stops at the first hospital that has
    no list, or whose list does not have the resident. *)
Lemma check_list_outcome resident (s : St) : forall rl,
  ((forall h, In h rl -> In resident (get hp h)) /\
   for_each rl (check_one hp resident) s = (s, Ok tt))
  \/ (exists h, In h rl /\ In h (keys hp) /\ ~ In resident (get hp h) /\
        for_each rl (check_one hp resident) s
        = (s, Raise InputConsistencyError))
  \/ (exists h, In h rl /\ ~ In h (keys hp) /\
        for_each rl (check_one hp resident) s = (s, Raise (KeyError h))).
Proof.
  induction rl as [|h rl IH].
  - left. split; [intros h [] | reflexivity].
  - simpl. destruct (lookup h hp) as [hl|] eqn:El.
    + assert (Hk : In h (keys hp)) by (apply lookup_In_keys; eauto).
      assert (Hg : get hp h = hl) by (unfold get; rewrite El; reflexivity).
      destruct (mem resident hl) eqn:Hm.
      * assert (E : check_one hp resident h s = (s, Ok tt)).
        { unfold check_one. bind_step ltac:(apply getitem_Ok; exact El).
          rewrite Hm. reflexivity. }
        rewrite (bind_Ok _ _ _ E).
        destruct IH as [[Hall E']|[(h' & Hin & Hk' & Hn & E')
                                  |(h' & Hin & Hk' & E')]].
        -- left. split; [|exact E'].
           intros h' [<-|Hin]; [|auto]. rewrite Hg. apply mem_In. exact Hm.
        -- right. left. exists h'. auto.
        -- right. right. exists h'. auto.
      * right. left. exists h. split; [auto|]. split; [exact Hk|]. split.
        -- rewrite Hg. apply mem_false. exact Hm.
        -- apply bind_Raise. unfold check_one.
           bind_step ltac:(apply getitem_Ok; exact El). rewrite Hm. reflexivity.
    + right. right. exists h. split; [auto|]. split.
      * apply lookup_None. exact El.
      * apply bind_Raise. unfold check_one. apply bind_Raise.
        unfold getitem. rewrite El. reflexivity.
Qed.

Lemma check_residents_outcome (s : St) : forall ks,
  (forall r, In r ks -> In r (keys rp)) ->
  ((forall r h, In r ks -> In h (get rp r) -> In r (get hp h)) /\
   for_each ks (fun resident =>
     rl <- getitem rp resident ;; for_each rl (check_one hp resident)) s
   = (s, Ok tt))
  \/ (exists r h, In h (get rp r) /\ In h (keys hp) /\ ~ In r (get hp h) /\
        for_each ks (fun resident =>
          rl <- getitem rp resident ;; for_each rl (check_one hp resident)) s
        = (s, Raise InputConsistencyError))
  \/ (exists r h, In h (get rp r) /\ ~ In h (keys hp) /\
        for_each ks (fun resident =>
          rl <- getitem rp resident ;; for_each rl (check_one hp resident)) s
        = (s, Raise (KeyError h))).
Proof.
  induction ks as [|r ks IH]; intros Hks.
  - left. split; [intros r h [] | reflexivity].
  - simpl.
    assert (Hr : In r (keys rp)) by (apply Hks; simpl; auto).
    assert (Eb : forall res,
               for_each (get rp r) (check_one hp r) s = (s, res) ->
               (rl <- getitem rp r ;; for_each rl (check_one hp r)) s
               = (s, res)).
    { intros res E. bind_step ltac:(apply getitem_get; exact Hr). exact E. }
    destruct (check_list_outcome r s (get rp r))
      as [[Hall E]|[(h & Hin & Hk & Hn & E)|(h & Hin & Hk & E)]].
    + rewrite (bind_Ok _ _ _ (Eb _ E)).
      destruct (IH (fun x Hx => Hks x (or_intror Hx)))
        as [[Hall' E']|[(r' & h' & X)|(r' & h' & X)]].
      * left. split; [|exact E'].
        intros r' h' [<-|Hin'] Hh; [apply Hall; exact Hh | eauto].
      * right. left. exists r', h'. exact X.
      * right. right. exists r', h'. exact X.
    + right. left. exists r, h. split; [exact Hin|]. split; [exact Hk|].
      split; [exact Hn|]. apply bind_Raise. apply Eb. exact E.
    + right. right. exists r, h. split; [exact Hin|]. split; [exact Hk|].
      apply bind_Raise. apply Eb. exact E.
Qed.
End CheckOutcome.

(** ** [_get_worst_idx] *)

Lemma get_worst_idx_none {St : Type} h hp m (s : St) :
  In h (keys hp) -> In h (keys m) ->
  worst_of (get hp h) (get m h) = None ->
  _get_worst_idx h hp m s = (s, Raise MaxEmpty).
Proof.
  intros Hh Hm Hw. unfold _get_worst_idx.
  bind_step ltac:(apply getitem_get; exact Hh).
  destruct (get hp h) as [|x hl] eqn:E.
  - bind_pure. reflexivity.
  - bind_step ltac:(apply getitem_get; exact Hm).
    rewrite Hw. reflexivity.
Qed.

(** ** [_get_free_hospitals] *)

Lemma truthy_spec r : truthy r = true <-> r <> EmptyString.
Proof. destruct r; simpl; split; congruence. Qed.

Lemma free_hospitalb_spec capacities m h hl :
  free_hospitalb capacities m h hl = true <->
  (Z.of_nat (List.length (get m h)) < cap capacities h)%Z /\
  exists r, In r hl /\ ~ In r (get m h) /\ r <> EmptyString.
Proof.
  unfold free_hospitalb. rewrite andb_true_iff, Z.ltb_lt, existsb_exists.
  split; intros [Hl (r & Hr & Ht)]; (split; [exact Hl|]); exists r.
  - apply filter_In in Hr. destruct Hr as [Hin Hm].
    apply negb_true_iff, mem_false in Hm. apply truthy_spec in Ht. auto.
  - destruct Ht as [Hm Ht]. split; [|apply truthy_spec; exact Ht].
    apply filter_In. split; [exact Hr|].
    apply negb_true_iff, mem_false. exact Hm.
Qed.

Lemma subseq_map_filter {A B : Type} (f : A -> B) (p : A -> bool) l :
  subseq (map f (filter p l)) (map f l).
Proof.
  induction l as [|x l IH]; simpl; [constructor|].
  destruct (p x); simpl; [apply subseq_keep | apply subseq_skip]; exact IH.
Qed.

Lemma free_hospitals_spec capacities hp m h :
  NoDup (keys hp) ->
  (In h (free_hospitals capacities hp m) <->
   In h (keys hp) /\
   (Z.of_nat (List.length (get m h)) < cap capacities h)%Z /\
   exists r, In r (get hp h) /\ ~ In r (get m h) /\ r <> EmptyString).
Proof.
  intros Hn. unfold free_hospitals. rewrite in_map_iff. split.
  - intros ([k hl] & <- & Hin). apply filter_In in Hin.
    destruct Hin as [Hin Hb]. simpl.
    assert (Hg : get hp k = hl).
    { unfold get. rewrite (In_lookup _ _ _ Hn Hin). reflexivity. }
    split.
    + unfold keys. change k with (fst (k, hl)). apply in_map. exact Hin.
    + rewrite Hg. apply free_hospitalb_spec. exact Hb.
  - intros (Hk & Hb). exists (h, get hp h). split; [reflexivity|].
    apply filter_In. split.
    + apply lookup_In. apply get_lookup. exact Hk.
    + apply free_hospitalb_spec. exact Hb.
Qed.

(* ===================================================================== *)
(** ** stable_marriage: the first proposal on inputs that do not match *)
(* ===================================================================== *)

Lemma index_Some_init {V : Type} `{EqDec V} (ks : list Player) (v : V) :
  index (Some v) (values (map (fun k => (k, @None V)) ks)) = None.
Proof.
  induction ks as [|k ks IH]; simpl; [reflexivity|].
  destruct (eq_dec (Some v) None) as [e|_]; [discriminate|].
  rewrite IH. reflexivity.
Qed.

Lemma partner_of_init r ks :
  partner_of r (map (fun k => (k, None)) ks) = None.
Proof. unfold partner_of. rewrite index_Some_init. reflexivity. Qed.

(** The first iteration, up to the reading of the reviewer's list. *)
Lemma sm_body_first s l' sp rp r :
  sm_body (sm_init ((s, r :: l') :: sp) rp) =
  (rp' <- gets reviewer_prefs ;;
   rl <- getitem rp' r ;;
   match index s rl with
   | None => raise NotInList
   | Some idx =>
       for_each (skipn (idx + 1) rl) (fun successor =>
         reviewer_prefs_remove r successor ;;;
         suitor_prefs_remove successor r)
   end)
    (mk_sm_state ((s, r :: l') :: sp) rp (keys sp)
       ((s, Some r) :: map (fun k => (k, None)) (keys sp))).
Proof.
  set (rhs := (rp' <- gets reviewer_prefs ;; _) _).
  unfold sm_body, sm_init. cbn [keys map fst].
  bind_pure. bind_pure.
  bind_step ltac:(apply getitem_Ok; simpl; destruct (eq_dec s s);
                  [reflexivity | congruence]).
  bind_pure.
  bind_step ltac:(apply sm_displace_eq).
  change ((s, None) :: map (fun s0 => (s0, None)) (map fst sp))
    with (map (fun k => (k, @None Player)) (s :: keys sp)).
  rewrite partner_of_init.
  bind_pure. cbn [map dict_set]. destruct (eq_dec s s); [|congruence].
  reflexivity.
Qed.

Lemma stable_marriage_first_error fuel s l' sp rp r e :
  (rp' <- gets reviewer_prefs ;;
   rl <- getitem rp' r ;;
   match index s rl with
   | None => raise NotInList
   | Some idx =>
       for_each (skipn (idx + 1) rl) (fun successor =>
         reviewer_prefs_remove r successor ;;;
         suitor_prefs_remove successor r)
   end)
    (mk_sm_state ((s, r :: l') :: sp) rp (keys sp)
       ((s, Some r) :: map (fun k => (k, None)) (keys sp)))
  = (mk_sm_state ((s, r :: l') :: sp) rp (keys sp)
       ((s, Some r) :: map (fun k => (k, None)) (keys sp)), Raise e) ->
  stable_marriage (S fuel) ((s, r :: l') :: sp) rp "suitor"
  = (((s, r :: l') :: sp, rp), Raise e).
Proof.
  intros E. unfold stable_marriage.
  destruct (string_dec "suitor" "reviewer") as [X|_]; [discriminate|].
  assert (L : sm_loop (S fuel) (sm_init ((s, r :: l') :: sp) rp)
              = (mk_sm_state ((s, r :: l') :: sp) rp (keys sp)
                   ((s, Some r) :: map (fun k => (k, None)) (keys sp)),
                 Raise e)).
  { unfold sm_loop. simpl while. cbv beta.
    replace (nonempty (suitors (sm_init ((s, r :: l') :: sp) rp))) with true
      by reflexivity.
    apply bind_Raise. rewrite sm_body_first. exact E. }
  rewrite L. reflexivity.
Qed.

(* ===================================================================== *)
(** ** stable_marriage and the HR solvers on the same instance *)
(* ===================================================================== *)

Lemma lookup_map_keys {V : Type} (f : Player -> V) ks k :
  lookup k (map (fun x => (x, f x)) ks)
  = if in_dec string_dec k ks then Some (f k) else None.
Proof.
  induction ks as [|k' ks IH]; simpl; [reflexivity|].
  destruct (eq_dec k k') as [->|n].
  - destruct (string_dec k' k'); [reflexivity | congruence].
  - rewrite IH. destruct (string_dec k' k); [congruence|].
    destruct (in_dec string_dec k ks); reflexivity.
Qed.

Lemma keys_map_keys {V : Type} (f : Player -> V) ks :
  keys (map (fun x => (x, f x)) ks) = ks.
Proof. unfold keys. rewrite map_map. simpl. apply map_id. Qed.

Lemma values_map_keys {V : Type} (f : Player -> V) ks :
  values (map (fun x => (x, f x)) ks) = map f ks.
Proof. unfold values. rewrite map_map. reflexivity. Qed.

Lemma length_le_1 {A : Type} (l : list A) :
  NoDup l -> (forall x y, In x l -> In y l -> x = y) -> List.length l <= 1.
Proof.
  destruct l as [|a [|b l]]; simpl; intros Hn Heq; try lia.
  exfalso. apply NoDup_cons_iff in Hn. destruct Hn as [Ha _].
  apply Ha. rewrite (Heq a b); simpl; auto.
Qed.

Lemma length_le_1_eq {A : Type} (l : list A) x y :
  List.length l <= 1 -> In x l -> In y l -> x = y.
Proof.
  destruct l as [|a [|b l]]; simpl; intros Hl Hx Hy; [destruct Hx | | lia].
  destruct Hx as [<-|[]]. destruct Hy as [<-|[]]. reflexivity.
Qed.

(** The sequences of an SM matching. *)
Lemma In_as_sequences hp (m : sm_matching) r h :
  NoDup (keys m) ->
  (In r (get (as_sequences hp m) h)
   <-> In h (keys hp) /\ lookup r m = Some (Some h)).
Proof.
  intros Hn. unfold get, as_sequences. rewrite lookup_map_keys.
  destruct (in_dec string_dec h (keys hp)) as [Hh|Hh];
    [|simpl; tauto].
  rewrite in_map_iff. split.
  - intros ([k v] & <- & Hin). apply filter_In in Hin.
    destruct Hin as [Hin Hv]. simpl. split; [exact Hh|].
    destruct (eq_dec v (Some h)) as [->|]; [|discriminate].
    apply In_lookup; assumption.
  - intros [_ Hl]. exists (r, Some h). split; [reflexivity|].
    apply filter_In. split; [apply lookup_In; exact Hl|].
    destruct (eq_dec (Some h) (Some h)); congruence.
Qed.

Lemma NoDup_as_sequences hp (m : sm_matching) h :
  NoDup (keys m) -> NoDup (get (as_sequences hp m) h).
Proof.
  intros Hn. unfold get, as_sequences. rewrite lookup_map_keys.
  destruct (in_dec string_dec h (keys hp)); [|constructor].
  eapply subseq_NoDup; [apply subseq_map_filter | exact Hn].
Qed.

(** The hospital of a resident in an HR matching. *)
Lemma hospital_of_Some (m : hr_matching) r h :
  NoDup (keys m) -> hospital_of m r = Some h -> In r (get m h).
Proof.
  intros Hn Hh. unfold hospital_of in Hh. apply hd_error_In in Hh.
  apply in_map_iff in Hh. destruct Hh as ([k l] & <- & Hin).
  apply filter_In in Hin. destruct Hin as [Hin Hm]. simpl.
  unfold get. rewrite (In_lookup _ _ _ Hn Hin). apply mem_In. exact Hm.
Qed.

Lemma hospital_of_In (m : hr_matching) r h :
  NoDup (keys m) ->
  (forall a b, In r (get m a) -> In r (get m b) -> a = b) ->
  In r (get m h) -> hospital_of m r = Some h.
Proof.
  intros Hn Honce Hin.
  assert (Hf : In (h, get m h) (filter (fun '(_, l) => mem r l) m)).
  { apply filter_In. split; [eapply get_In; eauto | apply mem_In; exact Hin]. }
  destruct (hospital_of m r) as [h2|] eqn:E.
  - f_equal. apply Honce; [|exact Hin]. apply hospital_of_Some; assumption.
  - unfold hospital_of in E.
    destruct (filter (fun '(_, l) => mem r l) m); [destruct Hf | discriminate].
Qed.

Lemma lookup_as_partners rp (m : hr_matching) r v :
  lookup r (as_partners rp m) = Some v <->
  In r (keys rp) /\ v = hospital_of m r.
Proof.
  unfold as_partners. rewrite lookup_map_keys.
  destruct (in_dec string_dec r (keys rp)); split.
  - intros [= <-]. auto.
  - intros [_ ->]. reflexivity.
  - discriminate.
  - tauto.
Qed.

(** The sequences of an SM matching of the hospitals. *)
Lemma lookup_as_singletons (m : sm_matching) h :
  lookup h (as_singletons m)
  = option_map (fun v => match v with Some r => [r] | None => [] end)
               (lookup h m).
Proof.
  induction m as [|[k v] m IH]; simpl; [reflexivity|].
  destruct (eq_dec h k); [reflexivity | exact IH].
Qed.

Lemma keys_as_singletons (m : sm_matching) : keys (as_singletons m) = keys m.
Proof.
  unfold keys, as_singletons. rewrite map_map. apply map_ext.
  intros [k v]. reflexivity.
Qed.

Lemma In_as_singletons (m : sm_matching) r h :
  In r (get (as_singletons m) h) <-> lookup h m = Some (Some r).
Proof.
  unfold get. rewrite lookup_as_singletons.
  destruct (lookup h m) as [[x|]|]; simpl; split; try tauto; try discriminate.
  - intros [->|[]]. reflexivity.
  - intros [= ->]. auto.
Qed.

Lemma length_as_singletons (m : sm_matching) h :
  List.length (get (as_singletons m) h) <= 1.
Proof.
  unfold get. rewrite lookup_as_singletons.
  destruct (lookup h m) as [[x|]|]; simpl; lia.
Qed.

Lemma NoDup_as_singletons (m : sm_matching) h :
  NoDup (get (as_singletons m) h).
Proof.
  unfold get. rewrite lookup_as_singletons.
  destruct (lookup h m) as [[x|]|]; simpl; repeat constructor. simpl. tauto.
Qed.

Lemma lookup_as_holders hp (m : hr_matching) h v :
  lookup h (as_holders hp m) = Some v <->
  In h (keys hp) /\ v = hd_error (get m h).
Proof.
  unfold as_holders. rewrite lookup_map_keys.
  destruct (in_dec string_dec h (keys hp)); split.
  - intros [= <-]. auto.
  - intros [_ ->]. reflexivity.
  - discriminate.
  - tauto.
Qed.

(** Sequences of at most one element, one after the other. *)
Lemma flat_map_NoDup {A B : Type} (f : A -> list B) ks :
  NoDup ks -> (forall k, NoDup (f k)) ->
  (forall x a b, In x (f a) -> In x (f b) -> a = b) ->
  NoDup (flat_map f ks).
Proof.
  intros Hn Hf Honce. induction Hn as [|k ks Hk Hn IH]; simpl; [constructor|].
  apply NoDup_app; [apply Hf | exact IH |].
  intros x Hx Hin. apply in_flat_map in Hin. destruct Hin as (k' & Hk' & Hx').
  apply Hk. rewrite (Honce x k k'); assumption.
Qed.

Lemma flat_map_short {A B : Type} (f : A -> list B) ks :
  (forall k, In k ks -> List.length (f k) <= 1) ->
  List.length (flat_map f ks) <= List.length ks /\
  (forall h, In h ks -> f h = [] ->
             List.length (flat_map f ks) < List.length ks) /\
  (List.length (flat_map f ks) < List.length ks ->
   exists h, In h ks /\ f h = []).
Proof.
  induction ks as [|k ks IH]; intros Hle.
  - simpl. split; [lia|]. split; [intros h []|lia].
  - destruct IH as (IH1 & IH2 & IH3); [intros; apply Hle; simpl; auto|].
    pose proof (Hle k (or_introl eq_refl)) as Hk.
    simpl. rewrite length_app. split; [lia|]. split.
    + intros h [<-|Hh] E.
      * rewrite E. simpl. lia.
      * pose proof (IH2 h Hh E). lia.
    + intros Hlt. destruct (f k) as [|x l] eqn:E.
      * exists k. auto.
      * destruct IH3 as (h & Hh & Eh); [simpl in *; lia|]. exists h. auto.
Qed.

Section SameInstance.
Variables rp hp : prefs.
Variable capacities : capacities_t.
Hypothesis SI : sm_instance rp hp.
Hypothesis Hone : forall h, In h (keys hp) -> lookup h capacities = Some 1%Z.

Lemma cap_one h : In h (keys hp) -> cap capacities h = 1%Z.
Proof. intros Hh. unfold cap. rewrite (Hone h Hh). reflexivity. Qed.

Lemma one_each_instance : hr_instance hp rp capacities.
Proof.
  constructor; [apply (smi_consistent SI)|]. intros h Hh. split.
  - apply lookup_In_keys. rewrite (Hone h Hh). eauto.
  - rewrite (cap_one _ Hh). lia.
Qed.

(** A stable bijection is a stable matching of the HR instance. *)
Lemma sm_as_hr (m : sm_matching) :
  bijection rp hp m -> stable rp hp m ->
  hr_stable_matching hp rp capacities (as_sequences hp m).
Proof.
  intros Bij Stab. pose proof (smi_consistent SI) as C.
  assert (Hn : NoDup (keys m)).
  { destruct Bij as (-> & N & _). exact N. }
  constructor; [constructor|..].
  - unfold as_sequences. apply keys_map_keys.
  - intros r h Hin. apply (In_as_sequences hp) in Hin; [|exact Hn].
    destruct Hin as [Hh Hl].
    assert (Hacc : In h (get rp r)).
    { apply (smi_complete SI); [eapply bijection_key; eauto | exact Hh]. }
    split; [apply (cons_mutual C); exact Hacc | exact Hacc].
  - intros h. apply NoDup_as_sequences. exact Hn.
  - intros r h h' H1 H2.
    apply (In_as_sequences hp) in H1; [|exact Hn].
    apply (In_as_sequences hp) in H2; [|exact Hn]. destruct H1, H2. congruence.
  - intros h Hh. rewrite (cap_one _ Hh).
    assert (List.length (get (as_sequences hp m) h) <= 1); [|lia].
    apply length_le_1; [apply NoDup_as_sequences; exact Hn|].
    intros x y Hx Hy.
    apply (In_as_sequences hp) in Hx; [|exact Hn].
    apply (In_as_sequences hp) in Hy; [|exact Hn].
    destruct Hx as [_ Hx]. destruct Hy as [_ Hy].
    eapply bijection_inj; eauto.
  - intros r h (Hh & Hr & Hres & Hhosp).
    assert (Hrk : In r (keys rp)) by (eapply get_nonempty_key; eauto).
    assert (Hhk : In h (keys hp)) by (eapply get_nonempty_key; eauto).
    destruct (bijection_partner r Bij Hrk) as (h' & Hl & Hh').
    assert (Hp : prefers (get rp r) h h').
    { apply Hres. apply In_as_sequences; auto. }
    (* [h] has a partner, so it has no room *)
    assert (Hsur : exists r', lookup r' m = Some (Some h)).
    { destruct Bij as (_ & _ & _ & Perm). apply values_lookup; [|exact Hn].
      eapply Permutation_in; [apply Permutation_sym; exact Perm|].
      apply in_map. exact Hhk. }
    destruct Hsur as [r1 Hl1].
    destruct Hhosp as [Hroom|(r' & Hr' & Hp')].
    + rewrite (cap_one _ Hhk) in Hroom.
      assert (Hin1 : In r1 (get (as_sequences hp m) h))
        by (apply In_as_sequences; auto).
      destruct (get (as_sequences hp m) h); [destruct Hin1 | simpl in Hroom; lia].
    + apply (In_as_sequences hp) in Hr'; [|exact Hn]. destruct Hr' as [_ Hr'].
      apply (Stab r h). exists h', r'. auto.
Qed.

(** A stable matching of the HR instance that has every resident is a stable
    bijection. *)
Lemma hr_as_sm (m : hr_matching) :
  hr_stable_matching hp rp capacities m ->
  (forall r, In r (keys rp) -> exists h, In r (get m h)) ->
  bijection rp hp (as_partners rp m) /\ stable rp hp (as_partners rp m).
Proof.
  intros [A Cp St] Hall. pose proof (smi_consistent SI) as C.
  assert (Hn : NoDup (keys m)).
  { rewrite (hra_keys A). apply (cons_keys_r C). }
  assert (Hof : forall r h, In r (get m h) -> hospital_of m r = Some h).
  { intros r h Hin. apply hospital_of_In; [exact Hn | | exact Hin].
    intros a b. apply (hra_once A). }
  assert (Hkey : forall r h, In r (get m h) -> In h (keys hp)).
  { intros r h Hin. rewrite <- (hra_keys A). eapply get_nonempty_key; eauto. }
  split.
  - split; [apply keys_map_keys|]. split; [apply (cons_keys_l C)|].
    split; [apply (cons_keys_r C)|].
    unfold as_partners. rewrite values_map_keys.
    apply NoDup_Permutation_bis.
    + apply NoDup_map_NoDup_ForallPairs; [|apply (cons_keys_l C)].
      intros x y Hx Hy E.
      destruct (Hall x Hx) as [h Hh]. pose proof (Hof _ _ Hh) as E1.
      rewrite E1 in E. symmetry in E.
      apply hospital_of_Some in E; [|exact Hn].
      pose proof (Cp h (Hkey _ _ Hh)) as Hc. rewrite (cap_one _ (Hkey _ _ Hh)) in Hc.
      apply (length_le_1_eq (get m h)); [lia | assumption | assumption].
    + rewrite !length_map, !length_keys. rewrite (smi_sizes SI). lia.
    + intros v Hv. apply in_map_iff in Hv. destruct Hv as (r & <- & Hr).
      destruct (Hall r Hr) as [h Hh]. rewrite (Hof _ _ Hh).
      apply in_map. eapply Hkey; eauto.
  - intros s r (r' & s' & Hs & Hs' & Hp & Hp').
    apply lookup_as_partners in Hs. destruct Hs as [_ Hs].
    apply lookup_as_partners in Hs'. destruct Hs' as [_ Hs'].
    symmetry in Hs, Hs'.
    apply hospital_of_Some in Hs; [|exact Hn].
    apply hospital_of_Some in Hs'; [|exact Hn].
    apply (St s r). split; [apply (prefers_In Hp)|].
    split; [apply (prefers_In Hp')|]. split.
    + intros h' Hh'. replace h' with r'; [exact Hp|].
      eapply (hra_once A); eauto.
    + right. exists s'. auto.
Qed.

(** With one place each and as many hospitals as residents, a stable
    matching leaves nobody out. *)
Lemma one_each_perfect (m : hr_matching) :
  hr_stable_matching hp rp capacities m ->
  (forall r, In r (keys rp) -> exists h, In r (get m h)) /\
  (forall h, In h (keys hp) -> exists r, get m h = [r]).
Proof.
  intros [A Cp St]. pose proof (smi_consistent SI) as C.
  set (matched := flat_map (get m) (keys hp)).
  assert (Hone1 : forall h, In h (keys hp) -> List.length (get m h) <= 1).
  { intros h Hh. pose proof (Cp h Hh) as Hc. rewrite (cap_one _ Hh) in Hc. lia. }
  destruct (flat_map_short (get m) (keys hp) Hone1) as (Hle & Hshort & Hempty).
  fold matched in Hle, Hshort, Hempty.
  assert (Nm : NoDup matched).
  { apply flat_map_NoDup; [apply (cons_keys_r C) | apply (hra_nodup A) |].
    intros x a b. apply (hra_once A). }
  assert (Hin : forall r, In r matched <-> exists h, In r (get m h)).
  { intros r. unfold matched. rewrite in_flat_map. split.
    - intros (h & _ & Hr). eauto.
    - intros (h & Hr). exists h. split; [|exact Hr].
      rewrite <- (hra_keys A). eapply get_nonempty_key; eauto. }
  assert (Hsub : incl matched (keys rp)).
  { intros r Hr. apply Hin in Hr. destruct Hr as [h Hr].
    destruct (hra_acceptable A _ _ Hr) as [_ Hacc].
    eapply get_nonempty_key; eauto. }
  assert (Hsz : List.length (keys rp) = List.length (keys hp)).
  { rewrite !length_keys. apply (smi_sizes SI). }
  assert (Hall : forall r, In r (keys rp) -> In r matched).
  { intros r Hr. destruct (in_dec string_dec r matched) as [Hm|Hm]; [exact Hm|].
    exfalso.
    assert (Hlen : List.length (r :: matched) <= List.length (keys rp)).
    { apply NoDup_incl_length; [constructor; assumption|].
      intros x [<-|Hx]; [exact Hr | apply Hsub; exact Hx]. }
    simpl in Hlen. destruct Hempty as (h & Hh & Eh); [lia|].
    apply (St r h). unfold hr_blocking_pair.
    assert (Hacc : In h (get rp r)) by (apply (smi_complete SI); assumption).
    split; [exact Hacc|]. split; [apply (cons_mutual C); exact Hacc|].
    split.
    - intros h' Hr'. exfalso. apply Hm. apply Hin. eauto.
    - left. rewrite Eh, (cap_one _ Hh). simpl. lia. }
  split.
  - intros r Hr. apply Hin. apply Hall. exact Hr.
  - intros h Hh.
    assert (Hge : List.length (keys rp) <= List.length matched).
    { apply NoDup_incl_length; [apply (cons_keys_l C) | exact Hall]. }
    pose proof (Hone1 h Hh) as Hl.
    destruct (get m h) as [|r [|r2 l]] eqn:E; [|eauto|simpl in Hl; lia].
    pose proof (Hshort h Hh E). lia.
Qed.

(** A stable bijection from the hospitals to the residents is a stable
    matching of the HR instance. *)
Lemma sm_as_hr_hospitals (m : sm_matching) :
  bijection hp rp m -> stable hp rp m ->
  hr_stable_matching hp rp capacities (as_singletons m).
Proof.
  intros Bij Stab. pose proof (smi_consistent SI) as C.
  assert (Hn : NoDup (keys m)).
  { destruct Bij as (-> & N & _). exact N. }
  assert (Hres : forall h r, lookup h m = Some (Some r) -> In r (keys rp)).
  { intros h r Hl. destruct Bij as (_ & _ & _ & Perm).
    assert (X : In (Some r) (map Some (keys rp))).
    { eapply Permutation_in; [exact Perm|].
      apply lookup_In in Hl. unfold values. apply in_map_iff.
      exists (h, Some r). auto. }
    apply in_map_iff in X. destruct X as (x & [= ->] & Hx). exact Hx. }
  constructor; [constructor|..].
  - rewrite keys_as_singletons. destruct Bij as (-> & _). reflexivity.
  - intros r h Hin. apply In_as_singletons in Hin.
    assert (Hacc : In h (get rp r)).
    { apply (smi_complete SI); [eapply Hres; eauto|].
      eapply bijection_key; eauto. }
    split; [apply (cons_mutual C); exact Hacc | exact Hacc].
  - intros h. apply NoDup_as_singletons.
  - intros r h h' H1 H2. apply In_as_singletons in H1, H2.
    eapply bijection_inj; eauto.
  - intros h Hh. rewrite (cap_one _ Hh).
    pose proof (length_as_singletons m h). lia.
  - intros r h (Hh & Hr & Hbest & Hhosp).
    assert (Hrk : In r (keys rp)) by (eapply get_nonempty_key; eauto).
    assert (Hhk : In h (keys hp)) by (eapply get_nonempty_key; eauto).
    destruct (@bijection_partner _ _ _ h Bij Hhk) as (r0 & Hl0 & _).
    assert (Hsur : exists h1, lookup h1 m = Some (Some r)).
    { destruct Bij as (_ & _ & _ & Perm). apply values_lookup; [|exact Hn].
      eapply Permutation_in; [apply Permutation_sym; exact Perm|].
      apply in_map. exact Hrk. }
    destruct Hsur as [h1 Hl1].
    assert (Hp : prefers (get rp r) h h1).
    { apply Hbest. apply In_as_singletons. exact Hl1. }
    assert (Hp0 : prefers (get hp h) r r0).
    { destruct Hhosp as [Hroom|(r' & Hr' & Hp')].
      - rewrite (cap_one _ Hhk) in Hroom.
        assert (Hin0 : In r0 (get (as_singletons m) h))
          by (apply In_as_singletons; exact Hl0).
        destruct (get (as_singletons m) h);
          [destruct Hin0 | simpl in Hroom; lia].
      - apply In_as_singletons in Hr'. congruence. }
    apply (Stab h r). exists r0, h1. auto.
Qed.

(** A stable matching of the HR instance is a stable bijection from the
    hospitals to the residents. *)
Lemma hr_as_sm_hospitals (m : hr_matching) :
  hr_stable_matching hp rp capacities m ->
  bijection hp rp (as_holders hp m) /\ stable hp rp (as_holders hp m).
Proof.
  intros SM. destruct (one_each_perfect SM) as [_ Hfull].
  destruct SM as [A Cp St]. pose proof (smi_consistent SI) as C.
  split.
  - split; [apply keys_map_keys|]. split; [apply (cons_keys_r C)|].
    split; [apply (cons_keys_l C)|].
    unfold as_holders. rewrite values_map_keys.
    apply NoDup_Permutation_bis.
    + apply NoDup_map_NoDup_ForallPairs; [|apply (cons_keys_r C)].
      intros x y Hx Hy E.
      destruct (Hfull x Hx) as [r Ex]. destruct (Hfull y Hy) as [r' Ey].
      rewrite Ex, Ey in E. injection E as <-.
      apply (hra_once A r); [rewrite Ex | rewrite Ey]; simpl; auto.
    + rewrite !length_map, !length_keys. rewrite (smi_sizes SI). lia.
    + intros v Hv. apply in_map_iff in Hv. destruct Hv as (h & <- & Hh).
      destruct (Hfull h Hh) as [r Eh]. rewrite Eh. simpl.
      apply in_map.
      assert (Hin : In r (get m h)) by (rewrite Eh; simpl; auto).
      destruct (hra_acceptable A _ _ Hin) as [_ Hacc].
      eapply get_nonempty_key; eauto.
  - intros h r (r' & h' & Hl & Hl' & Hp & Hp').
    apply lookup_as_holders in Hl. destruct Hl as [_ Hl].
    apply lookup_as_holders in Hl'. destruct Hl' as [_ Hl'].
    symmetry in Hl, Hl'. apply hd_error_In in Hl, Hl'.
    apply (St r h). split; [apply (prefers_In Hp')|].
    split; [apply (prefers_In Hp)|]. split.
    + intros h2 Hh2. replace h2 with h'; [exact Hp'|].
      eapply (hra_once A); eauto.
    + right. exists r'. auto.
Qed.
End SameInstance.

(* ===================================================================== *)
(** ** More properties of stable_marriage *)
(* ===================================================================== *)

(** X1: the matching [stable_marriage] returns on a complete instance is
    optimal for the proposers (the suitors, or the reviewers when [optimal]
    is "reviewer"): whatever stable bijection [m'] there is between the two
    sides, every proposer's partner is the one [m'] gives them or one they
    rank before it. *)
Theorem stable_marriage_proposer_optimal sp rp optimal fuel :
  sm_instance sp rp -> sm_fuel sp rp <= fuel ->
  exists store m,
    stable_marriage fuel sp rp optimal = (store, Ok m) /\
    forall m',
      bijection (proposers sp rp optimal) (acceptors sp rp optimal) m' ->
      stable (proposers sp rp optimal) (acceptors sp rp optimal) m' ->
      forall s r r',
        lookup s m = Some (Some r) -> lookup s m' = Some (Some r') ->
        r = r' \/ prefers (get (proposers sp rp optimal) s) r r'.
Proof.
  intros SI Hfuel.
  destruct (stable_marriage_optimal_total optimal SI Hfuel)
    as (st & E & I & _ & O).
  eexists. exists (matching st). split; [exact E|].
  intros m' Bij Stab s r r' Hm Hm'.
  eapply sm_inv_optimal; eauto. apply sm_instance_roles. assumption.
Qed.

Lemma stable_marriage_proposer_optimal_witness :
  sm_instance ex_suitors ex_reviewers /\
  sm_fuel ex_suitors ex_reviewers <= 40 /\
  exists store m,
    stable_marriage 40 ex_suitors ex_reviewers "suitor" = (store, Ok m) /\
    forall m',
      bijection (proposers ex_suitors ex_reviewers "suitor")
        (acceptors ex_suitors ex_reviewers "suitor") m' ->
      stable (proposers ex_suitors ex_reviewers "suitor")
        (acceptors ex_suitors ex_reviewers "suitor") m' ->
      forall s r r',
        lookup s m = Some (Some r) -> lookup s m' = Some (Some r') ->
        r = r' \/
        prefers (get (proposers ex_suitors ex_reviewers "suitor") s) r r'.
Proof.
  assert (SI : sm_instance ex_suitors ex_reviewers)
    by (apply sm_instanceb_sound; vm_compute; reflexivity).
  assert (F : sm_fuel ex_suitors ex_reviewers <= 40)
    by (vm_compute; lia).
  split; [exact SI|]. split; [exact F|].
  exact (stable_marriage_proposer_optimal "suitor" SI F).
Defined.

(** X2: and it is the worst stable matching for the acceptors: whatever
    stable bijection [m'] there is, the proposer an acceptor is given by
    [stable_marriage] is the one [m'] gives them or one they rank after
    it. *)
Theorem stable_marriage_acceptor_pessimal sp rp optimal fuel :
  sm_instance sp rp -> sm_fuel sp rp <= fuel ->
  exists store m,
    stable_marriage fuel sp rp optimal = (store, Ok m) /\
    forall m',
      bijection (proposers sp rp optimal) (acceptors sp rp optimal) m' ->
      stable (proposers sp rp optimal) (acceptors sp rp optimal) m' ->
      forall s s' r,
        lookup s m = Some (Some r) -> lookup s' m' = Some (Some r) ->
        s = s' \/ prefers (get (acceptors sp rp optimal) r) s' s.
Proof.
  intros SI Hfuel.
  destruct (stable_marriage_optimal_total optimal SI Hfuel)
    as (st & E & I & _ & O).
  eexists. exists (matching st). split; [exact E|].
  intros m' Bij Stab s s' r Hm Hm'.
  eapply sm_inv_pessimal; eauto. apply sm_instance_roles. assumption.
Qed.

Lemma stable_marriage_acceptor_pessimal_witness :
  sm_instance ex_suitors ex_reviewers /\
  sm_fuel ex_suitors ex_reviewers <= 40 /\
  exists store m,
    stable_marriage 40 ex_suitors ex_reviewers "reviewer" = (store, Ok m) /\
    forall m',
      bijection (proposers ex_suitors ex_reviewers "reviewer")
        (acceptors ex_suitors ex_reviewers "reviewer") m' ->
      stable (proposers ex_suitors ex_reviewers "reviewer")
        (acceptors ex_suitors ex_reviewers "reviewer") m' ->
      forall s s' r,
        lookup s m = Some (Some r) -> lookup s' m' = Some (Some r) ->
        s = s' \/
        prefers (get (acceptors ex_suitors ex_reviewers "reviewer") r) s' s.
Proof.
  assert (SI : sm_instance ex_suitors ex_reviewers)
    by (apply sm_instanceb_sound; vm_compute; reflexivity).
  assert (F : sm_fuel ex_suitors ex_reviewers <= 40)
    by (vm_compute; lia).
  split; [exact SI|]. split; [exact F|].
  exact (stable_marriage_acceptor_pessimal "reviewer" SI F).
Defined.

(** X3: with complete strict lists and at most as many proposers as
    acceptors, [stable_marriage] returns a matching that gives every
    proposer an acceptor, nobody the same one, and that no pair blocks, the
    pairs of an acceptor left without a partner included. *)
Theorem stable_marriage_spare_acceptors sp rp optimal fuel :
  sm_room (proposers sp rp optimal) (acceptors sp rp optimal) ->
  sm_fuel sp rp <= fuel ->
  exists store m,
    stable_marriage fuel sp rp optimal = (store, Ok m) /\
    keys m = keys (proposers sp rp optimal) /\
    (forall s, In s (keys (proposers sp rp optimal)) ->
       exists r, lookup s m = Some (Some r)
                 /\ In r (keys (acceptors sp rp optimal))) /\
    (forall s s' r, lookup s m = Some (Some r) ->
                    lookup s' m = Some (Some r) -> s = s') /\
    (forall s r,
       ~ blocking_pair_open (proposers sp rp optimal)
           (acceptors sp rp optimal) m s r).
Proof.
  intros SR Hfuel. pose proof (smr_consistent SR) as C.
  destruct (sm_loop_room SR (fuel := fuel)) as (st & Hl & I & Hq).
  { pose proof (sm_fuel_roles sp rp optimal). lia. }
  eexists. exists (matching st).
  split; [rewrite (stable_marriage_loop _ _ _ _ Hl); reflexivity|].
  split; [apply (smv_keys_m I)|]. split; [|split].
  - intros s Hs. eapply sm_final_partner; eauto.
  - intros s s' r H1 H2. eapply sm_inv_injective; eauto.
  - intros s r. apply sm_inv_stable_open; assumption.
Qed.

Lemma stable_marriage_spare_acceptors_witness :
  sm_room (proposers crowd_reviewers crowd_suitors "suitor")
    (acceptors crowd_reviewers crowd_suitors "suitor") /\
  sm_fuel crowd_reviewers crowd_suitors <= 40 /\
  exists store m,
    stable_marriage 40 crowd_reviewers crowd_suitors "suitor"
    = (store, Ok m) /\
    keys m = keys (proposers crowd_reviewers crowd_suitors "suitor") /\
    (forall s, In s (keys (proposers crowd_reviewers crowd_suitors "suitor")) ->
       exists r, lookup s m = Some (Some r)
                 /\ In r (keys (acceptors crowd_reviewers crowd_suitors
                                  "suitor"))) /\
    (forall s s' r, lookup s m = Some (Some r) ->
                    lookup s' m = Some (Some r) -> s = s') /\
    (forall s r,
       ~ blocking_pair_open (proposers crowd_reviewers crowd_suitors "suitor")
           (acceptors crowd_reviewers crowd_suitors "suitor") m s r).
Proof.
  assert (SR : sm_room (proposers crowd_reviewers crowd_suitors "suitor")
                 (acceptors crowd_reviewers crowd_suitors "suitor"))
    by (apply sm_roomb_sound; vm_compute; reflexivity).
  assert (F : sm_fuel crowd_reviewers crowd_suitors <= 40)
    by (vm_compute; lia).
  split; [exact SR|]. split; [exact F|].
  exact (stable_marriage_spare_acceptors "suitor" SR F).
Defined.

(** X4: with consistent lists and more proposers than acceptors,
    [stable_marriage] never returns a partial matching: it raises the
    [IndexError] of a proposer whose list has become empty. *)
Theorem stable_marriage_too_many_proposers sp rp optimal fuel :
  consistent sp rp ->
  List.length (acceptors sp rp optimal)
  < List.length (proposers sp rp optimal) ->
  sm_fuel sp rp <= fuel ->
  exists store,
    stable_marriage fuel sp rp optimal = (store, Raise IndexError).
Proof.
  intros C Hsz Hfuel.
  destruct (@sm_loop_crowded (proposers sp rp optimal)
              (acceptors sp rp optimal) fuel) as (st & Hl).
  - apply consistent_roles. assumption.
  - assumption.
  - pose proof (sm_fuel_roles sp rp optimal). lia.
  - eexists. rewrite (stable_marriage_loop _ _ _ _ Hl). reflexivity.
Qed.

Lemma stable_marriage_too_many_proposers_witness :
  consistent crowd_suitors crowd_reviewers /\
  List.length (acceptors crowd_suitors crowd_reviewers "suitor")
  < List.length (proposers crowd_suitors crowd_reviewers "suitor") /\
  sm_fuel crowd_suitors crowd_reviewers <= 40 /\
  exists store,
    stable_marriage 40 crowd_suitors crowd_reviewers "suitor"
    = (store, Raise IndexError).
Proof.
  assert (C : consistent crowd_suitors crowd_reviewers)
    by (apply consistentb_sound; vm_compute; reflexivity).
  assert (S : List.length (acceptors crowd_suitors crowd_reviewers "suitor")
              < List.length (proposers crowd_suitors crowd_reviewers "suitor"))
    by (vm_compute; lia).
  assert (F : sm_fuel crowd_suitors crowd_reviewers <= 40)
    by (vm_compute; lia).
  split; [exact C|]. split; [exact S|]. split; [exact F|].
  exact (stable_marriage_too_many_proposers "suitor" C S F).
Defined.

(* ===================================================================== *)
(** ** More properties of the HR solvers *)
(* ===================================================================== *)

(** X5: on an HR instance, [hospital_resident] with [optimal] "resident"
    is [hr_resident_optimal] (the check passes and changes nothing), and the
    matching it returns is a matching of the instance (the residents of a
    sequence rank the hospital and are ranked by it, nobody is in two
    sequences or twice in one) that no pair blocks: there is no resident
    [r] and hospital [h] ranking each other such that [r] is unmatched or
    likes [h] better than their hospital, and [h] has room left or likes
    [r] better than one of its residents. *)
Theorem resident_optimal_matching_stable hp rp capacities fuel :
  hr_instance hp rp capacities -> res_fuel hp rp <= fuel ->
  exists st m,
    hr_resident_optimal fuel hp rp capacities = (st, Ok m) /\
    hospital_resident fuel hp rp capacities "resident" = (st, Ok m) /\
    hr_assignment hp rp m /\ hr_stable hp rp capacities m.
Proof.
  intros HI Hfuel.
  destruct (hr_resident_optimal_end HI Hfuel)
    as (st1 & st & I & K & _ & Hf & E & Em & _).
  exists st, (hr_match st). split; [exact E|]. split; [|split].
  - rewrite hospital_resident_dispatch by (exact (hr_instance_ranked HI)).
    destruct (string_dec "resident" "resident"); [exact E | congruence].
  - rewrite Em. eapply res_inv_assignment; [exact I | apply keys_sort_all | |].
    + intros h. rewrite get_sort_all. apply sort_by_rank_NoDup.
      apply (rsv_nodup I).
    + intros h x. apply sort_all_members.
  - rewrite Em. eapply res_inv_stable; eauto.
    + intros h x. apply sort_all_members.
    + intros h. apply sort_all_length.
Qed.

Lemma resident_optimal_matching_stable_witness :
  hr_instance test_hospitals test_residents test_capacities /\
  res_fuel test_hospitals test_residents <= 60 /\
  exists st m,
    hr_resident_optimal 60 test_hospitals test_residents test_capacities
    = (st, Ok m) /\
    hospital_resident 60 test_hospitals test_residents test_capacities
      "resident" = (st, Ok m) /\
    hr_assignment test_hospitals test_residents m /\
    hr_stable test_hospitals test_residents test_capacities m.
Proof.
  assert (HI : hr_instance test_hospitals test_residents test_capacities)
    by (apply hr_instanceb_sound; vm_compute; reflexivity).
  assert (F : res_fuel test_hospitals test_residents <= 60)
    by (vm_compute; lia).
  split; [exact HI|]. split; [exact F|].
  exact (resident_optimal_matching_stable HI F).
Defined.

(** X6: the matching of [hr_resident_optimal] is the best stable matching
    for the residents: whatever stable matching [m'] of the instance there
    is, a resident who has a hospital in [m'] is returned in the sequence of
    that hospital or of one they rank before it.  (So a resident the solver
    leaves without a hospital has none in any stable matching.) *)
Theorem resident_optimal_matching_best hp rp capacities fuel :
  hr_instance hp rp capacities -> res_fuel hp rp <= fuel ->
  exists st m,
    hr_resident_optimal fuel hp rp capacities = (st, Ok m) /\
    forall m', hr_stable_matching hp rp capacities m' ->
    forall r h', In r (get m' h') ->
      exists h, In r (get m h) /\ (h = h' \/ prefers (get rp r) h h').
Proof.
  intros HI Hfuel.
  destruct (hr_resident_optimal_end HI Hfuel)
    as (st1 & st & I & _ & O & Hf & E & Em & _).
  exists st, (hr_match st). split; [exact E|].
  intros m' SM r h' Hr.
  destruct (@res_inv_optimal hp rp capacities HI st1 m' r h' I O Hf SM Hr)
    as (h & Hh & Hp).
  exists h. split; [|exact Hp]. rewrite Em. apply sort_all_members. exact Hh.
Qed.

Lemma resident_optimal_matching_best_witness :
  hr_instance test_hospitals test_residents test_capacities /\
  res_fuel test_hospitals test_residents <= 60 /\
  exists st m,
    hr_resident_optimal 60 test_hospitals test_residents test_capacities
    = (st, Ok m) /\
    forall m',
      hr_stable_matching test_hospitals test_residents test_capacities m' ->
    forall r h', In r (get m' h') ->
      exists h, In r (get m h) /\
                (h = h' \/ prefers (get test_residents r) h h').
Proof.
  assert (HI : hr_instance test_hospitals test_residents test_capacities)
    by (apply hr_instanceb_sound; vm_compute; reflexivity).
  assert (F : res_fuel test_hospitals test_residents <= 60)
    by (vm_compute; lia).
  split; [exact HI|]. split; [exact F|].
  exact (resident_optimal_matching_best HI F).
Defined.

(** The names of the residents matter to [hr_hospital_optimal]: lines
    125-131 test the names themselves, so a hospital that has only a resident
    with an empty name left to propose to is not taken as free.  Here X has
    room for the resident it ranks, who ranks X, and is returned empty. *)
Example hospital_optimal_skips_empty_name :
  hr_instance nameless_hospitals nameless_residents nameless_capacities /\
  snd (hr_hospital_optimal 10 nameless_hospitals nameless_residents
         nameless_capacities) = Ok [("X", [])] /\
  hr_blocking_pair nameless_hospitals nameless_residents nameless_capacities
    [("X", [])] "" "X".
Proof.
  split; [apply hr_instanceb_sound; vm_compute; reflexivity|].
  split; [vm_compute; reflexivity|].
  unfold hr_blocking_pair.
  split; [vm_compute; tauto|]. split; [vm_compute; tauto|].
  split.
  - intros h' Hin. unfold get in Hin. simpl in Hin.
    destruct (eq_dec h' "X"); destruct Hin.
  - left. vm_compute. reflexivity.
Qed.

(** X7: on an HR instance whose residents all have a name that counts as
    true (no empty string), [hospital_resident] with [optimal] "hospital" is
    [hr_hospital_optimal], and the matching it returns is a matching of the
    instance that no pair blocks. *)
Theorem hospital_optimal_matching_stable hp rp capacities fuel :
  hr_instance hp rp capacities ->
  (forall r, In r (keys rp) -> truthy r = true) ->
  hosp_fuel hp <= fuel ->
  exists st m,
    hr_hospital_optimal fuel hp rp capacities = (st, Ok m) /\
    hospital_resident fuel hp rp capacities "hospital" = (st, Ok m) /\
    hr_assignment hp rp m /\ hr_stable hp rp capacities m.
Proof.
  intros HI Ht Hfuel.
  destruct (hr_hospital_optimal_end HI Hfuel) as (st & E & I & K & _ & Hf).
  exists st, (hr_match st). split; [exact E|]. split; [|split].
  - rewrite hospital_resident_dispatch by (exact (hr_instance_ranked HI)).
    destruct (string_dec "hospital" "resident"); [discriminate|].
    destruct (string_dec "hospital" "hospital"); [exact E | congruence].
  - eapply hosp_inv_assignment; eauto.
  - eapply hosp_inv_stable; eauto.
Qed.

Lemma hospital_optimal_matching_stable_witness :
  hr_instance test_hospitals test_residents test_capacities /\
  (forall r, In r (keys test_residents) -> truthy r = true) /\
  hosp_fuel test_hospitals <= 60 /\
  exists st m,
    hr_hospital_optimal 60 test_hospitals test_residents test_capacities
    = (st, Ok m) /\
    hospital_resident 60 test_hospitals test_residents test_capacities
      "hospital" = (st, Ok m) /\
    hr_assignment test_hospitals test_residents m /\
    hr_stable test_hospitals test_residents test_capacities m.
Proof.
  assert (HI : hr_instance test_hospitals test_residents test_capacities)
    by (apply hr_instanceb_sound; vm_compute; reflexivity).
  assert (T : forall r, In r (keys test_residents) -> truthy r = true).
  { intros r Hr. simpl in Hr.
    destruct Hr as [<-|[<-|[<-|[<-|[]]]]]; reflexivity. }
  assert (F : hosp_fuel test_hospitals <= 60) by (vm_compute; lia).
  split; [exact HI|]. split; [exact T|]. split; [exact F|].
  exact (hospital_optimal_matching_stable HI T F).
Defined.

(** X8: a hospital of capacity zero is not left empty by
    [hr_resident_optimal].  With consistent strict lists, capacities that
    are not negative, and a resident whose first choice has capacity zero,
    the call fails with the [ValueError] of [max] on an empty list (line
    101, after the resident has been appended and evicted), and so does
    [hospital_resident] with [optimal] "resident". *)
Theorem resident_optimal_zero_capacity hp rp capacities r0 h0 fuel :
  consistent rp hp ->
  (forall h, In h (keys hp) ->
     In h (keys capacities) /\ (0 <= cap capacities h)%Z) ->
  hd_error (get rp r0) = Some h0 -> cap capacities h0 = 0%Z ->
  res_fuel hp rp <= fuel ->
  exists st msg,
    hr_resident_optimal fuel hp rp capacities = (st, Raise (ValueError msg)) /\
    hospital_resident fuel hp rp capacities "resident"
    = (st, Raise (ValueError msg)).
Proof.
  intros C Hcaps Hh Hz Hfuel.
  destruct (@res_loop_zero hp rp capacities r0 h0 fuel C Hcaps Hh Hz)
    as (st & E); [unfold res_fuel in Hfuel; lia|].
  assert (E' : hr_resident_optimal fuel hp rp capacities
               = (st, Raise MaxEmpty)).
  { rewrite hr_resident_optimal_start. apply bind_Raise. exact E. }
  exists st. eexists. split; [exact E'|].
  rewrite hospital_resident_dispatch.
  - destruct (string_dec "resident" "resident"); [exact E' | congruence].
  - intros r h Hin. apply (cons_mutual C). exact Hin.
Qed.

Lemma resident_optimal_zero_capacity_witness :
  consistent shut_residents shut_hospitals /\
  (forall h, In h (keys shut_hospitals) ->
     In h (keys shut_capacities) /\ (0 <= cap shut_capacities h)%Z) /\
  hd_error (get shut_residents "A") = Some "X" /\
  cap shut_capacities "X" = 0%Z /\
  res_fuel shut_hospitals shut_residents <= 20 /\
  exists st msg,
    hr_resident_optimal 20 shut_hospitals shut_residents shut_capacities
    = (st, Raise (ValueError msg)) /\
    hospital_resident 20 shut_hospitals shut_residents shut_capacities
      "resident" = (st, Raise (ValueError msg)).
Proof.
  assert (C : consistent shut_residents shut_hospitals)
    by (apply consistentb_sound; vm_compute; reflexivity).
  assert (K : forall h, In h (keys shut_hospitals) ->
                In h (keys shut_capacities)
                /\ (0 <= cap shut_capacities h)%Z).
  { intros h Hh. simpl in Hh.
    destruct Hh as [<-|[<-|[]]]; (split; [simpl; tauto | vm_compute; discriminate]). }
  assert (H1 : hd_error (get shut_residents "A") = Some "X") by reflexivity.
  assert (H2 : cap shut_capacities "X" = 0%Z) by reflexivity.
  assert (F : res_fuel shut_hospitals shut_residents <= 20)
    by (vm_compute; lia).
  split; [exact C|]. split; [exact K|]. split; [exact H1|]. split; [exact H2|].
  split; [exact F|].
  exact (@resident_optimal_zero_capacity shut_hospitals shut_residents
           shut_capacities "A" "X" 20 C K H1 H2 F).
Defined.

(** X9: a negative capacity makes [hr_resident_optimal] loop for ever.  With
    consistent strict lists, no capacity zero, and a resident whose first
    choice has a negative capacity, that resident is appended and evicted
    again and again: whatever the number of iterations allowed, the loop has
    not ended. *)
Theorem resident_optimal_negative_capacity hp rp capacities r0 h0 fuel :
  consistent rp hp ->
  (forall h, In h (keys hp) ->
     In h (keys capacities) /\ cap capacities h <> 0%Z) ->
  hd_error (get rp r0) = Some h0 -> (cap capacities h0 < 0)%Z ->
  exists st, hr_resident_optimal fuel hp rp capacities = (st, OutOfFuel).
Proof.
  intros C Hcaps Hh Hz.
  destruct (@res_loop_negative hp rp capacities r0 h0 fuel C Hcaps Hh Hz)
    as (st & E).
  exists st. rewrite hr_resident_optimal_start. apply bind_OutOfFuel. exact E.
Qed.

Lemma resident_optimal_negative_capacity_witness :
  consistent shut_residents shut_hospitals /\
  (forall h, In h (keys shut_hospitals) ->
     In h (keys minus_capacities) /\ cap minus_capacities h <> 0%Z) /\
  hd_error (get shut_residents "A") = Some "X" /\
  (cap minus_capacities "X" < 0)%Z /\
  exists st,
    hr_resident_optimal 1000 shut_hospitals shut_residents minus_capacities
    = (st, OutOfFuel).
Proof.
  assert (C : consistent shut_residents shut_hospitals)
    by (apply consistentb_sound; vm_compute; reflexivity).
  assert (K : forall h, In h (keys shut_hospitals) ->
                In h (keys minus_capacities)
                /\ cap minus_capacities h <> 0%Z).
  { intros h Hh. simpl in Hh.
    destruct Hh as [<-|[<-|[]]]; (split; [simpl; tauto | vm_compute; discriminate]). }
  assert (H1 : hd_error (get shut_residents "A") = Some "X") by reflexivity.
  assert (H2 : (cap minus_capacities "X" < 0)%Z) by (vm_compute; reflexivity).
  split; [exact C|]. split; [exact K|]. split; [exact H1|]. split; [exact H2|].
  exact (@resident_optimal_negative_capacity shut_hospitals shut_residents
           minus_capacities "A" "X" 1000 C K H1 H2).
Defined.

(* ===================================================================== *)
(** ** The helpers, and inputs that do not match *)
(* ===================================================================== *)

(** X10: what [_check_inputs] does on any two dictionaries.  It never
    changes them.  It returns when every resident is in the list of every
    hospital they rank, and only then; otherwise it raises its [ValueError]
    for a resident who is missing from the list of a hospital they rank, or
    the [KeyError] of a hospital that a resident ranks and that has no
    list, whichever the loops meet first. *)
Theorem check_inputs_outcome {St : Type} hp rp (s : St) :
  (residents_ranked hp rp /\ _check_inputs hp rp s = (s, Ok tt))
  \/ (~ residents_ranked hp rp /\
      ((_check_inputs hp rp s = (s, Raise InputConsistencyError) /\
        exists r h, In h (get rp r) /\ In h (keys hp) /\ ~ In r (get hp h))
       \/ exists r h,
            _check_inputs hp rp s = (s, Raise (KeyError h)) /\
            In h (get rp r) /\ ~ In h (keys hp))).
Proof.
  destruct (check_residents_outcome hp rp s (keys rp) (fun r Hr => Hr))
    as [[Hall E]|[(r & h & Hin & Hk & Hn & E)|(r & h & Hin & Hk & E)]].
  - left. split; [|exact E]. intros r h Hh. apply Hall; [|exact Hh].
    eapply get_nonempty_key. exact Hh.
  - right. split; [intros R; apply Hn; apply R; exact Hin|].
    left. split; [exact E|]. exists r, h. auto.
  - right. split.
    + intros R. apply Hk. eapply get_nonempty_key. apply R. exact Hin.
    + right. exists r, h. auto.
Qed.

(** X11: [_get_worst_idx] on a hospital that has a list and a sequence.  It
    returns the position, in the hospital's list, of a resident of its
    sequence that no other resident of the sequence comes after in the list;
    when no resident of the sequence is in the list (an empty sequence, for
    one) it raises the [ValueError] of [max].  It changes nothing. *)
Theorem get_worst_idx_outcome {St : Type} h hp m (s : St) :
  In h (keys hp) -> In h (keys m) ->
  (exists i w,
      _get_worst_idx h hp m s = (s, Ok i) /\
      nth_error (get hp h) i = Some w /\ In w (get m h) /\
      forall x, In x (get m h) -> In x (get hp h) ->
                x = w \/ prefers (get hp h) x w)
  \/ (exists msg,
        _get_worst_idx h hp m s = (s, Raise (ValueError msg)) /\
        forall x, In x (get m h) -> ~ In x (get hp h)).
Proof.
  intros Hh Hm. destruct (worst_of (get hp h) (get m h)) as [i|] eqn:Hw.
  - left. destruct (worst_of_Some _ _ Hw) as [(w & Hwm & Hwi) Hmax].
    exists i, w. split; [apply get_worst_idx_eq; assumption|].
    split; [apply index_nth; exact Hwi|]. split; [exact Hwm|].
    intros x Hx Hxl. destruct (index_In _ _ Hxl) as [j Hj].
    pose proof (Hmax x j Hx Hj) as Hle.
    destruct (Nat.eq_dec j i) as [->|Hne].
    + left. eapply index_inj; eauto.
    + right. exists j, i. repeat split; auto. lia.
  - right. eexists. split; [apply get_worst_idx_none; assumption|].
    intros x Hx. eapply worst_of_None; eauto.
Qed.

Lemma get_worst_idx_outcome_witness :
  In "Y" (keys test_hospitals) /\
  In "Y" (keys [("X", []); ("Y", ["D"; "A"]); ("Z", [])]) /\
  ((exists i w,
      _get_worst_idx "Y" test_hospitals
        [("X", []); ("Y", ["D"; "A"]); ("Z", [])] tt = (tt, Ok i) /\
      nth_error (get test_hospitals "Y") i = Some w /\
      In w (get [("X", []); ("Y", ["D"; "A"]); ("Z", [])] "Y") /\
      forall x, In x (get [("X", []); ("Y", ["D"; "A"]); ("Z", [])] "Y") ->
                In x (get test_hospitals "Y") ->
                x = w \/ prefers (get test_hospitals "Y") x w)
   \/ (exists msg,
         _get_worst_idx "Y" test_hospitals
           [("X", []); ("Y", ["D"; "A"]); ("Z", [])] tt
         = (tt, Raise (ValueError msg)) /\
         forall x, In x (get [("X", []); ("Y", ["D"; "A"]); ("Z", [])] "Y") ->
                   ~ In x (get test_hospitals "Y"))).
Proof.
  assert (K1 : In "Y" (keys test_hospitals)) by (simpl; tauto).
  assert (K2 : In "Y" (keys [("X", @nil Player); ("Y", ["D"; "A"]);
                             ("Z", [])])) by (simpl; tauto).
  split; [exact K1|]. split; [exact K2|].
  exact (@get_worst_idx_outcome unit "Y" test_hospitals
           [("X", []); ("Y", ["D"; "A"]); ("Z", [])] tt K1 K2).
Defined.

(** X12: [_get_free_hospitals] on hospitals that all have a sequence and a
    capacity.  It returns, in the order of the dictionary, the hospitals that
    hold fewer residents than their capacity and rank a resident who is not
    in their sequence and whose name is not the empty string: lines 125-131
    test the names of those residents, not their number.  It changes
    nothing. *)
Theorem get_free_hospitals_outcome capacities hp m (s : hr_state) :
  NoDup (keys hp) ->
  (forall h, In h (keys hp) -> In h (keys m) /\ In h (keys capacities)) ->
  exists fs,
    _get_free_hospitals hp capacities m s = (s, Ok fs) /\
    subseq fs (keys hp) /\
    forall h,
      In h fs <->
      In h (keys hp) /\
      (Z.of_nat (List.length (get m h)) < cap capacities h)%Z /\
      exists r, In r (get hp h) /\ ~ In r (get m h) /\ r <> EmptyString.
Proof.
  intros Hn Hk. exists (free_hospitals capacities hp m).
  split; [apply get_free_hospitals_eq; exact Hk|]. split.
  - apply subseq_map_filter.
  - intros h. apply free_hospitals_spec. exact Hn.
Qed.

Lemma get_free_hospitals_outcome_witness :
  NoDup (keys test_hospitals) /\
  (forall h, In h (keys test_hospitals) ->
     In h (keys (empty_matching test_hospitals))
     /\ In h (keys test_capacities)) /\
  exists fs,
    _get_free_hospitals test_hospitals test_capacities
      (empty_matching test_hospitals) (hr_init test_hospitals test_residents)
    = (hr_init test_hospitals test_residents, Ok fs) /\
    subseq fs (keys test_hospitals) /\
    forall h,
      In h fs <->
      In h (keys test_hospitals) /\
      (Z.of_nat (List.length (get (empty_matching test_hospitals) h))
       < cap test_capacities h)%Z /\
      exists r, In r (get test_hospitals h)
                /\ ~ In r (get (empty_matching test_hospitals) h)
                /\ r <> EmptyString.
Proof.
  assert (N : NoDup (keys test_hospitals))
    by (apply nodupb_NoDup; vm_compute; reflexivity).
  assert (K : forall h, In h (keys test_hospitals) ->
                In h (keys (empty_matching test_hospitals))
                /\ In h (keys test_capacities)).
  { intros h Hh. simpl in *. tauto. }
  split; [exact N|]. split; [exact K|].
  exact (@get_free_hospitals_outcome test_capacities test_hospitals
           (empty_matching test_hospitals)
           (hr_init test_hospitals test_residents) N K).
Defined.

(** X13: [stable_marriage] does not check that the two dictionaries match.
    When the first suitor's first choice has no list among the reviewers,
    the call fails with the [KeyError] of that reviewer at line 66, before
    any list is changed. *)
Theorem stable_marriage_missing_reviewer fuel s r l' sp rp :
  lookup r rp = None ->
  stable_marriage (S fuel) ((s, r :: l') :: sp) rp "suitor"
  = (((s, r :: l') :: sp, rp), Raise (KeyError r)).
Proof.
  intros Hl. apply stable_marriage_first_error.
  bind_pure. apply bind_Raise. unfold getitem. rewrite Hl. reflexivity.
Qed.

Lemma stable_marriage_missing_reviewer_witness :
  lookup "D" [("E", ["A"])] = None /\
  stable_marriage 1 [("A", ["D"; "E"])] [("E", ["A"])] "suitor"
  = (([("A", ["D"; "E"])], [("E", ["A"])]), Raise (KeyError "D")).
Proof.
  assert (L : lookup "D" [("E", ["A"])] = None) by reflexivity.
  split; [exact L|].
  exact (@stable_marriage_missing_reviewer 0 "A" "D" ["E"] [] [("E", ["A"])] L).
Defined.

(** X14: and when the first suitor's first choice does not rank that
    suitor, the call fails with the [ValueError] of [index] at line 66,
    before any list is changed. *)
Theorem stable_marriage_unranked_suitor fuel s r l' sp rp rl :
  lookup r rp = Some rl -> ~ In s rl ->
  exists msg,
    stable_marriage (S fuel) ((s, r :: l') :: sp) rp "suitor"
    = (((s, r :: l') :: sp, rp), Raise (ValueError msg)).
Proof.
  intros Hl Hn. eexists. apply stable_marriage_first_error.
  bind_pure. bind_step ltac:(apply getitem_Ok; exact Hl).
  apply index_None in Hn. rewrite Hn. reflexivity.
Qed.

Lemma stable_marriage_unranked_suitor_witness :
  lookup "D" [("D", ["B"])] = Some ["B"] /\ ~ In "A" ["B"] /\
  exists msg,
    stable_marriage 1 [("A", ["D"])] [("D", ["B"])] "suitor"
    = (([("A", ["D"])], [("D", ["B"])]), Raise (ValueError msg)).
Proof.
  assert (L : lookup "D" [("D", ["B"])] = Some ["B"]) by reflexivity.
  assert (N : ~ In "A" ["B"]) by (simpl; intros [X|[]]; discriminate).
  split; [exact L|]. split; [exact N|].
  exact (@stable_marriage_unranked_suitor 0 "A" "D" [] [] [("D", ["B"])]
           ["B"] L N).
Defined.

(** X15: what [stable_marriage] leaves in the caller's dictionaries on a
    complete instance.  In the lists as the call leaves them, every
    proposer's partner is the first of the proposer's list, the proposer is
    the last of the partner's list, and the two dictionaries still rank each
    other: [r] is in the list of [s] exactly when [s] is in the list of
    [r]. *)
Theorem stable_marriage_reduced_lists sp rp optimal fuel :
  sm_instance sp rp -> sm_fuel sp rp <= fuel ->
  exists store m,
    stable_marriage fuel sp rp optimal = (store, Ok m) /\
    (forall s r, lookup s m = Some (Some r) ->
       hd_error (get (proposers (fst store) (snd store) optimal) s) = Some r /\
       exists pre,
         get (acceptors (fst store) (snd store) optimal) r = pre ++ [s]) /\
    (forall s r,
       In r (get (proposers (fst store) (snd store) optimal) s) <->
       In s (get (acceptors (fst store) (snd store) optimal) r)).
Proof.
  intros SI Hfuel.
  destruct (stable_marriage_total optimal SI Hfuel) as (st & E & I & Hq).
  eexists. exists (matching st). split; [exact E|].
  assert (Ep : proposers
                 (fst (if string_dec optimal "reviewer"
                       then (reviewer_prefs st, suitor_prefs st)
                       else (suitor_prefs st, reviewer_prefs st)))
                 (snd (if string_dec optimal "reviewer"
                       then (reviewer_prefs st, suitor_prefs st)
                       else (suitor_prefs st, reviewer_prefs st))) optimal
               = suitor_prefs st).
  { unfold proposers. destruct (string_dec optimal "reviewer"); reflexivity. }
  assert (Ea : acceptors
                 (fst (if string_dec optimal "reviewer"
                       then (reviewer_prefs st, suitor_prefs st)
                       else (suitor_prefs st, reviewer_prefs st)))
                 (snd (if string_dec optimal "reviewer"
                       then (reviewer_prefs st, suitor_prefs st)
                       else (suitor_prefs st, reviewer_prefs st))) optimal
               = reviewer_prefs st).
  { unfold acceptors. destruct (string_dec optimal "reviewer"); reflexivity. }
  rewrite Ep, Ea. split.
  - intros s r Hm. apply (smv_matched I). exact Hm.
  - apply (smv_mutual I).
Qed.

Lemma stable_marriage_reduced_lists_witness :
  sm_instance ex_suitors ex_reviewers /\
  sm_fuel ex_suitors ex_reviewers <= 40 /\
  exists store m,
    stable_marriage 40 ex_suitors ex_reviewers "reviewer" = (store, Ok m) /\
    (forall s r, lookup s m = Some (Some r) ->
       hd_error (get (proposers (fst store) (snd store) "reviewer") s)
       = Some r /\
       exists pre,
         get (acceptors (fst store) (snd store) "reviewer") r = pre ++ [s]) /\
    (forall s r,
       In r (get (proposers (fst store) (snd store) "reviewer") s) <->
       In s (get (acceptors (fst store) (snd store) "reviewer") r)).
Proof.
  assert (SI : sm_instance ex_suitors ex_reviewers)
    by (apply sm_instanceb_sound; vm_compute; reflexivity).
  assert (F : sm_fuel ex_suitors ex_reviewers <= 40)
    by (vm_compute; lia).
  split; [exact SI|]. split; [exact F|].
  exact (stable_marriage_reduced_lists "reviewer" SI F).
Defined.

(** X16: the matching of [hr_hospital_optimal] is the worst stable matching
    for the residents: whatever stable matching [m'] of the instance there
    is, a resident whom the solver returns in the sequence of [h] has, in
    [m'], either no hospital, or [h], or a hospital they rank before [h]. *)
Theorem hospital_optimal_matching_worst hp rp capacities fuel :
  hr_instance hp rp capacities -> hosp_fuel hp <= fuel ->
  exists st m,
    hr_hospital_optimal fuel hp rp capacities = (st, Ok m) /\
    forall m', hr_stable_matching hp rp capacities m' ->
    forall r h h', In r (get m h) -> In r (get m' h') ->
      h' = h \/ prefers (get rp r) h' h.
Proof.
  intros HI Hfuel.
  destruct (hr_hospital_optimal_end HI Hfuel) as (st & E & I & K & O & _).
  exists st, (hr_match st). split; [exact E|].
  intros m' SM r h h' Hm Hm'.
  exact (@hosp_inv_pessimal hp rp capacities HI st m' r h h' I K O SM Hm Hm').
Qed.

Lemma hospital_optimal_matching_worst_witness :
  hr_instance test_hospitals test_residents test_capacities /\
  hosp_fuel test_hospitals <= 60 /\
  exists st m,
    hr_hospital_optimal 60 test_hospitals test_residents test_capacities
    = (st, Ok m) /\
    forall m',
      hr_stable_matching test_hospitals test_residents test_capacities m' ->
    forall r h h', In r (get m h) -> In r (get m' h') ->
      h' = h \/ prefers (get test_residents r) h' h.
Proof.
  assert (HI : hr_instance test_hospitals test_residents test_capacities)
    by (apply hr_instanceb_sound; vm_compute; reflexivity).
  assert (F : hosp_fuel test_hospitals <= 60) by (vm_compute; lia).
  split; [exact HI|]. split; [exact F|].
  exact (hospital_optimal_matching_worst HI F).
Defined.

(** X17: what the HR solvers leave in the caller's dictionaries on an
    instance.  After [hr_resident_optimal] every resident of a sequence has
    that hospital first in their list, and every hospital's list is a
    prefix of the list it had.  After [hr_hospital_optimal] every
    hospital's list begins with its sequence, every resident of a sequence
    has that hospital last in their list, and every resident's list is a
    prefix of the list they had.  After both, the two dictionaries still
    rank each other. *)
Theorem hr_reduced_lists hp rp capacities fuel :
  hr_instance hp rp capacities ->
  res_fuel hp rp <= fuel -> hosp_fuel hp <= fuel ->
  (exists st m,
      hr_resident_optimal fuel hp rp capacities = (st, Ok m) /\
      (forall r h, In r (get m h) ->
                   hd_error (get (resident_prefs st) r) = Some h) /\
      (forall h, exists tail, get hp h = get (hospital_prefs st) h ++ tail) /\
      (forall r h, In h (get (resident_prefs st) r) <->
                   In r (get (hospital_prefs st) h)))
  /\
  (exists st m,
      hr_hospital_optimal fuel hp rp capacities = (st, Ok m) /\
      (forall h, exists tail, get (hospital_prefs st) h = get m h ++ tail) /\
      (forall r h, In r (get m h) ->
                   exists pre, get (resident_prefs st) r = pre ++ [h]) /\
      (forall r, exists tail, get rp r = get (resident_prefs st) r ++ tail) /\
      (forall r h, In h (get (resident_prefs st) r) <->
                   In r (get (hospital_prefs st) h))).
Proof.
  intros HI F1 F2. split.
  - destruct (hr_resident_optimal_end HI F1)
      as (st1 & st & I & K & _ & _ & E & Em & Eh & Er).
    exists st, (hr_match st). split; [exact E|]. rewrite Em, Eh, Er.
    split; [|split].
    + intros r h Hin. apply sort_all_members in Hin.
      apply (rsv_matched I). exact Hin.
    + apply (rsc_prefix K).
    + apply (rsv_mutual I).
  - destruct (hr_hospital_optimal_end HI F2) as (st & E & I & K & _ & _).
    exists st, (hr_match st). split; [exact E|].
    split; [apply (hsv_prefix I)|]. split; [apply (hsv_last I)|].
    split; [apply (hsc_prefix K) | apply (hsv_mutual I)].
Qed.

Lemma hr_reduced_lists_witness :
  hr_instance test_hospitals test_residents test_capacities /\
  res_fuel test_hospitals test_residents <= 60 /\
  hosp_fuel test_hospitals <= 60 /\
  (exists st m,
      hr_resident_optimal 60 test_hospitals test_residents test_capacities
      = (st, Ok m) /\
      (forall r h, In r (get m h) ->
                   hd_error (get (resident_prefs st) r) = Some h) /\
      (forall h, exists tail,
          get test_hospitals h = get (hospital_prefs st) h ++ tail) /\
      (forall r h, In h (get (resident_prefs st) r) <->
                   In r (get (hospital_prefs st) h)))
  /\
  (exists st m,
      hr_hospital_optimal 60 test_hospitals test_residents test_capacities
      = (st, Ok m) /\
      (forall h, exists tail, get (hospital_prefs st) h = get m h ++ tail) /\
      (forall r h, In r (get m h) ->
                   exists pre, get (resident_prefs st) r = pre ++ [h]) /\
      (forall r, exists tail,
          get test_residents r = get (resident_prefs st) r ++ tail) /\
      (forall r h, In h (get (resident_prefs st) r) <->
                   In r (get (hospital_prefs st) h))).
Proof.
  assert (HI : hr_instance test_hospitals test_residents test_capacities)
    by (apply hr_instanceb_sound; vm_compute; reflexivity).
  assert (F1 : res_fuel test_hospitals test_residents <= 60)
    by (vm_compute; lia).
  assert (F2 : hosp_fuel test_hospitals <= 60) by (vm_compute; lia).
  split; [exact HI|]. split; [exact F1|]. split; [exact F2|].
  exact (hr_reduced_lists HI F1 F2).
Defined.

(** X18: with one place in every hospital, [hr_resident_optimal] and
    [stable_marriage] with the residents as suitors give the same matching.
    On complete lists over equal-sized sides, each called on the same
    dictionaries, both return, and [r] is given [h] by [stable_marriage]
    exactly when [r] is in the sequence of [h] that [hr_resident_optimal]
    returns. *)
Theorem resident_optimal_one_place_marriage rp hp capacities fuel :
  sm_instance rp hp ->
  (forall h, In h (keys hp) -> lookup h capacities = Some 1%Z) ->
  sm_fuel rp hp <= fuel -> res_fuel hp rp <= fuel ->
  exists store m st m',
    stable_marriage fuel rp hp "suitor" = (store, Ok m) /\
    hr_resident_optimal fuel hp rp capacities = (st, Ok m') /\
    forall r h, lookup r m = Some (Some h) <-> In r (get m' h).
Proof.
  intros SI Hone F1 F2. pose proof (smi_consistent SI) as C.
  destruct (@stable_marriage_optimal_total rp hp "suitor" fuel SI F1)
    as (s1 & E1 & I1 & Q1 & O1).
  change (proposers rp hp "suitor") with rp in I1, O1.
  change (acceptors rp hp "suitor") with hp in I1, O1.
  pose proof (sm_inv_bijection SI I1 Q1) as Bij1.
  pose proof (sm_inv_stable C I1) as Stab1.
  pose proof (@one_each_instance rp hp capacities SI Hone) as HI.
  destruct (hr_resident_optimal_summary HI F2) as (st & m' & E2 & SM2 & Best).
  pose proof (@sm_as_hr rp hp capacities SI Hone _ Bij1 Stab1) as SM1.
  assert (Hn1 : NoDup (keys (matching s1))).
  { destruct Bij1 as (-> & N & _). exact N. }
  assert (Hn2 : NoDup (keys m')).
  { rewrite (hra_keys (hsm_assignment SM2)). apply (cons_keys_r C). }
  assert (Hsome : forall r h, lookup r (matching s1) = Some (Some h) ->
            exists h2, In r (get m' h2) /\
                       (h2 = h \/ prefers (get rp r) h2 h)).
  { intros r h Hl. apply (Best _ SM1 r h).
    apply In_as_sequences; [exact Hn1|]. split; [|exact Hl].
    destruct (@bijection_partner _ _ _ r Bij1 (@bijection_key _ _ _ r _ Bij1 Hl))
      as (h1 & Hl1 & Hk1).
    congruence. }
  assert (Hall : forall r, In r (keys rp) -> exists h, In r (get m' h)).
  { intros r Hr. destruct (@bijection_partner _ _ _ r Bij1 Hr) as (h & Hl & _).
    destruct (Hsome r h Hl) as (h2 & Hin & _). eauto. }
  destruct (@hr_as_sm rp hp capacities SI Hone _ SM2 Hall) as [Bij2 Stab2].
  assert (Hfwd : forall r h, lookup r (matching s1) = Some (Some h) ->
                             In r (get m' h)).
  { intros r h Hl. destruct (Hsome r h Hl) as (h2 & Hin & Hp).
    assert (Hl2 : lookup r (as_partners rp m') = Some (Some h2)).
    { apply (proj2 (lookup_as_partners rp m' r (Some h2))).
      split; [exact (@bijection_key _ _ _ r _ Bij1 Hl)|].
      symmetry. apply hospital_of_In; [exact Hn2 | | exact Hin].
      intros a b. apply (hra_once (hsm_assignment SM2)). }
    assert (Hopt : h = h2 \/ prefers (get rp r) h h2)
      by (eapply sm_inv_optimal; eauto).
    destruct Hopt as [->|Hp2]; [exact Hin|].
    destruct Hp as [->|Hp]; [exact Hin|].
    destruct (prefers_asym Hp Hp2). }
  eexists _, (matching s1), st, m'. split; [exact E1|]. split; [exact E2|].
  intros r h. split; [apply Hfwd|]. intros Hin.
  assert (Hr : In r (keys rp)).
  { destruct (hra_acceptable (hsm_assignment SM2) _ _ Hin) as [_ Hacc].
    eapply get_nonempty_key; eauto. }
  destruct (@bijection_partner _ _ _ r Bij1 Hr) as (h1 & Hl & _).
  rewrite Hl. do 2 f_equal.
  apply (hra_once (hsm_assignment SM2) r); [apply Hfwd; exact Hl | exact Hin].
Qed.

Lemma resident_optimal_one_place_marriage_witness :
  sm_instance ex_suitors ex_reviewers /\
  (forall h, In h (keys ex_reviewers) ->
             lookup h ex_capacities = Some 1%Z) /\
  sm_fuel ex_suitors ex_reviewers <= 40 /\
  res_fuel ex_reviewers ex_suitors <= 40 /\
  exists store m st m',
    stable_marriage 40 ex_suitors ex_reviewers "suitor" = (store, Ok m) /\
    hr_resident_optimal 40 ex_reviewers ex_suitors ex_capacities
    = (st, Ok m') /\
    forall r h, lookup r m = Some (Some h) <-> In r (get m' h).
Proof.
  assert (SI : sm_instance ex_suitors ex_reviewers)
    by (apply sm_instanceb_sound; vm_compute; reflexivity).
  assert (Hone : forall h, In h (keys ex_reviewers) ->
                           lookup h ex_capacities = Some 1%Z)
    by (intros h [<-|[<-|[<-|[]]]]; reflexivity).
  assert (F1 : sm_fuel ex_suitors ex_reviewers <= 40) by (vm_compute; lia).
  assert (F2 : res_fuel ex_reviewers ex_suitors <= 40) by (vm_compute; lia).
  split; [exact SI|]. split; [exact Hone|]. split; [exact F1|].
  split; [exact F2|].
  exact (@resident_optimal_one_place_marriage _ _ ex_capacities 40 SI Hone
           F1 F2).
Defined.

(** X19: with one place in every hospital, [hr_hospital_optimal] and
    [stable_marriage] with [optimal] "reviewer" and the hospitals as
    reviewers give the same matching.  On complete lists over equal-sized
    sides, with no resident named by the empty string, each called on the
    same dictionaries, both return, and [h] is given [r] by
    [stable_marriage] exactly when [r] is in the sequence of [h] that
    [hr_hospital_optimal] returns. *)
Theorem hospital_optimal_one_place_marriage rp hp capacities fuel :
  sm_instance rp hp ->
  (forall h, In h (keys hp) -> lookup h capacities = Some 1%Z) ->
  (forall r, In r (keys rp) -> truthy r = true) ->
  sm_fuel rp hp <= fuel -> hosp_fuel hp <= fuel ->
  exists store m st m',
    stable_marriage fuel rp hp "reviewer" = (store, Ok m) /\
    hr_hospital_optimal fuel hp rp capacities = (st, Ok m') /\
    forall h r, lookup h m = Some (Some r) <-> In r (get m' h).
Proof.
  intros SI Hone Ht F1 F2.
  destruct (@stable_marriage_optimal_total rp hp "reviewer" fuel SI F1)
    as (s1 & E1 & I1 & Q1 & O1).
  pose proof (sm_instance_roles "reviewer" SI) as SIr.
  change (proposers rp hp "reviewer") with hp in I1, O1, SIr.
  change (acceptors rp hp "reviewer") with rp in I1, O1, SIr.
  pose proof (smi_consistent SIr) as Cr.
  pose proof (sm_inv_bijection SIr I1 Q1) as Bij1.
  pose proof (sm_inv_stable Cr I1) as Stab1.
  pose proof (@one_each_instance rp hp capacities SI Hone) as HI.
  destruct (hr_hospital_optimal_summary HI Ht F2)
    as (st & m' & E2 & SM2 & Worst).
  pose proof (@sm_as_hr_hospitals rp hp capacities SI Hone _ Bij1 Stab1)
    as SM1.
  destruct (@hr_as_sm_hospitals rp hp capacities SI Hone _ SM2)
    as [Bij2 Stab2].
  destruct (@one_each_perfect rp hp capacities SI Hone _ SM2) as [_ Hfull].
  assert (Hn1 : NoDup (keys (matching s1))).
  { destruct Bij1 as (-> & N & _). exact N. }
  assert (Hback : forall h r, In r (get m' h) ->
                              lookup h (matching s1) = Some (Some r)).
  { intros h r Hin.
    assert (Hh : In h (keys hp)).
    { rewrite <- (hra_keys (hsm_assignment SM2)).
      eapply get_nonempty_key; eauto. }
    assert (Hr : In r (keys rp)).
    { destruct (hra_acceptable (hsm_assignment SM2) _ _ Hin) as [_ Hacc].
      eapply get_nonempty_key; eauto. }
    assert (Hsur : exists h1, lookup h1 (matching s1) = Some (Some r)).
    { destruct Bij1 as (_ & _ & _ & Perm). apply values_lookup; [|exact Hn1].
      eapply Permutation_in; [apply Permutation_sym; exact Perm|].
      apply in_map. exact Hr. }
    destruct Hsur as [h1 Hl1].
    assert (Hl2 : lookup h (as_holders hp m') = Some (Some r)).
    { apply (proj2 (lookup_as_holders hp m' h (Some r))).
      split; [exact Hh|]. destruct (Hfull h Hh) as [r' Er'].
      rewrite Er' in Hin |- *. destruct Hin as [->|[]]. reflexivity. }
    assert (Hworst : h1 = h \/ prefers (get rp r) h1 h).
    { apply (Worst _ SM1 r h h1 Hin). apply In_as_singletons. exact Hl1. }
    assert (Hpess : h1 = h \/ prefers (get rp r) h h1)
      by (eapply sm_inv_pessimal; eauto).
    destruct Hworst as [->|Hp]; [exact Hl1|].
    destruct Hpess as [->|Hp2]; [exact Hl1|].
    destruct (prefers_asym Hp Hp2). }
  eexists _, (matching s1), st, m'. split; [exact E1|]. split; [exact E2|].
  intros h r. split; [|apply Hback]. intros Hl.
  assert (Hh : In h (keys hp)) by exact (@bijection_key _ _ _ h _ Bij1 Hl).
  destruct (Hfull h Hh) as [r' Er'].
  assert (Hin : In r' (get m' h)) by (rewrite Er'; simpl; auto).
  pose proof (Hback h r' Hin) as Hl'.
  rewrite Er'. simpl. left. congruence.
Qed.

Lemma hospital_optimal_one_place_marriage_witness :
  sm_instance ex_suitors ex_reviewers /\
  (forall h, In h (keys ex_reviewers) ->
             lookup h ex_capacities = Some 1%Z) /\
  (forall r, In r (keys ex_suitors) -> truthy r = true) /\
  sm_fuel ex_suitors ex_reviewers <= 40 /\
  hosp_fuel ex_reviewers <= 40 /\
  exists store m st m',
    stable_marriage 40 ex_suitors ex_reviewers "reviewer" = (store, Ok m) /\
    hr_hospital_optimal 40 ex_reviewers ex_suitors ex_capacities
    = (st, Ok m') /\
    forall h r, lookup h m = Some (Some r) <-> In r (get m' h).
Proof.
  assert (SI : sm_instance ex_suitors ex_reviewers)
    by (apply sm_instanceb_sound; vm_compute; reflexivity).
  assert (Hone : forall h, In h (keys ex_reviewers) ->
                           lookup h ex_capacities = Some 1%Z)
    by (intros h [<-|[<-|[<-|[]]]]; reflexivity).
  assert (T : forall r, In r (keys ex_suitors) -> truthy r = true)
    by (intros r [<-|[<-|[<-|[]]]]; reflexivity).
  assert (F1 : sm_fuel ex_suitors ex_reviewers <= 40) by (vm_compute; lia).
  assert (F2 : hosp_fuel ex_reviewers <= 40) by (vm_compute; lia).
  split; [exact SI|]. split; [exact Hone|]. split; [exact T|].
  split; [exact F1|]. split; [exact F2|].
  exact (@hospital_optimal_one_place_marriage _ _ ex_capacities 40 SI Hone
           T F1 F2).
Defined.

(* ===================================================================== *)
(** ** What every statement keeps *)
(* ===================================================================== *)

Lemma keeps_ret {St A : Type} (P : St -> Prop) (a : A) : keeps P (ret a).
Proof. intros s Hs. exact Hs. Qed.

Lemma keeps_raise {St A : Type} (P : St -> Prop) e :
  keeps P (@raise St A e).
Proof. intros s Hs. exact Hs. Qed.

Lemma keeps_gets {St A : Type} (P : St -> Prop) (f : St -> A) :
  keeps P (gets f).
Proof. intros s Hs. exact Hs. Qed.

Lemma keeps_modify {St : Type} (P : St -> Prop) (f : St -> St) :
  (forall s, P s -> P (f s)) -> keeps P (modify f).
Proof. intros Hf s Hs. apply Hf. exact Hs. Qed.

Lemma keeps_bind {St A B : Type} (P : St -> Prop) (m : M St A)
    (k : A -> M St B) :
  keeps P m -> (forall a, keeps P (k a)) -> keeps P (bind m k).
Proof.
  intros Hm Hk s Hs. unfold bind. specialize (Hm s Hs).
  destruct (m s) as [s' [a|e|]]; simpl in *; [apply Hk|..]; assumption.
Qed.

Lemma keeps_getitem {St V : Type} (P : St -> Prop) (d : dict V) k :
  keeps P (@getitem St V d k).
Proof.
  unfold getitem. destruct (lookup k d); [apply keeps_ret | apply keeps_raise].
Qed.

Lemma keeps_first {St A : Type} (P : St -> Prop) (l : list A) :
  keeps P (@first St A l).
Proof. destruct l; [apply keeps_raise | apply keeps_ret]. Qed.

Lemma keeps_for_each {St A : Type} (P : St -> Prop) (l : list A)
    (body : A -> M St unit) :
  (forall x, keeps P (body x)) -> keeps P (for_each l body).
Proof.
  intros Hb. induction l as [|x l IH]; simpl; [apply keeps_ret|].
  apply keeps_bind; [apply Hb | intros _; exact IH].
Qed.

Lemma keeps_while {St : Type} (P : St -> Prop) fuel (cond : St -> bool)
    (body : M St unit) :
  keeps P body -> keeps P (while fuel cond body).
Proof.
  intros Hb. induction fuel as [|fuel IH]; intros s Hs; simpl.
  - destruct (cond s); exact Hs.
  - destruct (cond s); [|exact Hs].
    apply (@keeps_bind _ _ _ P body (fun _ => while fuel cond body) Hb
             (fun _ => IH)).
    exact Hs.
Qed.

(** One step through a statement: the sequencing, the statements that leave
    the store alone, and the branches. *)
Ltac keeps_step :=
  lazymatch goal with
  | |- keeps _ (bind _ _) => apply keeps_bind; [|intros ?]
  | |- keeps _ (ret _) => apply keeps_ret
  | |- keeps _ (raise _) => apply keeps_raise
  | |- keeps _ (gets _) => apply keeps_gets
  | |- keeps _ (getitem _ _) => apply keeps_getitem
  | |- keeps _ (first _) => apply keeps_first
  | |- keeps _ (for_each _ _) => apply keeps_for_each; intros ?
  | |- keeps _ (while _ _ _) => apply keeps_while
  | |- keeps _ (modify _) => apply keeps_modify; intros ? H; exact H
  | |- keeps _ (if ?b then _ else _) => destruct b
  | |- keeps _ (match ?x with _ => _ end) => destruct x
  end.

Lemma shrunk_refl d : shrunk d d.
Proof. split; [reflexivity | intros k; apply subseq_refl]. Qed.

Lemma shrunk_trans d1 d2 d3 : shrunk d1 d2 -> shrunk d2 d3 -> shrunk d1 d3.
Proof.
  intros [K1 S1] [K2 S2]. split; [congruence|].
  intros k. eapply subseq_trans; [apply S1 | apply S2].
Qed.

(** [d[who].remove(x)] deletes an entry of a list. *)
Lemma shrunk_remove d d0 who x l :
  shrunk d d0 -> lookup who d = Some l ->
  shrunk (dict_set who (remove1 x l) d) d0.
Proof.
  intros [K S] E. split.
  - rewrite keys_dict_set; [exact K|]. apply lookup_In_keys. eauto.
  - intros k. rewrite get_dict_set. destruct (eq_dec k who) as [->|n]; [|apply S].
    eapply subseq_trans; [apply subseq_remove1|].
    specialize (S who). unfold get in S at 1. rewrite E in S. exact S.
Qed.

Section SmKeeps.
Variables sp0 rp0 : prefs.

Lemma keeps_pop_suitor : keeps (sm_pruned sp0 rp0) pop_suitor.
Proof.
  intros s Hs. unfold pop_suitor. destruct (suitors s); exact Hs.
Qed.

Lemma keeps_suitor_prefs_remove who x :
  keeps (sm_pruned sp0 rp0) (suitor_prefs_remove who x).
Proof.
  intros s [Hs Hr]. unfold suitor_prefs_remove, bind, gets, getitem.
  destruct (lookup who (suitor_prefs s)) as [l|] eqn:E; simpl; [|split; assumption].
  destruct (mem x l); simpl; [|split; assumption].
  split; [apply shrunk_remove; assumption | exact Hr].
Qed.

Lemma keeps_reviewer_prefs_remove who x :
  keeps (sm_pruned sp0 rp0) (reviewer_prefs_remove who x).
Proof.
  intros s [Hs Hr]. unfold reviewer_prefs_remove, bind, gets, getitem.
  destruct (lookup who (reviewer_prefs s)) as [l|] eqn:E; simpl;
    [|split; assumption].
  destruct (mem x l); simpl; [|split; assumption].
  split; [exact Hs | apply shrunk_remove; assumption].
Qed.

Lemma keeps_sm_displace reviewer :
  keeps (sm_pruned sp0 rp0) (sm_displace reviewer).
Proof. unfold sm_displace. repeat keeps_step. Qed.

Lemma keeps_sm_body : keeps (sm_pruned sp0 rp0) sm_body.
Proof.
  unfold sm_body.
  repeat first [ apply keeps_pop_suitor | apply keeps_sm_displace
               | apply keeps_reviewer_prefs_remove
               | apply keeps_suitor_prefs_remove | keeps_step ].
Qed.

Lemma keeps_sm_loop fuel : keeps (sm_pruned sp0 rp0) (sm_loop fuel).
Proof. unfold sm_loop. apply keeps_while. apply keeps_sm_body. Qed.
End SmKeeps.

(** Every call of [stable_marriage] leaves the two dictionaries pruned. *)
Lemma stable_marriage_pruned fuel sp rp optimal :
  shrunk (fst (fst (stable_marriage fuel sp rp optimal))) sp /\
  shrunk (snd (fst (stable_marriage fuel sp rp optimal))) rp.
Proof.
  unfold stable_marriage.
  destruct (string_dec optimal "reviewer").
  - pose proof (@keeps_sm_loop rp sp fuel (sm_init rp sp)
                  (conj (shrunk_refl rp) (shrunk_refl sp))) as [H1 H2].
    destruct (sm_loop fuel (sm_init rp sp)) as [s [a|x|]]; simpl in *; auto.
  - pose proof (@keeps_sm_loop sp rp fuel (sm_init sp rp)
                  (conj (shrunk_refl sp) (shrunk_refl rp))) as [H1 H2].
    destruct (sm_loop fuel (sm_init sp rp)) as [s [a|x|]]; simpl in *; auto.
Qed.

Section HrKeeps.
Variables hp0 rp0 : prefs.

Lemma keeps_hospital_prefs_remove who x :
  keeps (hr_pruned hp0 rp0) (hospital_prefs_remove who x).
Proof.
  intros s [Hh Hr]. unfold hospital_prefs_remove, bind, gets, getitem.
  destruct (lookup who (hospital_prefs s)) as [l|] eqn:E; simpl;
    [|split; assumption].
  destruct (mem x l); simpl; [|split; assumption].
  split; [apply shrunk_remove; assumption | exact Hr].
Qed.

Lemma keeps_resident_prefs_remove who x :
  keeps (hr_pruned hp0 rp0) (resident_prefs_remove who x).
Proof.
  intros s [Hh Hr]. unfold resident_prefs_remove, bind, gets, getitem.
  destruct (lookup who (resident_prefs s)) as [l|] eqn:E; simpl;
    [|split; assumption].
  destruct (mem x l); simpl; [|split; assumption].
  split; [exact Hh | apply shrunk_remove; assumption].
Qed.

Lemma keeps_match_append h r : keeps (hr_pruned hp0 rp0) (match_append h r).
Proof. unfold match_append. repeat keeps_step. Qed.

Lemma keeps_match_remove h r : keeps (hr_pruned hp0 rp0) (match_remove h r).
Proof. unfold match_remove. repeat keeps_step. Qed.

Lemma keeps_match_len h : keeps (hr_pruned hp0 rp0) (match_len h).
Proof. unfold match_len. repeat keeps_step. Qed.

Lemma keeps_worst_idx h : keeps (hr_pruned hp0 rp0) (worst_idx h).
Proof. unfold worst_idx, _get_worst_idx. repeat keeps_step. Qed.

Lemma keeps_hr_evict capacities h :
  keeps (hr_pruned hp0 rp0) (hr_evict capacities h).
Proof.
  unfold hr_evict.
  repeat first [ apply keeps_match_len | apply keeps_worst_idx
               | apply keeps_match_remove | keeps_step ].
Qed.

Lemma keeps_hr_prune capacities h :
  keeps (hr_pruned hp0 rp0) (hr_prune capacities h).
Proof.
  unfold hr_prune.
  repeat first [ apply keeps_match_len | apply keeps_worst_idx
               | apply keeps_hospital_prefs_remove
               | apply keeps_resident_prefs_remove | keeps_step ].
Qed.

Lemma keeps_refresh_free_residents :
  keeps (hr_pruned hp0 rp0) refresh_free_residents.
Proof. unfold refresh_free_residents. keeps_step. Qed.

Lemma keeps_hr_resident_body capacities :
  keeps (hr_pruned hp0 rp0) (hr_resident_body capacities).
Proof.
  unfold hr_resident_body.
  repeat first [ apply keeps_match_append | apply keeps_hr_evict
               | apply keeps_hr_prune | apply keeps_refresh_free_residents
               | keeps_step ].
Qed.

Lemma keeps_hr_sort_matches : keeps (hr_pruned hp0 rp0) hr_sort_matches.
Proof.
  unfold hr_sort_matches. keeps_step; [keeps_step|]. keeps_step.
  unfold hr_sort_one, sorted_by_index. repeat keeps_step.
Qed.

Lemma keeps_hr_resident_optimal_run fuel capacities :
  keeps (hr_pruned hp0 rp0) (hr_resident_optimal_run fuel capacities).
Proof.
  unfold hr_resident_optimal_run.
  repeat first [ apply keeps_refresh_free_residents
               | apply keeps_hr_resident_body | apply keeps_hr_sort_matches
               | keeps_step ].
Qed.

Lemma keeps_get_free_hospitals hp capacities m :
  keeps (hr_pruned hp0 rp0) (_get_free_hospitals hp capacities m).
Proof.
  induction hp as [|[h hl] hp IH]; simpl; [apply keeps_ret|].
  unfold is_free_hospital. repeat first [ exact IH | keeps_step ].
Qed.

Lemma keeps_refresh_free_hospitals capacities :
  keeps (hr_pruned hp0 rp0) (refresh_free_hospitals capacities).
Proof.
  unfold refresh_free_hospitals.
  repeat first [ apply keeps_get_free_hospitals | keeps_step ].
Qed.

Lemma keeps_hr_unmatch r : keeps (hr_pruned hp0 rp0) (hr_unmatch r).
Proof.
  unfold hr_unmatch. keeps_step; [keeps_step|]. keeps_step.
  unfold hr_unmatch_one. repeat first [ apply keeps_match_remove | keeps_step ].
Qed.

Lemma keeps_hr_hospital_body capacities :
  keeps (hr_pruned hp0 rp0) (hr_hospital_body capacities).
Proof.
  unfold hr_hospital_body.
  repeat first [ apply keeps_hr_unmatch | apply keeps_match_append
               | apply keeps_hospital_prefs_remove
               | apply keeps_resident_prefs_remove
               | apply keeps_refresh_free_hospitals | keeps_step ].
Qed.

Lemma keeps_hr_hospital_optimal_run fuel capacities :
  keeps (hr_pruned hp0 rp0) (hr_hospital_optimal_run fuel capacities).
Proof.
  unfold hr_hospital_optimal_run.
  repeat first [ apply keeps_refresh_free_hospitals
               | apply keeps_hr_hospital_body | keeps_step ].
Qed.

Lemma keeps_check_inputs hp rp :
  keeps (hr_pruned hp0 rp0) (_check_inputs hp rp).
Proof. unfold _check_inputs. repeat keeps_step. Qed.
End HrKeeps.

(** Every call of an HR solver, and of the entry point, leaves the two
    dictionaries pruned. *)
Lemma hr_init_pruned hp rp : hr_pruned hp rp (hr_init hp rp).
Proof. split; apply shrunk_refl. Qed.

Lemma hr_resident_optimal_pruned fuel hp rp capacities :
  hr_pruned hp rp (fst (hr_resident_optimal fuel hp rp capacities)).
Proof.
  apply keeps_hr_resident_optimal_run. apply hr_init_pruned.
Qed.

Lemma hr_hospital_optimal_pruned fuel hp rp capacities :
  hr_pruned hp rp (fst (hr_hospital_optimal fuel hp rp capacities)).
Proof.
  apply keeps_hr_hospital_optimal_run. apply hr_init_pruned.
Qed.

Lemma hospital_resident_pruned fuel hp rp capacities optimal :
  hr_pruned hp rp (fst (hospital_resident fuel hp rp capacities optimal)).
Proof.
  unfold hospital_resident.
  apply keeps_bind; [apply keeps_check_inputs | intros _ | apply hr_init_pruned].
  destruct (string_dec optimal "resident");
    [apply keeps_hr_resident_optimal_run|].
  destruct (string_dec optimal "hospital");
    [apply keeps_hr_hospital_optimal_run | apply keeps_raise].
Qed.

(* ===================================================================== *)
(** ** What every iteration gains *)
(* ===================================================================== *)

(** An iteration of [stable_marriage]: the suitor [s] at the head of the
    queue proposes to [r], the first of their list. *)
Lemma sm_step_progress sp0 rp0 st s q r l' :
  consistent sp0 rp0 -> sm_inv sp0 rp0 st ->
  suitors st = s :: q -> get (suitor_prefs st) s = r :: l' ->
  sm_progress st (sm_next st s r).
Proof.
  intros C I Hq Hg.
  assert (Hm : lookup s (matching st) = Some None)
    by (eapply sm_inv_head_key; eauto).
  assert (Hrs : In r (get (suitor_prefs st) s)) by (rewrite Hg; simpl; auto).
  assert (Hsr : In s (get (reviewer_prefs st) r))
    by (apply (smv_mutual I); auto).
  assert (Hrk : In r (keys (reviewer_prefs st)))
    by (eapply get_nonempty_key; eauto).
  assert (Hnr : NoDup (get (reviewer_prefs st) r))
    by (eapply sm_inv_nodup_r; eauto).
  destruct (index_In _ _ Hsr) as [i Hi].
  destruct (index_split _ _ Hi) as (pre & suc & Hrl & Hlen & Hnp & Hsk).
  pose proof Hnr as Hnr'. rewrite Hrl in Hnr'.
  apply NoDup_app_inv in Hnr'. destruct Hnr' as (_ & Nsuc' & _).
  apply NoDup_cons_iff in Nsuc'. destruct Nsuc' as [_ Nsuc].
  unfold sm_next. rewrite Hi, Hsk.
  constructor; cbn [suitor_prefs reviewer_prefs matching].
  - split; split; cbn [suitor_prefs reviewer_prefs].
    + apply keys_prune_from. intros x Hx.
      assert (Hxr : In x (get (reviewer_prefs st) r))
        by (rewrite Hrl; apply in_or_app; simpl; auto).
      apply (smv_mutual I) in Hxr. eapply get_nonempty_key; eauto.
    + intros k. apply subseq_prune_from. exact Nsuc.
    + apply keys_dict_set. exact Hrk.
    + intros k. rewrite get_dict_set.
      destruct (eq_dec k r) as [->|n]; [|apply subseq_refl].
      rewrite <- (firstn_skipn (i + 1) (get (reviewer_prefs st) r)) at 2.
      apply subseq_app_l.
  - destruct (partner_of r (matching st)) as [cp|] eqn:Ep.
    + right. right. exists r. rewrite get_dict_set_eq.
      assert (Hcp : lookup cp (matching st) = Some (Some r)).
      { apply partner_of_Some; [|exact Ep].
        rewrite (smv_keys_m I). apply (cons_keys_l C). }
      destruct (smv_matched I _ Hcp) as [_ [pre' Hpre']].
      assert (Hne : s <> cp) by (intros ->; congruence).
      assert (Hin : In cp suc).
      { rewrite Hrl in Hpre'. eapply app_snoc_last; eauto. }
      rewrite length_firstn. rewrite Hrl at 2. rewrite length_app. simpl.
      destruct suc as [|x suc']; [destruct Hin|]. simpl. lia.
    + left. exists s, r. split; [exact Hm|].
      split; [apply lookup_dict_set_eq|].
      intros s0 r0 H0. rewrite lookup_dict_set_neq; [exact H0|].
      intros ->. congruence.
Qed.

(** An iteration of [hr_resident_optimal]. *)
Lemma res_step_progress hp0 rp0 capacities st :
  hr_instance hp0 rp0 capacities ->
  res_inv hp0 rp0 capacities st -> nonempty (free st) = true ->
  hr_progress st (res_next capacities st).
Proof.
  intros HI I Hc.
  destruct (res_next_shape HI I Hc)
    as (r & h & P & S & ml2 & _ & _ & Hk & HPS & Ehp & Erp & NS & Hgm & _
        & _ & _ & _ & Hrm & Hnone).
  assert (Hhk : In h (keys (hospital_prefs st)))
    by (rewrite (rsv_keys_h I); exact Hk).
  constructor.
  - split; split.
    + rewrite Ehp. apply keys_dict_set. exact Hhk.
    + intros k. rewrite Ehp, get_dict_set.
      destruct (eq_dec k h) as [->|n]; [|apply subseq_refl].
      rewrite HPS. apply subseq_app_l.
    + rewrite Erp. apply keys_prune_from. intros x Hx.
      assert (Hxh : In x (get (hospital_prefs st) h))
        by (rewrite HPS; apply in_or_app; auto).
      apply (rsv_mutual I) in Hxh. eapply get_nonempty_key; eauto.
    + intros k. rewrite Erp. apply subseq_prune_from. exact NS.
  - destruct S as [|x S'].
    + left. exists r, h. split; [exact Hrm|].
      specialize (Hnone eq_refl). split.
      * rewrite Hgm. destruct (eq_dec h h); [|congruence].
        rewrite Hnone. apply in_or_app. simpl. auto.
      * intros r0 h0 H0. rewrite Hgm.
        destruct (eq_dec h0 h) as [->|n]; [|exact H0].
        rewrite Hnone. apply in_or_app. auto.
    + right. left. exists h. rewrite Ehp, get_dict_set_eq, HPS, length_app.
      simpl. lia.
Qed.

(** An iteration of [hr_hospital_optimal]. *)
Lemma hosp_step_progress hp0 rp0 capacities st :
  hr_instance hp0 rp0 capacities ->
  hosp_inv hp0 rp0 capacities st -> nonempty (free st) = true ->
  exists st',
    hr_hospital_body capacities st = (st', Ok tt) /\ hr_progress st st'.
Proof.
  intros HI I Hc. pose proof (hri_consistent HI) as C.
  destruct st as [hp rp m f t].
  destruct I as [Kh Kr Km Sh Sr Mu Px La Cp Fr Tr]. st_simpl.
  destruct f as [|h fh]; [discriminate|]. clear Hc.
  destruct (Fr h (or_introl eq_refl)) as (Hhk0 & Hlt & x0 & Hx0 & Hx0m).
  assert (Hhk : In h (keys hp)) by (rewrite Kh; assumption).
  assert (Hhm : In h (keys m)) by (rewrite Km; assumption).
  assert (Nkm : NoDup (keys m)) by (rewrite Km; apply (cons_keys_r C)).
  assert (Nhp : forall b, NoDup (get hp b))
    by (intros b; eapply subseq_NoDup; [apply Sh | apply (cons_strict_r C)]).
  assert (Nrp : forall a, NoDup (get rp a))
    by (intros a; eapply subseq_NoDup; [apply Sr | apply (cons_strict_l C)]).
  destruct (Px h) as [tail Htail].
  assert (Hx0t : In x0 tail).
  { rewrite Htail in Hx0. apply in_app_or in Hx0. tauto. }
  destruct tail as [|r tail']; [destruct Hx0t|]. clear x0 Hx0 Hx0m Hx0t.
  assert (Hfilter : filter (fun x => negb (mem x (get m h))) (get hp h)
                    = r :: tail').
  { rewrite Htail. apply filter_notin_prefix. rewrite <- Htail. apply Nhp. }
  assert (Hrh : In r (get hp h))
    by (rewrite Htail; apply in_or_app; simpl; auto).
  assert (Hrm : ~ In r (get m h)).
  { pose proof (Nhp h) as N. rewrite Htail in N.
    apply NoDup_app_inv in N. destruct N as (_ & _ & D).
    intros Hin. apply (D r Hin). simpl. auto. }
  assert (Hhr : In h (get rp r)) by (apply Mu; assumption).
  assert (Hrk : In r (keys rp)) by (eapply get_nonempty_key; eauto).
  destruct (index_In _ _ Hhr) as [idx Hidx].
  destruct (index_split _ _ Hidx) as (pre & succs & Hrl & Hlen & Hnp & Hsk).
  pose proof (Nrp r) as Nrl. rewrite Hrl in Nrl.
  destruct (NoDup_app_inv _ _ Nrl) as (Npre & Nsuc' & Hdis).
  apply NoDup_cons_iff in Nsuc'. destruct Nsuc' as [Hh_suc Nsuc].
  assert (Hsuc : forall x, In x succs -> In x (keys hp) /\ In r (get hp x)).
  { intros x Hx.
    assert (In r (get hp x))
      by (apply Mu; rewrite Hrl; apply in_or_app; simpl; auto).
    split; [eapply get_nonempty_key; eauto | assumption]. }
  destruct (@hr_unmatch_eq r hp rp m (h :: fh) t Nkm) as (t' & Eun & Ft').
  set (m1 := unmatch_all r m) in *.
  assert (Hgm1 : forall b, get m1 b = remove1 r (get m b))
    by (intros b; apply get_unmatch_all).
  assert (Km1 : keys m1 = keys m) by apply keys_unmatch_all.
  set (m2 := dict_set h (get m1 h ++ [r]) m1).
  assert (Hgm2 : forall b, get m2 b = if eq_dec b h then get m h ++ [r]
                                      else remove1 r (get m b)).
  { intros b. unfold m2. rewrite get_dict_set, !Hgm1.
    destruct (eq_dec b h); [|reflexivity].
    rewrite remove1_notin by assumption. reflexivity. }
  assert (Km2 : keys m2 = keys m).
  { unfold m2. rewrite keys_dict_set; rewrite Km1; auto. }
  set (hp' := prune_from r succs hp).
  set (rp' := dict_set r (pre ++ [h]) rp).
  assert (Khp' : keys hp' = keys hp).
  { unfold hp'. apply keys_prune_from. intros x Hx. apply Hsuc. assumption. }
  (* a resident matched somewhere else is matched to a successor *)
  assert (Hother : forall b, b <> h -> In r (get m b) -> In b succs).
  { intros b Hb Hin. destruct (La r b Hin) as [p Hp].
    rewrite Hrl in Hp. eapply app_snoc_last; eauto. }
  set (fs := free_hospitals capacities hp' m2).
  assert (Efree : _get_free_hospitals hp' capacities m2
                    (mk_hr_state hp' rp' m2 (h :: fh) (m2 :: t' ++ t))
                  = (mk_hr_state hp' rp' m2 (h :: fh) (m2 :: t' ++ t), Ok fs)).
  { apply get_free_hospitals_eq. intros k Hk. rewrite Khp', Kh in Hk. split.
    - rewrite Km2, Km. assumption.
    - apply (hri_caps HI). assumption. }
  exists (mk_hr_state hp' rp' m2 fs (m2 :: t' ++ t)).
  split.
  - (* the statements of the body *)
    unfold hr_hospital_body. bind_pure. bind_pure. bind_pure.
    bind_step ltac:(apply getitem_get; exact Hhk). bind_pure.
    bind_step ltac:(apply getitem_guarded;
                    [intros E; rewrite E in Hrh; destruct Hrh | exact Hhm]).
    rewrite Hfilter. bind_pure.
    bind_step ltac:(exact Eun).
    bind_step ltac:(apply match_append_eq; rewrite Km1; exact Hhm).
    fold m2. bind_pure.
    bind_step ltac:(apply getitem_get; exact Hrk).
    rewrite Hidx, Hsk.
    erewrite bind_Ok;
      [|apply hosp_prune_loop with (pre := pre ++ [h]);
        [exact Hrk | rewrite Hrl, <- app_assoc; reflexivity
         | rewrite <- app_assoc; exact Nrl | exact Hsuc]].
    fold hp' rp'. unfold refresh_free_hospitals. bind_pure. bind_pure.
    bind_step ltac:(exact Efree). reflexivity.
  - constructor; st_simpl.
    + split; split; st_simpl.
      * exact Khp'.
      * intros k. unfold hp'. apply subseq_prune_from. exact Nsuc.
      * unfold rp'. apply keys_dict_set. exact Hrk.
      * intros k. unfold rp'. rewrite get_dict_set.
        destruct (eq_dec k r) as [->|n]; [|apply subseq_refl].
        rewrite Hrl. apply subseq_app; [apply subseq_refl|]. auto.
    + destruct succs as [|b succs'].
      * left. exists r, h. split; [exact Hrm|]. split.
        -- rewrite Hgm2. destruct (eq_dec h h); [|congruence].
           apply in_or_app. simpl. auto.
        -- intros r0 h0 H0. rewrite Hgm2.
           destruct (eq_dec h0 h) as [->|n]; [apply in_or_app; auto|].
           apply In_remove1_neq; [|exact H0].
           intros ->. destruct (Hother h0 n H0).
      * right. right. exists r. unfold rp'. rewrite get_dict_set_eq, Hrl.
        rewrite !length_app. simpl. lia.
Qed.

(* ===================================================================== *)
(** ** The properties of all three solvers *)
(* ===================================================================== *)

(** C3: under the preconditions of the specification every solve call
    terminates, and every iteration gains something.  With consistent inputs
    and enough fuel [stable_marriage] ends, and the only exception it can
    raise is the [IndexError] of a free suitor whose list is empty; on an HR
    instance both HR solvers return.  Each loop starts in a store of its
    invariant, and from a store of the invariant in which the loop goes on
    (for [stable_marriage]: the suitor at the head of the queue has a
    non-empty list) the iteration returns, in a store of the invariant, with
    a smaller measure, and with something gained: no preference list has got
    an entry back, and either a pair that was not matched is matched and no
    pair is undone, or some preference list is strictly shorter. *)
Theorem solvers_terminate sp rp optimal hp rr capacities fuel :
  consistent sp rp -> hr_instance hp rr capacities ->
  sm_fuel sp rp <= fuel -> res_fuel hp rr <= fuel -> hosp_fuel hp <= fuel ->
  match snd (stable_marriage fuel sp rp optimal) with
  | Ok _ => True
  | Raise e => e = IndexError
  | OutOfFuel => False
  end
  /\ (exists st m, hr_resident_optimal fuel hp rr capacities = (st, Ok m))
  /\ (exists st m, hr_hospital_optimal fuel hp rr capacities = (st, Ok m))
  /\ (sm_inv (proposers sp rp optimal) (acceptors sp rp optimal)
        (sm_init (proposers sp rp optimal) (acceptors sp rp optimal)) /\
      forall st s,
        sm_inv (proposers sp rp optimal) (acceptors sp rp optimal) st ->
        hd_error (suitors st) = Some s ->
        get (suitor_prefs st) s <> [] ->
        exists st',
          sm_body st = (st', Ok tt) /\
          sm_inv (proposers sp rp optimal) (acceptors sp rp optimal) st' /\
          sm_measure st' < sm_measure st /\
          sm_progress st st')
  /\ (res_inv hp rr capacities (res_start hp rr) /\
      forall st,
        res_inv hp rr capacities st -> nonempty (free st) = true ->
        exists st',
          hr_resident_body capacities st = (st', Ok tt) /\
          res_inv hp rr capacities st' /\
          res_measure st' < res_measure st /\
          hr_progress st st')
  /\ ((exists st0,
          refresh_free_hospitals capacities (hosp_enter hp rr) = (st0, Ok tt)
          /\ hosp_inv hp rr capacities st0) /\
      forall st,
        hosp_inv hp rr capacities st -> nonempty (free st) = true ->
        exists st',
          hr_hospital_body capacities st = (st', Ok tt) /\
          hosp_inv hp rr capacities st' /\
          hosp_measure st' < hosp_measure st /\
          hr_progress st st').
Proof.
  intros C HI F0 F1 F2.
  assert (C' : consistent (proposers sp rp optimal) (acceptors sp rp optimal)).
  { unfold proposers, acceptors.
    destruct (string_dec optimal "reviewer"); auto using consistent_sym. }
  split; [|split; [|split; [|split; [|split]]]].
  - pose proof (sm_fuel_roles sp rp optimal) as Hlt.
    pose proof (@sm_loop_consistent (proposers sp rp optimal)
                  (acceptors sp rp optimal) fuel C' ltac:(lia)) as L.
    destruct (sm_loop fuel _) as [st r] eqn:El.
    rewrite (stable_marriage_loop _ _ _ _ El). simpl.
    destruct r as [[]|e|]; auto.
  - destruct (hr_resident_optimal_total HI F1) as (st & E & _). eauto.
  - destruct (hr_hospital_optimal_total HI F2) as (st & E & _). eauto.
  - split; [apply sm_init_inv; exact C'|].
    intros st s I Hh Hne.
    destruct (suitors st) as [|s' q] eqn:Hq; [discriminate|].
    injection Hh as ->.
    destruct (get (suitor_prefs st) s) as [|r l'] eqn:Hg; [congruence|].
    exists (sm_next st s r).
    split; [apply (sm_inv_body C' I Hq Hg)|].
    destruct (sm_next_inv C' I Hq Hg) as [I' Hlt].
    split; [exact I'|]. split; [exact Hlt|].
    exact (sm_step_progress C' I Hq Hg).
  - split; [apply res_start_inv; exact HI|].
    intros st I Hc. destruct (res_step HI I Hc) as (E & I' & Hlt).
    exists (res_next capacities st).
    split; [exact E|]. split; [exact I'|]. split; [exact Hlt|].
    exact (res_step_progress HI I Hc).
  - split.
    + destruct (hosp_start HI) as (st0 & E0 & I0 & _). exists st0. auto.
    + intros st I Hc. destruct (hosp_step HI I Hc) as (s2 & E & I' & Hlt).
      destruct (hosp_step_progress HI I Hc) as (s3 & E3 & Pg).
      assert (s3 = s2) by congruence. subst s3.
      exists s2. auto.
Qed.

Lemma solvers_terminate_witness :
  consistent ex_suitors ex_reviewers /\
  hr_instance test_hospitals test_residents test_capacities /\
  sm_fuel ex_suitors ex_reviewers <= 60 /\
  res_fuel test_hospitals test_residents <= 60 /\
  hosp_fuel test_hospitals <= 60 /\
  match snd (stable_marriage 60 ex_suitors ex_reviewers "suitor") with
  | Ok _ => True
  | Raise e => e = IndexError
  | OutOfFuel => False
  end
  /\ (exists st m,
        hr_resident_optimal 60 test_hospitals test_residents test_capacities
        = (st, Ok m))
  /\ (exists st m,
        hr_hospital_optimal 60 test_hospitals test_residents test_capacities
        = (st, Ok m))
  /\ (sm_inv (proposers ex_suitors ex_reviewers "suitor")
        (acceptors ex_suitors ex_reviewers "suitor")
        (sm_init (proposers ex_suitors ex_reviewers "suitor")
           (acceptors ex_suitors ex_reviewers "suitor")) /\
      forall st s,
        sm_inv (proposers ex_suitors ex_reviewers "suitor")
          (acceptors ex_suitors ex_reviewers "suitor") st ->
        hd_error (suitors st) = Some s ->
        get (suitor_prefs st) s <> [] ->
        exists st',
          sm_body st = (st', Ok tt) /\
          sm_inv (proposers ex_suitors ex_reviewers "suitor")
            (acceptors ex_suitors ex_reviewers "suitor") st' /\
          sm_measure st' < sm_measure st /\
          sm_progress st st')
  /\ (res_inv test_hospitals test_residents test_capacities
        (res_start test_hospitals test_residents) /\
      forall st,
        res_inv test_hospitals test_residents test_capacities st ->
        nonempty (free st) = true ->
        exists st',
          hr_resident_body test_capacities st = (st', Ok tt) /\
          res_inv test_hospitals test_residents test_capacities st' /\
          res_measure st' < res_measure st /\
          hr_progress st st')
  /\ ((exists st0,
          refresh_free_hospitals test_capacities
            (hosp_enter test_hospitals test_residents) = (st0, Ok tt)
          /\ hosp_inv test_hospitals test_residents test_capacities st0) /\
      forall st,
        hosp_inv test_hospitals test_residents test_capacities st ->
        nonempty (free st) = true ->
        exists st',
          hr_hospital_body test_capacities st = (st', Ok tt) /\
          hosp_inv test_hospitals test_residents test_capacities st' /\
          hosp_measure st' < hosp_measure st /\
          hr_progress st st').
Proof.
  assert (C : consistent ex_suitors ex_reviewers)
    by (apply consistentb_sound; vm_compute; reflexivity).
  assert (HI : hr_instance test_hospitals test_residents test_capacities)
    by (apply hr_instanceb_sound; vm_compute; reflexivity).
  assert (F0 : sm_fuel ex_suitors ex_reviewers <= 60) by (vm_compute; lia).
  assert (F1 : res_fuel test_hospitals test_residents <= 60)
    by (vm_compute; lia).
  assert (F2 : hosp_fuel test_hospitals <= 60) by (vm_compute; lia).
  split; [exact C|]. split; [exact HI|]. split; [exact F0|].
  split; [exact F1|]. split; [exact F2|].
  exact (solvers_terminate "suitor" C HI F0 F1 F2).
Defined.

(** C4, as stated, fails: the solvers prune the caller's own lists.  After
    each of these calls the dictionaries are not the ones that were
    supplied. *)
Lemma solvers_prune_the_inputs :
  fst (stable_marriage 40 ex_suitors ex_reviewers "suitor")
  <> (ex_suitors, ex_reviewers)
  /\ hospital_prefs (fst (hr_resident_optimal 60 test_hospitals test_residents
                            test_capacities)) <> test_hospitals
  /\ resident_prefs (fst (hr_hospital_optimal 60 test_hospitals test_residents
                            test_capacities)) <> test_residents.
Proof.
  split; [|split]; vm_compute; discriminate.
Qed.

(** C4, amended: the solvers work in place on the caller's dictionaries, and
    only delete entries.  Whatever the input and the fuel, and whether the
    call returns, raises or is cut, the two dictionaries it leaves have the
    keys they had, and every preference list is a subsequence of the list
    the caller supplied: nothing is inserted and nothing is reordered.  The
    same holds of the entry point [hospital_resident]. *)
Theorem solvers_only_shrink_the_inputs sp rp optimal hp rr capacities fuel :
  (let store := fst (stable_marriage fuel sp rp optimal) in
   shrunk (fst store) sp /\ shrunk (snd store) rp)
  /\
  (let st := fst (hr_resident_optimal fuel hp rr capacities) in
   shrunk (hospital_prefs st) hp /\ shrunk (resident_prefs st) rr)
  /\
  (let st := fst (hr_hospital_optimal fuel hp rr capacities) in
   shrunk (hospital_prefs st) hp /\ shrunk (resident_prefs st) rr)
  /\
  (let st := fst (hospital_resident fuel hp rr capacities optimal) in
   shrunk (hospital_prefs st) hp /\ shrunk (resident_prefs st) rr).
Proof.
  split; [|split; [|split]]; cbv zeta.
  - apply stable_marriage_pruned.
  - apply hr_resident_optimal_pruned.
  - apply hr_hospital_optimal_pruned.
  - apply hospital_resident_pruned.
Qed.
